(** * PARAGON discrete text diffusion ([diffusion.go]): model and properties

    A shallow embedding of the tokenizer, the mask schedule, the three noising
    functions, the three trainers and the three generators of [diffusion.go].

    Conventions of the embedding.
    - Go's [int] is [Z] for token ids and configuration values (they may be
      negative), and [nat] for slice positions and loop counters.  Slice
      lengths are bounded by memory, far below [2^63], so no product of two
      positions wraps.
    - Go's [float64] is idealised as an exact rational ([Q]): overflow,
      infinities and NaN are outside the model, and so is rounding, except
      in the module [Rounded], which restates the sampling code of the
      masked generators with every operation rounded; the properties on
      the temperature are stated there.  Where the source divides, the
      properties below assume a non-zero divisor.
    - A run-time panic (index or slice bound out of range, [make] with a
      negative length, [rand.Intn] of a non-positive bound) is [None].
    - Maps are [gmap]s; a Go map read of a missing key yields the zero value.
    - Console output ([fmt.Printf], [fmt.Println]) is not modelled. *)

From Stdlib Require Import ZArith QArith Qround Qminmax Qpower Lia Lqa.
From Stdlib Require Import String Ascii.
From Stdlib Require Import Permutation Sorted.
From stdpp Require Import base option list gmap strings.

Open Scope Z_scope.

(** ** Numbers *)

Abbreviation float64 := Q (only parsing).

Definition fltb (x y : float64) : bool := negb (Qle_bool y x).
Definition fleb (x y : float64) : bool := Qle_bool x y.
Definition feqb (x y : float64) : bool := Qeq_bool x y.

(** [float64(n)] for an [int] [n]. *)
Definition ofInt (n : Z) : float64 := inject_Z n.
Definition ofLen (n : nat) : float64 := inject_Z (Z.of_nat n).

(** [math.Min], [math.Max]. *)
Definition mathMin (x y : float64) : float64 := if fltb y x then y else x.
Definition mathMax (x y : float64) : float64 := if fltb x y then y else x.

(** [int(math.Round(x))]: the nearest integer, halves away from zero. *)
Definition mathRound (x : float64) : Z :=
  if fltb x 0 then Qceiling (x - (1 # 2)) else Qfloor (x + (1 # 2)).

Definition fsum (l : list float64) : float64 := foldl Qplus 0%Q l.

(** ** Slices *)

(** [make([]T, n)]: panics on a negative length. *)
Definition makeSlice {A} (n : Z) (zero : A) : option (list A) :=
  if n <? 0 then None else Some (replicate (Z.to_nat n) zero).

(** [s[lo:hi]] for a slice whose capacity is its length. *)
Definition subslice {A} (lo hi : nat) (s : list A) : option (list A) :=
  if (lo <=? hi)%nat && (hi <=? length s)%nat
  then Some (take (hi - lo) (drop lo s)) else None.

(** [s[i] = v]: panics out of range. *)
Definition store {A} (i : nat) (v : A) (s : list A) : option (list A) :=
  if (i <? length s)%nat then Some (<[i := v]> s) else None.

(** An [int] used as an index: panics when negative. *)
Definition index (i : Z) : option nat :=
  if i <? 0 then None else Some (Z.to_nat i).

Definition atZ {A} (s : list A) (i : Z) : option A :=
  i' ← index i; s !! i'.

(** ** Strings: [strings.ToLower], [strings.Fields], [strings.Join]

    Strings are byte strings.  The three library functions are modelled on
    ASCII text: upper-case letters are [A]-[Z], white space is tab, line feed,
    vertical tab, form feed, carriage return and space; every other byte is
    kept as it is. *)

Definition lowerByte (c : ascii) : ascii :=
  let n := nat_of_ascii c in
  if (65 <=? n)%nat && (n <=? 90)%nat then ascii_of_nat (n + 32) else c.

Fixpoint ToLower (s : string) : string :=
  match s with
  | EmptyString => EmptyString
  | String c r => String (lowerByte c) (ToLower r)
  end.

Definition isSpace (c : ascii) : bool :=
  let n := nat_of_ascii c in
  ((9 <=? n)%nat && (n <=? 13)%nat) || (n =? 32)%nat.
Arguments isSpace : simpl never.

Fixpoint Fields (s : string) : list string :=
  match s with
  | EmptyString => []
  | String c r =>
      if isSpace c then Fields r
      else match r with
           | EmptyString => [String c EmptyString]
           | String c' _ =>
               if isSpace c' then String c EmptyString :: Fields r
               else match Fields r with
                    | w :: ws => String c w :: ws
                    | [] => [String c EmptyString]
                    end
           end
  end.

Fixpoint Join (ws : list string) (sep : string) : string :=
  match ws with
  | [] => EmptyString
  | [w] => w
  | w :: rest => (w ++ sep ++ Join rest sep)%string
  end.

(** A word: not empty, no white space. *)
Fixpoint spaceFree (s : string) : bool :=
  match s with
  | EmptyString => true
  | String c r => negb (isSpace c) && spaceFree r
  end.

Definition isWord (w : string) : Prop :=
  w ≠ EmptyString ∧ spaceFree w = true.

(** ** CustomTokenizer *)

Record CustomTokenizer := mkTokenizer {
  Vocab : gmap string Z;
  ReverseVocab : gmap Z string;
  VocabSize : Z;
  SpecialTokens : gmap Z bool
}.

(** [t.Vocab[w]] and [t.SpecialTokens[id]] read as Go does: zero value when
    the key is missing. *)
Definition vocabAt (t : CustomTokenizer) (w : string) : Z :=
  default 0 (Vocab t !! w).
Definition isSpecial (t : CustomTokenizer) (id : Z) : bool :=
  default false (SpecialTokens t !! id).

Definition specials : list string :=
  ["[PAD]"; "[MASK]"; "[CLS]"; "[SEP]"]%string.

Definition addSpecial (t : CustomTokenizer) (i : nat) (tok : string)
  : CustomTokenizer :=
  {| Vocab := <[tok := Z.of_nat i]> (Vocab t);
     ReverseVocab := <[Z.of_nat i := tok]> (ReverseVocab t);
     VocabSize := VocabSize t;
     SpecialTokens := <[Z.of_nat i := true]> (SpecialTokens t) |}.

Fixpoint addSpecials (t : CustomTokenizer) (i : nat) (toks : list string)
  : CustomTokenizer :=
  match toks with
  | [] => t
  | tok :: rest => addSpecials (addSpecial t i tok) (S i) rest
  end.

(** The body of the inner loop of [NewCustomTokenizer]; the state is the
    tokenizer under construction and [nextID]. *)
Definition addWord (st : CustomTokenizer * Z) (w : string)
  : CustomTokenizer * Z :=
  let '(t, nextID) := st in
  match Vocab t !! w with
  | Some _ => st
  | None =>
      ({| Vocab := <[w := nextID]> (Vocab t);
          ReverseVocab := <[nextID := w]> (ReverseVocab t);
          VocabSize := VocabSize t;
          SpecialTokens := SpecialTokens t |}, nextID + 1)
  end.

Definition addSentence (st : CustomTokenizer * Z) (s : string)
  : CustomTokenizer * Z :=
  foldl addWord st (Fields (ToLower s)).

Definition NewCustomTokenizer (sentences : list string) : CustomTokenizer :=
  let t0 := {| Vocab := ∅; ReverseVocab := ∅; VocabSize := 0;
               SpecialTokens := ∅ |} in
  let t1 := addSpecials t0 0 specials in
  let '(t2, nextID) :=
    foldl addSentence (t1, Z.of_nat (length specials)) sentences in
  {| Vocab := Vocab t2; ReverseVocab := ReverseVocab t2;
     VocabSize := nextID; SpecialTokens := SpecialTokens t2 |}.

Definition Encode (t : CustomTokenizer) (text : string) : list Z :=
  map (fun w => match Vocab t !! w with
                | Some id => id
                | None => vocabAt t "[PAD]"
                end)
      (Fields (ToLower text)).

Definition decodeWords (t : CustomTokenizer) (ids : list Z) : list string :=
  foldl (fun words id =>
           match ReverseVocab t !! id with
           | Some word => if isSpecial t id then words else words ++ [word]
           | None => words
           end) [] ids.

Definition Decode (t : CustomTokenizer) (ids : list Z) : string :=
  Join (decodeWords t ids) " ".

(** The ids the constructor reserves; every tokenizer it builds has them. *)
Definition reservedIds (t : CustomTokenizer) : Prop :=
  Vocab t !! "[PAD]"%string = Some 0 ∧ Vocab t !! "[MASK]"%string = Some 1.

(** ** The sequence model and the numeric helpers of the package

    Modelled from the spec: the type [Network] with its methods
    [ForwardTransformer] and [Backward], and the function [Softmax], are
    declared in other files of the package; [math.Log], [math.Cos] and
    [math.Pi] have no rational counterpart.  They are the fields of a class:
    forward is a function of the network state and of the input tensor,
    backward maps the state, the error terms and the learning rate to the
    updated state. *)

Class Extern := {
  NetworkT : Type;
  ForwardTransformer : NetworkT → list (list float64) → list (list float64);
  Backward : NetworkT → list (list float64) → float64 → NetworkT;
  Softmax : list float64 → list float64;
  mathLog : float64 → float64;
  mathCos : float64 → float64;
  mathPi : float64
}.

(** ** DiffusionConfig and DiffusionModel *)

Record DiffusionConfig := mkConfig {
  NumTimesteps : Z;
  MaxLength : Z;
  LearningRate : float64;
  Epochs : Z;
  Temperature : float64;
  TopK : Z;
  MaskScheduleStart : float64;
  MaskScheduleEnd : float64
}.

Record DiffusionModel `{Extern} := mkModel {
  Network : NetworkT;
  Config : DiffusionConfig;
  Tokenizer : CustomTokenizer;
  ModelSpecialTokens : gmap Z bool;
  MaskFraction : list float64
}.

(** The body of the schedule loop of [NewDiffusionModel] at step [t]. *)
Definition scheduleFrac (config : DiffusionConfig) (t : nat) : float64 :=
  let frac :=
    (MaskScheduleStart config
     + (MaskScheduleEnd config - MaskScheduleStart config) * ofLen t
       / ofInt (NumTimesteps config - 1))%Q in
  let frac := if fltb frac 0 then 0%Q else frac in
  let frac := if fltb 1 frac then 1%Q else frac in
  frac.

Definition fillSchedule (config : DiffusionConfig) (table : list float64)
  : list float64 :=
  foldl (fun tbl t => <[t := scheduleFrac config t]> tbl) table
        (seq 0 (Z.to_nat (NumTimesteps config))).

Definition NewDiffusionModel `{Extern} (network : NetworkT)
    (config : DiffusionConfig) (sentences : list string)
  : option DiffusionModel :=
  let tokenizer := NewCustomTokenizer sentences in
  table ← makeSlice (NumTimesteps config) 0%Q;
  Some {| Network := network;
          Config := config;
          Tokenizer := tokenizer;
          ModelSpecialTokens := SpecialTokens tokenizer;
          MaskFraction := fillSchedule config table |}.

(** The schedule as the specification words it:
    [clamp(start + (end - start) * t / (T - 1), 0, 1)]. *)
Definition specClamp (x lo hi : Q) : Q := Qmax lo (Qmin x hi).
Definition specMaskFraction (config : DiffusionConfig) (t : nat) : Q :=
  specClamp (MaskScheduleStart config
             + (MaskScheduleEnd config - MaskScheduleStart config)
               * inject_Z (Z.of_nat t) / inject_Z (NumTimesteps config - 1))
            0 1.

(** ** State and failure

    Stateful code runs in a state monad with failure: [None] is a panic. *)

Definition ST (σ A : Type) : Type := σ → option (A * σ).

Definition ret {σ A} (a : A) : ST σ A := fun s => Some (a, s).

Definition bind {σ A B} (m : ST σ A) (k : A → ST σ B) : ST σ B :=
  fun s => match m s with
           | Some (a, s') => k a s'
           | None => None
           end.

Definition liftO {σ A} (o : option A) : ST σ A :=
  fun s => match o with
           | Some a => Some (a, s)
           | None => None
           end.

Notation "x <- m ;; k" := (bind m (fun x => k))
  (at level 62, m at next level, right associativity).

(** [for _, x := range l] with a loop-carried value. *)
Fixpoint forEach {σ S X} (body : S → X → ST σ S) (s : S) (l : list X)
  : ST σ S :=
  match l with
  | [] => ret s
  | x :: rest => s' <- body s x ;; forEach body s' rest
  end.

(** [for i := 0; i < n; i++] with a loop-carried value. *)
Definition forRange {σ S} (n : nat) (body : S → nat → ST σ S) (s : S)
  : ST σ S :=
  forEach body s (seq 0 n).

(** [for i := n - 1; i >= 0; i--] with a loop-carried value. *)
Fixpoint forDown {σ S} (n : nat) (body : S → nat → ST σ S) (s : S)
  : ST σ S :=
  match n with
  | O => ret s
  | S i => s' <- body s i ;; forDown i body s'
  end.

(** The same loops for code that can only panic. *)
Fixpoint forEachO {S X} (body : S → X → option S) (s : S) (l : list X)
  : option S :=
  match l with
  | [] => Some s
  | x :: rest => s' ← body s x; forEachO body s' rest
  end.

(** ** The global random source ([math/rand])

    The source is a tape of raw 63-bit draws and a cursor.  [rand.Float64]
    is the next draw scaled into [[0, 1)], [rand.Intn n] the next draw
    reduced into [[0, n)], and [rand.Shuffle] the Fisher-Yates loop of the
    library: [for i := n - 1; i > 0; i-- { j := Intn(i + 1); swap(i, j) }]. *)

Record RandSrc := mkRand { tape : nat → Z; cursor : nat }.

Definition two63 : Z := 2 ^ 63.

Definition int63 : ST RandSrc Z :=
  fun r => Some (tape r (cursor r) mod two63, mkRand (tape r) (S (cursor r))).

Definition randFloat64 : ST RandSrc float64 :=
  v <- int63 ;; ret (inject_Z v / inject_Z two63)%Q.

Definition randIntn (n : Z) : ST RandSrc Z :=
  if n <=? 0 then liftO None else v <- int63 ;; ret (v mod n).

Definition swap {A} (l : list A) (i j : nat) : option (list A) :=
  a ← l !! i; b ← l !! j; Some (<[i := b]> (<[j := a]> l)).

Fixpoint shuffleFrom {A} (i : nat) (l : list A) : ST RandSrc (list A) :=
  match i with
  | O => ret l
  | S i' =>
      j <- randIntn (Z.of_nat i + 1) ;;
      l' <- liftO (swap l i (Z.to_nat j)) ;;
      shuffleFrom i' l'
  end.

Definition randShuffle {A} (l : list A) : ST RandSrc (list A) :=
  shuffleFrom (length l - 1) l.

(** ** Noising

    The three noising methods only read their receiver; they take it as an
    argument and run on the random source. *)

(** The first part of [AddNoise] and [AddNoiseMasked]: a slice of
    [MaxLength] tokens holding the input, cut or padded with [PAD]. *)
Definition fitTokens (maxLength padTokenID : Z) (tokens : list Z)
  : option (list Z) :=
  noisyTokens ← makeSlice maxLength 0;
  if Z.of_nat (length tokens) >? maxLength
  then Some (take (Z.to_nat maxLength) tokens)
  else Some (tokens
             ++ replicate (Z.to_nat maxLength - length tokens) padTokenID).

Section Noising.
Context `{Extern}.

Definition AddNoise (d : DiffusionModel) (tokens : list Z) (t : Z)
  : ST RandSrc (list Z) :=
  let noiseLevel :=
    mathMin (4 # 5) (ofInt (t + 1) / ofInt (NumTimesteps (Config d)))%Q in
  let padTokenID := vocabAt (Tokenizer d) "[PAD]" in
  let maskTokenID := vocabAt (Tokenizer d) "[MASK]" in
  noisyTokens <- liftO (fitTokens (MaxLength (Config d)) padTokenID tokens) ;;
  forRange (Z.to_nat (MaxLength (Config d)))
    (fun noisyTokens i =>
       r <- randFloat64 ;;
       if fltb r noiseLevel then
         tok <- liftO (noisyTokens !! i) ;;
         if negb (tok =? padTokenID)
         then liftO (store i maskTokenID noisyTokens)
         else ret noisyTokens
       else ret noisyTokens)
    noisyTokens.

Definition AddNoiseMasked (d : DiffusionModel) (tokens : list Z)
    (tVal : float64) : ST RandSrc (list Z) :=
  let noiseLevel := tVal in
  let padTokenID := vocabAt (Tokenizer d) "[PAD]" in
  let maskTokenID := vocabAt (Tokenizer d) "[MASK]" in
  noisyTokens <- liftO (fitTokens (MaxLength (Config d)) padTokenID tokens) ;;
  forRange (Z.to_nat (MaxLength (Config d)))
    (fun noisyTokens i =>
       tok <- liftO (noisyTokens !! i) ;;
       if negb (tok =? padTokenID) then
         r <- randFloat64 ;;
         if fltb r noiseLevel
         then liftO (store i maskTokenID noisyTokens)
         else ret noisyTokens
       else ret noisyTokens)
    noisyTokens.

(** [for i, tok := range x0 { if tok != padID { idxes = append(idxes, i) } }],
    for the part of [x0] that starts at position [i]. *)
Fixpoint nonPadFrom (padID : Z) (i : nat) (x0 : list Z) : list nat :=
  match x0 with
  | [] => []
  | tok :: rest =>
      if tok =? padID then nonPadFrom padID (S i) rest
      else i :: nonPadFrom padID (S i) rest
  end.

Definition BetterAddNoise (d : DiffusionModel) (x0 : list Z) (t : Z)
  : ST RandSrc (list Z) :=
  let noisy := x0 in
  let padID := vocabAt (Tokenizer d) "[PAD]" in
  let maskID := vocabAt (Tokenizer d) "[MASK]" in
  fraction <- liftO (atZ (MaskFraction d) t) ;;
  if fleb fraction 0 then ret noisy
  else
    let idxes := nonPadFrom padID 0 x0 in
    idxes <- randShuffle idxes ;;
    let k := mathRound (ofLen (length idxes) * fraction) in
    forRange (Z.to_nat k)
      (fun noisy i =>
         ix <- liftO (idxes !! i) ;;
         liftO (store ix maskID noisy))
      noisy.
End Noising.

(** ** Shared pieces of the trainers and the generators *)

(** [s[lo:hi]] with [int] bounds. *)
Definition sliceZ {A} (lo hi : Z) (s : list A) : option (list A) :=
  lo' ← index lo; hi' ← index hi; subslice lo' hi' s.

(** Gradient clipping to [[-5, 5]]. *)
Definition clip (delta : float64) : float64 :=
  if fltb 5 delta then 5%Q
  else if fltb delta (-5) then (-5)%Q else delta.

(** The error term of vocabulary entry [m] with probability [p]. *)
Definition errorDelta (p : float64) (m target : Z) : float64 :=
  clip (if m =? target then (p - 1)%Q else p).

(** [math.Log(math.Max(probs[target], 1e-10))]. *)
Definition logProb `{Extern} (probs : list float64) (target : Z)
  : option float64 :=
  p ← atZ probs target; Some (mathLog (mathMax p (1 # 10 ^ 10))).

(** One row of the one-hot tensor: all zero for a token out of range. *)
Definition oneHotRow (vocabSize tok : Z) : option (list float64) :=
  row ← makeSlice vocabSize 0%Q;
  Some (if (0 <=? tok) && (tok <? vocabSize)
        then <[Z.to_nat tok := 1%Q]> row else row).

Definition oneHot (vocabSize : Z) (current : list Z)
  : option (list (list float64)) :=
  mapM (oneHotRow vocabSize) current.

(** [sort.Slice(topK, func(i, j) bool { return topK[i].prob > topK[j].prob })].
    A candidate is a pair of a token id and a probability.  The library sorts
    a slice of at most 12 elements by insertion, which keeps equal keys in
    their order; that is the sort modelled here. *)
Fixpoint insertDesc (x : Z * float64) (sorted : list (Z * float64))
  : list (Z * float64) :=
  match sorted with
  | [] => [x]
  | y :: rest =>
      if fltb y.2 x.2 then x :: y :: rest else y :: insertDesc x rest
  end.

Definition sortDesc (l : list (Z * float64)) : list (Z * float64) :=
  foldl (fun sorted x => insertDesc x sorted) [] l.

(** The inverse-CDF loop of both masked generators:
    [for _, tk := range topK { cumulative += tk.prob;
       if r <= cumulative { selected = tk.idx; break } }]. *)
Fixpoint pickCumulative (r cumulative : float64) (selected : Z)
    (topK : list (Z * float64)) : Z :=
  match topK with
  | [] => selected
  | tk :: rest =>
      let cumulative := (cumulative + tk.2)%Q in
      if fleb r cumulative then tk.1
      else pickCumulative r cumulative selected rest
  end.

(** The closing loop of both masked generators: a remaining MASK becomes 0. *)
Definition unmask (maskID : Z) (current : list Z) : list Z :=
  map (fun tok => if tok =? maskID then 0 else tok) current.

(** The re-masking loop: each position resolved in this step goes back to
    MASK when its draw is below [pRemask]. *)
Definition remask (maskID : Z) (pRemask : float64) (current : list Z)
    (maskedPositions : list nat) : ST RandSrc (list Z) :=
  forEach (fun current i =>
             r <- randFloat64 ;;
             if fltb r pRemask then liftO (store i maskID current)
             else ret current)
          current maskedPositions.

(** ** Generators *)

Section Generators.
Context `{Extern}.

(** The arg-max scan of [Generate]: [bestToken := 0; bestProb := probs[0];
    for m := 1; m < len(probs); m++ { if probs[m] > bestProb { ... } }]. *)
Definition argMax (probs : list float64) : option Z :=
  bestProb ← probs !! 0%nat;
  Some (foldl (fun best m =>
                 match probs !! m with
                 | Some p => if fltb best.2 p then (Z.of_nat m, p) else best
                 | None => best
                 end)
              (0, bestProb) (seq 1 (length probs - 1))).1.

Definition Generate (d : DiffusionModel) : ST RandSrc string :=
  let vocabSize := VocabSize (Tokenizer d) in
  let maxLength := Z.to_nat (MaxLength (Config d)) in
  current <- liftO (makeSlice (MaxLength (Config d)) 0) ;;
  current <- forRange maxLength
               (fun current i =>
                  v <- randIntn vocabSize ;; liftO (store i v current))
               current ;;
  current <- forDown (Z.to_nat (NumTimesteps (Config d)))
    (fun current t =>
       oneHot2D <- liftO (oneHot vocabSize current) ;;
       let output2D := ForwardTransformer (Network d) oneHot2D in
       logits <- liftO (output2D !! 0%nat) ;;
       forRange maxLength
         (fun current i =>
            let start := Z.of_nat i * vocabSize in
            let end_ := start + vocabSize in
            seg <- liftO (sliceZ start end_ logits) ;;
            bestToken <- liftO (argMax (Softmax seg)) ;;
            liftO (store i bestToken current))
         current)
    current ;;
  ret (Decode (Tokenizer d) current).

(** The candidate table of [GenerateMasked] at one position: every
    probability is divided by the temperature, MASK gets 0. *)
Definition maskedCandidates (d : DiffusionModel) (probs : list float64)
  : option (list (Z * float64)) :=
  let maskTokenID := vocabAt (Tokenizer d) "[MASK]" in
  topK ← makeSlice (VocabSize (Tokenizer d)) (0, 0%Q);
  mapM (fun j =>
          p ← probs !! j;
          let prob := (p / Temperature (Config d))%Q in
          let prob := if Z.of_nat j =? maskTokenID then 0%Q else prob in
          Some (Z.of_nat j, prob))
       (seq 0 (length topK)).

(** Renormalisation of the [TopK] best candidates, with the fall-back of
    the source when their sum is 0. *)
Definition renormTopK (topKconf : Z) (topK : list (Z * float64))
  : list (Z * float64) :=
  let sum := fsum (map snd topK) in
  if feqb sum 0
  then map (fun c => (c.1, (1 / ofInt topKconf)%Q)) topK
  else map (fun c => (c.1, (c.2 / sum)%Q)) topK.

(** The token [GenerateMasked] puts at a masked position, from the
    probabilities of that position. *)
Definition pickMasked (d : DiffusionModel) (probs : list float64)
  : ST RandSrc Z :=
  topK <- liftO (maskedCandidates d probs) ;;
  let topK := sortDesc topK in
  topK <- liftO (sliceZ 0 (TopK (Config d)) topK) ;;
  let topK := renormTopK (TopK (Config d)) topK in
  r <- randFloat64 ;;
  first <- liftO (topK !! 0%nat) ;;
  ret (pickCumulative r 0 first.1 topK).

(** One iteration [s] of the loop of [GenerateMasked]. *)
Definition maskedStep (d : DiffusionModel) (current : list Z) (s : nat)
  : ST RandSrc (list Z) :=
  let maskTokenID := vocabAt (Tokenizer d) "[MASK]" in
  let vocabSize := VocabSize (Tokenizer d) in
  let maxLength := Z.to_nat (MaxLength (Config d)) in
  input <- liftO (mapM (fun k => tok ← current !! k;
                                 oneHotRow vocabSize tok)
                       (seq 0 maxLength)) ;;
  let outputFlat := ForwardTransformer (Network d) input in
  output <- liftO (mapM (fun i => flat ← outputFlat !! 0%nat;
                                  sliceZ (Z.of_nat i * vocabSize)
                                         ((Z.of_nat i + 1) * vocabSize) flat)
                        (seq 0 maxLength)) ;;
  st <- forRange maxLength
          (fun (st : list Z * list nat) i =>
             tok <- liftO (st.1 !! i) ;;
             if tok =? maskTokenID then
               row <- liftO (output !! i) ;;
               selected <- pickMasked d (Softmax row) ;;
               current <- liftO (store i selected st.1) ;;
               ret (current, st.2 ++ [i])
             else ret st)
          (current, []) ;;
  if (1 <? s)%nat then
    remask maskTokenID (ofLen (s - 1) / ofLen s)%Q st.1 st.2
  else ret st.1.

(** [GenerateMasked] up to its last line; the method returns the decoded
    text of this sequence. *)
Definition GenerateMaskedTokens (d : DiffusionModel) : ST RandSrc (list Z) :=
  let maskTokenID := vocabAt (Tokenizer d) "[MASK]" in
  current <- liftO (makeSlice (MaxLength (Config d)) maskTokenID) ;;
  current <- forDown (Z.to_nat (NumTimesteps (Config d)))
               (fun current s' => maskedStep d current (S s')) current ;;
  ret (unmask maskTokenID current).

Definition GenerateMasked (d : DiffusionModel) : ST RandSrc string :=
  current <- GenerateMaskedTokens d ;;
  ret (Decode (Tokenizer d) current).
End Generators.

(** The configuration [c] after [c.TopK = k]. *)
Definition configWithTopK (c : DiffusionConfig) (k : Z) : DiffusionConfig :=
  {| NumTimesteps := NumTimesteps c;
     MaxLength := MaxLength c;
     LearningRate := LearningRate c;
     Epochs := Epochs c;
     Temperature := Temperature c;
     TopK := k;
     MaskScheduleStart := MaskScheduleStart c;
     MaskScheduleEnd := MaskScheduleEnd c |}.

(** The configuration [c] with the temperature [t]. *)
Definition configWithTemperature (c : DiffusionConfig) (t : float64)
  : DiffusionConfig :=
  {| NumTimesteps := NumTimesteps c;
     MaxLength := MaxLength c;
     LearningRate := LearningRate c;
     Epochs := Epochs c;
     Temperature := t;
     TopK := TopK c;
     MaskScheduleStart := MaskScheduleStart c;
     MaskScheduleEnd := MaskScheduleEnd c |}.

Definition withTemperature `{Extern} (d : DiffusionModel) (t : float64)
  : DiffusionModel :=
  {| Network := Network d;
     Config := configWithTemperature (Config d) t;
     Tokenizer := Tokenizer d;
     ModelSpecialTokens := ModelSpecialTokens d;
     MaskFraction := MaskFraction d |}.

(** ** Methods that write through their receiver

    [GenerateBetter] assigns [d.Config.TopK], and the trainers update the
    network behind [d.Network]; they run on a world made of the model and the
    random source. *)

Section World.
Context `{Extern}.

Record World := mkWorld { model : DiffusionModel; rand : RandSrc }.

Definition liftR {A} (m : ST RandSrc A) : ST World A :=
  fun w => match m (rand w) with
           | Some (a, r') => Some (a, mkWorld (model w) r')
           | None => None
           end.

Definition getModel : ST World DiffusionModel := fun w => Some (model w, w).

Definition withNetwork (d : DiffusionModel) (n : NetworkT) : DiffusionModel :=
  {| Network := n; Config := Config d; Tokenizer := Tokenizer d;
     ModelSpecialTokens := ModelSpecialTokens d;
     MaskFraction := MaskFraction d |}.

Definition withTopK (d : DiffusionModel) (k : Z) : DiffusionModel :=
  {| Network := Network d;
     Config := configWithTopK (Config d) k;
     Tokenizer := Tokenizer d;
     ModelSpecialTokens := ModelSpecialTokens d;
     MaskFraction := MaskFraction d |}.

(** [d.Network.Backward(errorTerms, lr)]. *)
Definition networkBackward (errorTerms : list (list float64)) (lr : float64)
  : ST World unit :=
  fun w => Some (tt, mkWorld (withNetwork (model w)
                                (Backward (Network (model w)) errorTerms lr))
                             (rand w)).

(** [d.Config.TopK = k]. *)
Definition setTopK (k : Z) : ST World unit :=
  fun w => Some (tt, mkWorld (withTopK (model w) k) (rand w)).

(** The probabilities of [GenerateBetter] at one position: soft-max of the
    segment, divided by the temperature when it is above [1e-12], MASK set
    to 0. *)
Definition betterProbs (maskID : Z) (temperature : float64)
    (seg : list float64) : option (list float64) :=
  let probs := Softmax seg in
  let probs :=
    if fltb (1 # 10 ^ 12) temperature
    then map (fun p => (p / temperature)%Q) probs
    else probs in
  mi ← index maskID;
  store mi 0%Q probs.

(** The clamping of [d.Config.TopK] into [[1, n]], written back into the
    configuration. *)
Definition clampTopK (n : nat) : ST World unit :=
  d <- getModel ;;
  _ <- (if TopK (Config d) <? 1 then setTopK 1 else ret tt) ;;
  d <- getModel ;;
  if TopK (Config d) >? Z.of_nat n then setTopK (Z.of_nat n) else ret tt.

(** The end of the body of [GenerateBetter] at position [i]: clamp, cut the
    sorted candidates, draw. *)
Definition betterDraw (topKSlice : list (Z * float64)) (xcur : list Z)
    (i : nat) : ST World (list Z) :=
  _ <- clampTopK (length topKSlice) ;;
  d <- getModel ;;
  topKSlice <- liftO (sliceZ 0 (TopK (Config d)) topKSlice) ;;
  r <- liftR randFloat64 ;;
  first <- liftO (topKSlice !! 0%nat) ;;
  liftO (store i (pickCumulative r 0 first.1 topKSlice) xcur).

(** The body of [GenerateBetter] at a masked position [i]. *)
Definition betterPosition (preds : list float64) (xcur : list Z) (i : nat)
  : ST World (list Z) :=
  d <- getModel ;;
  let vocabSize := VocabSize (Tokenizer d) in
  let start := Z.of_nat i * vocabSize in
  let end_ := start + vocabSize in
  seg <- liftO (sliceZ start end_ preds) ;;
  probs <- liftO (betterProbs (vocabAt (Tokenizer d) "[MASK]")
                              (Temperature (Config d)) seg) ;;
  let sum := fsum probs in
  if fltb sum (1 # 10 ^ 12) then liftO (store i 0 xcur)
  else
    let probs := map (fun p => (p / sum)%Q) probs in
    betterDraw (sortDesc (imap (fun j p => (Z.of_nat j, p)) probs)) xcur i.

(** One iteration [t] of the loop of [GenerateBetter]. *)
Definition betterStep (xcur : list Z) (t : nat) : ST World (list Z) :=
  d <- getModel ;;
  let maskID := vocabAt (Tokenizer d) "[MASK]" in
  let vocabSize := VocabSize (Tokenizer d) in
  rows <- liftO (makeSlice (MaxLength (Config d)) ([] : list float64)) ;;
  batchInput <- liftO (if (length xcur <=? length rows)%nat
                       then oneHot vocabSize xcur else None) ;;
  let output2D := ForwardTransformer (Network d) batchInput in
  preds <- liftO (output2D !! 0%nat) ;;
  st <- forRange (length xcur)
          (fun (st : list Z * list nat) i =>
             tok <- liftO (st.1 !! i) ;;
             if tok =? maskID then
               xcur <- betterPosition preds st.1 i ;;
               ret (xcur, st.2 ++ [i])
             else ret st)
          (xcur, []) ;;
  if (0 <? t)%nat then
    liftR (remask maskID (ofLen t / ofInt (NumTimesteps (Config d)))%Q
                  st.1 st.2)
  else ret st.1.

Definition GenerateBetter : ST World (list Z) :=
  d <- getModel ;;
  let maskID := vocabAt (Tokenizer d) "[MASK]" in
  xcur <- liftO (makeSlice (MaxLength (Config d)) maskID) ;;
  xcur <- forDown (Z.to_nat (NumTimesteps (Config d))) betterStep xcur ;;
  ret (unmask maskID xcur).
End World.

(** ** Trainers *)

(** [TransformerConfig] is declared in another file of the package; the
    trainer reads its field [VocabSize] only. *)
Record TransformerConfig := mkTransformerConfig { TVocabSize : Z }.

Definition batchSize : nat := 10.

(** The data preparation of [Train] and [trainMaskedDiffusion]: every
    sentence encoded, then cut or padded to [MaxLength]. *)
Definition prepare (tokenizer : CustomTokenizer) (maxLength : Z)
    (sentences : list string) : option (list (list Z)) :=
  mapM (fun s => fitTokens maxLength (vocabAt tokenizer "[PAD]")
                           (Encode tokenizer s))
       sentences.

(** [for i := 0; i < len(data); i += batchSize { batchData := data[i:end] }]:
    the batches in the order of their batch index. *)
Fixpoint batchesFrom {A} (fuel : nat) (data : list A) : list (list A) :=
  match fuel, data with
  | S fuel', _ :: _ =>
      take batchSize data :: batchesFrom fuel' (drop batchSize data)
  | _, _ => []
  end.

Definition batchesOf {A} (data : list A) : list (list A) :=
  batchesFrom (length data) data.

(** What a task sends on [errorTermsChan]: [terms] and [batchIdx]. *)
Definition TermsMsg : Type := list (list float64) * nat.

(** The aggregation loop over [errorTermsChan], for one message and for the
    messages in the order they arrive. *)
Definition placeRows (accumulatedErrorTerms : list (list float64))
    (et : TermsMsg) : list (list float64) :=
  let start := (et.2 * batchSize)%nat in
  foldl (fun acc (jt : nat * list float64) =>
           if (start + jt.1 <? length acc)%nat
           then <[(start + jt.1)%nat := jt.2]> acc else acc)
        accumulatedErrorTerms (imap pair et.1).

Definition aggregate (accumulatedErrorTerms : list (list float64))
    (arrived : list TermsMsg) : list (list float64) :=
  foldl placeRows accumulatedErrorTerms arrived.

Section Trainers.
Context `{Extern}.

(** The loops over the vocabulary that fill the segment of a position in a
    flat error-term tensor: [errorTerms[start+m] = value(m)] for every
    [m < vocabSize]. *)
Definition writeSegment (value : nat → option float64) (start : Z)
    (vocabSize : Z) (errorTerms : list float64) : option (list float64) :=
  forEachO (fun et m =>
              v ← value m;
              ix ← index (start + Z.of_nat m);
              store ix v et)
           errorTerms (seq 0 (Z.to_nat vocabSize)).

(** The clipped error terms [probs[m] - 1{m == target}]. *)
Definition writeDeltas (probs : list float64) (target : Z) (start : Z)
    (vocabSize : Z) (errorTerms : list float64) : option (list float64) :=
  writeSegment (fun m => p ← probs !! m;
                         Some (errorDelta p (Z.of_nat m) target))
               start vocabSize errorTerms.

(** Zeros, at a position that is not MASK. *)
Definition writeZeros (start : Z) (vocabSize : Z)
    (errorTerms : list float64) : option (list float64) :=
  writeSegment (fun _ => Some 0%Q) start vocabSize errorTerms.

(** *** Train *)

(** The body of the sample loop of [Train]; it returns the loss of the
    sample and the error terms it hands to [Backward]. *)
Definition trainSample (tokens : list Z) (lr : float64)
  : ST World (float64 * list (list float64)) :=
  d <- getModel ;;
  let maxLength := Z.to_nat (MaxLength (Config d)) in
  t <- liftR (randIntn (NumTimesteps (Config d))) ;;
  noisyTokens <- liftR (AddNoise d tokens t) ;;
  let input := [map ofInt noisyTokens] in
  let output := ForwardTransformer (Network d) input in
  loss <- liftO (forEachO (fun loss i =>
                             row ← output !! i;
                             target ← tokens !! i;
                             lp ← logProb (Softmax row) target;
                             Some (loss - lp)%Q)
                          0%Q (seq 0 maxLength)) ;;
  errorTerms <- liftO (mapM (fun i =>
                               row ← output !! i;
                               let probs := Softmax row in
                               if (length probs =? 0)%nat then Some []
                               else
                                 target ← tokens !! i;
                                 Some (imap (fun j p =>
                                               errorDelta p (Z.of_nat j) target)
                                            probs))
                            (seq 0 maxLength)) ;;
  _ <- networkBackward errorTerms lr ;;
  ret ((loss / ofInt (MaxLength (Config d)))%Q, errorTerms).

Definition Train (sentences : list string) : ST World unit :=
  d <- getModel ;;
  data <- liftO (prepare (Tokenizer d) (MaxLength (Config d)) sentences) ;;
  forRange (Z.to_nat (Epochs (Config d)))
    (fun _ epoch =>
       let lr := (LearningRate (Config d)
                  * (1 - ofLen epoch / ofInt (Epochs (Config d))))%Q in
       totalLoss <- forEach (fun totalLoss tokens =>
                               res <- trainSample tokens lr ;;
                               ret (totalLoss + res.1)%Q)
                            0%Q data ;;
       ret tt)
    tt.

(** *** TrainBetterDiffusion *)

(** The body of the loss loop [for i, tok := range xt] of
    [TrainBetterDiffusion]; the state is [loss] and the flat [errorTerms]. *)
Definition betterLossStep (d : DiffusionModel) (x0 : list Z)
    (preds : list float64) (acc : float64 * list float64)
    (it : nat * Z) : option (float64 * list float64) :=
  let maskID := vocabAt (Tokenizer d) "[MASK]" in
  let vocabSize := VocabSize (Tokenizer d) in
  if it.2 =? maskID then
    let start := Z.of_nat it.1 * vocabSize in
    let end_ := start + vocabSize in
    seg ← sliceZ start end_ preds;
    let probs := Softmax seg in
    target ← x0 !! it.1;
    lp ← logProb probs target;
    errorTerms ← writeDeltas probs target start vocabSize acc.2;
    Some ((acc.1 - lp)%Q, errorTerms)
  else Some acc.

Definition betterLoss (d : DiffusionModel) (x0 xt : list Z)
    (preds : list float64) : option (float64 * list float64) :=
  errorTerms ← makeSlice (MaxLength (Config d) * VocabSize (Tokenizer d)) 0%Q;
  forEachO (betterLossStep d x0 preds) (0%Q, errorTerms) (imap pair xt).

(** [shaped[i] = errorTerms[st : st+VocabSize]] for every position. *)
Definition reshape (d : DiffusionModel) (errorTerms : list float64)
  : option (list (list float64)) :=
  mapM (fun i =>
          let st := Z.of_nat i * VocabSize (Tokenizer d) in
          sliceZ st (st + VocabSize (Tokenizer d)) errorTerms)
       (seq 0 (Z.to_nat (MaxLength (Config d)))).

(** The body of the sample loop of [TrainBetterDiffusion]; it returns the
    loss of the sample and the error terms it hands to [Backward]. *)
Definition betterSample (x0 : list Z) (lr : float64)
  : ST World (float64 * list (list float64)) :=
  d <- getModel ;;
  t <- liftR (randIntn (NumTimesteps (Config d))) ;;
  xt <- liftR (BetterAddNoise d x0 t) ;;
  rows <- liftO (makeSlice (MaxLength (Config d)) ([] : list float64)) ;;
  filled <- liftO (if (length xt <=? length rows)%nat
                   then oneHot (VocabSize (Tokenizer d)) xt else None) ;;
  let batchInput := filled ++ drop (length xt) rows in
  let output2D := ForwardTransformer (Network d) batchInput in
  preds <- liftO (output2D !! 0%nat) ;;
  res <- liftO (betterLoss d x0 xt preds) ;;
  shaped <- liftO (reshape d res.2) ;;
  _ <- networkBackward shaped lr ;;
  ret (res.1, shaped).

Definition TrainBetterDiffusion (samples : list (list Z)) : ST World unit :=
  d <- getModel ;;
  let data := samples in
  data <- forRange (Z.to_nat (Epochs (Config d)))
    (fun data epoch =>
       let lr := (LearningRate (Config d)
                  * (1 - ofLen epoch / ofInt (Epochs (Config d))))%Q in
       data <- liftR (randShuffle data) ;;
       totalLoss <- forEach (fun totalLoss x0 =>
                               res <- betterSample x0 lr ;;
                               ret (totalLoss + res.1)%Q)
                            0%Q data ;;
       ret data)
    data ;;
  ret tt.

(** *** trainMaskedDiffusion *)

(** The body of the position loop of a task, for sample [j]: [noisy] is
    [noisyBatch[j]], [targets] is [batchTargets[j]], [output] is
    [batchOutputs[j]]; the state is [loss] and [batchErrorTerms[j]]. *)
Definition maskedLossStep (tokenizer : CustomTokenizer)
    (tConfig : TransformerConfig) (noisy targets : list Z)
    (output : list (list float64)) (acc : float64 * list float64)
    (k : nat) : option (float64 * list float64) :=
  let vocabSize := TVocabSize tConfig in
  nk ← noisy !! k;
  if nk =? vocabAt tokenizer "[MASK]" then
    let startIdx := Z.of_nat k * vocabSize in
    let endIdx := (Z.of_nat k + 1) * vocabSize in
    row ← output !! 0%nat;
    seg ← sliceZ startIdx endIdx row;
    let probs := Softmax seg in
    target ← targets !! k;
    lp ← logProb probs target;
    terms ← writeDeltas probs target startIdx vocabSize acc.2;
    Some ((acc.1 - lp)%Q, terms)
  else
    terms ← writeZeros (Z.of_nat k * vocabSize) vocabSize acc.2;
    Some (acc.1, terms).

(** The loss loop of a task over the samples of its batch; a sample is
    given with its noised form and the output of the model. *)
Definition maskedLoss (tokenizer : CustomTokenizer)
    (dConfig : DiffusionConfig) (tConfig : TransformerConfig)
    (samples : list (list Z * (list Z * list (list float64))))
  : option (float64 * list (list float64)) :=
  forEachO (fun (acc : float64 * list (list float64)) sample =>
              let '(noisy, (targets, output)) := sample in
              terms ← makeSlice (MaxLength dConfig * TVocabSize tConfig) 0%Q;
              res ← forEachO (maskedLossStep tokenizer tConfig noisy targets
                                             output)
                             (acc.1, terms)
                             (seq 0 (Z.to_nat (MaxLength dConfig)));
              Some (res.1, acc.2 ++ [res.2]))
           (0%Q, []) samples.

(** The task of batch [idx]: what it sends on the two channels. *)
Definition maskedTask (d : DiffusionModel) (tokenizer : CustomTokenizer)
    (dConfig : DiffusionConfig) (tConfig : TransformerConfig)
    (batch : list (list Z)) (idx : nat) : ST RandSrc (float64 * TermsMsg) :=
  noised <- forEach
    (fun acc tokens =>
       tVal <- randFloat64 ;;
       noisyTokens <- AddNoiseMasked d tokens tVal ;;
       input <- liftO (makeSlice (MaxLength dConfig) 0%Q) ;;
       input <- liftO (if (length noisyTokens <=? length input)%nat
                       then Some (map ofInt noisyTokens
                                  ++ drop (length noisyTokens) input)
                       else None) ;;
       ret (acc ++ [(noisyTokens, input)]))
    [] batch ;;
  let batchOutputs :=
    map (fun ni : list Z * list float64 =>
           ForwardTransformer (Network d) [ni.2]) noised in
  res <- liftO (maskedLoss tokenizer dConfig tConfig
                  (zip (map fst noised) (zip batch batchOutputs))) ;;
  ret ((res.1 / ofLen (length batch))%Q, (res.2, idx)).

(** The tasks of an epoch, modelled by what they send: they draw from the
    random source one after the other, in the order they are started.  The
    result lists, for every batch index, the loss and the message of its
    task. *)
Definition runTasks (d : DiffusionModel) (tokenizer : CustomTokenizer)
    (dConfig : DiffusionConfig) (tConfig : TransformerConfig)
    (data : list (list Z)) : ST RandSrc (list (float64 * TermsMsg)) :=
  forEach (fun acc (b : nat * list (list Z)) =>
             msg <- maskedTask d tokenizer dConfig tConfig b.2 b.1 ;;
             ret (acc ++ [msg]))
          [] (imap pair (batchesOf data)).

(** The learning rate of an epoch of [trainMaskedDiffusion]. *)
Definition cosineRate (dConfig : DiffusionConfig) (epoch : nat) : float64 :=
  (LearningRate dConfig
   * (1 + mathCos (ofLen epoch * mathPi / ofInt (Epochs dConfig))) / 2)%Q.

(** One epoch.  The two channels deliver what the tasks sent in the orders
    [lossOrder] and [termsOrder] (lists of batch indices), which the
    scheduler decides. *)
Definition maskedEpoch (sentences : list string)
    (tokenizer : CustomTokenizer) (dConfig : DiffusionConfig)
    (tConfig : TransformerConfig) (lossOrder termsOrder : list nat)
    (epoch : nat) : ST World unit :=
  let lr := cosineRate dConfig epoch in
  data <- liftO (prepare tokenizer (MaxLength dConfig) sentences) ;;
  accumulatedErrorTerms <- liftO
    (mapM (fun _ => makeSlice (MaxLength dConfig * TVocabSize tConfig) 0%Q)
          sentences) ;;
  d <- getModel ;;
  sent <- liftR (runTasks d tokenizer dConfig tConfig data) ;;
  lossChan <- liftO (mapM (fun b => fst <$> sent !! b) lossOrder) ;;
  errorTermsChan <- liftO (mapM (fun b => snd <$> sent !! b) termsOrder) ;;
  let totalLoss := fsum lossChan in
  let accumulatedErrorTerms :=
    aggregate accumulatedErrorTerms errorTermsChan in
  _ <- networkBackward accumulatedErrorTerms lr ;;
  if (epoch mod 10 =? 0)%nat then
    d <- getModel ;; _ <- liftR (GenerateMasked d) ;; ret tt
  else ret tt.

Definition trainMaskedDiffusion (sentences : list string)
    (tokenizer : CustomTokenizer) (dConfig : DiffusionConfig)
    (tConfig : TransformerConfig)
    (schedule : nat → list nat * list nat) : ST World unit :=
  forRange (Z.to_nat (Epochs dConfig))
    (fun _ epoch =>
       maskedEpoch sentences tokenizer dConfig tConfig
                   (schedule epoch).1 (schedule epoch).2 epoch)
    tt.
End Trainers.

(** A stand-in for the external pieces, used to run the model on concrete
    inputs: the network state is the table of weights it emits at every
    position (the exponentials of its logits), [Softmax] normalises a row of
    weights, which is the soft-max of their logarithms; [Backward] keeps the
    state, and the transcendental functions are constant. *)
Definition normalise (row : list float64) : list float64 :=
  map (fun x => (x / fsum row)%Q) row.

Definition tableExtern : Extern :=
  {| NetworkT := list (list float64);
     ForwardTransformer := fun net _ => net;
     Backward := fun net _ _ => net;
     Softmax := normalise;
     mathLog := fun _ => 0%Q;
     mathCos := fun _ => 1%Q;
     mathPi := (355 # 113)%Q |}.

(** A model on the corpus ["hello world"] (ids 4 and 5, six tokens in
    all), four positions, five steps, schedule from 1/5 to 4/5; its network
    emits the same weight for every token at every position. *)
Definition demoConfig : DiffusionConfig :=
  mkConfig 5 4 (1 # 100) 3 1 2 (1 # 5) (4 # 5).

Definition demoModel : @DiffusionModel tableExtern :=
  @mkModel tableExtern
    [replicate 24 1%Q]
    demoConfig
    (NewCustomTokenizer ["hello world"%string])
    (SpecialTokens (NewCustomTokenizer ["hello world"%string]))
    (fillSchedule demoConfig (replicate 5 0%Q)).

Definition demoRand : RandSrc :=
  mkRand (fun n => (Z.of_nat n + 1) * 3074457345618258603) 0.

(** The same model with a network that puts almost all the weight on MASK
    (token 1) at every position: the other tokens share [8 / (10^15 + 8)]. *)
Definition sharpRow : list float64 :=
  [1; inject_Z (10 ^ 15); 2; 3; 1; 1]%Q.

Definition sharpModel : @DiffusionModel tableExtern :=
  @withNetwork tableExtern demoModel
    [sharpRow ++ sharpRow ++ sharpRow ++ sharpRow].

(** ** Triples

    [hoare P m Q]: a run of [m] from a state in [P] that does not panic ends
    with a value and a state in [Q]. *)
Definition hoare {σ A} (P : σ → Prop) (m : ST σ A) (Q : A → σ → Prop)
  : Prop :=
  ∀ st a st', P st → m st = Some (a, st') → Q a st'.

Definition preserves {σ A} (P : σ → Prop) (m : ST σ A) : Prop :=
  hoare P m (fun _ => P).

(** The same model with a network in the shape [Train] reads: one row of
    weights per position. *)
Definition denseModel : @DiffusionModel tableExtern :=
  @withNetwork tableExtern demoModel (replicate 4 (replicate 6 1%Q)).

(** The rows of two batches, ten samples and one, with one entry each. *)
Definition demoRows : list (list (list float64)) :=
  [map (fun i => [ofLen i]) (seq 0 10); [[ofLen 10]]].

(** ** Statements *)

(** What C1 says of a run of [BetterAddNoise] on [x0] with fraction [f]. *)
Definition exactlyMasked `{Extern} (d : DiffusionModel) (x0 : list Z)
    (f : Q) (run : option (list Z * RandSrc)) : Prop :=
  let padID := vocabAt (Tokenizer d) "[PAD]" in
  let maskID := vocabAt (Tokenizer d) "[MASK]" in
  let N := length (filter (λ tok, tok ≠ padID) x0) in
  ∃ noisy r' (S : list nat),
    run = Some (noisy, r')
    ∧ NoDup S
    ∧ length S = Z.to_nat (mathRound (ofLen N * f))
    ∧ (∀ i, i ∈ S → ∃ tok, x0 !! i = Some tok ∧ tok ≠ padID)
    ∧ length noisy = length x0
    ∧ (∀ i, i ∈ S → noisy !! i = Some maskID)
    ∧ (∀ i, i ∉ S → noisy !! i = x0 !! i)
    ∧ (∀ i, x0 !! i = Some padID → noisy !! i = Some padID)
    ∧ ((f <= 0)%Q → noisy = x0).

(** [noisy] is [clean] with MASK written over some positions that do not
    hold PAD: the relation every noising function establishes. *)
Definition maskedFrom (padID maskID : Z) (clean noisy : list Z) : Prop :=
  length noisy = length clean
  ∧ ∀ i tok, clean !! i = Some tok →
      noisy !! i = Some tok ∨ (noisy !! i = Some maskID ∧ tok ≠ padID).

(** The entries of the flat error-term tensor that belong to position [k]
    are all zero. *)
Definition zeroSegment (vocabSize : Z) (k : nat) (errorTerms : list float64)
  : Prop :=
  ∀ m, (m < Z.to_nat vocabSize)%nat →
       errorTerms !! (Z.to_nat (Z.of_nat k * vocabSize) + m)%nat = Some 0%Q.

(** Two candidates for the same token whose weights differ by the positive
    factor [c]; with [c = 1], candidates of equal weight. *)
Definition scaledBy (c : Q) (a b : Z * Q) : Prop :=
  a.1 = b.1 ∧ b.2 == a.2 * c.

Section FrameStatements.
Context `{Extern}.

(** A call of a method that only reads its receiver, on the model of the
    world. *)
Definition call {A} (method : DiffusionModel → ST RandSrc A) : ST World A :=
  d <- getModel ;; liftR (method d).

(** The model of the world has configuration [c] and schedule table [mf]. *)
Definition hasConfig (c : DiffusionConfig) (mf : list float64) (w : World)
  : Prop :=
  Config (model w) = c ∧ MaskFraction (model w) = mf.

(** The same, up to the field [TopK]. *)
Definition hasConfigButTopK (c : DiffusionConfig) (mf : list float64)
    (w : World) : Prop :=
  configWithTopK (Config (model w)) 0 = configWithTopK c 0
  ∧ MaskFraction (model w) = mf.

(** What C8 says of an operation. *)
Definition keepsConfig {A} (op : ST World A) : Prop :=
  ∀ w a w', op w = Some (a, w') →
    Config (model w') = Config (model w)
    ∧ MaskFraction (model w') = MaskFraction (model w).

Definition keepsConfigButTopK {A} (op : ST World A) : Prop :=
  ∀ w a w', op w = Some (a, w') →
    hasConfigButTopK (Config (model w)) (MaskFraction (model w)) w'.

(** A property of worlds that does not read the random source. *)
Definition modelOnly (P : World → Prop) : Prop :=
  ∀ w r', P w → P (mkWorld (model w) r').
End FrameStatements.

(** [k] clamped into [[1, n]]. *)
Definition clampedInto (k n : Z) : Z := Z.min (Z.max k 1) n.

(** The world still has the tokenizer [tok], and its [TopK] is the value [k]
    the run started with or that value clamped: a clamp of either gives the
    clamped one. *)
Definition clampsTopK `{Extern} (k : Z) (tok : CustomTokenizer) (w : World)
  : Prop :=
  Tokenizer (model w) = tok
  ∧ (TopK (Config (model w)) = k
     ∨ TopK (Config (model w)) = clampedInto k (VocabSize tok)).

(** ** The masked generators in rounded arithmetic

    The sampling code of [GenerateMasked] and [GenerateBetter] once more,
    with the result of every [float64] division and addition, and every
    decimal constant, passed through a rounding function [rnd].  Binary64
    arithmetic is the instance [round64] below (up to overflow and the
    subnormal range); exact arithmetic, which the definitions above use, is
    the instance [exact].  Comparisons, the draws and the conversion of an
    [int] are exact in both. *)

Module Rounded.
Section Arithmetic.
Context `{Extern}.
Variable rnd : Q → Q.

(** [sum := 0.0; for _, p := range l { sum += p }]. *)
Definition fsum (l : list float64) : float64 :=
  foldl (fun sum p => rnd (sum + p)%Q) 0%Q l.

Fixpoint pickCumulative (r cumulative : float64) (selected : Z)
    (topK : list (Z * float64)) : Z :=
  match topK with
  | [] => selected
  | tk :: rest =>
      let cumulative := rnd (cumulative + tk.2)%Q in
      if fleb r cumulative then tk.1
      else pickCumulative r cumulative selected rest
  end.

Definition maskedCandidates (d : DiffusionModel) (probs : list float64)
  : option (list (Z * float64)) :=
  let maskTokenID := vocabAt (Tokenizer d) "[MASK]" in
  topK ← makeSlice (VocabSize (Tokenizer d)) (0, 0%Q);
  mapM (fun j =>
          p ← probs !! j;
          let prob := rnd (p / Temperature (Config d))%Q in
          let prob := if Z.of_nat j =? maskTokenID then 0%Q else prob in
          Some (Z.of_nat j, prob))
       (seq 0 (length topK)).

Definition renormTopK (topKconf : Z) (topK : list (Z * float64))
  : list (Z * float64) :=
  let sum := fsum (map snd topK) in
  if feqb sum 0
  then map (fun c => (c.1, rnd (1 / ofInt topKconf)%Q)) topK
  else map (fun c => (c.1, rnd (c.2 / sum)%Q)) topK.

Definition pickMasked (d : DiffusionModel) (probs : list float64)
  : ST RandSrc Z :=
  topK <- liftO (maskedCandidates d probs) ;;
  let topK := sortDesc topK in
  topK <- liftO (sliceZ 0 (TopK (Config d)) topK) ;;
  let topK := renormTopK (TopK (Config d)) topK in
  r <- randFloat64 ;;
  first <- liftO (topK !! 0%nat) ;;
  ret (pickCumulative r 0 first.1 topK).

Definition maskedStep (d : DiffusionModel) (current : list Z) (s : nat)
  : ST RandSrc (list Z) :=
  let maskTokenID := vocabAt (Tokenizer d) "[MASK]" in
  let vocabSize := VocabSize (Tokenizer d) in
  let maxLength := Z.to_nat (MaxLength (Config d)) in
  input <- liftO (mapM (fun k => tok ← current !! k;
                                 oneHotRow vocabSize tok)
                       (seq 0 maxLength)) ;;
  let outputFlat := ForwardTransformer (Network d) input in
  output <- liftO (mapM (fun i => flat ← outputFlat !! 0%nat;
                                  sliceZ (Z.of_nat i * vocabSize)
                                         ((Z.of_nat i + 1) * vocabSize) flat)
                        (seq 0 maxLength)) ;;
  st <- forRange maxLength
          (fun (st : list Z * list nat) i =>
             tok <- liftO (st.1 !! i) ;;
             if tok =? maskTokenID then
               row <- liftO (output !! i) ;;
               selected <- pickMasked d (Softmax row) ;;
               current <- liftO (store i selected st.1) ;;
               ret (current, st.2 ++ [i])
             else ret st)
          (current, []) ;;
  if (1 <? s)%nat then
    remask maskTokenID (rnd (ofLen (s - 1) / ofLen s)%Q) st.1 st.2
  else ret st.1.

Definition GenerateMaskedTokens (d : DiffusionModel) : ST RandSrc (list Z) :=
  let maskTokenID := vocabAt (Tokenizer d) "[MASK]" in
  current <- liftO (makeSlice (MaxLength (Config d)) maskTokenID) ;;
  current <- forDown (Z.to_nat (NumTimesteps (Config d)))
               (fun current s' => maskedStep d current (S s')) current ;;
  ret (unmask maskTokenID current).

Definition GenerateMasked (d : DiffusionModel) : ST RandSrc string :=
  current <- GenerateMaskedTokens d ;;
  ret (Decode (Tokenizer d) current).

Definition betterProbs (maskID : Z) (temperature : float64)
    (seg : list float64) : option (list float64) :=
  let probs := Softmax seg in
  let probs :=
    if fltb (rnd (1 # 10 ^ 12)) temperature
    then map (fun p => rnd (p / temperature)%Q) probs
    else probs in
  mi ← index maskID;
  store mi 0%Q probs.

Definition betterDraw (topKSlice : list (Z * float64)) (xcur : list Z)
    (i : nat) : ST World (list Z) :=
  _ <- clampTopK (length topKSlice) ;;
  d <- getModel ;;
  topKSlice <- liftO (sliceZ 0 (TopK (Config d)) topKSlice) ;;
  r <- liftR randFloat64 ;;
  first <- liftO (topKSlice !! 0%nat) ;;
  liftO (store i (pickCumulative r 0 first.1 topKSlice) xcur).

Definition betterPosition (preds : list float64) (xcur : list Z) (i : nat)
  : ST World (list Z) :=
  d <- getModel ;;
  let vocabSize := VocabSize (Tokenizer d) in
  let start := Z.of_nat i * vocabSize in
  let end_ := start + vocabSize in
  seg <- liftO (sliceZ start end_ preds) ;;
  probs <- liftO (betterProbs (vocabAt (Tokenizer d) "[MASK]")
                              (Temperature (Config d)) seg) ;;
  let sum := fsum probs in
  if fltb sum (rnd (1 # 10 ^ 12)) then liftO (store i 0 xcur)
  else
    let probs := map (fun p => rnd (p / sum)%Q) probs in
    betterDraw (sortDesc (imap (fun j p => (Z.of_nat j, p)) probs)) xcur i.

Definition betterStep (xcur : list Z) (t : nat) : ST World (list Z) :=
  d <- getModel ;;
  let maskID := vocabAt (Tokenizer d) "[MASK]" in
  let vocabSize := VocabSize (Tokenizer d) in
  rows <- liftO (makeSlice (MaxLength (Config d)) ([] : list float64)) ;;
  batchInput <- liftO (if (length xcur <=? length rows)%nat
                       then oneHot vocabSize xcur else None) ;;
  let output2D := ForwardTransformer (Network d) batchInput in
  preds <- liftO (output2D !! 0%nat) ;;
  st <- forRange (length xcur)
          (fun (st : list Z * list nat) i =>
             tok <- liftO (st.1 !! i) ;;
             if tok =? maskID then
               xcur <- betterPosition preds st.1 i ;;
               ret (xcur, st.2 ++ [i])
             else ret st)
          (xcur, []) ;;
  if (0 <? t)%nat then
    liftR (remask maskID (rnd (ofLen t / ofInt (NumTimesteps (Config d)))%Q)
                  st.1 st.2)
  else ret st.1.

Definition GenerateBetter : ST World (list Z) :=
  d <- getModel ;;
  let maskID := vocabAt (Tokenizer d) "[MASK]" in
  xcur <- liftO (makeSlice (MaxLength (Config d)) maskID) ;;
  xcur <- forDown (Z.to_nat (NumTimesteps (Config d))) betterStep xcur ;;
  ret (unmask maskID xcur).

(** The test [sum < 1e-12] of [GenerateBetter] on one segment of logits,
    under temperature [T]. *)
Definition fallsBack (maskID : Z) (T : float64) (seg : list float64)
  : option bool :=
  probs ← betterProbs maskID T seg;
  Some (fltb (fsum probs) (rnd (1 # 10 ^ 12))).

(** The two temperatures decide that test the same way on every segment the
    network of [d] can return. *)
Definition sameFallback (d : DiffusionModel) (T1 T2 : float64) : Prop :=
  ∀ batchInput preds (i : nat) seg,
    ForwardTransformer (Network d) batchInput !! 0%nat = Some preds →
    sliceZ (Z.of_nat i * VocabSize (Tokenizer d))
           (Z.of_nat i * VocabSize (Tokenizer d) + VocabSize (Tokenizer d))
           preds = Some seg →
    fallsBack (vocabAt (Tokenizer d) "[MASK]") T1 seg
    = fallsBack (vocabAt (Tokenizer d) "[MASK]") T2 seg.

(** The temperature [GenerateBetter] divides by: it divides only above
    [1e-12]. *)
Definition effective (T : float64) : float64 :=
  if fltb (rnd (1 # 10 ^ 12)) T then T else 1%Q.
End Arithmetic.
End Rounded.

(** *** Rounding functions *)

Section Binary64.
Local Open Scope Q_scope.

(** Exact arithmetic: nothing is rounded. *)
Definition exact (x : Q) : Q := x.

(** A rounding function gives equal results on equal rationals. *)
Definition respectsEq (rnd : Q → Q) : Prop :=
  ∀ x y, x == y → rnd x == rnd y.

(** Rounding commutes with the scaling by [c]. *)
Definition scalesBy (rnd : Q → Q) (c : Q) : Prop :=
  ∀ x, rnd (x * c) == rnd x * c.

(** The factor between the probabilities of two runs of [GenerateBetter]
    after the division by the temperature, for temperatures on the same
    side of the guard [Temperature > 1e-12]: their ratio when both runs
    divide, 1 when neither does. *)
Definition guardRatio (rnd : Q → Q) (T1 T2 : Q) : Q :=
  if fltb (rnd (1 # 10 ^ 12)) T1 then T1 / T2 else 1.

(** [floor (log2 x)] for a positive [x]. *)
Definition ilog2 (x : Q) : Z :=
  let e0 := (Z.log2 (Qnum x) - Z.log2 (Zpos (Qden x)))%Z in
  if Qle_bool (2 ^ e0) x then e0 else (e0 - 1)%Z.

(** The nearest integer, a tie going to the even one. *)
Definition roundEven (m : Q) : Z :=
  let f := Qfloor m in
  match Qcompare (m - inject_Z f) (1 # 2) with
  | Lt => f
  | Gt => (f + 1)%Z
  | Eq => if Z.even f then f else (f + 1)%Z
  end.

(** A positive [x] rounded to 53 significant bits: the significand
    [x / 2^(e - 52)], with [e = floor (log2 x)], lies in [[2^52, 2^53)] and
    is rounded to an integer. *)
Definition roundPos (x : Q) : Q :=
  let ulp := 2 ^ (ilog2 x - 52) in
  inject_Z (roundEven (x / ulp)) * ulp.

(** Rounding to the nearest binary64 number, ties to even, with an
    exponent that is not bounded: the rounding of [float64] arithmetic away
    from overflow and from the subnormal range. *)
Definition round64 (x : Q) : Q :=
  match Qcompare x 0 with
  | Eq => 0
  | Gt => roundPos x
  | Lt => - roundPos (- x)
  end.
End Binary64.

(** A stand-in whose [Softmax] is the identity: the network emits the
    probabilities themselves. *)
Definition plainExtern : Extern :=
  {| NetworkT := list (list float64);
     ForwardTransformer := fun net _ => net;
     Backward := fun net _ _ => net;
     Softmax := fun row => row;
     mathLog := fun _ => 0%Q;
     mathCos := fun _ => 1%Q;
     mathPi := (355 # 113)%Q |}.

(** A model of one position and one step on the corpus ["hello world"],
    with [TopK = 2]; its network emits the binary64 numbers nearest to
    0.3, 0.1, 0.2, 0.15, 0.15 and 0.1. *)
Definition skewModel : @DiffusionModel plainExtern :=
  @mkModel plainExtern
    [map round64 [3 # 10; 1 # 10; 2 # 10; 15 # 100; 15 # 100; 1 # 10]%Q]
    (mkConfig 1 1 (1 # 100) 1 1 2 0 1)
    (NewCustomTokenizer ["hello world"%string])
    (SpecialTokens (NewCustomTokenizer ["hello world"%string]))
    [0%Q].

(** A source whose first draw is [5404319552844596 / 2^53], the binary64
    number next above 0.6. *)
Definition skewRand : RandSrc :=
  mkRand (fun _ => 5404319552844596 * 2 ^ 10) 0.

Section TemperatureStatements.
Context `{Extern}.

(** Two models that are [d] under the temperatures [T1] and [T2], with the
    same current value of [TopK]; two worlds of such models on the same
    random source. *)
Definition twinModel (d : DiffusionModel) (T1 T2 : float64)
    (d1 d2 : DiffusionModel) : Prop :=
  ∃ k, d1 = withTopK (withTemperature d T1) k
     ∧ d2 = withTopK (withTemperature d T2) k.

Definition twinWorld (d : DiffusionModel) (T1 T2 : float64)
    (w1 w2 : World) : Prop :=
  rand w1 = rand w2 ∧ twinModel d T1 T2 (model w1) (model w2).

(** Two computations that, from twin worlds, both panic or both return,
    with results related by [R] and in twin worlds again. *)
Definition twin (d : DiffusionModel) (T1 T2 : float64) {A B}
    (R : A → B → Prop) (m1 : ST World A) (m2 : ST World B) : Prop :=
  ∀ w1 w2, twinWorld d T1 T2 w1 w2 →
    option_Forall2 (fun x y => R x.1 y.1 ∧ twinWorld d T1 T2 x.2 y.2)
                   (m1 w1) (m2 w2).
End TemperatureStatements.

(** ** Statements of the proofs *)

(** What the construction of a tokenizer keeps true of the tokenizer and
    its next free id. *)
Definition tokInv (st : CustomTokenizer * Z) : Prop :=
  4 ≤ st.2 ∧ reservedIds st.1 ∧
  (∀ id b, SpecialTokens st.1 !! id = Some b → id < 4) ∧
  (∀ w id, Vocab st.1 !! w = Some id →
     0 ≤ id < st.2 ∧ ReverseVocab st.1 !! id = Some w ∧
     (id < 4 → w ∈ specials) ∧ (4 ≤ id → isWord w)).

(** The masking loop writes [maskID] at the first [k] shuffled indices. *)
Definition maskAt (maskID : Z) (S : list nat) (noisy : list Z) : list Z :=
  foldl (fun n ix => <[ix := maskID]> n) noisy S.

(** Candidates in non-increasing order of weight. *)
Definition descending (l : list (Z * Q)) : Prop :=
  StronglySorted (fun a b => (b.2 <= a.2)%Q) l.

(** A message is right for the tensor [target] when its rows are the rows of
    [target] from index [batchIdx * batchSize] on. *)
Definition rightFor (target : list (list Q)) (et : TermsMsg) : Prop :=
  ∀ j row, et.1 !! j = Some row →
           target !! (et.2 * batchSize + j)%nat = Some row.

(** The message [et] writes index [i] of the accumulator. *)
Definition covers (et : TermsMsg) (i : nat) : Prop :=
  (et.2 * batchSize ≤ i < et.2 * batchSize + length et.1)%nat.

(** The rows of the batches, in batch order: every batch but the last has
    [batchSize] samples. *)
Definition batchShaped {A} (rowss : list (list A)) : Prop :=
  ∀ b rows, rowss !! b = Some rows → (S b < length rowss)%nat →
            length rows = batchSize.

(** What the construction of a tokenizer keeps true besides [tokInv]: the
    four special tokens sit at their positions in [specials] and are the
    only ids flagged special, the reverse map inverts the vocabulary, the
    ids below the next free one are all taken, and every word entered after
    the specials is in lower case. *)
Definition tokWf (st : CustomTokenizer * Z) : Prop :=
  (∀ i w, specials !! i = Some w → Vocab st.1 !! w = Some (Z.of_nat i))
  ∧ (∀ id, SpecialTokens st.1 !! id = Some true ↔ 0 ≤ id < 4)
  ∧ (∀ id, SpecialTokens st.1 !! id ≠ Some false)
  ∧ (∀ id w, ReverseVocab st.1 !! id = Some w → Vocab st.1 !! w = Some id)
  ∧ (∀ id, 0 ≤ id < st.2 → is_Some (ReverseVocab st.1 !! id))
  ∧ (∀ w id, Vocab st.1 !! w = Some id → 4 ≤ id → ToLower w = w).

(** An id of a corpus word: neither special nor out of the vocabulary. *)
Definition wordId (t : CustomTokenizer) (id : Z) : Prop :=
  4 ≤ id < VocabSize t.

#[global] Instance wordId_dec t id : Decision (wordId t id).
Proof. unfold wordId. apply _. Defined.

(** The value of the [k]-th next call of [rand.Float64] on the source [r]. *)
Definition draw (r : RandSrc) (k : nat) : float64 :=
  (inject_Z (tape r (cursor r + k)%nat mod two63) / inject_Z two63)%Q.

(** The source [r] after [k] calls. *)
Definition advance (r : RandSrc) (k : nat) : RandSrc :=
  mkRand (tape r) (cursor r + k).

(** [tokens] cut or padded with [padID] to [n] tokens. *)
Definition padTo (n : nat) (padID : Z) (tokens : list Z) : list Z :=
  take n (tokens ++ replicate n padID).

(** The number of tokens of [l] that are not [padID]. *)
Definition countNonPad (padID : Z) (l : list Z) : nat :=
  length (filter (λ tok, tok ≠ padID) l).

(** The demonstration model with a schedule table written by hand. *)
Definition tableModel (table : list float64) : @DiffusionModel tableExtern :=
  @mkModel tableExtern (@Network tableExtern demoModel)
           (@Config tableExtern demoModel) (@Tokenizer tableExtern demoModel)
           (@ModelSpecialTokens tableExtern demoModel) table.

(** [after] keeps every token of [before] that is not MASK, at its place. *)
Definition keepsTokens (maskID : Z) (before after : list Z) : Prop :=
  length after = length before
  ∧ ∀ i tok, before !! i = Some tok → tok ≠ maskID → after !! i = Some tok.

Section RunStatements.
Context `{Extern}.

(** The world runs the network [net] with the tokenizer [tok] on sequences
    of [L] tokens. *)
Definition runsOn (net : NetworkT) (tok : CustomTokenizer) (L : Z)
    (w : World) : Prop :=
  Network (model w) = net ∧ Tokenizer (model w) = tok
  ∧ MaxLength (Config (model w)) = L.

(** The network answers every input with a first row of at least
    [L * VocabSize] logits. *)
Definition answersFlat (net : NetworkT) (tok : CustomTokenizer) (L : Z)
  : Prop :=
  ∀ input, ∃ preds,
    ForwardTransformer net input !! 0%nat = Some preds
    ∧ L * VocabSize tok ≤ Z.of_nat (length preds).
End RunStatements.

(** A token id of the vocabulary. *)
Definition inVocab (tok : CustomTokenizer) (id : Z) : Prop :=
  0 ≤ id < VocabSize tok.

Section TrainStatements.
Context `{Extern}.

(** The world trains a network of the class [good] under the configuration
    [c] with the tokenizer [tok]. *)
Definition trains (good : NetworkT → Prop) (c : DiffusionConfig)
    (tok : CustomTokenizer) (w : World) : Prop :=
  good (Network (model w)) ∧ Config (model w) = c
  ∧ Tokenizer (model w) = tok.

(** Every network of the class [good] answers with at least [L] rows of at
    least [VocabSize] logits, the shape [Train] reads. *)
Definition answersRows (good : NetworkT → Prop) (tok : CustomTokenizer)
    (L : Z) : Prop :=
  ∀ net input i, good net → (i < Z.to_nat L)%nat →
    ∃ row, ForwardTransformer net input !! i = Some row
           ∧ VocabSize tok ≤ Z.of_nat (length row).

(** The class [good] is closed under [Backward]. *)
Definition keptByBackward (good : NetworkT → Prop) : Prop :=
  ∀ net errorTerms lr, good net → good (Backward net errorTerms lr).
End TrainStatements.

Section BetterTrainStatements.
Context `{Extern}.

(** The world trains a network of the class [good] under the configuration
    [c] with the tokenizer [tok] and the schedule table [mf]. *)
Definition trainsMasked (good : NetworkT → Prop) (c : DiffusionConfig)
    (tok : CustomTokenizer) (mf : list float64) (w : World) : Prop :=
  good (Network (model w)) ∧ Config (model w) = c
  ∧ Tokenizer (model w) = tok ∧ MaskFraction (model w) = mf.

(** Every network of the class [good] answers with a first row of at least
    [L * VocabSize] logits. *)
Definition answersFlatAll (good : NetworkT → Prop) (tok : CustomTokenizer)
    (L : Z) : Prop :=
  ∀ net, good net → answersFlat net tok L.
End BetterTrainStatements.

(** A sample [TrainBetterDiffusion] can take: at most [L] tokens, each an id
    of the vocabulary. *)
Definition fitsModel (tok : CustomTokenizer) (L : Z) (x0 : list Z) : Prop :=
  (length x0 ≤ Z.to_nat L)%nat ∧ Forall (inVocab tok) x0.

(** ** The working sequence of the masked generators *)

Section WorkingSequence.
Context `{Extern}.

(** [GenerateMasked] up to the end of its denoising loop: the working
    sequence [current] after the last iteration. *)
Definition maskedWorking (d : DiffusionModel) : ST RandSrc (list Z) :=
  let maskTokenID := vocabAt (Tokenizer d) "[MASK]" in
  current <- liftO (makeSlice (MaxLength (Config d)) maskTokenID) ;;
  forDown (Z.to_nat (NumTimesteps (Config d)))
          (fun current s' => maskedStep d current (S s')) current.

(** [GenerateBetter] up to the end of its denoising loop: the working
    sequence [xcur] after the last iteration. *)
Definition betterWorking : ST World (list Z) :=
  d <- getModel ;;
  let maskID := vocabAt (Tokenizer d) "[MASK]" in
  xcur <- liftO (makeSlice (MaxLength (Config d)) maskID) ;;
  forDown (Z.to_nat (NumTimesteps (Config d))) betterStep xcur.
End WorkingSequence.

(** What C5 says of the closing loop: the returned sequence [out] is the
    working sequence with 0 at every position that still holds MASK, and
    with the token of the working sequence at every other position. *)
Definition forcedToZero (maskID : Z) (working out : list Z) : Prop :=
  Forall2 (fun tok o => (tok = maskID → o = 0) ∧ (tok ≠ maskID → o = tok))
          working out.

(* ===== end of definitions ===== *)

(** * Properties *)

(** ** Strings *)

Lemma ToLower_app (a b : string) :
  ToLower (a ++ b) = (ToLower a ++ ToLower b)%string.
Proof. induction a as [|c a IH]; simpl; [reflexivity | now rewrite IH]. Qed.

Lemma ToLower_Join (ws : list string) :
  ToLower (Join ws " ") = Join (map ToLower ws) " ".
Proof.
  induction ws as [|w ws IH]; [reflexivity|].
  destruct ws as [|w' ws]; [reflexivity|].
  change (Join (w :: w' :: ws) " ") with (w ++ " " ++ Join (w' :: ws) " ")%string.
  rewrite !ToLower_app, IH. reflexivity.
Qed.

Lemma Fields_step (c c' : ascii) (r : string) :
  isSpace c = false → isSpace c' = false →
  Fields (String c (String c' r)) =
  match Fields (String c' r) with
  | w :: ws => String c w :: ws
  | [] => [String c EmptyString]
  end.
Proof. intros Hc Hc'. simpl. rewrite Hc, Hc'. reflexivity. Qed.

Lemma Fields_word_cons (w s : string) :
  isWord w → Fields (w ++ " " ++ s) = w :: Fields s.
Proof.
  intros [Hne Hsf]. induction w as [|c w IH]; [congruence|].
  simpl in Hsf. apply andb_prop in Hsf as [Hc Hw].
  apply negb_true_iff in Hc.
  destruct w as [|c' w].
  - simpl. rewrite Hc. reflexivity.
  - assert (IH' := IH ltac:(discriminate) Hw). clear IH.
    simpl in Hw. apply andb_prop in Hw as [Hc' _].
    apply negb_true_iff in Hc'.
    change (String c (String c' w) ++ " " ++ s)%string
      with (String c (String c' (w ++ " " ++ s))).
    rewrite Fields_step by assumption.
    change (String c' (w ++ " " ++ s)) with (String c' w ++ " " ++ s)%string.
    rewrite IH'. reflexivity.
Qed.

Lemma Fields_word (w : string) : isWord w → Fields w = [w].
Proof.
  intros [Hne Hsf]. induction w as [|c w IH]; [congruence|].
  simpl in Hsf. apply andb_prop in Hsf as [Hc Hw].
  apply negb_true_iff in Hc.
  destruct w as [|c' w].
  - simpl. now rewrite Hc.
  - assert (IH' := IH ltac:(discriminate) Hw). clear IH.
    simpl in Hw. apply andb_prop in Hw as [Hc' _].
    apply negb_true_iff in Hc'.
    rewrite Fields_step by assumption. rewrite IH'. reflexivity.
Qed.

Lemma Fields_Join (ws : list string) :
  Forall isWord ws → Fields (Join ws " ") = ws.
Proof.
  induction 1 as [|w ws Hw Hws IH]; [reflexivity|].
  destruct ws as [|w' ws]; [now apply Fields_word|].
  change (Join (w :: w' :: ws) " ") with (w ++ " " ++ Join (w' :: ws) " ")%string.
  rewrite Fields_word_cons by assumption. now rewrite IH.
Qed.

Lemma Fields_isWord (s : string) : Forall isWord (Fields s).
Proof.
  induction s as [|c r IH]; [constructor|].
  simpl. destruct (isSpace c) eqn:Hc; [assumption|].
  destruct r as [|c' r'].
  - repeat constructor; [discriminate | simpl; now rewrite Hc].
  - destruct (isSpace c') eqn:Hc'.
    + constructor; [|assumption]. split; [discriminate | simpl; now rewrite Hc].
    + destruct (Fields (String c' r')) as [|w ws].
      * repeat constructor; [discriminate | simpl; now rewrite Hc].
      * inversion IH as [|? ? [Hne Hsf] Hws]; subst.
        constructor; [|assumption].
        split; [discriminate | simpl; now rewrite Hc, Hsf].
Qed.

(** ** Tokenizer *)

Lemma tokInv_specials :
  tokInv (addSpecials (mkTokenizer ∅ ∅ 0 ∅) 0 specials,
          Z.of_nat (length specials)).
Proof.
  split; [simpl; lia|]. split; [split; reflexivity|]. split.
  - intros id b. cbn -[lookup insert].
    rewrite !lookup_insert_Some, lookup_empty.
    intros Hl. intuition (try discriminate; lia).
  - intros w id. cbn -[lookup insert elem_of]. intros Hl.
    rewrite !lookup_insert_Some, lookup_empty in Hl.
    assert (Hc : (w = "[PAD]"%string ∧ id = 0) ∨ (w = "[MASK]"%string ∧ id = 1)
                 ∨ (w = "[CLS]"%string ∧ id = 2) ∨ (w = "[SEP]"%string ∧ id = 3)).
    { intuition (try discriminate; subst; auto). }
    clear Hl. unfold specials.
    destruct Hc as [[-> ->]|[[-> ->]|[[-> ->]|[-> ->]]]];
      (split; [lia|]); (split; [reflexivity|]);
      (split; [intros _; set_solver | lia]).
Qed.

Lemma tokInv_addWord st w : isWord w → tokInv st → tokInv (addWord st w).
Proof.
  destruct st as [t n]. intros Hw (Hn & [Hpad Hmask] & Hsp & Hv).
  unfold addWord. destruct (Vocab t !! w) eqn:Hlook.
  { split; [exact Hn|]. split; [split; assumption|]. split; assumption. }
  unfold tokInv. simpl in *. split; [lia|]. split.
  { split; simpl; rewrite lookup_insert_ne; congruence. }
  split; [exact Hsp|].
  intros w' id. simpl. rewrite lookup_insert_Some.
  intros [[<- <-]|[Hne Hold]].
  - split; [lia|]. rewrite lookup_insert_eq. split; [reflexivity|].
    split; [lia | intros _; exact Hw].
  - destruct (Hv _ _ Hold) as (Hr & Hrev & Hlo & Hhi).
    split; [lia|]. rewrite lookup_insert_ne by lia. tauto.
Qed.

Lemma tokInv_addSentence st s : tokInv st → tokInv (addSentence st s).
Proof.
  unfold addSentence. generalize (Fields_isWord (ToLower s)).
  generalize (Fields (ToLower s)) as ws. intros ws Hws. revert st.
  induction Hws as [|w ws Hw _ IH]; intros st Hst; [exact Hst|].
  simpl. apply IH. now apply tokInv_addWord.
Qed.

Lemma tokInv_sentences st sentences :
  tokInv st → tokInv (foldl addSentence st sentences).
Proof.
  revert st. induction sentences as [|s ss IH]; intros st Hst; [exact Hst|].
  simpl. apply IH. now apply tokInv_addSentence.
Qed.

Lemma NewCustomTokenizer_inv sentences :
  tokInv (NewCustomTokenizer sentences,
          VocabSize (NewCustomTokenizer sentences)).
Proof.
  unfold NewCustomTokenizer.
  assert (Hinv := tokInv_sentences _ sentences tokInv_specials).
  destruct (foldl addSentence _ sentences) as [t2 n]. exact Hinv.
Qed.

Lemma NewCustomTokenizer_reserved sentences :
  reservedIds (NewCustomTokenizer sentences).
Proof. apply (NewCustomTokenizer_inv sentences). Qed.

Lemma special_not_lower w : w ∈ specials → ToLower w ≠ w.
Proof.
  unfold specials. rewrite !elem_of_cons, elem_of_nil.
  intros [->|[->|[->|[->|[]]]]]; discriminate.
Qed.

Lemma decodeWords_acc t (ws acc : list string) :
  Forall (λ w, ∃ id, Vocab t !! w = Some id ∧
                     ReverseVocab t !! id = Some w ∧ isSpecial t id = false) ws →
  foldl (fun words id =>
           match ReverseVocab t !! id with
           | Some word => if isSpecial t id then words else words ++ [word]
           | None => words
           end) acc
        (map (fun w => match Vocab t !! w with
                       | Some id => id
                       | None => vocabAt t "[PAD]"
                       end) ws) = acc ++ ws.
Proof.
  intros Hws. revert acc.
  induction Hws as [|w ws (id & Hv & Hr & Hs) _ IH]; intros acc.
  - now rewrite app_nil_r.
  - simpl. rewrite Hv, Hr, Hs, IH, <- app_assoc. reflexivity.
Qed.

(** C9.  Tokenizer round trip: for the tokenizer built from any corpus and
    any text made of in-vocabulary words that are already lower case, joined
    by single spaces, decoding the encoded text gives the text back. *)
Theorem tokenizer_round_trip (sentences ws : list string) :
  Forall (λ w, is_Some (Vocab (NewCustomTokenizer sentences) !! w)
               ∧ ToLower w = w) ws →
  Decode (NewCustomTokenizer sentences)
         (Encode (NewCustomTokenizer sentences) (Join ws " ")) = Join ws " ".
Proof.
  intros Hws. set (t := NewCustomTokenizer sentences) in *.
  destruct (NewCustomTokenizer_inv sentences) as (_ & _ & Hsp & Hv).
  fold t in Hsp, Hv. simpl in Hsp, Hv.
  assert (Hall : Forall (λ w, isWord w ∧ ∃ id, Vocab t !! w = Some id ∧
             ReverseVocab t !! id = Some w ∧ isSpecial t id = false) ws).
  { eapply Forall_impl; [exact Hws|]. intros w [[id Hid] Hlow].
    destruct (Hv _ _ Hid) as (Hr & Hrev & Hlo & Hhi).
    assert (4 ≤ id).
    { destruct (Z.lt_ge_cases id 4) as [Hlt|]; [|assumption].
      destruct (special_not_lower w (Hlo Hlt) Hlow). }
    split; [now apply Hhi|]. exists id. repeat split; try assumption.
    unfold isSpecial. destruct (SpecialTokens t !! id) as [b|] eqn:Hb;
      [|reflexivity]. apply Hsp in Hb. lia. }
  unfold Decode, Encode, decodeWords.
  rewrite ToLower_Join.
  replace (map ToLower ws) with ws.
  2:{ clear -Hws. induction Hws as [|w ws [_ Hw] _ IH]; [reflexivity|].
      simpl. now rewrite Hw, <- IH. }
  rewrite Fields_Join by (eapply Forall_impl; [exact Hall|]; now intros w []).
  rewrite decodeWords_acc by (eapply Forall_impl; [exact Hall|]; now intros w []).
  reflexivity.
Qed.

Lemma tokenizer_round_trip_witness :
  let sentences := ["The cat sat"; "a  Cat ran"]%string in
  let ws := ["ran"; "the"; "cat"]%string in
  Forall (λ w, is_Some (Vocab (NewCustomTokenizer sentences) !! w)
               ∧ ToLower w = w) ws
  ∧ Decode (NewCustomTokenizer sentences)
           (Encode (NewCustomTokenizer sentences) "ran the cat")
    = "ran the cat"%string.
Proof.
  intros sentences ws.
  assert (H : Forall (λ w, is_Some (Vocab (NewCustomTokenizer sentences) !! w)
                           ∧ ToLower w = w) ws).
  { repeat constructor; vm_compute; eexists; reflexivity. }
  split; [exact H|]. exact (tokenizer_round_trip sentences ws H).
Defined.

(** ** Numbers *)

Lemma fltb_true (x y : Q) : fltb x y = true ↔ (x < y)%Q.
Proof.
  unfold fltb. rewrite negb_true_iff, <- not_true_iff_false, Qle_bool_iff.
  split; [apply Qnot_le_lt | apply Qlt_not_le].
Qed.

Lemma fltb_false (x y : Q) : fltb x y = false ↔ (y <= x)%Q.
Proof. unfold fltb. rewrite negb_false_iff. apply Qle_bool_iff. Qed.

Lemma fleb_true (x y : Q) : fleb x y = true ↔ (x <= y)%Q.
Proof. apply Qle_bool_iff. Qed.

Lemma fleb_false (x y : Q) : fleb x y = false ↔ (y < x)%Q.
Proof.
  unfold fleb. rewrite <- not_true_iff_false, Qle_bool_iff.
  split; [apply Qnot_le_lt | apply Qlt_not_le].
Qed.

Ltac fcase_on a b :=
  let E := fresh "E" in
  destruct (fltb a b) eqn:E;
  [apply fltb_true in E | apply fltb_false in E].

Ltac fcases :=
  repeat match goal with
         | |- context [fltb ?a ?b] => fcase_on a b
         | _ : context [fltb ?a ?b] |- _ => fcase_on a b
         end.

Lemma ofLen_le (a b : nat) : (a ≤ b)%nat → (ofLen a <= ofLen b)%Q.
Proof. intros. unfold ofLen. rewrite <- Zle_Qle. lia. Qed.

Lemma ofLen_nonneg (a : nat) : (0 <= ofLen a)%Q.
Proof. unfold ofLen. change 0%Q with (inject_Z 0). rewrite <- Zle_Qle. lia. Qed.

(** ** The mask schedule *)

Lemma fill_prefix {A} (f : nat → A) (rest pre : list A) :
  foldl (fun tbl t => <[t := f t]> tbl) (pre ++ rest)
        (seq (length pre) (length rest))
  = pre ++ map f (seq (length pre) (length rest)).
Proof.
  revert pre. induction rest as [|x rest IH]; intros pre; [reflexivity|].
  simpl. rewrite insert_app_r_alt, Nat.sub_diag by lia. simpl.
  specialize (IH (pre ++ [f (length pre)])).
  rewrite length_app, Nat.add_1_r, <- !app_assoc in IH. exact IH.
Qed.

Lemma fillSchedule_map config :
  fillSchedule config (replicate (Z.to_nat (NumTimesteps config)) 0%Q)
  = map (scheduleFrac config) (seq 0 (Z.to_nat (NumTimesteps config))).
Proof.
  unfold fillSchedule.
  pose proof (fill_prefix (scheduleFrac config)
                (replicate (Z.to_nat (NumTimesteps config)) 0%Q) []) as Hf.
  simpl in Hf. rewrite length_replicate in Hf. exact Hf.
Qed.

Lemma scheduleFrac_range config t : (0 <= scheduleFrac config t <= 1)%Q.
Proof. unfold scheduleFrac. cbv zeta. fcases; lra. Qed.

Lemma scheduleFrac_spec config t :
  scheduleFrac config t == specMaskFraction config t.
Proof.
  unfold scheduleFrac, specMaskFraction, specClamp, ofLen, ofInt. cbv zeta.
  set (x := (MaskScheduleStart config + _ / _)%Q).
  destruct (Q.min_spec x 1) as [[H1 ->]|[H1 ->]];
    [destruct (Q.max_spec 0 x) as [[H2 ->]|[H2 ->]]
    |destruct (Q.max_spec 0 1) as [[H2 ->]|[H2 ->]]];
    fcases; lra.
Qed.

Lemma scheduleFrac_mono config t t' :
  2 ≤ NumTimesteps config →
  (MaskScheduleStart config <= MaskScheduleEnd config)%Q →
  (t ≤ t')%nat → (scheduleFrac config t <= scheduleFrac config t')%Q.
Proof.
  intros HT Hse Htt. unfold scheduleFrac. cbv zeta.
  set (s := MaskScheduleStart config) in *.
  set (e := MaskScheduleEnd config) in *.
  assert (HD : (0 < / ofInt (NumTimesteps config - 1))%Q).
  { apply Qinv_lt_0_compat. unfold ofInt. change 0%Q with (inject_Z 0).
    rewrite <- Zlt_Qlt. lia. }
  set (iD := (/ ofInt (NumTimesteps config - 1))%Q) in *.
  assert (Hraw : (s + (e - s) * ofLen t / ofInt (NumTimesteps config - 1)
                  <= s + (e - s) * ofLen t' / ofInt (NumTimesteps config - 1))%Q).
  { unfold Qdiv. fold iD.
    pose proof (ofLen_le _ _ Htt). pose proof (ofLen_nonneg t).
    assert ((e - s) * ofLen t <= (e - s) * ofLen t')%Q by nra.
    nra. }
  fcases; lra.
Qed.

(** C7.  For [T >= 2] the constructor succeeds and builds a table of [T]
    entries; entry [t] is [clamp(start + (end - start) * t / (T - 1), 0, 1)],
    lies in [[0, 1]], and the table is non-decreasing when [end >= start]. *)
Theorem MaskFraction_table `{Extern} (network : NetworkT)
    (config : DiffusionConfig) (sentences : list string) :
  2 ≤ NumTimesteps config →
  ∃ d, NewDiffusionModel network config sentences = Some d
    ∧ Config d = config
    ∧ length (MaskFraction d) = Z.to_nat (NumTimesteps config)
    ∧ (∀ t, (t < Z.to_nat (NumTimesteps config))%nat →
         ∃ f, MaskFraction d !! t = Some f
              ∧ f == specMaskFraction config t ∧ (0 <= f <= 1)%Q)
    ∧ ((MaskScheduleStart config <= MaskScheduleEnd config)%Q →
       ∀ t t' f f', (t ≤ t')%nat →
         MaskFraction d !! t = Some f → MaskFraction d !! t' = Some f' →
         (f <= f')%Q).
Proof.
  intros HT. unfold NewDiffusionModel, makeSlice.
  destruct (NumTimesteps config <? 0) eqn:Hneg; [lia|]. simpl.
  eexists. split; [reflexivity|]. simpl. rewrite fillSchedule_map.
  split; [reflexivity|].
  split; [now rewrite length_map, length_seq|]. split.
  - intros t Ht. exists (scheduleFrac config t).
    rewrite list_lookup_fmap, lookup_seq_lt by assumption.
    split; [reflexivity|].
    split; [apply scheduleFrac_spec | apply scheduleFrac_range].
  - intros Hse t t' f f' Htt Hf Hf'.
    rewrite list_lookup_fmap in Hf, Hf'.
    destruct (seq 0 (Z.to_nat (NumTimesteps config)) !! t) as [a|] eqn:Ha;
      [|discriminate].
    destruct (seq 0 (Z.to_nat (NumTimesteps config)) !! t') as [b|] eqn:Hb;
      [|discriminate].
    apply lookup_seq in Ha as [-> _]. apply lookup_seq in Hb as [-> _].
    simpl in Hf, Hf'. injection Hf as <-. injection Hf' as <-.
    now apply scheduleFrac_mono.
Qed.

Lemma MaskFraction_table_witness :
  let config := mkConfig 5 4 (1 # 100) 3 1 2 (1 # 5) (4 # 5) in
  2 ≤ NumTimesteps config
  ∧ ∃ d, NewDiffusionModel (H := tableExtern) [] config ["a b"%string] = Some d
    ∧ Config d = config
    ∧ length (MaskFraction d) = Z.to_nat (NumTimesteps config)
    ∧ (∀ t, (t < Z.to_nat (NumTimesteps config))%nat →
         ∃ f, MaskFraction d !! t = Some f
              ∧ f == specMaskFraction config t ∧ (0 <= f <= 1)%Q)
    ∧ ((MaskScheduleStart config <= MaskScheduleEnd config)%Q →
       ∀ t t' f f', (t ≤ t')%nat →
         MaskFraction d !! t = Some f → MaskFraction d !! t' = Some f' →
         (f <= f')%Q).
Proof.
  intros config. split; [simpl; lia|].
  apply (MaskFraction_table (H := tableExtern)). simpl; lia.
Defined.

(** ** The state monad *)

Lemma bind_Some {σ A B} (m : ST σ A) (k : A → ST σ B) s b s'' :
  (x <- m ;; k x) s = Some (b, s'') ↔
  ∃ a s', m s = Some (a, s') ∧ k a s' = Some (b, s'').
Proof.
  unfold bind. destruct (m s) as [[a s']|].
  - split; [eauto | intros (? & ? & [= <- <-] & ?); assumption].
  - split; [discriminate | intros (? & ? & [=] & _)].
Qed.

Lemma bind_run {σ A B} (m : ST σ A) (k : A → ST σ B) s a s' :
  m s = Some (a, s') → (x <- m ;; k x) s = k a s'.
Proof. unfold bind. now intros ->. Qed.

Lemma liftO_Some {σ A} (o : option A) (s : σ) a s' :
  liftO o s = Some (a, s') ↔ o = Some a ∧ s' = s.
Proof.
  unfold liftO. destruct o; split; try discriminate.
  - now intros [= -> ->].
  - now intros [[= ->] ->].
  - now intros [].
Qed.

Lemma ret_Some {σ A} (x : A) (s : σ) a s' :
  ret x s = Some (a, s') ↔ a = x ∧ s' = s.
Proof. unfold ret. split; [now intros [= -> ->] | now intros [-> ->]]. Qed.

(** A loop whose body keeps an invariant from a state on keeps it to the
    end. *)
Lemma forEach_inv {σ S X} (I : S → Prop) (body : S → X → ST σ S) l :
  (∀ s x st s' st', I s → x ∈ l → body s x st = Some (s', st') → I s') →
  ∀ s st s' st', I s → forEach body s l st = Some (s', st') → I s'.
Proof.
  induction l as [|x l IH]; intros Hbody s st s' st' Hs Hrun.
  - apply ret_Some in Hrun as [-> _]. exact Hs.
  - simpl in Hrun. apply bind_Some in Hrun as (s1 & st1 & Hb & Hrest).
    eapply IH; [|eapply Hbody; [exact Hs| |exact Hb]|exact Hrest].
    + intros. eapply Hbody; eauto. now right.
    + now left.
Qed.

(** ** The random source *)

Lemma int63_run r :
  int63 r = Some (tape r (cursor r) mod two63, mkRand (tape r) (S (cursor r))).
Proof. reflexivity. Qed.

Lemma randIntn_range n r v r' :
  randIntn n r = Some (v, r') → 0 ≤ v < n.
Proof.
  unfold randIntn. destruct (n <=? 0) eqn:Hn; [discriminate|].
  intros Hrun. apply bind_Some in Hrun as (a & s & _ & Hret).
  apply ret_Some in Hret as [-> _]. apply Z.mod_pos_bound. lia.
Qed.

Lemma randIntn_total n r : 0 < n → ∃ v r', randIntn n r = Some (v, r').
Proof.
  intros Hn. unfold randIntn. destruct (n <=? 0) eqn:E; [lia|].
  eexists _, _. reflexivity.
Qed.

Lemma insert_swap_perm {A} (l : list A) j (b x : A) :
  l !! j = Some b → b :: <[j := x]> l ≡ₚ x :: l.
Proof.
  revert j. induction l as [|y l IH]; intros [|j] Hj; try discriminate.
  - injection Hj as ->. apply Permutation_swap.
  - simpl in *. rewrite Permutation_swap, (IH _ Hj). apply Permutation_swap.
Qed.

Lemma swap_perm {A} (l l' : list A) i j : swap l i j = Some l' → l' ≡ₚ l.
Proof.
  unfold swap. destruct (l !! i) as [a|] eqn:Hi; [|discriminate].
  destruct (l !! j) as [b|] eqn:Hj; [|discriminate]. simpl. intros [= <-].
  revert i j Hi Hj. induction l as [|x l IH]; intros [|i] [|j] Hi Hj;
    try discriminate; simpl in *.
  - injection Hi as ->. injection Hj as ->. reflexivity.
  - injection Hi as ->. now apply insert_swap_perm.
  - injection Hj as ->. now apply insert_swap_perm.
  - apply Permutation_skip. now apply IH.
Qed.

Lemma swap_total {A} (l : list A) i j :
  (i < length l)%nat → (j < length l)%nat → is_Some (swap l i j).
Proof.
  intros Hi Hj. unfold swap.
  destruct (lookup_lt_is_Some_2 l i Hi) as [a ->].
  destruct (lookup_lt_is_Some_2 l j Hj) as [b ->]. simpl. eauto.
Qed.

Lemma shuffleFrom_perm {A} i (l : list A) r :
  (i < length l)%nat ∨ i = O →
  ∃ l' r', shuffleFrom i l r = Some (l', r') ∧ l' ≡ₚ l.
Proof.
  revert l r. induction i as [|i IH]; intros l r Hi.
  - eexists _, _. split; reflexivity.
  - destruct Hi as [Hi|]; [|discriminate].
    cbn [shuffleFrom].
    destruct (randIntn_total (Z.of_nat (S i) + 1) r ltac:(lia)) as (j & r1 & Hj).
    rewrite (bind_run _ _ _ _ _ Hj). apply randIntn_range in Hj.
    destruct (swap_total l (S i) (Z.to_nat j) Hi ltac:(lia)) as [l1 Hsw].
    rewrite Hsw. cbn [liftO bind].
    apply swap_perm in Hsw.
    destruct (IH l1 r1) as (l' & r' & Hrun & Hperm).
    { left. rewrite Hsw. lia. }
    exists l', r'. split; [exact Hrun|]. now rewrite Hperm.
Qed.

Lemma randShuffle_perm {A} (l : list A) r :
  ∃ l' r', randShuffle l r = Some (l', r') ∧ l' ≡ₚ l.
Proof.
  apply shuffleFrom_perm. destruct l; [now right | left; simpl; lia].
Qed.

(** ** Rounding *)

Lemma Qceiling_nonpos (y : Q) : (y <= 0)%Q → Qceiling y ≤ 0.
Proof. intros Hy. apply (Qceiling_resp_le y 0) in Hy. exact Hy. Qed.

Lemma Qfloor_lt_succ (y : Q) (n : Z) : (y < inject_Z (n + 1))%Q → Qfloor y ≤ n.
Proof.
  intros Hy. apply Z.lt_succ_r. rewrite <- Z.add_1_r, Zlt_Qlt.
  eapply Qle_lt_trans; [apply Qfloor_le | exact Hy].
Qed.

Lemma mathRound_nonpos (x : Q) : (x <= 0)%Q → mathRound x ≤ 0.
Proof.
  intros Hx. unfold mathRound. fcases.
  - apply Qceiling_nonpos. lra.
  - apply Qfloor_lt_succ. change (inject_Z (0 + 1)) with 1%Q. lra.
Qed.

Lemma mathRound_le (n : nat) (f : Q) :
  (f <= 1)%Q → mathRound (ofLen n * f) ≤ Z.of_nat n.
Proof.
  intros Hf. pose proof (ofLen_nonneg n) as Hn.
  assert (Hx : (ofLen n * f <= ofLen n)%Q) by nra.
  unfold mathRound. fcases.
  - etransitivity; [apply Qceiling_nonpos; lra | lia].
  - apply Qfloor_lt_succ. unfold ofLen in *. rewrite inject_Z_plus.
    change (inject_Z 1) with 1%Q. lra.
Qed.

(** ** Fraction-exact masking *)

Lemma elem_of_nonPadFrom (padID : Z) (x0 : list Z) (i j : nat) :
  j ∈ nonPadFrom padID i x0 ↔
  (i ≤ j)%nat ∧ ∃ tok, x0 !! (j - i)%nat = Some tok ∧ tok ≠ padID.
Proof.
  revert i. induction x0 as [|tok rest IH]; intros i; simpl.
  - rewrite elem_of_nil. split; [tauto | intros (_ & ? & [=] & _)].
  - destruct (Z.eqb_spec tok padID) as [->|Hne].
    + rewrite IH. split.
      * intros (Hle & tok' & Hl & Hn). split; [lia|]. exists tok'.
        replace (j - i)%nat with (S (j - S i)) by lia. auto.
      * intros (Hle & tok' & Hl & Hn).
        destruct (j - i)%nat as [|n] eqn:E; simpl in Hl; [congruence|].
        split; [lia|]. exists tok'. replace (j - S i)%nat with n by lia. auto.
    + rewrite elem_of_cons, IH. split.
      * intros [->|(Hle & tok' & Hl & Hn)].
        -- split; [lia|]. exists tok. now rewrite Nat.sub_diag.
        -- split; [lia|]. exists tok'.
           replace (j - i)%nat with (S (j - S i)) by lia. auto.
      * intros (Hle & tok' & Hl & Hn).
        destruct (j - i)%nat as [|n] eqn:E; simpl in Hl.
        -- left. lia.
        -- right. split; [lia|]. exists tok'.
           replace (j - S i)%nat with n by lia. auto.
Qed.

Lemma NoDup_nonPadFrom (padID : Z) (x0 : list Z) (i : nat) :
  NoDup (nonPadFrom padID i x0).
Proof.
  revert i. induction x0 as [|tok rest IH]; intros i; simpl; [constructor|].
  destruct (tok =? padID); [apply IH|].
  constructor; [|apply IH]. rewrite elem_of_nonPadFrom. lia.
Qed.

Lemma length_nonPadFrom (padID : Z) (x0 : list Z) (i : nat) :
  length (nonPadFrom padID i x0) = length (filter (λ tok, tok ≠ padID) x0).
Proof.
  revert i. induction x0 as [|tok rest IH]; intros i; simpl; [reflexivity|].
  rewrite filter_cons. destruct (Z.eqb_spec tok padID) as [->|Hne].
  - rewrite decide_False by tauto. apply IH.
  - rewrite decide_True by assumption. simpl. now rewrite IH.
Qed.

Lemma maskAt_cons maskID ix S noisy :
  maskAt maskID (ix :: S) noisy = maskAt maskID S (<[ix := maskID]> noisy).
Proof. reflexivity. Qed.

Lemma length_maskAt maskID S noisy :
  length (maskAt maskID S noisy) = length noisy.
Proof.
  revert noisy. induction S as [|ix S IH]; intros noisy; [reflexivity|].
  now rewrite maskAt_cons, IH, length_insert.
Qed.

Lemma maskAt_notin maskID S noisy i :
  i ∉ S → maskAt maskID S noisy !! i = noisy !! i.
Proof.
  revert noisy. induction S as [|ix S IH]; intros noisy Hi; [reflexivity|].
  rewrite not_elem_of_cons in Hi. destruct Hi as [Hne Hi].
  rewrite maskAt_cons, IH by assumption.
  now rewrite list_lookup_insert_ne.
Qed.

Lemma maskAt_in maskID S noisy i :
  i ∈ S → (i < length noisy)%nat → maskAt maskID S noisy !! i = Some maskID.
Proof.
  revert noisy. induction S as [|ix S IH]; intros noisy Hi Hlen.
  - now apply elem_of_nil in Hi.
  - rewrite maskAt_cons. destruct (decide (i ∈ S)) as [Hin|Hnin].
    + apply IH; [assumption | now rewrite length_insert].
    + apply elem_of_cons in Hi as [->|]; [|contradiction].
      rewrite maskAt_notin by assumption. now apply list_lookup_insert_eq.
Qed.

Lemma maskLoop_run (maskID : Z) (idxes : list nat) k a (noisy : list Z)
    (st : RandSrc) :
  (a + k ≤ length idxes)%nat →
  Forall (λ ix, (ix < length noisy)%nat) idxes →
  forEach (fun noisy i =>
             ix <- liftO (idxes !! i) ;; liftO (store ix maskID noisy))
          noisy (seq a k) st
  = Some (maskAt maskID (take k (drop a idxes)) noisy, st).
Proof.
  revert a noisy. induction k as [|k IH]; intros a noisy Hk Hall.
  - reflexivity.
  - destruct (lookup_lt_is_Some_2 idxes a ltac:(lia)) as [ix Hix].
    assert (Hlt : (ix < length noisy)%nat).
    { rewrite Forall_forall in Hall. apply Hall.
      eapply list_elem_of_lookup_2, Hix. }
    cbn [seq forEach].
    rewrite (bind_run _ _ st (<[ix := maskID]> noisy) st).
    2:{ rewrite Hix. unfold bind, liftO, store.
        apply Nat.ltb_lt in Hlt. now rewrite Hlt. }
    rewrite IH; [|lia|now rewrite length_insert].
    rewrite (drop_S _ _ _ Hix). reflexivity.
Qed.



(** ** No MASK in the output of the masked generators *)

Lemma unmask_no_mask (maskID : Z) (current : list Z) :
  maskID ≠ 0 → maskID ∉ unmask maskID current.
Proof.
  intros Hne Hin. unfold unmask in Hin.
  apply list_elem_of_fmap in Hin as (tok & Heq & _).
  destruct (Z.eqb_spec tok maskID); congruence.
Qed.

Lemma reservedIds_mask (t : CustomTokenizer) :
  reservedIds t → vocabAt t "[MASK]" = 1.
Proof. intros [_ Hm]. unfold vocabAt. now rewrite Hm. Qed.

Lemma reservedIds_pad (t : CustomTokenizer) :
  reservedIds t → vocabAt t "[PAD]" = 0.
Proof. intros [Hp _]. unfold vocabAt. now rewrite Hp. Qed.

Lemma forcedToZero_unmask (maskID : Z) (working out : list Z) :
  forcedToZero maskID working out ↔ out = unmask maskID working.
Proof.
  unfold forcedToZero, unmask. split.
  - intros Hf. induction Hf as [|tok o working out [H1 H2] _ IH]; simpl;
      [reflexivity|].
    rewrite IH. f_equal.
    destruct (Z.eqb_spec tok maskID) as [E|E]; auto.
  - intros ->. induction working as [|tok working IH]; simpl; constructor;
      [|exact IH].
    destruct (Z.eqb_spec tok maskID) as [E|E]; split; intros; congruence.
Qed.

Lemma GenerateMaskedTokens_closing `{Extern} (d : DiffusionModel) r :
  GenerateMaskedTokens d r
  = (current <- maskedWorking d ;;
     ret (unmask (vocabAt (Tokenizer d) "[MASK]") current)) r.
Proof.
  unfold GenerateMaskedTokens, maskedWorking, bind.
  destruct (liftO _ r) as [[current r1]|]; reflexivity.
Qed.

Lemma GenerateBetter_closing `{Extern} (w : World) :
  GenerateBetter w
  = (xcur <- betterWorking ;;
     ret (unmask (vocabAt (Tokenizer (model w)) "[MASK]") xcur)) w.
Proof.
  unfold GenerateBetter, betterWorking, bind, getModel.
  destruct (liftO _ w) as [[xcur w1]|]; [|reflexivity].
  destruct (forDown _ _ _ _) as [[x w2]|]; reflexivity.
Qed.

(** C5.  The sequence [GenerateMasked] decodes and the sequence
    [GenerateBetter] returns are the working sequence left by the last
    iteration with every position that still holds MASK forced to 0 and
    every other position as it is; the generator returns exactly when its
    loop does.  With the reserved ids of the constructor (MASK is 1) the
    returned sequence therefore holds no MASK, whatever the model answers
    and whatever is drawn. *)
Theorem generators_leave_no_mask `{Extern} (d : DiffusionModel) :
  reservedIds (Tokenizer d) →
  let maskID := vocabAt (Tokenizer d) "[MASK]" in
  (∀ r current r',
     GenerateMaskedTokens d r = Some (current, r') → maskID ∉ current)
  ∧ (∀ r text r',
       GenerateMasked d r = Some (text, r') →
       ∃ current, GenerateMaskedTokens d r = Some (current, r')
                  ∧ text = Decode (Tokenizer d) current ∧ maskID ∉ current)
  ∧ (∀ r xcur w',
       GenerateBetter (mkWorld d r) = Some (xcur, w') → maskID ∉ xcur)
  ∧ (∀ r out r',
       GenerateMaskedTokens d r = Some (out, r')
       ↔ ∃ working, maskedWorking d r = Some (working, r')
                    ∧ forcedToZero maskID working out)
  ∧ (∀ r out w',
       GenerateBetter (mkWorld d r) = Some (out, w')
       ↔ ∃ working, betterWorking (mkWorld d r) = Some (working, w')
                    ∧ forcedToZero maskID working out).
Proof.
  intros Hres maskID.
  assert (Hne : maskID ≠ 0) by (unfold maskID; rewrite reservedIds_mask; auto; lia).
  assert (HM : ∀ r out r',
             GenerateMaskedTokens d r = Some (out, r')
             ↔ ∃ working, maskedWorking d r = Some (working, r')
                          ∧ forcedToZero maskID working out).
  { intros r out r'. rewrite GenerateMaskedTokens_closing. split.
    - intros Hrun. apply bind_Some in Hrun as (working & r1 & Hw & Hret).
      apply ret_Some in Hret as [-> ->]. exists working.
      split; [exact Hw | now apply forcedToZero_unmask].
    - intros (working & Hw & Hf). apply forcedToZero_unmask in Hf.
      rewrite (bind_run _ _ _ _ _ Hw). now subst out. }
  assert (HB : ∀ r out w',
             GenerateBetter (mkWorld d r) = Some (out, w')
             ↔ ∃ working, betterWorking (mkWorld d r) = Some (working, w')
                          ∧ forcedToZero maskID working out).
  { intros r out w'. rewrite GenerateBetter_closing. simpl. split.
    - intros Hrun. apply bind_Some in Hrun as (working & w1 & Hw & Hret).
      apply ret_Some in Hret as [-> ->]. exists working.
      split; [exact Hw | now apply forcedToZero_unmask].
    - intros (working & Hw & Hf). apply forcedToZero_unmask in Hf.
      rewrite (bind_run _ _ _ _ _ Hw). now subst out. }
  assert (HN : ∀ r current r',
             GenerateMaskedTokens d r = Some (current, r') → maskID ∉ current).
  { intros r current r' Hrun. apply HM in Hrun as (working & _ & Hf).
    apply forcedToZero_unmask in Hf. subst current.
    now apply unmask_no_mask. }
  split; [exact HN|]. split.
  { intros r text r' Hrun. unfold GenerateMasked in Hrun.
    apply bind_Some in Hrun as (current & r1 & Htok & Hret).
    apply ret_Some in Hret as [-> ->]. exists current. eauto. }
  split.
  { intros r xcur w' Hrun. apply HB in Hrun as (working & _ & Hf).
    apply forcedToZero_unmask in Hf. subst xcur.
    now apply unmask_no_mask. }
  split; [exact HM | exact HB].
Qed.

Lemma generators_leave_no_mask_witness :
  reservedIds (Tokenizer demoModel)
  ∧ ∃ current r',
      GenerateMaskedTokens demoModel demoRand = Some (current, r')
      ∧ vocabAt (Tokenizer demoModel) "[MASK]" ∉ current.
Proof.
  assert (Hres : reservedIds (Tokenizer demoModel))
    by (split; vm_compute; reflexivity).
  split; [exact Hres|].
  assert (Hrun : is_Some (GenerateMaskedTokens demoModel demoRand))
    by (vm_compute; eexists; reflexivity).
  destruct (GenerateMaskedTokens demoModel demoRand) as [[current r']|] eqn:E;
    [|destruct Hrun; discriminate].
  exists current, r'. split; [reflexivity|].
  exact (proj1 (generators_leave_no_mask demoModel Hres) _ _ _ E).
Defined.

(** ** The candidate sort *)

Lemma insertDesc_perm x sorted : insertDesc x sorted ≡ₚ x :: sorted.
Proof.
  induction sorted as [|y rest IH]; simpl; [reflexivity|].
  destruct (fltb y.2 x.2); [reflexivity|].
  now rewrite IH, Permutation_swap.
Qed.

Lemma sortDesc_acc_perm l acc :
  foldl (fun sorted x => insertDesc x sorted) acc l ≡ₚ acc ++ l.
Proof.
  revert acc. induction l as [|x l IH]; intros acc; simpl.
  - now rewrite app_nil_r.
  - rewrite IH, insertDesc_perm. simpl. apply Permutation_middle.
Qed.

Lemma sortDesc_perm l : sortDesc l ≡ₚ l.
Proof. apply (sortDesc_acc_perm l []). Qed.

Lemma length_sortDesc l : length (sortDesc l) = length l.
Proof. now rewrite sortDesc_perm. Qed.

Lemma insertDesc_descending x sorted :
  descending sorted → descending (insertDesc x sorted).
Proof.
  unfold descending. induction 1 as [|y rest Hrest IH Hy]; simpl.
  - repeat constructor.
  - destruct (fltb y.2 x.2) eqn:E.
    + apply fltb_true in E. constructor; [now constructor|].
      constructor; [lra|]. eapply Forall_impl; [exact Hy|].
      simpl. intros z Hz. lra.
    + apply fltb_false in E. constructor; [exact IH|].
      rewrite insertDesc_perm. now constructor.
Qed.

Lemma sortDesc_descending l : descending (sortDesc l).
Proof.
  unfold sortDesc. assert (Hnil : descending []) by constructor.
  revert Hnil. generalize (@nil (Z * Q)) as acc.
  induction l as [|x l IH]; intros acc Hacc; simpl; [exact Hacc|].
  apply IH. now apply insertDesc_descending.
Qed.

(** ** Top-k without clamping in [GenerateMasked] *)

Lemma mapM_length {A B} (f : A → option B) l k :
  mapM f l = Some k → length k = length l.
Proof. intros Hm. apply mapM_Some in Hm. symmetry. eapply Forall2_length, Hm. Qed.

Lemma pickMasked_unclamped `{Extern} (d : DiffusionModel) probs r :
  TopK (Config d) < 1 ∨ VocabSize (Tokenizer d) < TopK (Config d) →
  pickMasked d probs r = None.
Proof.
  intros Hk. unfold pickMasked.
  destruct (maskedCandidates d probs) as [topK|] eqn:Hc; [|reflexivity].
  unfold bind at 1. cbn [liftO].
  assert (Hlen : Z.of_nat (length topK) ≤ Z.max 0 (VocabSize (Tokenizer d))).
  { unfold maskedCandidates, makeSlice in Hc.
    destruct (VocabSize (Tokenizer d) <? 0); [discriminate|]. simpl in Hc.
    apply mapM_length in Hc. rewrite Hc, length_seq, length_replicate. lia. }
  unfold sliceZ, index, subslice. simpl.
  destruct (TopK (Config d) <? 0) eqn:Hneg; [reflexivity|]. simpl.
  rewrite length_sortDesc.
  destruct (Z.to_nat (TopK (Config d)) <=? length topK)%nat eqn:Hle.
  - apply Nat.leb_le in Hle.
    assert (Hz : TopK (Config d) = 0) by lia.
    rewrite Hz. simpl. unfold bind at 1. cbn [liftO].
    rewrite take_0. unfold renormTopK. simpl.
    now rewrite (bind_run _ _ _ _ _ (eq_refl : randFloat64 r = Some _)).
  - reflexivity.
Qed.

Lemma bind_None_l {σ A B} (m : ST σ A) (k : A → ST σ B) s :
  m s = None → (x <- m ;; k x) s = None.
Proof. unfold bind. now intros ->. Qed.

Lemma bind_None_r {σ A B} (m : ST σ A) (k : A → ST σ B) s :
  (∀ a s', k a s' = None) → (x <- m ;; k x) s = None.
Proof. intros Hk. unfold bind. destruct (m s) as [[a s']|]; auto. Qed.

Lemma maskedStep_unclamped `{Extern} (d : DiffusionModel) n s r :
  TopK (Config d) < 1 ∨ VocabSize (Tokenizer d) < TopK (Config d) →
  MaxLength (Config d) = Z.pos n →
  maskedStep d (replicate (Pos.to_nat n) (vocabAt (Tokenizer d) "[MASK]")) s r
  = None.
Proof.
  intros Hk HL. unfold maskedStep. rewrite HL.
  apply bind_None_r. intros input r1.
  apply bind_None_r. intros output r2.
  apply bind_None_l. unfold forRange.
  change (Z.to_nat (Z.pos n)) with (Pos.to_nat n).
  destruct (Pos2Nat.is_succ n) as [l ->]. cbn [seq forEach].
  apply bind_None_l. cbn [replicate lookup list_lookup fst].
  unfold bind at 1. cbn [liftO]. rewrite Z.eqb_refl.
  apply bind_None_r. intros row r3.
  apply bind_None_l. now apply pickMasked_unclamped.
Qed.

(** C4 (the defect).  [GenerateMasked] slices [topK[:TopK]] without clamping:
    with at least one position and one step, a [TopK] below 1 or above
    [VocabSize] makes it panic at the first masked position. *)
Theorem GenerateMasked_unclamped_topk_panics `{Extern} (d : DiffusionModel)
    (r : RandSrc) :
  1 ≤ MaxLength (Config d) → 1 ≤ NumTimesteps (Config d) →
  TopK (Config d) < 1 ∨ VocabSize (Tokenizer d) < TopK (Config d) →
  GenerateMasked d r = None.
Proof.
  intros HL HT Hk. unfold GenerateMasked. apply bind_None_l.
  unfold GenerateMaskedTokens, makeSlice.
  destruct (MaxLength (Config d)) as [|n|n] eqn:EL; try lia.
  destruct (NumTimesteps (Config d)) as [|t|t] eqn:ET; try lia.
  cbn [Z.ltb Z.compare liftO]. unfold bind at 1.
  apply bind_None_l.
  change (Z.to_nat (Z.pos t)) with (Pos.to_nat t).
  destruct (Pos2Nat.is_succ t) as [s ->]. cbn [forDown].
  apply bind_None_l.
  change (Z.to_nat (Z.pos n)) with (Pos.to_nat n).
  now apply maskedStep_unclamped.
Qed.

Lemma GenerateMasked_unclamped_topk_panics_witness :
  1 ≤ MaxLength (Config (withTopK demoModel 7))
  ∧ 1 ≤ NumTimesteps (Config (withTopK demoModel 7))
  ∧ (TopK (Config (withTopK demoModel 7)) < 1
     ∨ VocabSize (Tokenizer (withTopK demoModel 7))
       < TopK (Config (withTopK demoModel 7)))
  ∧ GenerateMasked (withTopK demoModel 7) demoRand = None
  ∧ is_Some (GenerateBetter (mkWorld (withTopK demoModel 7) demoRand)).
Proof.
  assert (H1 : 1 ≤ MaxLength (Config (withTopK demoModel 7)))
    by (vm_compute; discriminate).
  assert (H2 : 1 ≤ NumTimesteps (Config (withTopK demoModel 7)))
    by (vm_compute; discriminate).
  assert (H3 : TopK (Config (withTopK demoModel 7)) < 1
               ∨ VocabSize (Tokenizer (withTopK demoModel 7))
                 < TopK (Config (withTopK demoModel 7)))
    by (right; vm_compute; reflexivity).
  repeat (split; [assumption|]). split.
  - exact (GenerateMasked_unclamped_topk_panics _ demoRand H1 H2 H3).
  - vm_compute. eexists. reflexivity.
Defined.

(** ** The fall-back on a degenerate probability mass *)

(** C6 as stated fails for [GenerateMasked]: with a mass of about [8e-15]
    left after MASK is zeroed, the position resolves to token 3, and the
    whole run returns no 0 at all. *)
Lemma GenerateMasked_tiny_mass_draws :
  ∃ cands r' r'',
    maskedCandidates sharpModel (@Softmax tableExtern sharpRow) = Some cands
    ∧ (fsum (map snd cands) < 1 # 10 ^ 12)%Q
    ∧ pickMasked sharpModel (@Softmax tableExtern sharpRow) demoRand
      = Some (3, r')
    ∧ GenerateMaskedTokens sharpModel demoRand = Some ([3; 2; 3; 2], r'').
Proof.
  eexists _, _, _.
  split; [vm_compute; reflexivity|].
  split; [vm_compute; reflexivity|].
  split; vm_compute; reflexivity.
Qed.

Lemma store_Some {A} i (v : A) l :
  (i < length l)%nat → store i v l = Some (<[i := v]> l).
Proof. intros Hi. unfold store. apply Nat.ltb_lt in Hi. now rewrite Hi. Qed.

Lemma randFloat64_run r :
  randFloat64 r
  = Some ((inject_Z (tape r (cursor r) mod two63) / inject_Z two63)%Q,
          mkRand (tape r) (S (cursor r))).
Proof. reflexivity. Qed.

(** C6, amended.  In [GenerateBetter] a masked position whose remaining mass
    (after the temperature and with MASK zeroed) is below [1e-12] becomes
    token 0 and no random number is drawn.  [GenerateMasked] has no such
    rule: when the sum of its top-k candidates is exactly 0 it gives each of
    them the weight [1 / TopK] and draws one of them with a uniform draw. *)
Theorem degenerate_mass_fallback `{Extern} :
  (∀ (w : World) preds xcur i seg probs,
     sliceZ (Z.of_nat i * VocabSize (Tokenizer (model w)))
            (Z.of_nat i * VocabSize (Tokenizer (model w))
             + VocabSize (Tokenizer (model w))) preds = Some seg →
     betterProbs (vocabAt (Tokenizer (model w)) "[MASK]")
                 (Temperature (Config (model w))) seg = Some probs →
     (fsum probs < 1 # 10 ^ 12)%Q →
     (i < length xcur)%nat →
     betterPosition preds xcur i w = Some (<[i := 0]> xcur, w))
  ∧ (∀ (d : DiffusionModel) probs cands topK first r,
       maskedCandidates d probs = Some cands →
       sliceZ 0 (TopK (Config d)) (sortDesc cands) = Some topK →
       topK !! 0%nat = Some first →
       fsum (map snd topK) == 0 →
       pickMasked d probs r
       = (u <- randFloat64 ;;
          ret (pickCumulative u 0 first.1
                 (map (fun c => (c.1, (1 / ofInt (TopK (Config d)))%Q)) topK)))
           r).
Proof.
  split.
  - intros w preds xcur i seg probs Hseg Hprobs Hsum Hi.
    unfold betterPosition.
    rewrite (bind_run _ _ w (model w) w) by reflexivity.
    rewrite Hseg. unfold bind at 1. cbn [liftO].
    rewrite Hprobs. unfold bind at 1. cbn [liftO].
    apply fltb_true in Hsum. rewrite Hsum.
    now rewrite store_Some.
  - intros d probs cands topK first r Hc Hs Hfirst Hsum.
    unfold pickMasked. rewrite Hc. unfold bind at 1. cbn [liftO].
    rewrite Hs. unfold bind at 1. cbn [liftO].
    unfold renormTopK, feqb.
    apply Qeq_bool_iff in Hsum. rewrite Hsum.
    rewrite !(bind_run _ _ _ _ _ (randFloat64_run r)).
    rewrite list_lookup_fmap, Hfirst. reflexivity.
Qed.

Lemma degenerate_mass_fallback_witness :
  betterPosition (H := tableExtern)
    (sharpRow ++ sharpRow ++ sharpRow ++ sharpRow) [1; 1; 1; 1] 0
    (mkWorld sharpModel demoRand)
  = Some ([0; 1; 1; 1], mkWorld sharpModel demoRand)
  ∧ pickMasked demoModel [0; 1; 0; 0; 0; 0]%Q demoRand
    = (u <- randFloat64 ;;
       ret (pickCumulative u 0 0
              (map (fun c : Z * Q => (c.1, (1 / ofInt 2)%Q))
                   [(0, 0%Q); (1, 0%Q)])))
        demoRand.
Proof.
  split.
  - refine (proj1 (degenerate_mass_fallback (H := tableExtern))
              (mkWorld sharpModel demoRand) _ [1; 1; 1; 1] 0%nat
              sharpRow _ _ _ _ _).
    + vm_compute; reflexivity.
    + vm_compute; reflexivity.
    + vm_compute; reflexivity.
    + simpl; lia.
  - refine (proj2 (degenerate_mass_fallback (H := tableExtern))
              demoModel [0; 1; 0; 0; 0; 0]%Q _ [(0, 0%Q); (1, 0%Q)] (0, 0%Q)
              demoRand _ _ _ _).
    + vm_compute; reflexivity.
    + vm_compute; reflexivity.
    + reflexivity.
    + vm_compute; reflexivity.
Defined.

(** ** Triples *)

Lemma hoare_bind {σ A B} (P : σ → Prop) (Q : A → σ → Prop) (R : B → σ → Prop)
    (m : ST σ A) (k : A → ST σ B) :
  hoare P m Q → (∀ a, hoare (Q a) (k a) R) → hoare P (x <- m ;; k x) R.
Proof.
  intros Hm Hk st b st'' HP Hrun.
  apply bind_Some in Hrun as (a & st' & Hma & Hka).
  eapply Hk; [|exact Hka]. eapply Hm; eassumption.
Qed.

Lemma hoare_ret {σ A} (P : σ → Prop) (Q : A → σ → Prop) (a : A) :
  (∀ st, P st → Q a st) → hoare P (ret a) Q.
Proof. intros HQ st b st' HP Hrun. apply ret_Some in Hrun as [-> ->]. auto. Qed.

Lemma hoare_liftO {σ A} (P : σ → Prop) (Q : A → σ → Prop) (o : option A) :
  (∀ a st, o = Some a → P st → Q a st) → hoare P (liftO o) Q.
Proof.
  intros HQ st b st' HP Hrun. apply liftO_Some in Hrun as [-> ->]. auto.
Qed.

Lemma hoare_weaken {σ A} (P P' : σ → Prop) (Q Q' : A → σ → Prop) (m : ST σ A) :
  hoare P' m Q' → (∀ st, P st → P' st) → (∀ a st, Q' a st → Q a st) →
  hoare P m Q.
Proof. intros Hm HP HQ st a st' Hst Hrun. eapply HQ, Hm; eauto. Qed.

Lemma preserves_bind {σ A B} (P : σ → Prop) (m : ST σ A) (k : A → ST σ B) :
  preserves P m → (∀ a, preserves P (k a)) → preserves P (x <- m ;; k x).
Proof. intros Hm Hk. eapply hoare_bind; [exact Hm | exact Hk]. Qed.

Lemma preserves_ret {σ A} (P : σ → Prop) (a : A) : preserves P (ret a).
Proof. now apply hoare_ret. Qed.

Lemma preserves_liftO {σ A} (P : σ → Prop) (o : option A) :
  preserves P (liftO o).
Proof. now apply hoare_liftO. Qed.

Lemma preserves_forEach {σ S X} (P : σ → Prop) (body : S → X → ST σ S) l :
  (∀ s x, preserves P (body s x)) → ∀ s, preserves P (forEach body s l).
Proof.
  intros Hbody. induction l as [|x l IH]; intros s; simpl.
  - apply preserves_ret.
  - apply preserves_bind; [apply Hbody | exact IH].
Qed.

Lemma preserves_forRange {σ S} (P : σ → Prop) (body : S → nat → ST σ S) n :
  (∀ s i, preserves P (body s i)) → ∀ s, preserves P (forRange n body s).
Proof. intros Hbody s. now apply preserves_forEach. Qed.

Lemma preserves_forDown {σ S} (P : σ → Prop) (body : S → nat → ST σ S) n :
  (∀ s i, preserves P (body s i)) → ∀ s, preserves P (forDown n body s).
Proof.
  intros Hbody. induction n as [|n IH]; intros s; simpl.
  - apply preserves_ret.
  - apply preserves_bind; [apply Hbody | exact IH].
Qed.

Lemma preserves_if {σ A} (P : σ → Prop) (b : bool) (m1 m2 : ST σ A) :
  preserves P m1 → preserves P m2 → preserves P (if b then m1 else m2).
Proof. now destruct b. Qed.

(** ** The configuration frame *)

Section FrameProofs.
Context `{Extern}.

Lemma liftR_Some {A} (m : ST RandSrc A) w a w' :
  liftR m w = Some (a, w') ↔
  ∃ r', m (rand w) = Some (a, r') ∧ w' = mkWorld (model w) r'.
Proof.
  unfold liftR. destruct (m (rand w)) as [[a0 r0]|].
  - split; [intros [= <- <-]; eauto | intros (r' & [= <- <-] & ->); reflexivity].
  - split; [discriminate | intros (? & [=] & _)].
Qed.

Lemma preserves_liftR {A} (P : World → Prop) (m : ST RandSrc A) :
  modelOnly P → preserves P (liftR m).
Proof.
  intros HP w a w' Hw Hrun. apply liftR_Some in Hrun as (r' & _ & ->).
  now apply HP.
Qed.

Lemma preserves_getModel (P : World → Prop) : preserves P getModel.
Proof. intros w a w' Hw [= _ <-]. exact Hw. Qed.

Lemma modelOnly_hasConfig c mf : modelOnly (hasConfig c mf).
Proof. intros w r' Hw. exact Hw. Qed.

Lemma modelOnly_hasConfigButTopK c mf : modelOnly (hasConfigButTopK c mf).
Proof. intros w r' Hw. exact Hw. Qed.

Lemma preserves_networkBackward c mf e lr :
  preserves (hasConfig c mf) (networkBackward e lr).
Proof. intros w a w' Hw [= _ <-]. exact Hw. Qed.

Lemma preserves_setTopK c mf k :
  preserves (hasConfigButTopK c mf) (setTopK k).
Proof. intros w a w' [Hc Hm] [= _ <-]. split; [|exact Hm]. exact Hc. Qed.

Lemma hasConfig_weaken c mf w : hasConfig c mf w → hasConfigButTopK c mf w.
Proof. intros [Hc Hm]. split; [now rewrite Hc | exact Hm]. Qed.

Lemma preserves_call {A} (P : World → Prop)
    (method : DiffusionModel → ST RandSrc A) :
  modelOnly P → preserves P (call method).
Proof.
  intros HP. unfold call. apply preserves_bind; [apply preserves_getModel|].
  intros d. now apply preserves_liftR.
Qed.

Ltac frame_step :=
  first [ apply preserves_ret
        | apply preserves_liftO
        | apply preserves_getModel
        | apply preserves_networkBackward
        | apply preserves_setTopK
        | apply preserves_liftR;
          first [apply modelOnly_hasConfig | apply modelOnly_hasConfigButTopK]
        | apply preserves_bind; [|intros ?]
        | apply preserves_forEach; intros ? ?
        | apply preserves_forRange; intros ? ?
        | apply preserves_forDown; intros ? ?
        | apply preserves_if ].

Ltac frame := repeat frame_step.

Lemma preserves_trainSample c mf tokens lr :
  preserves (hasConfig c mf) (trainSample tokens lr).
Proof. unfold trainSample. frame. Qed.

Lemma preserves_Train c mf sentences :
  preserves (hasConfig c mf) (Train sentences).
Proof. unfold Train. frame. Qed.

Lemma preserves_betterSample c mf x0 lr :
  preserves (hasConfig c mf) (betterSample x0 lr).
Proof. unfold betterSample. frame. Qed.

Lemma preserves_TrainBetterDiffusion c mf samples :
  preserves (hasConfig c mf) (TrainBetterDiffusion samples).
Proof. unfold TrainBetterDiffusion. frame. Qed.

Lemma preserves_maskedEpoch c mf sentences tokenizer dConfig tConfig lo to e :
  preserves (hasConfig c mf)
            (maskedEpoch sentences tokenizer dConfig tConfig lo to e).
Proof. unfold maskedEpoch. frame. Qed.

Lemma preserves_trainMaskedDiffusion c mf sentences tokenizer dConfig tConfig
    schedule :
  preserves (hasConfig c mf)
            (trainMaskedDiffusion sentences tokenizer dConfig tConfig schedule).
Proof. unfold trainMaskedDiffusion. frame. Qed.

Lemma preserves_betterPosition c mf preds xcur i :
  preserves (hasConfigButTopK c mf) (betterPosition preds xcur i).
Proof. unfold betterPosition. frame. Qed.

Lemma preserves_betterStep c mf xcur t :
  preserves (hasConfigButTopK c mf) (betterStep xcur t).
Proof. unfold betterStep. frame. Qed.

Lemma preserves_GenerateBetter c mf :
  preserves (hasConfigButTopK c mf) GenerateBetter.
Proof. unfold GenerateBetter. frame. Qed.

End FrameProofs.

Lemma sliceZ_length {A} (lo hi : Z) (s seg : list A) :
  sliceZ lo hi s = Some seg →
  0 ≤ lo ∧ lo ≤ hi ∧ length seg = Z.to_nat (hi - lo).
Proof.
  unfold sliceZ, index, subslice.
  destruct (lo <? 0) eqn:Hlo; [discriminate|].
  destruct (hi <? 0) eqn:Hhi; [discriminate|]. simpl.
  destruct (Z.to_nat lo <=? Z.to_nat hi)%nat eqn:H1; [|discriminate].
  destruct (Z.to_nat hi <=? length s)%nat eqn:H2; [|discriminate].
  simpl. intros [= <-]. apply Nat.leb_le in H1, H2.
  rewrite length_take, length_drop. lia.
Qed.

Lemma sliceZ_lookup {A} (lo hi : Z) (s seg : list A) m :
  sliceZ lo hi s = Some seg → (m < length seg)%nat →
  seg !! m = s !! (Z.to_nat lo + m)%nat.
Proof.
  unfold sliceZ, index, subslice.
  destruct (lo <? 0) eqn:Hlo; [discriminate|].
  destruct (hi <? 0) eqn:Hhi; [discriminate|]. simpl.
  destruct (_ && _); [|discriminate]. intros [= <-] Hm.
  rewrite length_take in Hm. rewrite lookup_take_lt, lookup_drop by lia.
  reflexivity.
Qed.

Lemma store_length {A} i (v : A) l l' : store i v l = Some l' → length l' = length l.
Proof.
  unfold store. destruct (i <? length l)%nat; [|discriminate].
  intros [= <-]. apply length_insert.
Qed.

Section FrameTopK.
Context `{Extern}.
Hypothesis Softmax_length : ∀ l, length (Softmax l) = length l.

Lemma betterProbs_length maskID temperature seg probs :
  betterProbs maskID temperature seg = Some probs → length probs = length seg.
Proof.
  unfold betterProbs. destruct (index _) as [mi|]; [|discriminate]. simpl.
  intros Hs. apply store_length in Hs. rewrite Hs.
  destruct (fltb _ _); now rewrite ?length_map, Softmax_length.
Qed.

Lemma betterPosition_inrange c mf tok preds xcur i :
  1 ≤ TopK c ≤ VocabSize tok →
  preserves (fun w => hasConfig c mf w ∧ Tokenizer (model w) = tok)
            (betterPosition preds xcur i).
Proof.
  intros Hk w a w' [[Hc Hm] Ht] Hrun. unfold betterPosition in Hrun.
  apply bind_Some in Hrun as (d & w1 & [= <- <-] & Hrun).
  apply bind_Some in Hrun as (seg & w2 & Hseg & Hrun).
  apply liftO_Some in Hseg as [Hseg ->].
  apply bind_Some in Hrun as (probs & w3 & Hprobs & Hrun).
  apply liftO_Some in Hprobs as [Hprobs ->].
  destruct (fltb (fsum probs) (1 # 10 ^ 12)).
  { apply liftO_Some in Hrun as [_ ->]. now repeat split. }
  apply sliceZ_length in Hseg as (_ & _ & Hlen).
  apply betterProbs_length in Hprobs.
  rewrite Ht, Z.add_simpl_l in Hlen.
  unfold betterDraw, clampTopK in Hrun.
  apply bind_Some in Hrun as (u0 & w0 & Hclamp & Hrun).
  apply bind_Some in Hclamp as (d0 & w4 & [= <- <-] & Hclamp).
  rewrite Hc in Hclamp.
  destruct (TopK c <? 1) eqn:E1; [lia|].
  apply bind_Some in Hclamp as (u1 & w5 & [= _ <-] & Hclamp).
  apply bind_Some in Hclamp as (d1 & w6 & [= <- <-] & Hclamp).
  rewrite Hc in Hclamp.
  rewrite length_sortDesc, length_imap, length_map, Hprobs, Hlen in Hclamp.
  rewrite Z.gtb_ltb in Hclamp.
  destruct (_ <? TopK c) eqn:E2;
    [apply Z.ltb_lt in E2; clear Hclamp Hrun; lia|].
  apply ret_Some in Hclamp as [_ ->].
  apply bind_Some in Hrun as (d2 & w7 & [= <- <-] & Hrun).
  apply bind_Some in Hrun as (top & w8 & Htop & Hrun).
  apply liftO_Some in Htop as [_ ->].
  apply bind_Some in Hrun as (r & w9 & Hr & Hrun).
  apply liftR_Some in Hr as (r' & _ & ->).
  apply bind_Some in Hrun as (first & w10 & Hf & Hrun).
  apply liftO_Some in Hf as [_ ->].
  apply liftO_Some in Hrun as [_ ->]. now repeat split.
Qed.

Lemma GenerateBetter_inrange c mf tok :
  1 ≤ TopK c ≤ VocabSize tok →
  preserves (fun w => hasConfig c mf w ∧ Tokenizer (model w) = tok)
            GenerateBetter.
Proof.
  intros Hk. unfold GenerateBetter, betterStep.
  assert (HM : modelOnly (fun w => hasConfig c mf w ∧ Tokenizer (model w) = tok))
    by (intros w r' Hw; exact Hw).
  repeat first [ apply preserves_ret
               | apply preserves_liftO
               | apply preserves_getModel
               | apply betterPosition_inrange; exact Hk
               | apply preserves_liftR; exact HM
               | apply preserves_bind; [|intros ?]
               | apply preserves_forRange; intros ? ?
               | apply preserves_forDown; intros ? ?
               | apply preserves_if ].
Qed.

Lemma clampTopK_spec n w w' :
  clampTopK n w = Some (tt, w') →
  TopK (Config (model w')) = clampedInto (TopK (Config (model w))) (Z.of_nat n)
  ∧ Tokenizer (model w') = Tokenizer (model w).
Proof.
  unfold clampTopK, clampedInto. intros Hrun.
  apply bind_Some in Hrun as (d & w1 & [= <- <-] & Hrun).
  apply bind_Some in Hrun as (u1 & w2 & Hlow & Hrun).
  apply bind_Some in Hrun as (d1 & w3 & [= <- <-] & Hrun).
  destruct (TopK (Config (model w)) <? 1) eqn:E1.
  - apply Z.ltb_lt in E1. unfold setTopK in Hlow. injection Hlow as _ <-.
    simpl in Hrun. rewrite Z.gtb_ltb in Hrun.
    destruct (Z.of_nat n <? 1) eqn:E2; unfold setTopK, ret in Hrun;
      injection Hrun as <-; simpl.
    + apply Z.ltb_lt in E2. split; [lia | reflexivity].
    + apply Z.ltb_ge in E2. split; [lia | reflexivity].
  - apply Z.ltb_ge in E1. apply ret_Some in Hlow as [_ ->].
    rewrite Z.gtb_ltb in Hrun.
    destruct (Z.of_nat n <? TopK (Config (model w))) eqn:E2;
      unfold setTopK, ret in Hrun; injection Hrun as <-; simpl.
    + apply Z.ltb_lt in E2. split; [lia | reflexivity].
    + apply Z.ltb_ge in E2. split; [lia | reflexivity].
Qed.

Lemma betterPosition_clamps k tok preds xcur i :
  preserves (clampsTopK k tok) (betterPosition preds xcur i).
Proof.
  intros w a w' [Ht Hk] Hrun. unfold betterPosition in Hrun.
  apply bind_Some in Hrun as (d & w1 & [= <- <-] & Hrun).
  apply bind_Some in Hrun as (seg & w2 & Hseg & Hrun).
  apply liftO_Some in Hseg as [Hseg ->].
  apply bind_Some in Hrun as (probs & w3 & Hprobs & Hrun).
  apply liftO_Some in Hprobs as [Hprobs ->].
  destruct (fltb (fsum probs) (1 # 10 ^ 12)).
  { apply liftO_Some in Hrun as [_ ->]. now split. }
  apply sliceZ_length in Hseg as (_ & Hle & Hlen).
  apply betterProbs_length in Hprobs.
  rewrite Ht, Z.add_simpl_l in Hlen. rewrite Ht in Hle.
  unfold betterDraw in Hrun.
  apply bind_Some in Hrun as ([] & w0 & Hclamp & Hrun).
  apply clampTopK_spec in Hclamp as [Hclamp Htok].
  rewrite length_sortDesc, length_imap, length_map, Hprobs, Hlen in Hclamp.
  rewrite Z2Nat.id in Hclamp by lia.
  apply bind_Some in Hrun as (d2 & w7 & [= <- <-] & Hrun).
  apply bind_Some in Hrun as (top & w8 & Htop & Hrun).
  apply liftO_Some in Htop as [_ ->].
  apply bind_Some in Hrun as (r & w9 & Hr & Hrun).
  apply liftR_Some in Hr as (r' & _ & ->).
  apply bind_Some in Hrun as (first & w10 & Hf & Hrun).
  apply liftO_Some in Hf as [_ ->].
  apply liftO_Some in Hrun as [_ ->]. unfold clampsTopK. simpl.
  split; [congruence|]. right. rewrite Hclamp, <- Ht.
  unfold clampedInto in *. rewrite <- Ht in Hk. destruct Hk as [->| ->]; lia.
Qed.

Lemma GenerateBetter_clamps k tok :
  preserves (clampsTopK k tok) GenerateBetter.
Proof.
  unfold GenerateBetter, betterStep.
  assert (HM : modelOnly (clampsTopK k tok)) by (intros w r' Hw; exact Hw).
  repeat first [ apply preserves_ret
               | apply preserves_liftO
               | apply preserves_getModel
               | apply betterPosition_clamps
               | apply preserves_liftR; exact HM
               | apply preserves_bind; [|intros ?]
               | apply preserves_forRange; intros ? ?
               | apply preserves_forDown; intros ? ?
               | apply preserves_if ].
Qed.

End FrameTopK.

(** C8 as stated fails: [GenerateBetter] on a model configured with
    [TopK = 0] returns with [Config.TopK = 1]. *)
Lemma GenerateBetter_writes_TopK :
  ¬ keepsConfig (H := tableExtern) GenerateBetter.
Proof.
  intros Hkeep.
  assert (Hrun : is_Some (GenerateBetter
                            (mkWorld (withTopK demoModel 0) demoRand)))
    by (vm_compute; eexists; reflexivity).
  destruct Hrun as [[a w'] Hrun].
  destruct (Hkeep _ _ _ Hrun) as [Hc _].
  assert (E : option_map (fun x => TopK (Config (model x.2)))
                (GenerateBetter (mkWorld (withTopK demoModel 0) demoRand))
              = Some (TopK (Config (model w')))) by now rewrite Hrun.
  rewrite Hc in E. vm_compute in E. discriminate.
Qed.

(** A run of [GenerateBetter] need not reach its clamp: under the
    temperature [1e13] every position of the demonstration model takes the
    fall-back, and a [TopK] of 0 is still 0 when the method returns. *)
Lemma GenerateBetter_skips_clamp :
  option_map (fun x => TopK (Config (model x.2)))
    (GenerateBetter (H := tableExtern)
       (mkWorld (withTopK (withTemperature demoModel (inject_Z (10 ^ 13))) 0)
                demoRand))
  = Some 0.
Proof. vm_compute. reflexivity. Qed.

(** C8, amended.  The noising functions, the three trainers, [Generate] and
    [GenerateMasked] leave every field of [Config] and the table
    [MaskFraction] as they found them.  [GenerateBetter] leaves the table and
    every field of [Config] other than [TopK], which it can change only to
    its clamped value: when it returns, [TopK] is either the value it found
    or that value clamped into [[1, VocabSize]].  So [TopK] too is left
    alone when it already lies in [[1, VocabSize]] (for a [Softmax] that
    keeps the length of its row). *)
Theorem config_frame `{Extern} :
  (∀ tokens t, keepsConfig (call (fun d => AddNoise d tokens t)))
  ∧ (∀ tokens tVal, keepsConfig (call (fun d => AddNoiseMasked d tokens tVal)))
  ∧ (∀ x0 t, keepsConfig (call (fun d => BetterAddNoise d x0 t)))
  ∧ keepsConfig (call Generate)
  ∧ keepsConfig (call GenerateMasked)
  ∧ (∀ sentences, keepsConfig (Train sentences))
  ∧ (∀ sentences tokenizer dConfig tConfig schedule,
       keepsConfig (trainMaskedDiffusion sentences tokenizer dConfig tConfig
                                         schedule))
  ∧ (∀ samples, keepsConfig (TrainBetterDiffusion samples))
  ∧ keepsConfigButTopK GenerateBetter
  ∧ ((∀ l, length (Softmax l) = length l) →
     ∀ w a w',
       1 ≤ TopK (Config (model w)) ≤ VocabSize (Tokenizer (model w)) →
       GenerateBetter w = Some (a, w') →
       Config (model w') = Config (model w)
       ∧ MaskFraction (model w') = MaskFraction (model w))
  ∧ ((∀ l, length (Softmax l) = length l) →
     ∀ w a w',
       GenerateBetter w = Some (a, w') →
       TopK (Config (model w')) = TopK (Config (model w))
       ∨ TopK (Config (model w'))
         = clampedInto (TopK (Config (model w)))
                       (VocabSize (Tokenizer (model w)))).
Proof.
  assert (Hcall : ∀ A (m : DiffusionModel → ST RandSrc A), keepsConfig (call m)).
  { intros A m w a w' Hrun.
    eapply (preserves_call (hasConfig _ _) m (modelOnly_hasConfig _ _));
      [|exact Hrun]. split; reflexivity. }
  repeat (split; [intros; apply Hcall|]).
  split.
  { intros sentences w a w' Hrun.
    eapply (preserves_Train _ _ sentences); [|exact Hrun]. now split. }
  split.
  { intros sentences tokenizer dConfig tConfig schedule w a w' Hrun.
    eapply preserves_trainMaskedDiffusion; [|exact Hrun]. now split. }
  split.
  { intros samples w a w' Hrun.
    eapply preserves_TrainBetterDiffusion; [|exact Hrun]. now split. }
  split.
  { intros w a w' Hrun.
    eapply preserves_GenerateBetter; [|exact Hrun]. now split. }
  split.
  { intros Hlen w a w' Hk Hrun.
    eapply (GenerateBetter_inrange Hlen _ _ _ Hk); [|exact Hrun].
    repeat split. }
  intros Hlen w a w' Hrun.
  assert (Hstart : clampsTopK (TopK (Config (model w))) (Tokenizer (model w)) w)
    by (split; [reflexivity | now left]).
  exact (proj2 (GenerateBetter_clamps Hlen _ _ w a w' Hstart Hrun)).
Qed.

(** ** PAD positions under noising *)

Lemma maskedFrom_refl padID maskID clean : maskedFrom padID maskID clean clean.
Proof. split; [reflexivity | auto]. Qed.

Lemma maskedFrom_pad padID maskID clean noisy i :
  maskedFrom padID maskID clean noisy →
  clean !! i = Some padID → noisy !! i = Some padID.
Proof. intros [_ Hm] Hi. destruct (Hm i padID Hi) as [|[_ ?]]; congruence. Qed.

Lemma maskedFrom_store padID maskID clean noisy noisy' i tok :
  maskedFrom padID maskID clean noisy →
  noisy !! i = Some tok → tok ≠ padID →
  store i maskID noisy = Some noisy' →
  maskedFrom padID maskID clean noisy'.
Proof.
  intros [Hlen Hm] Hi Hne Hst. unfold store in Hst.
  destruct (i <? length noisy)%nat eqn:Hlt; [|discriminate].
  injection Hst as <-. apply Nat.ltb_lt in Hlt.
  split; [now rewrite length_insert|].
  intros j tok0 Hj. destruct (decide (j = i)) as [->|Hji].
  - rewrite list_lookup_insert_eq by assumption. right. split; [reflexivity|].
    destruct (Hm i tok0 Hj) as [E|[_ ?]]; [congruence | assumption].
  - rewrite list_lookup_insert_ne by auto. now apply Hm.
Qed.

Section NoisingPad.
Context `{Extern}.

Lemma AddNoise_maskedFrom (d : DiffusionModel) tokens t r noisy r' :
  AddNoise d tokens t r = Some (noisy, r') →
  ∃ fitted,
    fitTokens (MaxLength (Config d)) (vocabAt (Tokenizer d) "[PAD]") tokens
    = Some fitted
    ∧ maskedFrom (vocabAt (Tokenizer d) "[PAD]")
                 (vocabAt (Tokenizer d) "[MASK]") fitted noisy.
Proof.
  unfold AddNoise. intros Hrun.
  apply bind_Some in Hrun as (fitted & r0 & Hfit & Hrun).
  apply liftO_Some in Hfit as [Hfit ->]. exists fitted. split; [exact Hfit|].
  unfold forRange in Hrun.
  eapply (forEach_inv (maskedFrom _ _ fitted)); [|apply maskedFrom_refl|exact Hrun].
  intros s i st s' st' Hs _ Hbody.
  apply bind_Some in Hbody as (u & st1 & _ & Hbody).
  destruct (fltb u _).
  - apply bind_Some in Hbody as (tok & st2 & Htok & Hbody).
    apply liftO_Some in Htok as [Htok ->].
    destruct (Z.eqb_spec tok (vocabAt (Tokenizer d) "[PAD]")) as [->|Hne];
      simpl in Hbody.
    + apply ret_Some in Hbody as [-> _]. exact Hs.
    + apply liftO_Some in Hbody as [Hst _].
      eapply maskedFrom_store; eauto.
  - apply ret_Some in Hbody as [-> _]. exact Hs.
Qed.

Lemma AddNoiseMasked_maskedFrom (d : DiffusionModel) tokens tVal r noisy r' :
  AddNoiseMasked d tokens tVal r = Some (noisy, r') →
  ∃ fitted,
    fitTokens (MaxLength (Config d)) (vocabAt (Tokenizer d) "[PAD]") tokens
    = Some fitted
    ∧ maskedFrom (vocabAt (Tokenizer d) "[PAD]")
                 (vocabAt (Tokenizer d) "[MASK]") fitted noisy.
Proof.
  unfold AddNoiseMasked. intros Hrun.
  apply bind_Some in Hrun as (fitted & r0 & Hfit & Hrun).
  apply liftO_Some in Hfit as [Hfit ->]. exists fitted. split; [exact Hfit|].
  unfold forRange in Hrun.
  eapply (forEach_inv (maskedFrom _ _ fitted)); [|apply maskedFrom_refl|exact Hrun].
  intros s i st s' st' Hs _ Hbody.
  apply bind_Some in Hbody as (tok & st2 & Htok & Hbody).
  apply liftO_Some in Htok as [Htok ->].
  destruct (Z.eqb_spec tok (vocabAt (Tokenizer d) "[PAD]")) as [->|Hne];
    simpl in Hbody.
  - apply ret_Some in Hbody as [-> _]. exact Hs.
  - apply bind_Some in Hbody as (u & st1 & _ & Hbody).
    destruct (fltb u tVal).
    + apply liftO_Some in Hbody as [Hst _]. eapply maskedFrom_store; eauto.
    + apply ret_Some in Hbody as [-> _]. exact Hs.
Qed.

Lemma BetterAddNoise_maskedFrom (d : DiffusionModel) x0 t r noisy r' :
  BetterAddNoise d x0 t r = Some (noisy, r') →
  maskedFrom (vocabAt (Tokenizer d) "[PAD]") (vocabAt (Tokenizer d) "[MASK]")
             x0 noisy.
Proof.
  unfold BetterAddNoise. intros Hrun.
  apply bind_Some in Hrun as (f & r0 & _ & Hrun).
  destruct (fleb f 0).
  { apply ret_Some in Hrun as [-> _]. apply maskedFrom_refl. }
  apply bind_Some in Hrun as (idxes & r1 & Hsh & Hrun).
  destruct (randShuffle_perm (nonPadFrom (vocabAt (Tokenizer d) "[PAD]") 0 x0) r0)
    as (idxes' & r1' & Hsh' & Hperm).
  rewrite Hsh in Hsh'. injection Hsh' as <- <-.
  unfold forRange in Hrun.
  eapply (forEach_inv (maskedFrom _ _ x0)); [|apply maskedFrom_refl|exact Hrun].
  intros s i st s' st' Hs _ Hbody.
  apply bind_Some in Hbody as (ix & st1 & Hix & Hbody).
  apply liftO_Some in Hix as [Hix ->].
  apply liftO_Some in Hbody as [Hst _].
  assert (Hin : ix ∈ nonPadFrom (vocabAt (Tokenizer d) "[PAD]") 0 x0).
  { rewrite <- Hperm. eapply list_elem_of_lookup_2, Hix. }
  apply elem_of_nonPadFrom in Hin as (_ & tok & Htok & Hne).
  rewrite Nat.sub_0_r in Htok.
  destruct Hs as [Hlen Hm].
  destruct (Hm ix tok Htok) as [Hn|[Hn _]].
  - eapply maskedFrom_store; [split; eassumption|exact Hn|exact Hne|exact Hst].
  - (* the position already holds MASK: storing MASK again changes nothing *)
    unfold store in Hst. destruct (ix <? length s)%nat; [|discriminate].
    injection Hst as <-. rewrite list_insert_id by exact Hn. now split.
Qed.

End NoisingPad.

(** ** The segments of the flat error-term tensor *)

Lemma forEachO_inv {S X} (I : S → Prop) (body : S → X → option S) l :
  (∀ s x s1, I s → x ∈ l → body s x = Some s1 → I s1) →
  ∀ s s1, I s → forEachO body s l = Some s1 → I s1.
Proof.
  induction l as [|x l IH]; intros Hbody s s1 Hs Hrun; simpl in Hrun.
  - now injection Hrun as <-.
  - destruct (body s x) as [s2|] eqn:Hb; [|discriminate]. simpl in Hrun.
    eapply IH; [|eapply Hbody; [exact Hs| |exact Hb]|exact Hrun].
    + intros. eapply Hbody; eauto. now right.
    + now left.
Qed.

Lemma writeSegment_from (value : nat → option Q) (start : Z) a n et et1 :
  0 ≤ start →
  forEachO (fun et m =>
              v ← value m; ix ← index (start + Z.of_nat m); store ix v et)
           et (seq a n) = Some et1 →
  length et1 = length et
  ∧ (∀ j, (j < Z.to_nat start + a ∨ Z.to_nat start + a + n ≤ j)%nat →
          et1 !! j = et !! j)
  ∧ (∀ m, (a ≤ m < a + n)%nat → et1 !! (Z.to_nat start + m)%nat = value m).
Proof.
  intros Hstart. revert a et. induction n as [|n IH]; intros a et Hrun.
  - injection Hrun as <-. repeat split; auto. intros m Hm. lia.
  - cbn [seq forEachO] in Hrun.
    destruct (value a) as [v|] eqn:Hv; [|discriminate]. simpl in Hrun.
    unfold index in Hrun.
    destruct (start + Z.of_nat a <? 0) eqn:Hneg;
      [apply Z.ltb_lt in Hneg; lia|]. simpl in Hrun.
    replace (Z.to_nat (start + Z.of_nat a)) with (Z.to_nat start + a)%nat
      in Hrun by lia.
    destruct (store (Z.to_nat start + a) v et) as [et2|] eqn:Hst;
      [|discriminate]. simpl in Hrun.
    destruct (IH _ _ Hrun) as (Hlen & Hout & Hin).
    unfold store in Hst.
    destruct (Z.to_nat start + a <? length et)%nat eqn:Hlt; [|discriminate].
    injection Hst as <-. apply Nat.ltb_lt in Hlt.
    rewrite length_insert in Hlen. split; [exact Hlen|]. split.
    + intros j Hj. rewrite Hout by lia. apply list_lookup_insert_ne. lia.
    + intros m Hm. destruct (decide (m = a)) as [->|Hne].
      * rewrite Hout by lia. rewrite list_lookup_insert_eq by assumption.
        now rewrite Hv.
      * apply Hin. lia.
Qed.

Lemma writeSegment_spec value start vocabSize et et1 :
  0 ≤ start →
  writeSegment value start vocabSize et = Some et1 →
  length et1 = length et
  ∧ (∀ j, (j < Z.to_nat start ∨ Z.to_nat start + Z.to_nat vocabSize ≤ j)%nat →
          et1 !! j = et !! j)
  ∧ (∀ m, (m < Z.to_nat vocabSize)%nat →
          et1 !! (Z.to_nat start + m)%nat = value m).
Proof.
  intros Hstart Hrun. unfold writeSegment in Hrun.
  apply writeSegment_from in Hrun as (Hlen & Hout & Hin); [|exact Hstart].
  split; [exact Hlen|]. split.
  - intros j Hj. apply Hout. lia.
  - intros m Hm. apply Hin. lia.
Qed.

(** Writing the segment of position [k2] keeps a zero segment at another
    position [k]. *)
Lemma writeSegment_other value vocabSize k k2 et et1 :
  k ≠ k2 →
  writeSegment value (Z.of_nat k2 * vocabSize) vocabSize et = Some et1 →
  zeroSegment vocabSize k et → zeroSegment vocabSize k et1.
Proof.
  intros Hne Hrun Hz m Hm.
  assert (Hpos : 0 < vocabSize) by lia.
  apply writeSegment_spec in Hrun as (_ & Hout & _);
    [|apply Z.mul_nonneg_nonneg; lia].
  rewrite Hout; [now apply Hz|].
  assert (Z.of_nat k < Z.of_nat k2 ∨ Z.of_nat k2 < Z.of_nat k) as [Hlt|Hlt]
    by lia; [left | right]; nia.
Qed.

Lemma writeZeros_zero vocabSize k et et1 :
  writeZeros (Z.of_nat k * vocabSize) vocabSize et = Some et1 →
  zeroSegment vocabSize k et1.
Proof.
  intros Hrun m Hm. assert (Hpos : 0 < vocabSize) by lia.
  apply writeSegment_spec in Hrun as (_ & _ & Hin);
    [|apply Z.mul_nonneg_nonneg; lia]. now apply Hin.
Qed.

Lemma zeroSegment_make maxLength vocabSize k et :
  makeSlice (maxLength * vocabSize) 0%Q = Some et →
  (k < Z.to_nat maxLength)%nat → zeroSegment vocabSize k et.
Proof.
  unfold makeSlice. destruct (_ <? 0); [discriminate|]. intros [= <-] Hk m Hm.
  apply lookup_replicate_2. nia.
Qed.

(** ** PAD positions in the masked-loss trainers *)

Lemma fitTokens_lookup maxLength padID tokens fitted k tok :
  fitTokens maxLength padID tokens = Some fitted →
  tokens !! k = Some tok →
  fitted !! k = Some tok ∨ fitted !! k = None.
Proof.
  unfold fitTokens, makeSlice. destruct (maxLength <? 0); [discriminate|].
  simpl. intros Hfit Hk.
  destruct (Z.of_nat (length tokens) >? maxLength); injection Hfit as <-.
  - destruct (decide (k < Z.to_nat maxLength)%nat).
    + left. now rewrite lookup_take_lt.
    + right. apply lookup_take_ge. lia.
  - left. now apply lookup_app_l_Some.
Qed.

Section TrainerPad.
Context `{Extern}.

Lemma maskedLossStep_not_mask tokenizer tConfig noisy targets output acc acc1 k :
  noisy !! k ≠ Some (vocabAt tokenizer "[MASK]") →
  maskedLossStep tokenizer tConfig noisy targets output acc k = Some acc1 →
  acc1.1 = acc.1 ∧ zeroSegment (TVocabSize tConfig) k acc1.2.
Proof.
  intros Hnm. unfold maskedLossStep.
  destruct (noisy !! k) as [nk|]; [|discriminate]. simpl.
  destruct (Z.eqb_spec nk (vocabAt tokenizer "[MASK]")) as [->|_];
    [congruence|].
  destruct (writeZeros _ _ _) as [terms|] eqn:Hw; [|discriminate].
  simpl. intros [= <-]. split; [reflexivity|]. simpl.
  eapply writeZeros_zero, Hw.
Qed.

Lemma maskedLossStep_other tokenizer tConfig noisy targets output acc acc1 k k2 :
  k ≠ k2 →
  maskedLossStep tokenizer tConfig noisy targets output acc k2 = Some acc1 →
  zeroSegment (TVocabSize tConfig) k acc.2 →
  zeroSegment (TVocabSize tConfig) k acc1.2.
Proof.
  intros Hne. unfold maskedLossStep.
  destruct (noisy !! k2) as [nk|]; [|discriminate]. simpl.
  destruct (nk =? vocabAt tokenizer "[MASK]").
  - destruct (output !! 0%nat) as [row|]; [|discriminate]. simpl.
    destruct (sliceZ _ _ row) as [seg|]; [|discriminate]. simpl.
    destruct (targets !! k2) as [target|]; [|discriminate]. simpl.
    destruct (logProb _ target) as [lp|]; [|discriminate]. simpl.
    destruct (writeDeltas _ _ _ _ _) as [terms|] eqn:Hw; [|discriminate].
    simpl. intros [= <-] Hz. simpl. eapply writeSegment_other; eauto.
  - destruct (writeZeros _ _ _) as [terms|] eqn:Hw; [|discriminate].
    simpl. intros [= <-] Hz. simpl. eapply writeSegment_other; eauto.
Qed.

(** After the position loop of a task on one sample, the segment of every
    position whose noised token is not MASK is zero. *)
Lemma maskedLoss_sample tokenizer dConfig tConfig noisy targets output
    loss terms res k :
  makeSlice (MaxLength dConfig * TVocabSize tConfig) 0%Q = Some terms →
  forEachO (maskedLossStep tokenizer tConfig noisy targets output)
           (loss, terms) (seq 0 (Z.to_nat (MaxLength dConfig))) = Some res →
  (k < Z.to_nat (MaxLength dConfig))%nat →
  noisy !! k ≠ Some (vocabAt tokenizer "[MASK]") →
  zeroSegment (TVocabSize tConfig) k res.2.
Proof.
  intros Hmake Hrun Hk Hnm.
  eapply (forEachO_inv (fun acc => zeroSegment (TVocabSize tConfig) k acc.2));
    [| |exact Hrun].
  - intros acc k2 acc1 Hacc _ Hstep.
    destruct (decide (k = k2)) as [<-|Hne].
    + eapply maskedLossStep_not_mask; eauto.
    + eapply maskedLossStep_other; eauto.
  - simpl. eapply zeroSegment_make; eauto.
Qed.

(** A PAD of the clean sequence is never MASK in the noised one. *)
Lemma AddNoiseMasked_pad_not_mask (d : DiffusionModel) tokenizer tokens tVal
    r noisy r' k :
  reservedIds (Tokenizer d) → reservedIds tokenizer →
  AddNoiseMasked d tokens tVal r = Some (noisy, r') →
  tokens !! k = Some (vocabAt tokenizer "[PAD]") →
  noisy !! k ≠ Some (vocabAt tokenizer "[MASK]").
Proof.
  intros Hd Ht Hrun Hk.
  apply AddNoiseMasked_maskedFrom in Hrun as (fitted & Hfit & Hm).
  rewrite (reservedIds_pad _ Hd) in *. rewrite (reservedIds_pad _ Ht) in Hk.
  rewrite (reservedIds_mask _ Ht).
  destruct (fitTokens_lookup _ _ _ _ _ _ Hfit Hk) as [Hf|Hf].
  - rewrite (maskedFrom_pad _ _ _ _ _ Hm Hf). discriminate.
  - destruct Hm as [Hlen _]. apply lookup_ge_None in Hf.
    rewrite (proj2 (lookup_ge_None noisy k)) by lia. discriminate.
Qed.

Lemma BetterAddNoise_pad_not_mask (d : DiffusionModel) x0 t r xt r' k :
  reservedIds (Tokenizer d) →
  BetterAddNoise d x0 t r = Some (xt, r') →
  x0 !! k = Some (vocabAt (Tokenizer d) "[PAD]") →
  xt !! k = Some (vocabAt (Tokenizer d) "[PAD]")
  ∧ vocabAt (Tokenizer d) "[PAD]" ≠ vocabAt (Tokenizer d) "[MASK]".
Proof.
  intros Hd Hrun Hk. apply BetterAddNoise_maskedFrom in Hrun.
  split; [eapply maskedFrom_pad; eauto|].
  rewrite (reservedIds_pad _ Hd), (reservedIds_mask _ Hd). discriminate.
Qed.

Lemma betterLossStep_not_mask (d : DiffusionModel) x0 preds acc it :
  it.2 ≠ vocabAt (Tokenizer d) "[MASK]" →
  betterLossStep d x0 preds acc it = Some acc.
Proof.
  intros Hne. unfold betterLossStep.
  destruct (Z.eqb_spec it.2 (vocabAt (Tokenizer d) "[MASK]")); [contradiction|].
  reflexivity.
Qed.

Lemma betterLossStep_other (d : DiffusionModel) x0 preds acc acc1 it k :
  k ≠ it.1 →
  betterLossStep d x0 preds acc it = Some acc1 →
  zeroSegment (VocabSize (Tokenizer d)) k acc.2 →
  zeroSegment (VocabSize (Tokenizer d)) k acc1.2.
Proof.
  intros Hne. unfold betterLossStep.
  destruct (it.2 =? vocabAt (Tokenizer d) "[MASK]"); [|now intros [= <-]].
  destruct (sliceZ _ _ preds) as [seg|]; [|discriminate]. simpl.
  destruct (x0 !! it.1) as [target|]; [|discriminate]. simpl.
  destruct (logProb _ target) as [lp|]; [|discriminate]. simpl.
  destruct (writeDeltas _ _ _ _ _) as [terms|] eqn:Hw; [|discriminate].
  simpl. intros [= <-] Hz. simpl. eapply writeSegment_other; eauto.
Qed.

(** After the loss loop of [TrainBetterDiffusion] on one sample, the segment
    of every position of [xt] that is not MASK is zero. *)
Lemma betterLoss_not_mask (d : DiffusionModel) x0 xt preds res k tok :
  betterLoss d x0 xt preds = Some res →
  (k < Z.to_nat (MaxLength (Config d)))%nat →
  xt !! k = Some tok → tok ≠ vocabAt (Tokenizer d) "[MASK]" →
  zeroSegment (VocabSize (Tokenizer d)) k res.2.
Proof.
  unfold betterLoss. intros Hrun Hk Hxt Hne.
  destruct (makeSlice _ 0%Q) as [terms|] eqn:Hmake; [|discriminate].
  simpl in Hrun.
  eapply (forEachO_inv
            (fun acc => zeroSegment (VocabSize (Tokenizer d)) k acc.2));
    [| |exact Hrun].
  - intros acc [i tk] acc1 Hacc Hin Hstep.
    apply list_elem_of_lookup in Hin as [j Hj].
    rewrite list_lookup_imap in Hj.
    destruct (xt !! j) as [tj|] eqn:Hxj; [|discriminate].
    injection Hj as <- <-.
    destruct (decide (k = j)) as [<-|Hkj].
    + rewrite betterLossStep_not_mask in Hstep by (simpl; congruence).
      now injection Hstep as <-.
    + eapply betterLossStep_other; [|exact Hstep|exact Hacc]. exact Hkj.
  - simpl. eapply zeroSegment_make; eauto.
Qed.

Lemma reshape_zero (d : DiffusionModel) errorTerms shaped k row :
  reshape d errorTerms = Some shaped →
  shaped !! k = Some row →
  zeroSegment (VocabSize (Tokenizer d)) k errorTerms →
  Forall (fun x => x = 0%Q) row.
Proof.
  unfold reshape. intros Hre Hk Hz.
  apply mapM_Some in Hre.
  destruct (Forall2_lookup_r _ _ _ _ _ Hre Hk) as (i & Hi & Hrow).
  apply lookup_seq in Hi as [-> _]. simpl in Hrow.
  pose proof (sliceZ_length _ _ _ _ Hrow) as (Hlo & _ & Hlen).
  rewrite Z.add_simpl_l in Hlen.
  apply Forall_lookup. intros m x Hm.
  assert (Hmlt : (m < length row)%nat) by (eapply lookup_lt_Some, Hm).
  rewrite (sliceZ_lookup _ _ _ _ _ Hrow Hmlt) in Hm.
  rewrite Hz in Hm by lia. congruence.
Qed.

End TrainerPad.

Lemma forEach_collect {σ X Y} (R : X → Y → Prop)
    (body : list Y → X → ST σ (list Y)) l :
  (∀ acc x st acc1 st1, body acc x st = Some (acc1, st1) →
                        ∃ y, acc1 = acc ++ [y] ∧ R x y) →
  ∀ acc st res st1, forEach body acc l st = Some (res, st1) →
                    ∃ ys, res = acc ++ ys ∧ Forall2 R l ys.
Proof.
  intros Hbody. induction l as [|x l IH]; intros acc st res st1 Hrun.
  - apply ret_Some in Hrun as [-> _]. exists []. now rewrite app_nil_r.
  - simpl in Hrun. apply bind_Some in Hrun as (acc1 & st2 & Hb & Hrest).
    apply Hbody in Hb as (y & -> & Hy).
    apply IH in Hrest as (ys & -> & Hys).
    exists (y :: ys). rewrite <- app_assoc. split; [reflexivity|].
    now constructor.
Qed.

Lemma forEachO_collect {S X Y} (R : X → Y → Prop)
    (body : S * list Y → X → option (S * list Y)) l :
  (∀ acc x acc1, body acc x = Some acc1 →
                 ∃ y, acc1.2 = acc.2 ++ [y] ∧ R x y) →
  ∀ acc res, forEachO body acc l = Some res →
             ∃ ys, res.2 = acc.2 ++ ys ∧ Forall2 R l ys.
Proof.
  intros Hbody. induction l as [|x l IH]; intros acc res Hrun; simpl in Hrun.
  - injection Hrun as <-. exists []. now rewrite app_nil_r.
  - destruct (body acc x) as [acc1|] eqn:Hb; [|discriminate]. simpl in Hrun.
    apply Hbody in Hb as (y & Hy & HR).
    apply IH in Hrun as (ys & -> & Hys). rewrite Hy.
    exists (y :: ys). rewrite <- app_assoc. split; [reflexivity|].
    now constructor.
Qed.

Section TaskPad.
Context `{Extern}.

(** In what a task sends, the segment of every PAD position of every sample
    of its batch is zero. *)
Lemma maskedTask_pad (d : DiffusionModel) tokenizer dConfig tConfig batch idx
    r loss terms idx' r' j tokens et k :
  reservedIds (Tokenizer d) → reservedIds tokenizer →
  maskedTask d tokenizer dConfig tConfig batch idx r
  = Some ((loss, (terms, idx')), r') →
  batch !! j = Some tokens → terms !! j = Some et →
  tokens !! k = Some (vocabAt tokenizer "[PAD]") →
  (k < Z.to_nat (MaxLength dConfig))%nat →
  zeroSegment (TVocabSize tConfig) k et.
Proof.
  intros Hd Ht Hrun Hj Het Hk HkL. unfold maskedTask in Hrun.
  apply bind_Some in Hrun as (noised & r1 & Hnoise & Hrun).
  apply bind_Some in Hrun as (res & r2 & Hres & Hrun).
  apply liftO_Some in Hres as [Hres ->].
  apply ret_Some in Hrun as [[= _ -> _] _].
  apply (forEach_collect
           (fun tokens (ni : list Z * list Q) =>
              ∃ tVal r0 r1, AddNoiseMasked d tokens tVal r0 = Some (ni.1, r1)))
    in Hnoise as (ys & Hys & Hall).
  2:{ intros acc x st acc1 st1 Hb.
      apply bind_Some in Hb as (tVal & s1 & _ & Hb).
      apply bind_Some in Hb as (noisy & s2 & Hn & Hb).
      apply bind_Some in Hb as (i0 & s3 & _ & Hb).
      apply bind_Some in Hb as (i1 & s4 & _ & Hb).
      apply ret_Some in Hb as [-> _]. eexists. split; [reflexivity|].
      simpl. eauto. }
  simpl in Hys. subst ys.
  unfold maskedLoss in Hres.
  apply (forEachO_collect
           (fun (sample : list Z * (list Z * list (list Q))) (et : list Q) =>
              ∀ k, (k < Z.to_nat (MaxLength dConfig))%nat →
                   sample.1 !! k ≠ Some (vocabAt tokenizer "[MASK]") →
                   zeroSegment (TVocabSize tConfig) k et))
    in Hres as (ets & Hets & Hall2).
  2:{ intros acc [noisy [targets output]] acc1 Hb.
      destruct (makeSlice _ 0%Q) as [terms0|] eqn:Hmake; [|discriminate].
      simpl in Hb.
      destruct (forEachO (maskedLossStep _ _ _ _ _) _ _) as [res0|] eqn:Hloop;
        [|discriminate].
      simpl in Hb. injection Hb as <-. eexists. split; [reflexivity|].
      intros k0 Hk0 Hnm. simpl in Hnm. simpl.
      eapply maskedLoss_sample; eauto. }
  simpl in Hets. subst ets.
  destruct (Forall2_lookup_r _ _ _ _ _ Hall2 Het) as (sample & Hsample & Hz).
  apply Hz; [exact HkL|].
  apply lookup_zip_with_Some in Hsample as (noisy & rest & -> & Hnoisy & Hrest).
  apply lookup_zip_with_Some in Hrest as (tokens' & output & -> & Htok & _).
  rewrite Hj in Htok. injection Htok as <-. simpl.
  rewrite list_lookup_fmap in Hnoisy.
  destruct (noised !! j) as [ni|] eqn:Hni; [|discriminate].
  injection Hnoisy as <-.
  destruct (Forall2_lookup_lr _ _ _ _ _ _ Hall Hj Hni) as (tVal & r0 & r3 & Hadd).
  eapply AddNoiseMasked_pad_not_mask; eauto.
Qed.

(** The error terms [TrainBetterDiffusion] hands to [Backward] for a sample
    have an all-zero row at every PAD position of the sample. *)
Lemma betterSample_pad (d : DiffusionModel) x0 lr r loss shaped w' k row :
  reservedIds (Tokenizer d) →
  betterSample x0 lr (mkWorld d r) = Some ((loss, shaped), w') →
  x0 !! k = Some (vocabAt (Tokenizer d) "[PAD]") →
  shaped !! k = Some row →
  Forall (fun x => x = 0%Q) row.
Proof.
  intros Hd Hrun Hk Hrow. unfold betterSample in Hrun.
  apply bind_Some in Hrun as (d0 & w0 & [= <- <-] & Hrun).
  apply bind_Some in Hrun as (t & w1 & _ & Hrun).
  apply bind_Some in Hrun as (xt & w2 & Hxt & Hrun).
  apply liftR_Some in Hxt as (r2 & Hxt & _).
  apply bind_Some in Hrun as (rows & w3 & _ & Hrun).
  apply bind_Some in Hrun as (filled & w4 & _ & Hrun).
  apply bind_Some in Hrun as (preds & w5 & _ & Hrun).
  apply bind_Some in Hrun as (res & w6 & Hres & Hrun).
  apply liftO_Some in Hres as [Hres _].
  apply bind_Some in Hrun as (shaped0 & w7 & Hsh & Hrun).
  apply liftO_Some in Hsh as [Hsh _].
  apply bind_Some in Hrun as (u & w8 & _ & Hrun).
  apply ret_Some in Hrun as [[= _ <-] _].
  destruct (BetterAddNoise_pad_not_mask _ _ _ _ _ _ _ Hd Hxt Hk) as [Hxk Hne].
  eapply reshape_zero; [exact Hsh | exact Hrow |].
  eapply betterLoss_not_mask; [exact Hres | | exact Hxk | exact Hne].
  unfold reshape in Hsh. apply mapM_length in Hsh.
  rewrite length_seq in Hsh. apply lookup_lt_Some in Hrow. lia.
Qed.

End TaskPad.

(** C3 as stated fails for the basic trainer: [Train] computes loss and error
    terms at every position.  For the clean sequence [[4; 5; 0; 0]] the row of
    error terms at position 2, which holds PAD, is not zero. *)
Lemma Train_pad_contributes :
  ∃ loss errorTerms w' row,
    trainSample (H := tableExtern) [4; 5; 0; 0] (1 # 100)
                (mkWorld denseModel demoRand)
    = Some ((loss, errorTerms), w')
    ∧ [4; 5; 0; 0] !! 2%nat = Some (vocabAt (Tokenizer denseModel) "[PAD]")
    ∧ errorTerms !! 2%nat = Some row
    ∧ ¬ Forall (fun x => x = 0%Q) row.
Proof.
  eexists _, _, _, _.
  split; [vm_compute; reflexivity|].
  split; [vm_compute; reflexivity|].
  split; [vm_compute; reflexivity|].
  intros HF. inversion HF as [|x l Hx _]. discriminate Hx.
Qed.

(** C3, amended.  No noising function writes MASK over PAD: the noised
    sequence is the clean one (cut or padded to [MaxLength] by [AddNoise] and
    [AddNoiseMasked]) with MASK at some positions that do not hold PAD.  In
    the two masked-loss trainers a PAD position of the clean sequence leaves
    the loss accumulator as it is and gets zero error terms: in a task of
    [trainMaskedDiffusion] the step of such a position keeps the loss, and
    in what the task sends its segment is zero; in [TrainBetterDiffusion]
    the step of such a position changes nothing, and its row of the tensor
    handed to [Backward] is zero.  (The basic [Train] is dense: it takes loss
    and error terms at every position.) *)
Theorem pad_invariant `{Extern} (d : DiffusionModel) :
  reservedIds (Tokenizer d) →
  let padID := vocabAt (Tokenizer d) "[PAD]" in
  let maskID := vocabAt (Tokenizer d) "[MASK]" in
  (∀ tokens t r noisy r',
     AddNoise d tokens t r = Some (noisy, r') →
     ∃ fitted, fitTokens (MaxLength (Config d)) padID tokens = Some fitted
               ∧ maskedFrom padID maskID fitted noisy
               ∧ ∀ i, fitted !! i = Some padID → noisy !! i = Some padID)
  ∧ (∀ tokens tVal r noisy r',
       AddNoiseMasked d tokens tVal r = Some (noisy, r') →
       ∃ fitted, fitTokens (MaxLength (Config d)) padID tokens = Some fitted
                 ∧ maskedFrom padID maskID fitted noisy
                 ∧ ∀ i, fitted !! i = Some padID → noisy !! i = Some padID)
  ∧ (∀ x0 t r noisy r',
       BetterAddNoise d x0 t r = Some (noisy, r') →
       maskedFrom padID maskID x0 noisy
       ∧ ∀ i, x0 !! i = Some padID → noisy !! i = Some padID)
  ∧ (∀ tokenizer tConfig tokens tVal r noisy r' output acc acc1 k,
       reservedIds tokenizer →
       AddNoiseMasked d tokens tVal r = Some (noisy, r') →
       tokens !! k = Some (vocabAt tokenizer "[PAD]") →
       maskedLossStep tokenizer tConfig noisy tokens output acc k = Some acc1 →
       acc1.1 = acc.1 ∧ zeroSegment (TVocabSize tConfig) k acc1.2)
  ∧ (∀ tokenizer dConfig tConfig batch idx r loss terms idx' r' j tokens et k,
       reservedIds tokenizer →
       maskedTask d tokenizer dConfig tConfig batch idx r
       = Some ((loss, (terms, idx')), r') →
       batch !! j = Some tokens → terms !! j = Some et →
       tokens !! k = Some (vocabAt tokenizer "[PAD]") →
       (k < Z.to_nat (MaxLength dConfig))%nat →
       zeroSegment (TVocabSize tConfig) k et)
  ∧ (∀ x0 t r xt r' preds acc k tok,
       BetterAddNoise d x0 t r = Some (xt, r') →
       x0 !! k = Some padID → xt !! k = Some tok →
       betterLossStep d x0 preds acc (k, tok) = Some acc)
  ∧ (∀ x0 lr r loss shaped w' k row,
       betterSample x0 lr (mkWorld d r) = Some ((loss, shaped), w') →
       x0 !! k = Some padID → shaped !! k = Some row →
       Forall (fun x => x = 0%Q) row).
Proof.
  intros Hd padID maskID.
  split.
  { intros tokens t r noisy r' Hrun.
    apply AddNoise_maskedFrom in Hrun as (fitted & Hfit & Hm).
    exists fitted. split; [exact Hfit|]. split; [exact Hm|].
    intros i. apply (maskedFrom_pad _ _ _ _ _ Hm). }
  split.
  { intros tokens tVal r noisy r' Hrun.
    apply AddNoiseMasked_maskedFrom in Hrun as (fitted & Hfit & Hm).
    exists fitted. split; [exact Hfit|]. split; [exact Hm|].
    intros i. apply (maskedFrom_pad _ _ _ _ _ Hm). }
  split.
  { intros x0 t r noisy r' Hrun.
    apply BetterAddNoise_maskedFrom in Hrun. split; [exact Hrun|].
    intros i. apply (maskedFrom_pad _ _ _ _ _ Hrun). }
  split.
  { intros tokenizer tConfig tokens tVal r noisy r' output acc acc1 k
           Ht Hrun Hk Hstep.
    eapply maskedLossStep_not_mask; [|exact Hstep].
    eapply AddNoiseMasked_pad_not_mask; eauto. }
  split.
  { intros tokenizer dConfig tConfig batch idx r loss terms idx' r' j tokens
           et k Ht Hrun Hj Het Hk HkL.
    eapply maskedTask_pad; eauto. }
  split.
  { intros x0 t r xt r' preds acc k tok Hrun Hk Hxt.
    destruct (BetterAddNoise_pad_not_mask _ _ _ _ _ _ _ Hd Hrun Hk) as [Hx Hne].
    apply betterLossStep_not_mask. simpl. congruence. }
  intros x0 lr r loss shaped w' k row Hrun Hk Hrow.
  eapply betterSample_pad; eauto.
Qed.

Lemma pad_invariant_witness :
  reservedIds (Tokenizer demoModel)
  ∧ ∃ loss shaped w' row,
      betterSample (H := tableExtern) [4; 5; 0; 0] (1 # 10)
                   (mkWorld demoModel demoRand)
      = Some ((loss, shaped), w')
      ∧ [4; 5; 0; 0] !! 2%nat = Some (vocabAt (Tokenizer demoModel) "[PAD]")
      ∧ shaped !! 2%nat = Some row
      ∧ Forall (fun x => x = 0%Q) row.
Proof.
  assert (Hres : reservedIds (Tokenizer demoModel))
    by (split; vm_compute; reflexivity).
  split; [exact Hres|].
  assert (Hrun : ∃ loss shaped w' row,
             betterSample (H := tableExtern) [4; 5; 0; 0] (1 # 10)
                          (mkWorld demoModel demoRand)
             = Some ((loss, shaped), w')
             ∧ shaped !! 2%nat = Some row).
  { eexists _, _, _, _. split; [vm_compute; reflexivity | reflexivity]. }
  destruct Hrun as (loss & shaped & w' & row & E & Hrow).
  assert (Hk : [4; 5; 0; 0] !! 2%nat
               = Some (vocabAt (Tokenizer demoModel) "[PAD]"))
    by (vm_compute; reflexivity).
  exists loss, shaped, w', row.
  split; [exact E|]. split; [exact Hk|]. split; [exact Hrow|].
  exact (proj2 (proj2 (proj2 (proj2 (proj2 (proj2
           (pad_invariant (H := tableExtern) demoModel Hres))))))
           _ _ _ _ _ _ _ _ E Hk Hrow).
Defined.

Lemma config_frame_witness :
  (∀ l, length (@Softmax tableExtern l) = length l)
  ∧ 1 ≤ TopK (Config demoModel) ≤ VocabSize (Tokenizer demoModel)
  ∧ ∃ xcur w',
      GenerateBetter (mkWorld demoModel demoRand) = Some (xcur, w')
      ∧ Config (model w') = Config demoModel
      ∧ MaskFraction (model w') = MaskFraction demoModel.
Proof.
  assert (H1 : ∀ l, length (@Softmax tableExtern l) = length l)
    by (intros l; apply length_map).
  assert (H2 : 1 ≤ TopK (Config demoModel) ≤ VocabSize (Tokenizer demoModel))
    by (vm_compute; split; discriminate).
  split; [exact H1|]. split; [exact H2|].
  assert (Hrun : ∃ xcur w',
             GenerateBetter (mkWorld demoModel demoRand) = Some (xcur, w'))
    by (eexists _, _; vm_compute; reflexivity).
  destruct Hrun as (xcur & w' & Hrun). exists xcur, w'.
  split; [exact Hrun|].
  destruct (config_frame (H := tableExtern))
    as (_ & _ & _ & _ & _ & _ & _ & _ & _ & Hlast & _).
  exact (Hlast H1 (mkWorld demoModel demoRand) xcur w' H2 Hrun).
Defined.

(** ** Aggregation of the error terms *)

Section Aggregation.
Local Opaque batchSize.

Lemma batchSize_pos : (0 < batchSize)%nat.
Proof. Local Transparent batchSize. unfold batchSize. lia. Qed.
Local Opaque batchSize.

Lemma placeFrom_spec (start o : nat) (rows acc : list (list Q)) :
  let acc1 :=
    foldl (fun acc (jt : nat * list Q) =>
             if (start + jt.1 <? length acc)%nat
             then <[(start + jt.1)%nat := jt.2]> acc else acc)
          acc (imap (fun j row => ((o + j)%nat, row)) rows) in
  length acc1 = length acc
  ∧ (∀ i, ¬ (start + o ≤ i < start + o + length rows)%nat →
          acc1 !! i = acc !! i)
  ∧ (∀ j row, rows !! j = Some row → (start + o + j < length acc)%nat →
              acc1 !! (start + o + j)%nat = Some row).
Proof.
  revert o acc. induction rows as [|x rest IH]; intros o acc; simpl.
  - repeat split; auto. intros j row Hj. discriminate.
  - rewrite Nat.add_0_r.
    rewrite (imap_ext _ (fun j row => ((S o + j)%nat, row)))
      by (intros; unfold compose; simpl; f_equal; lia).
    destruct (start + o <? length acc)%nat eqn:Hlt.
    + apply Nat.ltb_lt in Hlt.
      destruct (IH (S o) (<[(start + o)%nat := x]> acc)) as (Hlen & Hout & Hin).
      rewrite length_insert in Hlen, Hin. split; [exact Hlen|]. split.
      * intros i Hi. rewrite Hout by lia. apply list_lookup_insert_ne. lia.
      * intros [|j] row Hj Hb; simpl in Hj.
        -- injection Hj as <-. rewrite Nat.add_0_r, Hout by lia.
           now apply list_lookup_insert_eq.
        -- replace (start + o + S j)%nat with (start + S o + j)%nat by lia.
           apply Hin; [exact Hj | lia].
    + apply Nat.ltb_ge in Hlt.
      destruct (IH (S o) acc) as (Hlen & Hout & Hin).
      split; [exact Hlen|]. split.
      * intros i Hi. apply Hout. lia.
      * intros j row Hj Hb. lia.
Qed.

Lemma placeRows_spec (acc : list (list Q)) (et : TermsMsg) :
  length (placeRows acc et) = length acc
  ∧ (∀ i, ¬ (et.2 * batchSize ≤ i < et.2 * batchSize + length et.1)%nat →
          placeRows acc et !! i = acc !! i)
  ∧ (∀ j row, et.1 !! j = Some row →
              (et.2 * batchSize + j < length acc)%nat →
              placeRows acc et !! (et.2 * batchSize + j)%nat = Some row).
Proof.
  destruct (placeFrom_spec (et.2 * batchSize) 0 et.1 acc) as (Hlen & Hout & Hin).
  split; [exact Hlen|]. split.
  - intros i Hi. apply Hout. lia.
  - intros j row Hj Hb.
    replace (et.2 * batchSize + j)%nat with (et.2 * batchSize + 0 + j)%nat
      by lia.
    apply Hin; [exact Hj | lia].
Qed.

Lemma aggregate_right (target : list (list Q)) (arrived : list TermsMsg) acc :
  length acc = length target →
  Forall (rightFor target) arrived →
  length (aggregate acc arrived) = length target
  ∧ ∀ i, (acc !! i = target !! i ∨ ∃ et, et ∈ arrived ∧ covers et i) →
         aggregate acc arrived !! i = target !! i.
Proof.
  intros Hlen Hall. revert acc Hlen.
  induction Hall as [|et rest Het _ IH]; intros acc Hlen.
  - split; [exact Hlen|]. intros i [Hi|(et & Hin & _)]; [exact Hi|].
    now apply elem_of_nil in Hin.
  - destruct (placeRows_spec acc et) as (Hl1 & Hout & Hin).
    change (aggregate acc (et :: rest))
      with (aggregate (placeRows acc et) rest).
    destruct (IH (placeRows acc et) ltac:(congruence)) as (Hl2 & Hlook).
    split; [exact Hl2|]. intros i Hi. apply Hlook.
    destruct (decide (covers et i)) as [Hc|Hnc].
    + left. unfold covers in Hc.
      destruct (lookup_lt_is_Some_2 et.1 (i - et.2 * batchSize) ltac:(lia))
        as [row Hrow].
      pose proof (Het _ _ Hrow) as Ht.
      replace (et.2 * batchSize + (i - et.2 * batchSize))%nat with i in Ht
        by lia.
      specialize (Hin _ _ Hrow).
      replace (et.2 * batchSize + (i - et.2 * batchSize))%nat with i in Hin
        by lia.
      rewrite Ht. apply Hin. rewrite Hlen. eapply lookup_lt_Some, Ht.
    + rewrite Hout by exact Hnc.
      destruct Hi as [Hi|(et' & Hel & Hc)]; [now left|].
      apply elem_of_cons in Hel as [->|Hel]; [contradiction|].
      right. eauto.
Qed.

Lemma batchShaped_tail {A} (rows : list A) rest :
  batchShaped (rows :: rest) → batchShaped rest.
Proof.
  intros Hs b r Hb Hlt. apply (Hs (S b) r); [exact Hb | simpl; lia].
Qed.

Lemma concat_batch_lookup {A} (rowss : list (list A)) b rows j :
  batchShaped rowss → rowss !! b = Some rows →
  (j < length rows)%nat →
  concat rowss !! (b * batchSize + j)%nat = rows !! j.
Proof.
  revert b. induction rowss as [|r rest IH]; intros b Hs Hb Hj;
    [discriminate|].
  destruct b as [|b]; simpl in Hb.
  - injection Hb as ->. simpl. now rewrite lookup_app_l.
  - assert (Hr : length r = batchSize).
    { apply (Hs 0%nat r); [reflexivity|]. simpl.
      apply lookup_lt_Some in Hb. lia. }
    simpl. rewrite lookup_app_r by lia.
    replace (batchSize + b * batchSize + j - length r)%nat
      with (b * batchSize + j)%nat by lia.
    apply IH; [eapply batchShaped_tail, Hs | exact Hb | exact Hj].
Qed.

Lemma concat_batch_cover {A} (rowss : list (list A)) i :
  batchShaped rowss → (i < length (concat rowss))%nat →
  ∃ b rows, rowss !! b = Some rows
            ∧ (b * batchSize ≤ i < b * batchSize + length rows)%nat.
Proof.
  revert i. induction rowss as [|r rest IH]; intros i Hs Hi;
    [simpl in Hi; lia|].
  simpl in Hi. rewrite length_app in Hi.
  destruct (decide (i < length r)%nat) as [Hlt|Hge].
  - exists 0%nat, r. split; [reflexivity | lia].
  - assert (Hne : (0 < length rest)%nat).
    { destruct rest; [simpl in Hi; lia | simpl; lia]. }
    assert (Hr : length r = batchSize).
    { apply (Hs 0%nat r); [reflexivity | simpl; lia]. }
    destruct (IH (i - length r)%nat (batchShaped_tail _ _ Hs) ltac:(lia))
      as (b & rows & Hb & Hrange).
    exists (S b), rows. split; [exact Hb | lia].
Qed.

End Aggregation.

Lemma aggregate_any_order (rowss : list (list (list Q))) acc0
    (arrived : list TermsMsg) :
  batchShaped rowss →
  length acc0 = length (concat rowss) →
  arrived ≡ₚ imap (fun b rows => (rows, b)) rowss →
  aggregate acc0 arrived = concat rowss.
Proof.
  intros Hs Hlen Hperm.
  assert (Hall : Forall (rightFor (concat rowss)) arrived).
  { rewrite Hperm. apply Forall_lookup. intros b et Hb.
    rewrite list_lookup_imap in Hb.
    destruct (rowss !! b) as [rows|] eqn:Hrows; [|discriminate].
    injection Hb as <-. intros j row Hj. simpl in *.
    rewrite (concat_batch_lookup rowss b rows j Hs Hrows); [exact Hj|].
    eapply lookup_lt_Some, Hj. }
  destruct (aggregate_right _ _ _ Hlen Hall) as (Hl & Hlook).
  apply list_eq. intros i.
  destruct (decide (i < length (concat rowss))%nat) as [Hi|Hi].
  - apply Hlook. right.
    destruct (concat_batch_cover rowss i Hs Hi) as (b & rows & Hb & Hr).
    exists (rows, b). split; [|exact Hr].
    rewrite Hperm. apply list_elem_of_lookup. exists b.
    now rewrite list_lookup_imap, Hb.
  - rewrite (proj2 (lookup_ge_None _ i)) by lia.
    now rewrite (proj2 (lookup_ge_None _ i)) by lia.
Qed.

(** *** The batches *)

Section Batches.
Local Opaque batchSize.

Lemma concat_batchesFrom {A} fuel (data : list A) :
  (length data ≤ fuel)%nat → concat (batchesFrom fuel data) = data.
Proof.
  revert data. induction fuel as [|fuel IH]; intros data Hf.
  - destruct data; [reflexivity | simpl in Hf; lia].
  - destruct data as [|x data]; [reflexivity|].
    change (batchesFrom (S fuel) (x :: data))
      with (take batchSize (x :: data)
            :: batchesFrom fuel (drop batchSize (x :: data))).
    cbn [concat]. rewrite IH; [apply take_drop|].
    rewrite length_drop. pose proof batchSize_pos. simpl in *. lia.
Qed.

Lemma batchShaped_batchesFrom {A} fuel (data : list A) :
  batchShaped (batchesFrom fuel data).
Proof.
  revert data. induction fuel as [|fuel IH]; intros data b rows Hb Hlt.
  - destruct data; discriminate.
  - destruct data as [|x data]; [discriminate|].
    change (batchesFrom (S fuel) (x :: data))
      with (take batchSize (x :: data)
            :: batchesFrom fuel (drop batchSize (x :: data))) in Hb, Hlt.
    destruct b as [|b].
    + injection Hb as <-. rewrite length_take. cbn [length] in Hlt.
      destruct (decide (batchSize ≤ length (x :: data))%nat); [lia|].
      rewrite drop_ge in Hlt by lia.
      destruct fuel; simpl in Hlt; lia.
    + apply (IH _ b rows Hb). cbn [length] in Hlt. lia.
Qed.

Lemma length_concat_Forall2 {A B} (l : list (list A)) (k : list (list B)) :
  Forall2 (fun a b => length a = length b) l k →
  length (concat l) = length (concat k).
Proof.
  induction 1 as [|a b l k Hab _ IH]; [reflexivity|].
  simpl. rewrite !length_app. congruence.
Qed.

End Batches.

(** *** Delivery in any order *)

Lemma mapM_perm {A B} (f : A → option B) l l' k :
  l ≡ₚ l' → mapM f l = Some k → ∃ k', mapM f l' = Some k' ∧ k ≡ₚ k'.
Proof.
  intros Hp. revert k. induction Hp as [|x l l' _ IH|x y l|l l' l'' _ IH1 _ IH2];
    intros k Hk.
  - exists k. split; [exact Hk | reflexivity].
  - simpl in *. destruct (f x) as [b|]; [|discriminate]. simpl in *.
    destruct (mapM f l) as [k0|] eqn:E; [|discriminate]. simpl in Hk.
    injection Hk as <-. destruct (IH k0 eq_refl) as (k' & -> & Hperm).
    exists (b :: k'). split; [reflexivity | now constructor].
  - simpl in *. destruct (f y) as [b|]; [|discriminate].
    destruct (f x) as [a|]; [|discriminate]. simpl in *.
    destruct (mapM f l) as [k0|]; [|discriminate]. simpl in *.
    injection Hk as <-. exists (a :: b :: k0). split; [reflexivity|].
    apply Permutation_swap.
  - destruct (IH1 k Hk) as (k1 & Hk1 & Hp1).
    destruct (IH2 k1 Hk1) as (k2 & Hk2 & Hp2).
    exists k2. split; [exact Hk2 | now rewrite Hp1].
Qed.

Lemma mapM_lookup_seq {A B} (g : A → B) (sent : list A) :
  mapM (fun b => g <$> sent !! b) (seq 0 (length sent)) = Some (map g sent).
Proof.
  apply mapM_Some. apply Forall2_same_length_lookup. split.
  - now rewrite length_seq, length_map.
  - intros i b y Hb Hy. apply lookup_seq in Hb as [-> _]. simpl.
    now rewrite list_lookup_fmap in Hy.
Qed.

(** *** What the tasks send *)

Section Epoch.
Context `{Extern}.
Local Opaque batchSize.

Lemma maskedTask_shape (d : DiffusionModel) tokenizer dConfig tConfig batch
    idx r loss terms idx' r' :
  maskedTask d tokenizer dConfig tConfig batch idx r
  = Some ((loss, (terms, idx')), r') →
  idx' = idx ∧ length terms = length batch.
Proof.
  intros Hrun. unfold maskedTask in Hrun.
  apply bind_Some in Hrun as (noised & r1 & Hnoise & Hrun).
  apply bind_Some in Hrun as (res & r2 & Hres & Hrun).
  apply liftO_Some in Hres as [Hres ->].
  apply ret_Some in Hrun as [[= _ -> ->] _]. split; [reflexivity|].
  apply (forEach_collect (fun _ _ => True)) in Hnoise as (ys & Hys & Hall).
  2:{ intros acc x st acc1 st1 Hb.
      apply bind_Some in Hb as (tVal & s1 & _ & Hb).
      apply bind_Some in Hb as (noisy & s2 & _ & Hb).
      apply bind_Some in Hb as (i0 & s3 & _ & Hb).
      apply bind_Some in Hb as (i1 & s4 & _ & Hb).
      apply ret_Some in Hb as [-> _]. eexists. split; [reflexivity | exact I]. }
  simpl in Hys. subst ys. apply Forall2_length in Hall.
  unfold maskedLoss in Hres.
  apply (forEachO_collect (fun _ _ => True)) in Hres as (ets & Hets & Hall2).
  2:{ intros acc [noisy [targets output]] acc1 Hb.
      destruct (makeSlice _ 0%Q) as [terms0|]; [|discriminate]. simpl in Hb.
      destruct (forEachO (maskedLossStep _ _ _ _ _) _ _) as [res0|];
        [|discriminate].
      simpl in Hb. injection Hb as <-. eexists. split; [reflexivity | exact I]. }
  simpl in Hets. rewrite Hets. apply Forall2_length in Hall2.
  rewrite <- Hall2, !length_zip_with, !length_map. lia.
Qed.

Lemma runTasks_shape (d : DiffusionModel) tokenizer dConfig tConfig data r
    sent r' :
  runTasks d tokenizer dConfig tConfig data r = Some (sent, r') →
  Forall2 (fun (b : nat * list (list Z)) (msg : Q * TermsMsg) =>
             msg.2.2 = b.1 ∧ length msg.2.1 = length b.2)
          (imap pair (batchesOf data)) sent.
Proof.
  intros Hrun. unfold runTasks in Hrun.
  apply (forEach_collect
           (fun (b : nat * list (list Z)) (msg : Q * TermsMsg) =>
              msg.2.2 = b.1 ∧ length msg.2.1 = length b.2))
    in Hrun as (ys & Hys & Hall).
  - simpl in Hys. now subst ys.
  - intros acc b st acc1 st1 Hb.
    apply bind_Some in Hb as ([loss [terms idx']] & s1 & Htask & Hb).
    apply ret_Some in Hb as [-> _]. eexists. split; [reflexivity|].
    apply maskedTask_shape in Htask. exact Htask.
Qed.

(** The rows the tasks sent, in batch order, are the complete set of
    per-batch results of the epoch. *)
Lemma runTasks_complete (d : DiffusionModel) tokenizer dConfig tConfig data r
    sent r' :
  runTasks d tokenizer dConfig tConfig data r = Some (sent, r') →
  let rowss := map (fun m : Q * TermsMsg => m.2.1) sent in
  map snd sent = imap (fun b rows => (rows, b)) rowss
  ∧ batchShaped rowss
  ∧ length (concat rowss) = length data
  ∧ length sent = length (batchesOf data).
Proof.
  intros Hrun rowss. apply runTasks_shape in Hrun.
  assert (Hlen : length sent = length (batchesOf data)).
  { apply Forall2_length in Hrun. now rewrite length_imap in Hrun. }
  split; [|split; [|split; [|exact Hlen]]].
  - apply list_eq. intros b. unfold rowss.
    rewrite list_lookup_fmap, list_lookup_imap, list_lookup_fmap.
    destruct (sent !! b) as [[loss [terms idx]]|] eqn:Hb; [|reflexivity].
    simpl. destruct (lookup_lt_is_Some_2 (imap pair (batchesOf data)) b)
      as [bb Hbb].
    { rewrite length_imap, <- Hlen. eapply lookup_lt_Some, Hb. }
    destruct (Forall2_lookup_lr _ _ _ _ _ _ Hrun Hbb Hb) as [Hidx _].
    rewrite list_lookup_imap in Hbb.
    destruct (batchesOf data !! b); [|discriminate]. injection Hbb as <-.
    simpl in Hidx. now subst idx.
  - intros b rows Hb Hlt. unfold rowss in Hb, Hlt.
    rewrite list_lookup_fmap in Hb. rewrite length_map in Hlt.
    destruct (sent !! b) as [[loss [terms idx]]|] eqn:Hsb; [|discriminate].
    injection Hb as <-.
    destruct (lookup_lt_is_Some_2 (imap pair (batchesOf data)) b)
      as [bb Hbb].
    { rewrite length_imap, <- Hlen. eapply lookup_lt_Some, Hsb. }
    destruct (Forall2_lookup_lr _ _ _ _ _ _ Hrun Hbb Hsb) as [_ Hl].
    rewrite list_lookup_imap in Hbb.
    destruct (batchesOf data !! b) as [batch|] eqn:Hbatch; [|discriminate].
    injection Hbb as <-. simpl in Hl. rewrite Hl.
    apply (batchShaped_batchesFrom (length data) data b batch Hbatch).
    fold (batchesOf data). lia.
  - rewrite <- (concat_batchesFrom (length data) data) at 1 by lia.
    apply length_concat_Forall2. unfold rowss.
    apply Forall2_fmap_l.
    apply Forall2_same_length_lookup. split; [exact Hlen|].
    intros b msg batch Hmsg Hbatch.
    assert (Hbb : imap pair (batchesOf data) !! b = Some (b, batch)).
    { rewrite list_lookup_imap. fold (batchesOf data) in Hbatch.
      now rewrite Hbatch. }
    destruct (Forall2_lookup_lr _ _ _ _ _ _ Hrun Hbb Hmsg) as [_ Hl].
    exact Hl.
Qed.

End Epoch.

Lemma length_batchesFrom {A B} fuel (l : list A) (k : list B) :
  length l = length k →
  length (batchesFrom fuel l) = length (batchesFrom fuel k).
Proof.
  revert l k. induction fuel as [|fuel IH]; intros l k Hlen.
  - destruct l, k; reflexivity.
  - destruct l, k; try discriminate; [reflexivity|].
    change (S (length (batchesFrom fuel (drop batchSize (a :: l))))
            = S (length (batchesFrom fuel (drop batchSize (b :: k))))).
    f_equal. apply IH. rewrite !length_drop. congruence.
Qed.

(** C2.  Aggregation does not depend on the order of arrival.  For the
    complete set of per-batch messages (batch [b] with its rows, every batch
    but the last of [batchSize] rows) delivered in any order, the aggregation
    loop turns an accumulator of the corpus size into the rows in corpus
    order: sample [j] of batch [b] is at index [b * batchSize + j].  In an
    epoch, whatever the order in which the channel delivers, the network is
    updated by one [Backward] call on that tensor. *)
Theorem aggregation_order_independent `{Extern} :
  (∀ (rowss : list (list (list Q))) acc0 (arrived : list TermsMsg),
     batchShaped rowss →
     length acc0 = length (concat rowss) →
     arrived ≡ₚ imap (fun b rows => (rows, b)) rowss →
     aggregate acc0 arrived = concat rowss
     ∧ ∀ b rows j row,
         rowss !! b = Some rows → rows !! j = Some row →
         aggregate acc0 arrived !! (b * batchSize + j)%nat = Some row)
  ∧ (∀ sentences tokenizer dConfig tConfig lossOrder termsOrder epoch w u w',
       termsOrder ≡ₚ seq 0 (length (batchesOf sentences)) →
       maskedEpoch sentences tokenizer dConfig tConfig lossOrder termsOrder
                   epoch w = Some (u, w') →
       ∃ data sent r1,
         prepare tokenizer (MaxLength dConfig) sentences = Some data
         ∧ runTasks (model w) tokenizer dConfig tConfig data (rand w)
           = Some (sent, r1)
         ∧ Network (model w')
           = Backward (Network (model w))
                      (concat (map (fun m : Q * TermsMsg => m.2.1) sent))
                      (cosineRate dConfig epoch)).
Proof.
  split.
  - intros rowss acc0 arrived Hs Hlen Hperm.
    pose proof (aggregate_any_order rowss acc0 arrived Hs Hlen Hperm) as Hagg.
    split; [exact Hagg|]. intros b rows j row Hb Hj. rewrite Hagg.
    rewrite (concat_batch_lookup rowss b rows j Hs Hb); [exact Hj|].
    eapply lookup_lt_Some, Hj.
  - intros sentences tokenizer dConfig tConfig lossOrder termsOrder epoch
           w u w' Hord Hrun.
    unfold maskedEpoch in Hrun.
    apply bind_Some in Hrun as (data & w1 & Hdata & Hrun).
    apply liftO_Some in Hdata as [Hdata ->].
    apply bind_Some in Hrun as (acc0 & w2 & Hacc & Hrun).
    apply liftO_Some in Hacc as [Hacc ->].
    apply bind_Some in Hrun as (d & w3 & [= <- <-] & Hrun).
    apply bind_Some in Hrun as (sent & w4 & Hsent & Hrun).
    apply liftR_Some in Hsent as (r1 & Hsent & ->).
    apply bind_Some in Hrun as (lossChan & w5 & Hloss & Hrun).
    apply liftO_Some in Hloss as [_ ->].
    apply bind_Some in Hrun as (chan & w6 & Hchan & Hrun).
    apply liftO_Some in Hchan as [Hchan ->].
    apply bind_Some in Hrun as (u1 & w7 & [= _ <-] & Hrun).
    exists data, sent, r1. split; [exact Hdata|]. split; [exact Hsent|].
    destruct (runTasks_complete _ _ _ _ _ _ _ _ Hsent)
      as (Hmsgs & Hshape & Hlen & Hn).
    assert (Hld : length data = length sentences).
    { unfold prepare in Hdata. now apply mapM_length in Hdata. }
    assert (Hla : length acc0 = length sentences) by now apply mapM_length in Hacc.
    assert (Hperm : chan ≡ₚ imap (fun b rows => (rows, b))
                     (map (fun m : Q * TermsMsg => m.2.1) sent)).
    { rewrite <- Hmsgs.
      assert (Hord' : termsOrder ≡ₚ seq 0 (length sent)).
      { rewrite Hord, Hn. unfold batchesOf.
        rewrite Hld. now rewrite (length_batchesFrom _ sentences data). }
      destruct (mapM_perm _ _ _ _ Hord' Hchan) as (k' & Hk' & Hp).
      rewrite mapM_lookup_seq in Hk'. injection Hk' as <-. exact Hp. }
    rewrite (aggregate_any_order _ acc0 chan Hshape ltac:(congruence) Hperm)
      in Hrun.
    destruct (epoch mod 10 =? 0)%nat.
    + apply bind_Some in Hrun as (d1 & w8 & [= <- <-] & Hrun).
      apply bind_Some in Hrun as (s & w9 & Hgen & Hrun).
      apply liftR_Some in Hgen as (r2 & _ & ->).
      apply ret_Some in Hrun as [_ ->]. reflexivity.
    + apply ret_Some in Hrun as [_ ->]. reflexivity.
Qed.

Lemma aggregation_order_independent_witness :
  batchShaped demoRows
  ∧ length (replicate 11 ([] : list Q)) = length (concat demoRows)
  ∧ [([[ofLen 10]], 1%nat); (map (fun i => [ofLen i]) (seq 0 10), 0%nat)]
    ≡ₚ imap (fun b rows => (rows, b)) demoRows
  ∧ aggregate (replicate 11 [])
      [([[ofLen 10]], 1%nat); (map (fun i => [ofLen i]) (seq 0 10), 0%nat)]
    = concat demoRows
  ∧ ∃ data sent r1 w',
      maskedEpoch (H := tableExtern) ["hello world"%string]
        (Tokenizer demoModel) demoConfig (mkTransformerConfig 6)
        [0%nat] [0%nat] 1 (mkWorld demoModel demoRand) = Some (tt, w')
      ∧ prepare (Tokenizer demoModel) (MaxLength demoConfig)
                ["hello world"%string] = Some data
      ∧ runTasks demoModel (Tokenizer demoModel) demoConfig
                 (mkTransformerConfig 6) data demoRand = Some (sent, r1)
      ∧ @Network tableExtern (model w')
        = @Backward tableExtern (Network demoModel)
                    (concat (map (fun m : Q * TermsMsg => m.2.1) sent))
                    (@cosineRate tableExtern demoConfig 1).
Proof.
  assert (H1 : batchShaped demoRows).
  { intros [|[|b]] rows Hb Hlt; simpl in *; try lia.
    injection Hb as <-. reflexivity. }
  assert (H2 : length (replicate 11 ([] : list Q)) = length (concat demoRows))
    by reflexivity.
  assert (H3 : [([[ofLen 10]], 1%nat);
                (map (fun i => [ofLen i]) (seq 0 10), 0%nat)]
               ≡ₚ imap (fun b rows => (rows, b)) demoRows)
    by apply Permutation_swap.
  split; [exact H1|]. split; [exact H2|]. split; [exact H3|].
  destruct (aggregation_order_independent (H := tableExtern)) as [Hagg Hepoch].
  split; [exact (proj1 (Hagg demoRows _ _ H1 H2 H3))|].
  assert (Hrun : ∃ w', maskedEpoch (H := tableExtern) ["hello world"%string]
                         (Tokenizer demoModel) demoConfig
                         (mkTransformerConfig 6) [0%nat] [0%nat] 1
                         (mkWorld demoModel demoRand) = Some (tt, w'))
    by (eexists; vm_compute; reflexivity).
  destruct Hrun as [w' Hrun].
  destruct (Hepoch _ _ _ _ _ _ _ _ _ _ (Permutation_refl _) Hrun)
    as (data & sent & r1 & Hd & Hs & Hn).
  exists data, sent, r1, w'. auto.
Defined.

(** ** Temperature and the candidates of a position *)

Section CandidateWeights.
Local Open Scope Q_scope.

Lemma fltb_scaled (c a1 a2 b1 b2 : Q) :
  0 < c → b1 == a1 * c → b2 == a2 * c → fltb b1 b2 = fltb a1 a2.
Proof. intros Hc H1 H2. fcases; try reflexivity; exfalso; nra. Qed.

Lemma fleb_equal (r a b : Q) : a == b → fleb r a = fleb r b.
Proof.
  intros Hab. unfold fleb.
  destruct (Qle_bool r a) eqn:E1, (Qle_bool r b) eqn:E2; try reflexivity;
    exfalso.
  - apply Qle_bool_iff in E1.
    assert (Hn : ¬ (r <= b)) by (rewrite <- Qle_bool_iff; congruence).
    apply Hn. lra.
  - apply Qle_bool_iff in E2.
    assert (Hn : ¬ (r <= a)) by (rewrite <- Qle_bool_iff; congruence).
    apply Hn. lra.
Qed.

Lemma insertDesc_scaled c x1 x2 l1 l2 :
  0 < c → scaledBy c x1 x2 → Forall2 (scaledBy c) l1 l2 →
  Forall2 (scaledBy c) (insertDesc x1 l1) (insertDesc x2 l2).
Proof.
  intros Hc Hx Hl. induction Hl as [|y1 y2 l1 l2 Hy Hl IH]; simpl.
  - constructor; [exact Hx | constructor].
  - rewrite (fltb_scaled c y1.2 x1.2 y2.2 x2.2 Hc (proj2 Hy) (proj2 Hx)).
    destruct (fltb y1.2 x1.2).
    + constructor; [exact Hx|]. constructor; assumption.
    + constructor; assumption.
Qed.

Lemma sortDesc_scaled c l1 l2 :
  0 < c → Forall2 (scaledBy c) l1 l2 →
  Forall2 (scaledBy c) (sortDesc l1) (sortDesc l2).
Proof.
  intros Hc Hl. unfold sortDesc.
  assert (Hacc : Forall2 (scaledBy c) [] []) by constructor.
  revert Hacc. generalize (@nil (Z * Q)) at 1 3 as acc1.
  generalize (@nil (Z * Q)) as acc2.
  induction Hl as [|x1 x2 l1 l2 Hx Hl IH]; intros acc2 acc1 Hacc; simpl.
  - exact Hacc.
  - apply IH. now apply insertDesc_scaled.
Qed.

Lemma Qdiv_zero (x s : Q) : s == 0 → x / s == 0.
Proof. intros Hs. unfold Qdiv. rewrite Hs. change (/ 0) with 0. ring. Qed.

Lemma Qdiv_scaled (x s c : Q) : ¬ c == 0 → (x * c) / (s * c) == x / s.
Proof.
  intros Hc. destruct (Qeq_dec s 0) as [Hs|Hs].
  - rewrite !Qdiv_zero; [reflexivity | exact Hs | rewrite Hs; ring].
  - field. split; assumption.
Qed.

Lemma scaledBy_weights c (l1 l2 : list (Z * Q)) :
  Forall2 (scaledBy c) l1 l2 →
  Forall2 (fun a b => b == a * c) (map snd l1) (map snd l2).
Proof.
  intros Hl. apply Forall2_fmap. eapply Forall2_impl; [exact Hl|].
  now intros a b [_ Hw].
Qed.

Section RoundedWeights.
Variable rnd : Q → Q.
Hypothesis Hresp : respectsEq rnd.

Lemma respectsEq_one : scalesBy rnd 1.
Proof. intros x. rewrite (Hresp (x * 1) x) by ring. ring. Qed.

Lemma fsum_scaled_from c (l1 l2 : list Q) a1 a2 :
  scalesBy rnd c →
  Forall2 (fun a b => b == a * c) l1 l2 → a2 == a1 * c →
  foldl (fun sum p => rnd (sum + p)) a2 l2
  == foldl (fun sum p => rnd (sum + p)) a1 l1 * c.
Proof.
  intros Hsc Hl. revert a1 a2. induction Hl as [|x1 x2 l1 l2 Hx Hl IH];
    intros a1 a2 Ha; simpl; [exact Ha|].
  apply IH. rewrite (Hresp (a2 + x2) ((a1 + x1) * c)); [apply Hsc|].
  rewrite Ha, Hx. ring.
Qed.

Lemma fsum_scaled c (l1 l2 : list Q) :
  scalesBy rnd c → Forall2 (fun a b => b == a * c) l1 l2 →
  Rounded.fsum rnd l2 == Rounded.fsum rnd l1 * c.
Proof. intros Hsc Hl. apply fsum_scaled_from; [exact Hsc | exact Hl | ring]. Qed.

Lemma renormTopK_scaled c k l1 l2 :
  0 < c → scalesBy rnd c → Forall2 (scaledBy c) l1 l2 →
  Forall2 (scaledBy 1) (Rounded.renormTopK rnd k l1)
          (Rounded.renormTopK rnd k l2).
Proof.
  intros Hc Hsc Hl. unfold Rounded.renormTopK, feqb.
  pose proof (fsum_scaled c _ _ Hsc (scaledBy_weights c l1 l2 Hl)) as Hsum.
  revert Hsum.
  generalize (Rounded.fsum rnd (map snd l1)) (Rounded.fsum rnd (map snd l2)).
  intros s1 s2 Hsum.
  destruct (Qeq_bool s1 0) eqn:E1.
  - apply Qeq_bool_iff in E1.
    assert (E2 : Qeq_bool s2 0 = true).
    { apply Qeq_bool_iff. rewrite Hsum, E1. ring. }
    rewrite E2. apply Forall2_fmap.
    eapply Forall2_impl; [exact Hl|]. intros a b [Hab _].
    split; [exact Hab | simpl; ring].
  - assert (E2 : Qeq_bool s2 0 = false).
    { apply not_true_iff_false. intros E2. apply Qeq_bool_iff in E2.
      apply not_true_iff_false in E1. apply E1, Qeq_bool_iff.
      rewrite Hsum in E2. nra. }
    rewrite E2. apply Forall2_fmap.
    eapply Forall2_impl; [exact Hl|]. intros a b [Hab Hw].
    split; [exact Hab|]. simpl.
    rewrite (Hresp (b.2 / s2) (a.2 / s1)); [ring|].
    rewrite Hw, Hsum, Qdiv_scaled by lra. reflexivity.
Qed.

Lemma pickCumulative_equal r cum1 cum2 sel l1 l2 :
  Forall2 (scaledBy 1) l1 l2 → cum1 == cum2 →
  Rounded.pickCumulative rnd r cum1 sel l1
  = Rounded.pickCumulative rnd r cum2 sel l2.
Proof.
  intros Hl. revert cum1 cum2.
  induction Hl as [|x1 x2 l1 l2 [Hi Hw] Hl IH]; intros cum1 cum2 Hc; simpl;
    [reflexivity|].
  assert (Hnext : rnd (cum1 + x1.2) == rnd (cum2 + x2.2)).
  { apply Hresp. rewrite Hw, Hc. ring. }
  rewrite (fleb_equal r _ _ Hnext), Hi. destruct (fleb r _); [reflexivity|].
  now apply IH.
Qed.

Lemma candidates_normalised c (p1 p2 : list Q) :
  0 < c → scalesBy rnd c → Forall2 (fun a b => b == a * c) p1 p2 →
  Forall2 (scaledBy 1)
    (imap (fun j p => (Z.of_nat j, p))
          (map (fun p => rnd (p / Rounded.fsum rnd p1)) p1))
    (imap (fun j p => (Z.of_nat j, p))
          (map (fun p => rnd (p / Rounded.fsum rnd p2)) p2)).
Proof.
  intros Hc Hsc Hp. pose proof (fsum_scaled c p1 p2 Hsc Hp) as Hs.
  revert Hs. generalize (Rounded.fsum rnd p1) (Rounded.fsum rnd p2).
  intros s1 s2 Hs.
  enough (Hf : ∀ f : nat → Z,
            Forall2 (scaledBy 1)
              (imap (fun j p => (f j, p)) (map (fun p => rnd (p / s1)) p1))
              (imap (fun j p => (f j, p)) (map (fun p => rnd (p / s2)) p2)))
    by apply (Hf Z.of_nat).
  induction Hp as [|a b p1 p2 Hab Hp IH]; intros f; simpl; constructor.
  - split; [reflexivity|]. simpl.
    rewrite (Hresp (b / s2) (a / s1)); [ring|].
    rewrite Hab, Hs, Qdiv_scaled by lra. reflexivity.
  - apply (IH (fun j => f (S j))).
Qed.
End RoundedWeights.

End CandidateWeights.

Lemma sliceZ_Forall2 {A B} (R : A → B → Prop) lo hi l1 l2 :
  Forall2 R l1 l2 →
  option_Forall2 (Forall2 R) (sliceZ lo hi l1) (sliceZ lo hi l2).
Proof.
  intros Hl. unfold sliceZ, index, subslice.
  destruct (lo <? 0); [constructor|]. destruct (hi <? 0); [constructor|].
  simpl. rewrite (Forall2_length _ _ _ Hl).
  destruct (_ && _); constructor.
  now apply Forall2_take, Forall2_drop.
Qed.

Lemma bind_congr {σ A B} (m1 m2 : ST σ A) (k1 k2 : A → ST σ B) st :
  m1 st = m2 st → (∀ a st', k1 a st' = k2 a st') →
  (x <- m1 ;; k1 x) st = (x <- m2 ;; k2 x) st.
Proof.
  intros Hm Hk. unfold bind. rewrite Hm.
  destruct (m2 st) as [[a st']|]; [apply Hk | reflexivity].
Qed.

Lemma forEach_ext {σ S X} (f g : S → X → ST σ S) l :
  (∀ s x st, f s x st = g s x st) →
  ∀ s st, forEach f s l st = forEach g s l st.
Proof.
  intros Hfg. induction l as [|x l IH]; intros s st; [reflexivity|].
  simpl. apply bind_congr; [apply Hfg | intros; apply IH].
Qed.

Lemma forDown_ext {σ S} (f g : S → nat → ST σ S) n :
  (∀ s i st, f s i st = g s i st) →
  ∀ s st, forDown n f s st = forDown n g s st.
Proof.
  intros Hfg. induction n as [|n IH]; intros s st; [reflexivity|].
  simpl. apply bind_congr; [apply Hfg | intros; apply IH].
Qed.

Lemma mapM_option_Forall2 {A B C} (R : B → C → Prop) (f1 : A → option B)
    (f2 : A → option C) l :
  (∀ x, option_Forall2 R (f1 x) (f2 x)) →
  option_Forall2 (Forall2 R) (mapM f1 l) (mapM f2 l).
Proof.
  intros Hf. induction l as [|x l IH]; simpl; [repeat constructor|].
  destruct (Hf x) as [b c Hbc|]; simpl; [|constructor].
  destruct IH as [k1 k2 Hk|]; simpl; constructor. now constructor.
Qed.

Lemma bind_liftO_Some {σ A B} (a : A) (k : A → ST σ B) st :
  (x <- liftO (Some a) ;; k x) st = k a st.
Proof. reflexivity. Qed.

Lemma bind_liftO_None {σ A B} (k : A → ST σ B) st :
  (x <- liftO None ;; k x) st = None.
Proof. reflexivity. Qed.

(** ** [GenerateMasked] under two temperatures *)

Section MaskedTemperature.
Context `{Extern}.
Variable rnd : Q → Q.
Variables T1 T2 : Q.
Local Open Scope Q_scope.
Hypothesis Hresp : respectsEq rnd.
Hypothesis Hscale : scalesBy rnd (T1 / T2).
Hypothesis H1 : 0 < T1.
Hypothesis H2 : 0 < T2.

Lemma maskedCandidates_scaled (d : DiffusionModel) probs :
  option_Forall2 (Forall2 (scaledBy (T1 / T2)))
    (Rounded.maskedCandidates rnd (withTemperature d T1) probs)
    (Rounded.maskedCandidates rnd (withTemperature d T2) probs).
Proof.
  unfold Rounded.maskedCandidates.
  cbn [withTemperature Tokenizer Config configWithTemperature Temperature].
  destruct (makeSlice (VocabSize (Tokenizer d)) (0%Z, 0)) as [topK|];
    simpl; [|constructor].
  apply mapM_option_Forall2. intros j.
  destruct (probs !! j) as [p|]; simpl; constructor.
  split; [reflexivity|]. simpl.
  destruct (Z.of_nat j =? vocabAt (Tokenizer d) "[MASK]")%Z.
  - ring.
  - rewrite (Hresp (p / T2) (p / T1 * (T1 / T2))); [apply Hscale|].
    field. split; lra.
Qed.

Lemma pickMasked_temperature (d : DiffusionModel) probs r :
  Rounded.pickMasked rnd (withTemperature d T1) probs r
  = Rounded.pickMasked rnd (withTemperature d T2) probs r.
Proof.
  unfold Rounded.pickMasked.
  assert (Hc : 0 < T1 / T2) by (apply Qlt_shift_div_l; lra).
  pose proof (maskedCandidates_scaled d probs) as Hcand.
  destruct (Rounded.maskedCandidates rnd (withTemperature d T1) probs)
    as [c1|];
    destruct (Rounded.maskedCandidates rnd (withTemperature d T2) probs)
      as [c2|];
    inversion Hcand as [? ? Hcs|]; subst; [|reflexivity].
  rewrite !bind_liftO_Some.
  cbn [withTemperature Config configWithTemperature TopK].
  pose proof (sliceZ_Forall2 _ 0 (TopK (Config d)) _ _
                (sortDesc_scaled _ _ _ Hc Hcs)) as Hslice.
  destruct (sliceZ 0 (TopK (Config d)) (sortDesc c1)) as [t1|];
    destruct (sliceZ 0 (TopK (Config d)) (sortDesc c2)) as [t2|];
    inversion Hslice as [? ? Hts|]; subst; [|reflexivity].
  rewrite !bind_liftO_Some.
  pose proof (renormTopK_scaled rnd Hresp _ (TopK (Config d)) _ _ Hc Hscale
                Hts) as Hre.
  rewrite !(bind_run _ _ _ _ _ (randFloat64_run r)).
  destruct Hre as [|x1 x2 l1 l2 [Hi Hw] Hre]; [reflexivity|].
  cbn [lookup list_lookup]. rewrite !bind_liftO_Some. unfold ret.
  rewrite Hi. f_equal. f_equal.
  apply pickCumulative_equal; [exact Hresp | | reflexivity].
  constructor; [|exact Hre]. now split.
Qed.

Lemma maskedStep_temperature (d : DiffusionModel) current s r :
  Rounded.maskedStep rnd (withTemperature d T1) current s r
  = Rounded.maskedStep rnd (withTemperature d T2) current s r.
Proof.
  unfold Rounded.maskedStep.
  cbn [withTemperature Tokenizer Config Network configWithTemperature
       MaxLength].
  apply bind_congr; [reflexivity|]. intros input r1.
  apply bind_congr; [reflexivity|]. intros output r2.
  apply bind_congr; [|reflexivity].
  unfold forRange. apply forEach_ext. intros st i r3.
  apply bind_congr; [reflexivity|]. intros tok r4.
  destruct (tok =? _)%Z; [|reflexivity].
  apply bind_congr; [reflexivity|]. intros row r5.
  apply bind_congr; [|reflexivity].
  apply pickMasked_temperature.
Qed.

Lemma GenerateMaskedTokens_temperature (d : DiffusionModel) r :
  Rounded.GenerateMaskedTokens rnd (withTemperature d T1) r
  = Rounded.GenerateMaskedTokens rnd (withTemperature d T2) r.
Proof.
  unfold Rounded.GenerateMaskedTokens.
  cbn [withTemperature Tokenizer Config configWithTemperature MaxLength
       NumTimesteps].
  apply bind_congr; [reflexivity|]. intros current r1.
  apply bind_congr; [|reflexivity].
  apply forDown_ext. intros c s r2. apply maskedStep_temperature.
Qed.

Lemma GenerateMasked_temperature (d : DiffusionModel) r :
  Rounded.GenerateMasked rnd (withTemperature d T1) r
  = Rounded.GenerateMasked rnd (withTemperature d T2) r.
Proof.
  unfold Rounded.GenerateMasked. apply bind_congr.
  - apply GenerateMaskedTokens_temperature.
  - reflexivity.
Qed.

End MaskedTemperature.

(** ** [GenerateBetter] under two temperatures *)

Section BetterTemperature.
Context `{Extern}.
Variables (d0 : DiffusionModel) (T1 T2 : Q).
Local Open Scope Q_scope.

Local Abbreviation tw := (twin d0 T1 T2).

Lemma twin_ret {A B} (R : A → B → Prop) a b : R a b → tw R (ret a) (ret b).
Proof. intros Hab w1 w2 Hw. constructor. split; assumption. Qed.

Lemma twin_bind {A A' B B'} (R : A → A' → Prop) (R' : B → B' → Prop)
    m1 m2 (k1 : A → ST World B) (k2 : A' → ST World B') :
  tw R m1 m2 → (∀ a a', R a a' → tw R' (k1 a) (k2 a')) →
  tw R' (x <- m1 ;; k1 x) (x <- m2 ;; k2 x).
Proof.
  intros Hm Hk w1 w2 Hw. unfold bind.
  destruct (Hm w1 w2 Hw) as [[a v1] [a' v2] [Ha Hv]|]; [|constructor].
  apply Hk; assumption.
Qed.

Lemma twin_liftO {A B} (R : A → B → Prop) o1 o2 :
  option_Forall2 R o1 o2 → tw R (liftO o1) (liftO o2).
Proof.
  intros [a b Hab|] w1 w2 Hw; simpl; constructor. split; assumption.
Qed.

Lemma twin_liftO_bind {A B B'} (R : B → B' → Prop) (o : option A)
    (k1 : A → ST World B) (k2 : A → ST World B') :
  (∀ a, o = Some a → tw R (k1 a) (k2 a)) →
  tw R (x <- liftO o ;; k1 x) (x <- liftO o ;; k2 x).
Proof.
  intros Hk w1 w2 Hw. destruct o as [a|].
  - rewrite !bind_liftO_Some. now apply Hk.
  - rewrite !bind_liftO_None. constructor.
Qed.

Lemma twin_liftR {A} (m : ST RandSrc A) : tw eq (liftR m) (liftR m).
Proof.
  intros [m1 r1] [m2 r2] [Hr Hm]. simpl in Hr. subst r2. unfold liftR.
  simpl. destruct (m r1) as [[a r']|]; constructor. now repeat split.
Qed.

Lemma twin_getModel : tw (twinModel d0 T1 T2) getModel getModel.
Proof.
  intros w1 w2 Hw. constructor. split; [apply Hw | exact Hw].
Qed.

Lemma twin_setTopK k : tw eq (setTopK k) (setTopK k).
Proof.
  intros [m1 r1] [m2 r2] [Hr (k0 & Hm1 & Hm2)]. simpl in *. subst.
  constructor. split; [reflexivity|]. split; [reflexivity|].
  exists k. split; reflexivity.
Qed.

Lemma twin_forEach {S X} (f g : S → X → ST World S) l :
  (∀ s x, tw eq (f s x) (g s x)) → ∀ s, tw eq (forEach f s l) (forEach g s l).
Proof.
  intros Hfg. induction l as [|x l IH]; intros s; simpl.
  - now apply twin_ret.
  - eapply twin_bind; [apply Hfg|]. intros a _ <-. apply IH.
Qed.

Lemma twin_forDown {S} (f g : S → nat → ST World S) n :
  (∀ s i, tw eq (f s i) (g s i)) → ∀ s, tw eq (forDown n f s) (forDown n g s).
Proof.
  intros Hfg. induction n as [|n IH]; intros s; simpl.
  - now apply twin_ret.
  - eapply twin_bind; [apply Hfg|]. intros a _ <-. apply IH.
Qed.

Lemma twin_clampTopK n : tw eq (clampTopK n) (clampTopK n).
Proof.
  unfold clampTopK.
  eapply twin_bind; [apply twin_getModel|]. intros d1 d2 (k & -> & ->).
  simpl. eapply (twin_bind eq).
  { destruct (k <? 1)%Z; [apply twin_setTopK | now apply twin_ret]. }
  intros _ _ _.
  eapply twin_bind; [apply twin_getModel|]. intros d1 d2 (k' & -> & ->).
  simpl. destruct (k' >? Z.of_nat n)%Z; [apply twin_setTopK|].
  now apply twin_ret.
Qed.

Lemma twin_liftO_Some_bind {A A' B B'} (R : B → B' → Prop) (a : A) (a' : A')
    (k1 : A → ST World B) (k2 : A' → ST World B') :
  tw R (k1 a) (k2 a') →
  tw R (x <- liftO (Some a) ;; k1 x) (x <- liftO (Some a') ;; k2 x).
Proof. intros Hk w1 w2 Hw. rewrite !bind_liftO_Some. now apply Hk. Qed.

Ltac twin_fields :=
  cbn [Network Tokenizer Config Temperature TopK NumTimesteps MaxLength
       withTopK withTemperature configWithTopK configWithTemperature].

Variable rnd : Q → Q.
Hypothesis Hresp : respectsEq rnd.
Hypothesis Hscale : scalesBy rnd (T1 / T2).
Hypothesis H1 : 0 < T1.
Hypothesis H2 : 0 < T2.
Hypothesis Hguard :
  fltb (rnd (1 # 10 ^ 12)) T1 = fltb (rnd (1 # 10 ^ 12)) T2.

Lemma twin_betterDraw l1 l2 xcur i :
  Forall2 (scaledBy 1) l1 l2 →
  tw eq (Rounded.betterDraw rnd l1 xcur i) (Rounded.betterDraw rnd l2 xcur i).
Proof.
  intros Hl. unfold Rounded.betterDraw. rewrite (Forall2_length _ _ _ Hl).
  eapply twin_bind; [apply twin_clampTopK|]. intros _ _ _.
  eapply twin_bind; [apply twin_getModel|]. intros d1 d2 (k & -> & ->).
  simpl.
  eapply twin_bind; [apply twin_liftO, sliceZ_Forall2, Hl|].
  intros s1 s2 Hs.
  eapply twin_bind; [apply twin_liftR|]. intros r _ <-.
  eapply twin_bind.
  { apply twin_liftO. apply (proj1 (Forall2_lookup _ _ _) Hs 0%nat). }
  intros f1 f2 [Hf _]. apply twin_liftO.
  rewrite Hf, (pickCumulative_equal rnd Hresp r 0 0 f2.1 s1 s2 Hs)
    by reflexivity.
  destruct (store _ _ _); now constructor.
Qed.

Local Abbreviation ratio := (guardRatio rnd T1 T2).

Lemma ratio_pos : 0 < ratio.
Proof.
  unfold guardRatio. destruct (fltb _ T1); [|reflexivity].
  apply Qlt_shift_div_l; lra.
Qed.

Lemma ratio_scales : scalesBy rnd ratio.
Proof.
  unfold guardRatio. destruct (fltb _ T1); [exact Hscale|].
  now apply respectsEq_one.
Qed.

Lemma store_scaled c mi (p1 p2 : list Q) :
  Forall2 (fun a b => b == a * c) p1 p2 →
  option_Forall2 (Forall2 (fun a b => b == a * c))
    (store mi 0 p1) (store mi 0 p2).
Proof.
  intros Hp. unfold store. rewrite (Forall2_length _ _ _ Hp).
  destruct (mi <? length p2)%nat; constructor.
  apply Forall2_insert; [exact Hp | ring].
Qed.

Lemma betterProbs_scaled maskID seg :
  option_Forall2 (Forall2 (fun a b => b == a * ratio))
    (Rounded.betterProbs rnd maskID T1 seg)
    (Rounded.betterProbs rnd maskID T2 seg).
Proof.
  unfold Rounded.betterProbs, guardRatio. rewrite <- Hguard.
  destruct (fltb (rnd (1 # 10 ^ 12)) T1);
    (destruct (index maskID) as [mi|]; simpl; [apply store_scaled | constructor]).
  - apply Forall2_fmap, Forall_Forall2_diag, Forall_forall. intros p _.
    rewrite (Hresp (p / T2) (p / T1 * (T1 / T2))); [apply Hscale|].
    field. split; lra.
  - apply Forall_Forall2_diag, Forall_forall. intros p _. ring.
Qed.

Lemma twin_betterPosition preds xcur i :
  (∀ seg,
     sliceZ (Z.of_nat i * VocabSize (Tokenizer d0))
            (Z.of_nat i * VocabSize (Tokenizer d0) + VocabSize (Tokenizer d0))
            preds = Some seg →
     Rounded.fallsBack rnd (vocabAt (Tokenizer d0) "[MASK]") T1 seg
     = Rounded.fallsBack rnd (vocabAt (Tokenizer d0) "[MASK]") T2 seg) →
  tw eq (Rounded.betterPosition rnd preds xcur i)
        (Rounded.betterPosition rnd preds xcur i).
Proof.
  intros Hfb. unfold Rounded.betterPosition.
  eapply twin_bind; [apply twin_getModel|]. intros d1 d2 (k & -> & ->).
  twin_fields. apply twin_liftO_bind. intros seg Hseg.
  specialize (Hfb seg Hseg). unfold Rounded.fallsBack in Hfb.
  destruct (betterProbs_scaled (vocabAt (Tokenizer d0) "[MASK]") seg)
    as [p1 p2 Hp|].
  - simpl in Hfb. injection Hfb as Hfb. apply twin_liftO_Some_bind.
    rewrite Hfb. destruct (fltb (Rounded.fsum rnd p2) _).
    + apply twin_liftO. destruct (store _ _ _); now constructor.
    + apply twin_betterDraw. apply (sortDesc_scaled 1); [lra|].
      apply (candidates_normalised rnd Hresp ratio);
        [apply ratio_pos | apply ratio_scales | exact Hp].
  - intros w1 w2 Hw. rewrite !bind_liftO_None. constructor.
Qed.

Hypothesis Hsame : Rounded.sameFallback rnd d0 T1 T2.

Lemma twin_betterStep xcur t :
  tw eq (Rounded.betterStep rnd xcur t) (Rounded.betterStep rnd xcur t).
Proof.
  unfold Rounded.betterStep, forRange.
  eapply twin_bind; [apply twin_getModel|]. intros d1 d2 (k & -> & ->).
  twin_fields.
  apply twin_liftO_bind. intros rows _.
  apply twin_liftO_bind. intros batchInput _.
  apply twin_liftO_bind. intros preds Hpreds.
  eapply (twin_bind eq).
  { apply twin_forEach. intros st i.
    apply twin_liftO_bind. intros tok _.
    destruct (tok =? _)%Z; [|now apply twin_ret].
    eapply (twin_bind eq).
    - apply twin_betterPosition. intros seg Hseg.
      exact (Hsame batchInput preds i seg Hpreds Hseg).
    - intros x _ <-. now apply twin_ret. }
  intros st _ <-.
  destruct (0 <? t)%nat; [apply twin_liftR | now apply twin_ret].
Qed.

Lemma twin_GenerateBetter :
  tw eq (Rounded.GenerateBetter rnd) (Rounded.GenerateBetter rnd).
Proof.
  unfold Rounded.GenerateBetter.
  eapply twin_bind; [apply twin_getModel|]. intros d1 d2 (k & -> & ->).
  twin_fields.
  apply twin_liftO_bind. intros xcur _.
  eapply (twin_bind eq).
  - apply twin_forDown. intros s i. apply twin_betterStep.
  - intros x _ <-. now apply twin_ret.
Qed.

Lemma GenerateBetter_temperature (r : RandSrc) :
  fst <$> Rounded.GenerateBetter rnd (mkWorld (withTemperature d0 T1) r)
  = fst <$> Rounded.GenerateBetter rnd (mkWorld (withTemperature d0 T2) r).
Proof.
  assert (Hw : twinWorld d0 T1 T2 (mkWorld (withTemperature d0 T1) r)
                 (mkWorld (withTemperature d0 T2) r)).
  { split; [reflexivity|]. exists (TopK (Config d0)). split; reflexivity. }
  destruct (twin_GenerateBetter _ _ Hw) as [[a w] [b w'] [Hab _]|];
    [|reflexivity].
  simpl in *. now subst.
Qed.
End BetterTemperature.

Lemma sliceZ_within {A} (lo hi : Z) (s seg : list A) :
  sliceZ lo hi s = Some seg → hi ≤ Z.of_nat (length s).
Proof.
  unfold sliceZ, index, subslice.
  destruct (lo <? 0) eqn:Hlo; [discriminate|].
  destruct (hi <? 0) eqn:Hhi; [discriminate|]. simpl.
  destruct (Z.to_nat lo <=? Z.to_nat hi)%nat eqn:H1; [|discriminate].
  destruct (Z.to_nat hi <=? length s)%nat eqn:H2; [|discriminate].
  intros _. apply Nat.leb_le in H2. lia.
Qed.

(** ** Rounding functions *)

Section RoundingFacts.
Local Open Scope Q_scope.

Lemma exact_respectsEq : respectsEq exact.
Proof. intros x y Hxy. exact Hxy. Qed.

Lemma exact_scalesBy (c : Q) : scalesBy exact c.
Proof. intros x. reflexivity. Qed.

Lemma two_ne0 : ¬ 2 == 0.
Proof. discriminate. Qed.

Lemma pow2_pos z : 0 < 2 ^ z.
Proof. now apply Qpower_0_lt. Qed.

Lemma pow2_Z (n : Z) : (0 ≤ n)%Z → inject_Z (2 ^ n) == 2 ^ n.
Proof. intros Hn. now rewrite Zpower_Qpower. Qed.

Lemma pow2_succ z : 2 ^ (z + 1) == 2 * 2 ^ z.
Proof. rewrite Qpower_plus by apply two_ne0. rewrite Qpower_1_r. ring. Qed.

Lemma log2_bounds (n : Z) :
  (0 < n)%Z →
  2 ^ Z.log2 n <= inject_Z n ∧ inject_Z n < 2 * 2 ^ Z.log2 n.
Proof.
  intros Hn. destruct (Z.log2_spec n Hn) as [Hlo Hhi].
  pose proof (Z.log2_nonneg n) as H0.
  rewrite <- pow2_succ, <- !pow2_Z by lia.
  split; [now rewrite <- Zle_Qle | now rewrite <- Zlt_Qlt; rewrite Z.add_1_r].
Qed.

Lemma ratio_bounds (x : Q) :
  0 < x →
  let e0 := (Z.log2 (Qnum x) - Z.log2 (Zpos (Qden x)))%Z in
  2 ^ (e0 - 1) < x ∧ x < 2 ^ (e0 + 1).
Proof.
  intros Hx e0. destruct x as [n d]. unfold e0. cbn [Qnum Qden]. clear e0.
  assert (Hn : (0 < n)%Z).
  { unfold Qlt in Hx. simpl in Hx. lia. }
  destruct (log2_bounds n Hn) as [Ha1 Ha2].
  destruct (log2_bounds (Z.pos d) ltac:(lia)) as [Hb1 Hb2].
  pose proof (pow2_pos (Z.log2 n)) as HA.
  pose proof (pow2_pos (Z.log2 (Z.pos d))) as HB.
  assert (HD : 0 < inject_Z (Z.pos d)) by reflexivity.
  assert (Hxe : n # d == inject_Z n / inject_Z (Z.pos d)) by apply Qmake_Qdiv.
  replace (Z.log2 n - Z.log2 (Z.pos d) - 1)%Z
    with (Z.log2 n - (Z.log2 (Z.pos d) + 1))%Z by lia.
  replace (Z.log2 n - Z.log2 (Z.pos d) + 1)%Z
    with ((Z.log2 n + 1) - Z.log2 (Z.pos d))%Z by lia.
  rewrite !Qpower_minus, !pow2_succ by apply two_ne0. rewrite Hxe.
  revert Ha1 Ha2 Hb1 Hb2 HA HB HD.
  generalize (inject_Z n) (inject_Z (Z.pos d)) (2 ^ Z.log2 n)
             (2 ^ Z.log2 (Z.pos d)).
  intros N D A B Ha1 Ha2 Hb1 Hb2 HA HB HD. split.
  - apply Qlt_shift_div_l; [exact HD|].
    assert (E : A / (2 * B) * D == A * D / (2 * B)) by (field; lra).
    rewrite E. apply Qlt_shift_div_r; [lra|]. nra.
  - apply Qlt_shift_div_r; [exact HD|].
    assert (E : 2 * A / B * D == 2 * A * D / B) by (field; lra).
    rewrite E. apply Qlt_shift_div_l; [exact HB|]. nra.
Qed.

Lemma ilog2_spec (x : Q) :
  0 < x → 2 ^ ilog2 x <= x ∧ x < 2 ^ (ilog2 x + 1).
Proof.
  intros Hx. destruct (ratio_bounds x Hx) as [Hlo Hhi]. unfold ilog2.
  set (e0 := (Z.log2 (Qnum x) - Z.log2 (Z.pos (Qden x)))%Z) in *.
  destruct (Qle_bool (2 ^ e0) x) eqn:E.
  - apply Qle_bool_iff in E. split; assumption.
  - assert (Hn : ¬ 2 ^ e0 <= x) by (rewrite <- Qle_bool_iff; congruence).
    replace (e0 - 1 + 1)%Z with e0 by lia. split; lra.
Qed.

Lemma pow2_unique (x : Q) (a b : Z) :
  2 ^ a <= x → x < 2 ^ (a + 1) → 2 ^ b <= x → x < 2 ^ (b + 1) → a = b.
Proof.
  intros Ha1 Ha2 Hb1 Hb2.
  destruct (Z.lt_trichotomy a b) as [Hab|[Hab|Hab]];
    [exfalso | exact Hab | exfalso].
  - assert (2 ^ (a + 1) <= 2 ^ b) by (apply Qpower_le_compat_l; [lia | lra]).
    lra.
  - assert (2 ^ (b + 1) <= 2 ^ a) by (apply Qpower_le_compat_l; [lia | lra]).
    lra.
Qed.

Lemma ilog2_proper (x y : Q) : 0 < x → x == y → ilog2 x = ilog2 y.
Proof.
  intros Hx Hxy. assert (Hy : 0 < y) by lra.
  destruct (ilog2_spec x Hx), (ilog2_spec y Hy).
  apply (pow2_unique x); lra.
Qed.

Lemma ilog2_scale (x : Q) (k : Z) :
  0 < x → ilog2 (x * 2 ^ k) = (ilog2 x + k)%Z.
Proof.
  intros Hx. pose proof (pow2_pos k) as Hk.
  assert (Hxk : 0 < x * 2 ^ k) by nra.
  destruct (ilog2_spec x Hx) as [Hlo Hhi].
  destruct (ilog2_spec _ Hxk) as [Hlo' Hhi'].
  apply (pow2_unique (x * 2 ^ k)); try assumption.
  - rewrite Qpower_plus by apply two_ne0. nra.
  - replace (ilog2 x + k + 1)%Z with ((ilog2 x + 1) + k)%Z by lia.
    rewrite Qpower_plus by apply two_ne0. nra.
Qed.

Lemma roundEven_proper (m m' : Q) : m == m' → roundEven m = roundEven m'.
Proof.
  intros Hm. unfold roundEven.
  assert (Ef : Qfloor m = Qfloor m') by (apply Qfloor_comp; exact Hm).
  rewrite <- Ef.
  assert (Ec : Qcompare (m - inject_Z (Qfloor m)) (1 # 2)
               = Qcompare (m' - inject_Z (Qfloor m)) (1 # 2)).
  { apply Qcompare_comp; [|reflexivity].
    change (m - inject_Z (Qfloor m) == m' - inject_Z (Qfloor m)). lra. }
  now rewrite Ec.
Qed.

Lemma roundPos_proper (x y : Q) : 0 < x → x == y → roundPos x == roundPos y.
Proof.
  intros Hx Hxy. unfold roundPos. rewrite <- (ilog2_proper x y Hx Hxy).
  rewrite (roundEven_proper (x / 2 ^ (ilog2 x - 52)) (y / 2 ^ (ilog2 x - 52))).
  - reflexivity.
  - apply Qdiv_comp; [exact Hxy | reflexivity].
Qed.

Lemma roundPos_scale (x : Q) (k : Z) :
  0 < x → roundPos (x * 2 ^ k) == roundPos x * 2 ^ k.
Proof.
  intros Hx. unfold roundPos. rewrite (ilog2_scale x k Hx).
  replace (ilog2 x + k - 52)%Z with ((ilog2 x - 52) + k)%Z by lia.
  pose proof (pow2_pos k). pose proof (pow2_pos (ilog2 x - 52)).
  assert (Hu : 2 ^ (ilog2 x - 52 + k) == 2 ^ (ilog2 x - 52) * 2 ^ k)
    by (apply Qpower_plus, two_ne0).
  revert Hu. generalize (2 ^ (ilog2 x - 52 + k)). intros u' Hu.
  assert (Hm : x * 2 ^ k / u' == x / 2 ^ (ilog2 x - 52)).
  { rewrite Hu. field. split; lra. }
  rewrite (roundEven_proper _ _ Hm), Hu. ring.
Qed.

Lemma round64_respectsEq : respectsEq round64.
Proof.
  intros x y Hxy. unfold round64.
  assert (Ec : Qcompare x 0 = Qcompare y 0)
    by (apply Qcompare_comp; [exact Hxy | reflexivity]).
  rewrite <- Ec. destruct (Qcompare x 0) eqn:E.
  - reflexivity.
  - apply Qlt_alt in E.
    rewrite (roundPos_proper (- x) (- y)); [reflexivity | lra |].
    now rewrite Hxy.
  - apply Qgt_alt in E. now apply roundPos_proper.
Qed.

Lemma round64_scale (x : Q) (k : Z) : round64 (x * 2 ^ k) == round64 x * 2 ^ k.
Proof.
  pose proof (pow2_pos k) as Hk. unfold round64.
  destruct (Qcompare x 0) eqn:E.
  - apply Qeq_alt in E.
    assert (E' : Qcompare (x * 2 ^ k) 0 = Eq)
      by (apply (proj1 (Qeq_alt _ _)); rewrite E; ring).
    rewrite E'. ring.
  - apply Qlt_alt in E.
    assert (Hp : 0 < (- x) * 2 ^ k) by (apply Qmult_lt_0_compat; lra).
    assert (Hn : - (x * 2 ^ k) == (- x) * 2 ^ k) by ring.
    assert (E' : Qcompare (x * 2 ^ k) 0 = Lt).
    { apply (proj1 (Qlt_alt _ _)). rewrite <- Hn in Hp. revert Hp.
      generalize (x * 2 ^ k). intros; lra. }
    rewrite E'.
    rewrite (roundPos_proper (- (x * 2 ^ k)) ((- x) * 2 ^ k));
      [| rewrite Hn; exact Hp | exact Hn].
    rewrite roundPos_scale by lra. ring.
  - apply Qgt_alt in E.
    assert (Hp : 0 < x * 2 ^ k) by (apply Qmult_lt_0_compat; lra).
    assert (E' : Qcompare (x * 2 ^ k) 0 = Gt)
      by (apply (proj1 (Qgt_alt _ _)); exact Hp).
    rewrite E'. apply roundPos_scale. lra.
Qed.

(** Binary64 rounding commutes with the scaling by a power of two. *)
Lemma round64_scalesBy (c : Q) (k : Z) : c == 2 ^ k → scalesBy round64 c.
Proof.
  intros Hc x.
  rewrite (round64_respectsEq (x * c) (x * 2 ^ k)) by (rewrite Hc; reflexivity).
  rewrite round64_scale, Hc. reflexivity.
Qed.
End RoundingFacts.

(** In exact arithmetic the rounded generators are the generators of the
    embedding. *)
Lemma Rounded_exact `{Extern} (d : DiffusionModel) (r : RandSrc) (w : World) :
  Rounded.GenerateMaskedTokens exact d r = GenerateMaskedTokens d r
  ∧ Rounded.GenerateMasked exact d r = GenerateMasked d r
  ∧ Rounded.GenerateBetter exact w = GenerateBetter w.
Proof. repeat split; reflexivity. Qed.

(** On the demonstration model every segment is six equal logits: the mass
    left after MASK is near [5/6] at temperature 1 and near [5/12] at
    temperature 2, both far above the threshold. *)
Lemma demoModel_sameFallback :
  Rounded.sameFallback (H := tableExtern) round64 demoModel 1 2.
Proof.
  intros batchInput preds i seg Hpreds Hseg.
  assert (HV : VocabSize (Tokenizer demoModel) = 6)
    by (vm_compute; reflexivity).
  assert (Hp : preds = replicate 24 1%Q) by (now injection Hpreds as <-).
  subst preds.
  destruct i as [|[|[|[|i]]]];
    try (vm_compute in Hseg; injection Hseg as <-; vm_compute; reflexivity).
  apply sliceZ_within in Hseg. rewrite HV, length_replicate in Hseg. lia.
Qed.

(** ** Temperature *)


(** In binary64 arithmetic the temperature does not cancel in
    [GenerateMasked] either.  On probabilities 0.3, 0.1, 0.2, 0.15, 0.15,
    0.1 with [TopK = 2] and a draw just above 0.6, temperature 1 gives
    token 2 (the renormalised weight of token 0 is 0.6, below the draw) and
    temperature 7 gives token 0 (the quotients by 7 are rounded, and the
    renormalised weight of token 0 reaches the draw). *)
Lemma GenerateMasked_rounding_matters :
  fst <$> Rounded.GenerateMaskedTokens (H := plainExtern) round64
            (withTemperature skewModel 1) skewRand
  = Some [2]
  ∧ fst <$> Rounded.GenerateMaskedTokens (H := plainExtern) round64
              (withTemperature skewModel 7) skewRand
    = Some [0].
Proof. split; vm_compute; reflexivity. Qed.



(** * Further properties *)

(** ** Lower case *)

Lemma lowerByte_idem (c : ascii) : lowerByte (lowerByte c) = lowerByte c.
Proof.
  destruct c as [b0 b1 b2 b3 b4 b5 b6 b7].
  destruct b0, b1, b2, b3, b4, b5, b6, b7; reflexivity.
Qed.

Lemma ToLower_idem (s : string) : ToLower (ToLower s) = ToLower s.
Proof.
  induction s as [|c r IH]; [reflexivity|].
  simpl. now rewrite lowerByte_idem, IH.
Qed.

Lemma Fields_lowered (s : string) :
  ToLower s = s → Forall (λ w, ToLower w = w) (Fields s).
Proof.
  induction s as [|c r IH]; [constructor|].
  simpl. intros [= Hc Hr]. specialize (IH Hr).
  destruct (isSpace c); [assumption|].
  assert (H1 : ToLower (String c EmptyString) = String c EmptyString)
    by (simpl; now rewrite Hc).
  destruct r as [|c' r'].
  - repeat constructor. exact H1.
  - destruct (isSpace c').
    + constructor; assumption.
    + destruct (Fields (String c' r')) as [|w ws].
      * repeat constructor. exact H1.
      * inversion IH as [|? ? Hw Hws]; subst.
        constructor; [|assumption]. simpl. now rewrite Hc, Hw.
Qed.

Lemma Fields_ToLower_lowered (s : string) :
  Forall (λ w, ToLower w = w) (Fields (ToLower s)).
Proof. apply Fields_lowered, ToLower_idem. Qed.

(** ** The tokenizer as a bijection *)

Lemma tokWf_specials :
  tokWf (addSpecials (mkTokenizer ∅ ∅ 0 ∅) 0 specials,
         Z.of_nat (length specials)).
Proof.
  split.
  { intros i w. destruct i as [|[|[|[|i]]]]; simpl; intros [= <-]; reflexivity. }
  split.
  { intros id. split.
    - cbn -[lookup insert]. rewrite !lookup_insert_Some, lookup_empty.
      intros Hl. intuition (try discriminate; lia).
    - intros Hid.
      assert (Hc : id = 0 ∨ id = 1 ∨ id = 2 ∨ id = 3) by lia.
      destruct Hc as [->|[->|[->| ->]]]; reflexivity. }
  split.
  { intros id. cbn -[lookup insert].
    rewrite !lookup_insert_Some, lookup_empty.
    intros Hl. intuition discriminate. }
  split.
  { intros id w. cbn -[lookup insert]. intros Hl.
    rewrite !lookup_insert_Some, lookup_empty in Hl.
    assert (Hc : (id = 0 ∧ w = "[PAD]"%string) ∨ (id = 1 ∧ w = "[MASK]"%string)
                 ∨ (id = 2 ∧ w = "[CLS]"%string) ∨ (id = 3 ∧ w = "[SEP]"%string)).
    { intuition (try discriminate; subst; auto). }
    clear Hl. destruct Hc as [[-> ->]|[[-> ->]|[[-> ->]|[-> ->]]]]; reflexivity. }
  split.
  { intros id Hid. simpl in Hid.
    assert (Hc : id = 0 ∨ id = 1 ∨ id = 2 ∨ id = 3) by lia.
    destruct Hc as [->|[->|[->| ->]]]; eexists; reflexivity. }
  intros w id. cbn -[lookup insert]. intros Hl Hid.
  rewrite !lookup_insert_Some, lookup_empty in Hl.
  exfalso. intuition (try discriminate; lia).
Qed.

Lemma tokWf_addWord st w : ToLower w = w → tokWf st → tokWf (addWord st w).
Proof.
  destruct st as [t n]. intros Hw (Hsp & Hst & Hsf & Hrv & Hd & Hlow).
  unfold addWord. destruct (Vocab t !! w) eqn:Hlook.
  { exact (conj Hsp (conj Hst (conj Hsf (conj Hrv (conj Hd Hlow))))). }
  unfold tokWf. simpl in *.
  split.
  { intros i w' Hi. rewrite lookup_insert_ne; [now apply Hsp|].
    intros <-. apply Hsp in Hi. congruence. }
  split; [exact Hst|]. split; [exact Hsf|]. split.
  { intros id w'. rewrite lookup_insert_Some.
    intros [[<- <-]|[Hne Hold]]; [apply lookup_insert_eq|].
    apply Hrv in Hold. rewrite lookup_insert_ne; [exact Hold|]. congruence. }
  split.
  { intros id Hid. destruct (decide (n = id)) as [<-|Hne].
    - rewrite lookup_insert_eq. eauto.
    - rewrite lookup_insert_ne by exact Hne. apply Hd. lia. }
  intros w' id. rewrite lookup_insert_Some.
  intros [[<- <-]|[Hne Hold]] Hid; [exact Hw|]. now apply (Hlow _ id).
Qed.

Lemma tokWf_addSentence st s : tokWf st → tokWf (addSentence st s).
Proof.
  unfold addSentence. generalize (Fields_ToLower_lowered s).
  generalize (Fields (ToLower s)) as ws. intros ws Hws. revert st.
  induction Hws as [|w ws Hw _ IH]; intros st Hst; [exact Hst|].
  simpl. apply IH. now apply tokWf_addWord.
Qed.

Lemma tokWf_sentences st sentences :
  tokWf st → tokWf (foldl addSentence st sentences).
Proof.
  revert st. induction sentences as [|s ss IH]; intros st Hst; [exact Hst|].
  simpl. apply IH. now apply tokWf_addSentence.
Qed.

Lemma NewCustomTokenizer_wf sentences :
  tokWf (NewCustomTokenizer sentences,
         VocabSize (NewCustomTokenizer sentences)).
Proof.
  unfold NewCustomTokenizer.
  assert (Hinv := tokWf_sentences _ sentences tokWf_specials).
  destruct (foldl addSentence _ sentences) as [t2 n]. exact Hinv.
Qed.

Lemma isSpecial_true t n id :
  tokWf (t, n) → isSpecial t id = true ↔ 0 ≤ id < 4.
Proof.
  intros (_ & Hst & Hsf & _). unfold isSpecial. rewrite <- (Hst id). simpl.
  destruct (SpecialTokens t !! id) as [[]|] eqn:E; simpl;
    split; try congruence; try discriminate.
Qed.

Lemma isSpecial_false t n id :
  tokWf (t, n) → ¬ 0 ≤ id < 4 → isSpecial t id = false.
Proof.
  intros Hwf Hid. destruct (isSpecial t id) eqn:E; [|reflexivity].
  apply (isSpecial_true t n id Hwf) in E. contradiction.
Qed.

(** In a tokenizer of the constructor a lower-case word has no id below 4. *)
Lemma lower_word_id t n w id :
  tokInv (t, n) → ToLower w = w → Vocab t !! w = Some id → 4 ≤ id.
Proof.
  intros (_ & _ & _ & Hv) Hlow Hid. simpl in Hv.
  destruct (Hv _ _ Hid) as (_ & _ & Hlo & _).
  destruct (Z.lt_ge_cases id 4) as [Hlt|]; [|assumption].
  destruct (special_not_lower w (Hlo Hlt) Hlow).
Qed.

Lemma pad_is_zero t n : tokInv (t, n) → vocabAt t "[PAD]" = 0.
Proof. intros (_ & [Hpad _] & _). unfold vocabAt. simpl in Hpad. now rewrite Hpad. Qed.

(** X1.  Whatever the corpus, the constructor gives [PAD], [MASK], [CLS]
    and [SEP] the ids 0, 1, 2 and 3, flags exactly these four ids as special,
    and returns a vocabulary of at least four entries: no corpus word takes
    or overwrites a reserved id. *)
Theorem NewCustomTokenizer_reserves (sentences : list string) :
  let t := NewCustomTokenizer sentences in
  Vocab t !! "[PAD]"%string = Some 0
  ∧ Vocab t !! "[MASK]"%string = Some 1
  ∧ Vocab t !! "[CLS]"%string = Some 2
  ∧ Vocab t !! "[SEP]"%string = Some 3
  ∧ (∀ id, isSpecial t id = true ↔ 0 ≤ id < 4)
  ∧ 4 ≤ VocabSize t.
Proof.
  intros t. pose proof (NewCustomTokenizer_wf sentences) as Hwf.
  pose proof (NewCustomTokenizer_inv sentences) as Hinv. fold t in Hwf, Hinv.
  destruct Hwf as (Hsp & Hrest). simpl in Hsp.
  split; [exact (Hsp 0%nat _ eq_refl)|].
  split; [exact (Hsp 1%nat _ eq_refl)|].
  split; [exact (Hsp 2%nat _ eq_refl)|].
  split; [exact (Hsp 3%nat _ eq_refl)|].
  split.
  - intros id. apply (isSpecial_true t (VocabSize t)). exact (conj Hsp Hrest).
  - apply Hinv.
Qed.

(** X2.  In a tokenizer of the constructor [Vocab] and [ReverseVocab] are
    inverse to each other, and the ids in use are exactly
    [0 .. VocabSize - 1]: no id is skipped and none is out of range. *)
Theorem Vocab_ReverseVocab_inverse (sentences : list string) :
  let t := NewCustomTokenizer sentences in
  (∀ w id, Vocab t !! w = Some id ↔ ReverseVocab t !! id = Some w)
  ∧ (∀ id, is_Some (ReverseVocab t !! id) ↔ 0 ≤ id < VocabSize t).
Proof.
  intros t. pose proof (NewCustomTokenizer_wf sentences) as Hwf.
  pose proof (NewCustomTokenizer_inv sentences) as Hinv. fold t in Hwf, Hinv.
  destruct Hwf as (_ & _ & _ & Hrv & Hd & _).
  destruct Hinv as (_ & _ & _ & Hv). simpl in *.
  split.
  - intros w id. split; [intros Hid; apply (Hv _ _ Hid) | apply Hrv].
  - intros id. split; [|apply Hd].
    intros [w Hw]. apply Hrv in Hw. apply (Hv _ _ Hw).
Qed.

(** X3.  [Encode] on a tokenizer of the constructor returns one id for each
    word of the text, and every id is either 0 (the id of [PAD], used for a
    word that is not in the vocabulary) or the id of a corpus word, in
    [[4, VocabSize)]: since the text is put in lower case first, the ids 1, 2
    and 3 of [MASK], [CLS] and [SEP] never come out of [Encode]. *)
Theorem Encode_ids (sentences : list string) (text : string) :
  let t := NewCustomTokenizer sentences in
  length (Encode t text) = length (Fields (ToLower text))
  ∧ Forall (λ id, id = 0 ∨ wordId t id) (Encode t text)
  ∧ (∀ i w, Fields (ToLower text) !! i = Some w → Vocab t !! w = None →
            Encode t text !! i = Some 0).
Proof.
  intros t. pose proof (NewCustomTokenizer_inv sentences) as Hinv. fold t in Hinv.
  unfold Encode. split; [apply length_map|]. split.
  - pose proof (Fields_ToLower_lowered text) as Hlow.
    induction Hlow as [|w ws Hw _ IH]; simpl; constructor; [|exact IH].
    destruct (Vocab t !! w) as [id|] eqn:Hid.
    + right. split; [eapply lower_word_id; eauto|].
      destruct Hinv as (_ & _ & _ & Hv). apply (Hv _ _ Hid).
    + left. eapply pad_is_zero, Hinv.
  - intros i w Hi Hnone.
    change (map ?f ?l) with (f <$> l). rewrite list_lookup_fmap, Hi. simpl.
    rewrite Hnone. f_equal. eapply pad_is_zero, Hinv.
Qed.

(** X4.  Letter case never matters: [Encode] gives the same ids for a text
    and for its lower-case form, and the constructor builds the same
    tokenizer from a corpus and from its lower-case form. *)
Theorem tokenizer_case_insensitive (t : CustomTokenizer)
    (sentences : list string) (text : string) :
  Encode t (ToLower text) = Encode t text
  ∧ NewCustomTokenizer (map ToLower sentences) = NewCustomTokenizer sentences.
Proof.
  split; [unfold Encode; now rewrite ToLower_idem|].
  unfold NewCustomTokenizer.
  generalize (addSpecials (mkTokenizer ∅ ∅ 0 ∅) 0 specials,
              Z.of_nat (length specials)).
  intros st. replace (foldl addSentence st (map ToLower sentences))
    with (foldl addSentence st sentences); [reflexivity|].
  revert st. induction sentences as [|s ss IH]; intros st; [reflexivity|].
  simpl. rewrite <- IH. unfold addSentence. now rewrite ToLower_idem.
Qed.

Lemma decode_encoded_from t n (ws acc : list string) :
  tokInv (t, n) → tokWf (t, n) → Forall (λ w, ToLower w = w) ws →
  foldl (fun words id =>
           match ReverseVocab t !! id with
           | Some word => if isSpecial t id then words else words ++ [word]
           | None => words
           end) acc
        (map (fun w => match Vocab t !! w with
                       | Some id => id
                       | None => vocabAt t "[PAD]"
                       end) ws)
  = acc ++ filter (λ w, is_Some (Vocab t !! w)) ws.
Proof.
  intros Hinv Hwf Hws. rewrite (pad_is_zero t n Hinv). revert acc.
  induction Hws as [|w ws Hw _ IH]; intros acc; [now rewrite app_nil_r|].
  simpl. destruct (Vocab t !! w) as [id|] eqn:Hid.
  - rewrite filter_cons_True by (rewrite Hid; eauto).
    pose proof (lower_word_id t n w id Hinv Hw Hid) as H4.
    destruct Hinv as (_ & _ & _ & Hv). destruct (Hv _ _ Hid) as (_ & Hrev & _).
    simpl in Hrev. rewrite Hrev.
    rewrite (isSpecial_false t n id Hwf) by lia.
    rewrite IH, <- app_assoc. reflexivity.
  - rewrite filter_cons_False by (rewrite Hid; intros [? [=]]).
    assert (Hs : isSpecial t 0 = true) by (apply (isSpecial_true t n 0 Hwf); lia).
    rewrite Hs. destruct (ReverseVocab t !! 0); cbv beta iota; apply IH.
Qed.

(** X5.  Decoding an encoded text gives its words that are in the
    vocabulary, in lower case, in their order and joined by single spaces:
    a word out of the vocabulary is encoded as [PAD] and dropped by
    [Decode], and runs of white space shrink to one space. *)
Theorem Decode_Encode_known_words (sentences : list string) (text : string) :
  let t := NewCustomTokenizer sentences in
  Decode t (Encode t text)
  = Join (filter (λ w, is_Some (Vocab t !! w)) (Fields (ToLower text))) " ".
Proof.
  intros t. unfold Decode, Encode, decodeWords. f_equal.
  rewrite (decode_encoded_from t (VocabSize t)).
  - reflexivity.
  - apply NewCustomTokenizer_inv.
  - apply NewCustomTokenizer_wf.
  - apply Fields_ToLower_lowered.
Qed.

(** The words [Decode] joins: one for each id of a corpus word. *)
Lemma decodeWords_from t n (ids : list Z) (acc : list string) :
  tokInv (t, n) → tokWf (t, n) → n = VocabSize t →
  ∃ ws, foldl (fun words id =>
                 match ReverseVocab t !! id with
                 | Some word => if isSpecial t id then words else words ++ [word]
                 | None => words
                 end) acc ids = acc ++ ws
        ∧ Forall2 (λ id w, Vocab t !! w = Some id ∧ isWord w ∧ ToLower w = w)
                  (filter (wordId t) ids) ws.
Proof.
  intros Hinv Hwf Hn. revert acc.
  induction ids as [|id ids IH]; intros acc.
  { exists []. split; [now rewrite app_nil_r | constructor]. }
  simpl. destruct (decide (wordId t id)) as [Hid|Hid].
  - rewrite filter_cons_True by exact Hid.
    destruct Hwf as (Hsp & Hst & Hsf & Hrv & Hd & Hlow).
    destruct (Hd id) as [w Hw]; [unfold wordId in Hid; simpl; lia|].
    simpl in Hw. rewrite Hw.
    rewrite (isSpecial_false t n id) by
      (first [exact (conj Hsp (conj Hst (conj Hsf (conj Hrv (conj Hd Hlow)))))
             | unfold wordId in Hid; lia]).
    destruct (IH (acc ++ [w])) as (ws & Hws & Hall).
    exists (w :: ws). split; [now rewrite Hws, <- app_assoc|].
    constructor; [|exact Hall].
    pose proof (Hrv _ _ Hw) as Hv. simpl in Hv. split; [exact Hv|].
    destruct Hinv as (_ & _ & _ & Hv'). destruct (Hv' _ _ Hv) as (_ & _ & _ & Hhi).
    unfold wordId in Hid. split; [apply Hhi; lia | apply (Hlow w id Hv); lia].
  - rewrite filter_cons_False by exact Hid.
    assert (Hskip : match ReverseVocab t !! id with
                    | Some word => if isSpecial t id then acc else acc ++ [word]
                    | None => acc
                    end = acc).
    { destruct (ReverseVocab t !! id) as [w|] eqn:Hw; [|reflexivity].
      destruct Hwf as (Hsp & Hst & Hsf & Hrv & Hd & Hlow).
      pose proof (Hrv _ _ Hw) as Hv. simpl in Hv.
      destruct Hinv as (_ & _ & _ & Hv'). destruct (Hv' _ _ Hv) as (Hr & _).
      simpl in Hr. unfold wordId in Hid.
      assert (H03 : 0 ≤ id < 4) by lia.
      apply (isSpecial_true t n id
               (conj Hsp (conj Hst (conj Hsf (conj Hrv (conj Hd Hlow)))))) in H03.
      now rewrite H03. }
    rewrite Hskip. apply IH.
Qed.

Lemma encode_words t (ids : list Z) (ws : list string) :
  Forall2 (λ id w, Vocab t !! w = Some id ∧ isWord w ∧ ToLower w = w) ids ws →
  Encode t (Join ws " ") = ids.
Proof.
  intros Hall. unfold Encode. rewrite ToLower_Join.
  replace (map ToLower ws) with ws.
  2:{ clear -Hall. induction Hall as [|id w ids ws (_ & _ & Hw) _ IH];
        [reflexivity|]. simpl. now rewrite Hw, <- IH. }
  rewrite Fields_Join.
  2:{ clear -Hall. induction Hall as [|id w ids ws (_ & Hw & _) _ IH];
        constructor; assumption. }
  induction Hall as [|id w ids ws (Hid & _) _ IH]; [reflexivity|].
  simpl. now rewrite Hid, IH.
Qed.

Lemma filter_wordId_idem t (ids : list Z) :
  filter (wordId t) (filter (wordId t) ids) = filter (wordId t) ids.
Proof.
  induction ids as [|id ids IH]; [reflexivity|].
  destruct (decide (wordId t id)) as [Hid|Hid].
  - rewrite (filter_cons_True _ _ _ Hid), (filter_cons_True _ _ _ Hid).
    now rewrite IH.
  - now rewrite (filter_cons_False _ _ _ Hid).
Qed.

(** X6.  Encoding a decoded sequence gives back its ids of corpus words, in
    their order: [Decode] skips the four special ids and every id that is
    not in [ReverseVocab] (negative, or [VocabSize] and above) without
    failing, and what it keeps survives the round trip.  In particular a
    sequence of ids in [[4, VocabSize)] is the encoding of its decoding. *)
Theorem Encode_Decode_ids (sentences : list string) (ids : list Z) :
  let t := NewCustomTokenizer sentences in
  Encode t (Decode t ids) = filter (wordId t) ids
  ∧ Decode t ids = Decode t (filter (wordId t) ids).
Proof.
  intros t.
  pose proof (NewCustomTokenizer_inv sentences) as Hinv.
  pose proof (NewCustomTokenizer_wf sentences) as Hwf. fold t in Hinv, Hwf.
  destruct (decodeWords_from t (VocabSize t) ids [] Hinv Hwf eq_refl)
    as (ws & Hws & Hall).
  destruct (decodeWords_from t (VocabSize t) (filter (wordId t) ids) []
              Hinv Hwf eq_refl) as (ws' & Hws' & Hall').
  rewrite filter_wordId_idem in Hall'.
  unfold Decode, decodeWords. rewrite Hws, Hws'. simpl.
  split; [now apply encode_words|].
  f_equal. clear Hws Hws'. revert ws' Hall'.
  induction Hall as [|id w l ws (Hid & _) _ IH]; intros ws' Hall';
    inversion Hall' as [|? w' ? ws'' (Hid' & _) Hrest]; subst; [reflexivity|].
  f_equal; [|now apply IH].
  destruct Hwf as (_ & _ & _ & Hrv & _). destruct Hinv as (_ & _ & _ & Hv).
  destruct (Hv _ _ Hid) as (_ & H1 & _). destruct (Hv _ _ Hid') as (_ & H2 & _).
  congruence.
Qed.

(** The state of the loop of the constructor after the sentences. *)
Lemma NewCustomTokenizer_state sentences :
  let st := foldl addSentence
              (addSpecials (mkTokenizer ∅ ∅ 0 ∅) 0 specials,
               Z.of_nat (length specials)) sentences in
  NewCustomTokenizer sentences
  = mkTokenizer (Vocab st.1) (ReverseVocab st.1) st.2 (SpecialTokens st.1).
Proof.
  unfold NewCustomTokenizer. destruct (foldl addSentence _ sentences).
  reflexivity.
Qed.

Lemma addWord_grows st w :
  Vocab st.1 ⊆ Vocab (addWord st w).1 ∧ st.2 ≤ (addWord st w).2.
Proof.
  destruct st as [t n]. unfold addWord.
  destruct (Vocab t !! w) eqn:Hw; simpl; [split; [reflexivity | lia]|].
  split; [now apply insert_subseteq | lia].
Qed.

Lemma addWords_grow ws st :
  Vocab st.1 ⊆ Vocab (foldl addWord st ws).1 ∧ st.2 ≤ (foldl addWord st ws).2.
Proof.
  revert st. induction ws as [|w ws IH]; intros st; simpl;
    [split; [reflexivity | lia]|].
  destruct (addWord_grows st w) as [H1 H2].
  destruct (IH (addWord st w)) as [H3 H4].
  split; [etransitivity; eassumption | lia].
Qed.

Lemma addSentences_grow ss st :
  Vocab st.1 ⊆ Vocab (foldl addSentence st ss).1
  ∧ st.2 ≤ (foldl addSentence st ss).2.
Proof.
  revert st. induction ss as [|s ss IH]; intros st; simpl;
    [split; [reflexivity | lia]|].
  destruct (addWords_grow (Fields (ToLower s)) st) as [H1 H2].
  destruct (IH (addSentence st s)) as [H3 H4]. unfold addSentence in *.
  split; [etransitivity; eassumption | lia].
Qed.

Lemma addWords_known ws st :
  Forall (λ w, is_Some (Vocab st.1 !! w)) ws → foldl addWord st ws = st.
Proof.
  induction 1 as [|w ws [id Hw] _ IH]; [reflexivity|].
  simpl. replace (addWord st w) with st; [exact IH|].
  destruct st as [t n]. unfold addWord. simpl in Hw. now rewrite Hw.
Qed.

Lemma addSentences_known ss st :
  Forall (λ s, Forall (λ w, is_Some (Vocab st.1 !! w)) (Fields (ToLower s)))
         ss →
  foldl addSentence st ss = st.
Proof.
  induction 1 as [|s ss Hs _ IH]; [reflexivity|].
  simpl. unfold addSentence at 2. now rewrite addWords_known.
Qed.

Lemma addWords_adds ws st w :
  w ∈ ws → is_Some (Vocab (foldl addWord st ws).1 !! w).
Proof.
  revert st. induction ws as [|w' ws IH]; intros st Hin;
    [now apply elem_of_nil in Hin|].
  apply elem_of_cons in Hin as [->|Hin]; [|now apply IH].
  simpl. assert (Hw : is_Some (Vocab (addWord st w').1 !! w')).
  { destruct st as [t n]. unfold addWord.
    destruct (Vocab t !! w') eqn:E; simpl; [rewrite E; eauto|].
    rewrite lookup_insert_eq. eauto. }
  destruct Hw as [id Hid]. exists id.
  eapply lookup_weaken; [exact Hid | apply addWords_grow].
Qed.

Lemma addSentences_adds ss st s w :
  s ∈ ss → w ∈ Fields (ToLower s) →
  is_Some (Vocab (foldl addSentence st ss).1 !! w).
Proof.
  revert st. induction ss as [|s' ss IH]; intros st Hin Hw;
    [now apply elem_of_nil in Hin|].
  apply elem_of_cons in Hin as [->|Hin]; [|now apply IH].
  simpl. destruct (addWords_adds (Fields (ToLower s')) st w Hw) as [id Hid].
  exists id. eapply lookup_weaken; [exact Hid | apply addSentences_grow].
Qed.

Lemma corpus_words_known sentences s :
  s ∈ sentences →
  Forall (λ w, is_Some (Vocab (NewCustomTokenizer sentences) !! w))
         (Fields (ToLower s)).
Proof.
  intros Hin. apply Forall_forall. intros w Hw.
  rewrite NewCustomTokenizer_state. simpl.
  now apply (addSentences_adds sentences _ s w).
Qed.

(** X7.  Ids are stable when the corpus grows: the tokenizer of a corpus
    followed by more sentences keeps the id of every word of the first
    corpus and is at least as large; when the added sentences bring no new
    word the tokenizer is the same, so a corpus repeated twice gives the
    tokenizer of the corpus. *)
Theorem NewCustomTokenizer_extends (s1 s2 : list string) :
  Vocab (NewCustomTokenizer s1) ⊆ Vocab (NewCustomTokenizer (s1 ++ s2))
  ∧ VocabSize (NewCustomTokenizer s1) ≤ VocabSize (NewCustomTokenizer (s1 ++ s2))
  ∧ (Forall (λ s, Forall (λ w, is_Some (Vocab (NewCustomTokenizer s1) !! w))
                         (Fields (ToLower s))) s2 →
     NewCustomTokenizer (s1 ++ s2) = NewCustomTokenizer s1)
  ∧ NewCustomTokenizer (s1 ++ s1) = NewCustomTokenizer s1.
Proof.
  assert (Hsame : ∀ s3,
            Forall (λ s, Forall (λ w, is_Some (Vocab (NewCustomTokenizer s1) !! w))
                                (Fields (ToLower s))) s3 →
            NewCustomTokenizer (s1 ++ s3) = NewCustomTokenizer s1).
  { intros s3 Hall. rewrite !NewCustomTokenizer_state, foldl_app.
    rewrite NewCustomTokenizer_state in Hall. simpl in Hall.
    now rewrite addSentences_known. }
  split; [|split; [|split; [apply Hsame|]]].
  - rewrite !NewCustomTokenizer_state, foldl_app. apply addSentences_grow.
  - rewrite !NewCustomTokenizer_state, foldl_app. apply addSentences_grow.
  - apply Hsame. apply Forall_forall. intros s Hs.
    now apply corpus_words_known.
Qed.

(** X8.  A sentence of the corpus loses nothing: its encoding holds ids of
    corpus words only, no [PAD] stands in for a word, and decoding the
    encoding gives the words of the sentence in lower case, joined by single
    spaces. *)
Theorem corpus_sentence_round_trip (sentences : list string) (s : string) :
  s ∈ sentences →
  let t := NewCustomTokenizer sentences in
  Forall (wordId t) (Encode t s)
  ∧ Decode t (Encode t s) = Join (Fields (ToLower s)) " ".
Proof.
  intros Hin t.
  pose proof (NewCustomTokenizer_inv sentences) as Hinv.
  pose proof (NewCustomTokenizer_wf sentences) as Hwf. fold t in Hinv, Hwf.
  pose proof (corpus_words_known sentences s Hin) as Hknown. fold t in Hknown.
  pose proof (Fields_ToLower_lowered s) as Hlow.
  split.
  - unfold Encode. revert Hlow.
    induction Hknown as [|w ws [id Hid] _ IH]; intros Hlow;
      inversion Hlow as [|? ? Hw Hws]; subst; simpl; constructor;
      [|now apply IH].
    rewrite Hid. split; [eapply lower_word_id; eauto|].
    destruct Hinv as (_ & _ & _ & Hv). apply (Hv _ _ Hid).
  - unfold Decode, Encode, decodeWords. f_equal.
    rewrite (decode_encoded_from t (VocabSize t) _ [] Hinv Hwf Hlow). simpl.
    clear Hlow. induction Hknown as [|w ws Hw _ IH]; [reflexivity|].
    rewrite filter_cons_True by exact Hw. now rewrite IH.
Qed.

Lemma corpus_sentence_round_trip_witness :
  let sentences := ["The cat sat"; "a  Cat ran"]%string in
  let t := NewCustomTokenizer sentences in
  "a  Cat ran"%string ∈ sentences
  ∧ Forall (wordId t) (Encode t "a  Cat ran")
  ∧ Decode t (Encode t "a  Cat ran") = "a cat ran"%string.
Proof.
  intros sentences t.
  assert (Hin : "a  Cat ran"%string ∈ sentences) by set_solver.
  split; [exact Hin|].
  exact (corpus_sentence_round_trip sentences "a  Cat ran" Hin).
Defined.

(** ** The constructor of the model *)

Lemma length_fillSchedule config n :
  n = Z.to_nat (NumTimesteps config) →
  length (fillSchedule config (replicate n 0%Q)) = n.
Proof. intros ->. now rewrite fillSchedule_map, length_map, length_seq. Qed.

(** [NewDiffusionModel] panics exactly when [NumTimesteps] is negative
    (the [make] of the schedule table).  Otherwise the model holds the
    network and the configuration it was given, the tokenizer of the corpus,
    the special-token set of that tokenizer, and a schedule table of
    [NumTimesteps] entries (none when [NumTimesteps] is 0). *)
Lemma NewDiffusionModel_fields `{Extern} (network : NetworkT)
    (config : DiffusionConfig) (sentences : list string) :
  (NewDiffusionModel network config sentences = None
   ↔ NumTimesteps config < 0)
  ∧ (∀ d, NewDiffusionModel network config sentences = Some d →
       Network d = network ∧ Config d = config
       ∧ Tokenizer d = NewCustomTokenizer sentences
       ∧ ModelSpecialTokens d = SpecialTokens (NewCustomTokenizer sentences)
       ∧ length (MaskFraction d) = Z.to_nat (NumTimesteps config)).
Proof.
  unfold NewDiffusionModel, makeSlice.
  destruct (NumTimesteps config <? 0) eqn:Hneg; simpl.
  - apply Z.ltb_lt in Hneg. split; [tauto | discriminate].
  - apply Z.ltb_ge in Hneg. split; [split; [discriminate | lia]|].
    intros d [= <-]. simpl. repeat split. now apply length_fillSchedule.
Qed.

Lemma scheduleFrac_anti config t t' :
  2 ≤ NumTimesteps config →
  (MaskScheduleEnd config <= MaskScheduleStart config)%Q →
  (t ≤ t')%nat → (scheduleFrac config t' <= scheduleFrac config t)%Q.
Proof.
  intros HT Hse Htt. unfold scheduleFrac. cbv zeta.
  set (s := MaskScheduleStart config) in *.
  set (e := MaskScheduleEnd config) in *.
  assert (HD : (0 < / ofInt (NumTimesteps config - 1))%Q).
  { apply Qinv_lt_0_compat. unfold ofInt. change 0%Q with (inject_Z 0).
    rewrite <- Zlt_Qlt. lia. }
  set (iD := (/ ofInt (NumTimesteps config - 1))%Q) in *.
  assert (Hraw : (s + (e - s) * ofLen t' / ofInt (NumTimesteps config - 1)
                  <= s + (e - s) * ofLen t / ofInt (NumTimesteps config - 1))%Q).
  { unfold Qdiv. fold iD.
    pose proof (ofLen_le _ _ Htt). pose proof (ofLen_nonneg t).
    assert ((e - s) * ofLen t' <= (e - s) * ofLen t)%Q by nra.
    nra. }
  fcases; lra.
Qed.

Lemma scheduleFrac_first config :
  (0 <= MaskScheduleStart config <= 1)%Q →
  scheduleFrac config 0 == MaskScheduleStart config.
Proof.
  intros Hs. unfold scheduleFrac, ofLen. cbv zeta.
  change (inject_Z (Z.of_nat 0)) with 0%Q.
  assert (Hraw : (MaskScheduleStart config
                  + (MaskScheduleEnd config - MaskScheduleStart config) * 0
                    / ofInt (NumTimesteps config - 1)
                  == MaskScheduleStart config)%Q).
  { unfold Qdiv. ring. }
  revert Hraw. generalize (MaskScheduleStart config
                  + (MaskScheduleEnd config - MaskScheduleStart config) * 0
                    / ofInt (NumTimesteps config - 1))%Q.
  intros x Hx. fcases; lra.
Qed.

Lemma scheduleFrac_last config :
  2 ≤ NumTimesteps config →
  (0 <= MaskScheduleEnd config <= 1)%Q →
  scheduleFrac config (Z.to_nat (NumTimesteps config) - 1)
  == MaskScheduleEnd config.
Proof.
  intros HT He. unfold scheduleFrac, ofLen, ofInt. cbv zeta.
  replace (Z.of_nat (Z.to_nat (NumTimesteps config) - 1))
    with (NumTimesteps config - 1) by lia.
  assert (HD : ¬ inject_Z (NumTimesteps config - 1) == 0).
  { change 0%Q with (inject_Z 0). rewrite inject_Z_injective. lia. }
  assert (Hraw : (MaskScheduleStart config
                  + (MaskScheduleEnd config - MaskScheduleStart config)
                    * inject_Z (NumTimesteps config - 1)
                    / inject_Z (NumTimesteps config - 1)
                  == MaskScheduleEnd config)%Q).
  { field. exact HD. }
  revert Hraw. generalize (MaskScheduleStart config
                  + (MaskScheduleEnd config - MaskScheduleStart config)
                    * inject_Z (NumTimesteps config - 1)
                    / inject_Z (NumTimesteps config - 1))%Q.
  intros x Hx. fcases; lra.
Qed.

(** X10.  The schedule of a model with at least two steps starts at the
    start fraction: its first entry is [MaskScheduleStart] whenever that lies
    in [[0, 1]].  The full schedule, from 0 to 1, ends at exactly 1, and when
    the end fraction is not above the start fraction the table never
    increases. *)
Theorem MaskFraction_endpoints `{Extern} (network : NetworkT)
    (config : DiffusionConfig) (sentences : list string)
    (d : DiffusionModel) :
  2 ≤ NumTimesteps config →
  NewDiffusionModel network config sentences = Some d →
  (∃ first last,
     MaskFraction d !! 0%nat = Some first
     ∧ MaskFraction d !! (Z.to_nat (NumTimesteps config) - 1)%nat = Some last
     ∧ ((0 <= MaskScheduleStart config <= 1)%Q →
        first == MaskScheduleStart config)
     ∧ (MaskScheduleStart config == 0 → MaskScheduleEnd config == 1 →
        last == 1))
  ∧ ((MaskScheduleEnd config <= MaskScheduleStart config)%Q →
     ∀ t t' f f', (t ≤ t')%nat →
       MaskFraction d !! t = Some f → MaskFraction d !! t' = Some f' →
       (f' <= f)%Q).
Proof.
  intros HT. unfold NewDiffusionModel, makeSlice.
  destruct (NumTimesteps config <? 0) eqn:Hneg; [lia|]. simpl.
  intros [= <-]. simpl. rewrite fillSchedule_map. split.
  - exists (scheduleFrac config 0),
           (scheduleFrac config (Z.to_nat (NumTimesteps config) - 1)).
    rewrite !list_lookup_fmap, !lookup_seq_lt by lia. simpl.
    split; [reflexivity|]. split; [reflexivity|].
    split; [apply scheduleFrac_first|].
    intros Hs He. rewrite scheduleFrac_last; [exact He | exact HT |].
    rewrite He. split; discriminate.
  - intros Hse t t' f f' Htt Hf Hf'.
    rewrite list_lookup_fmap in Hf, Hf'.
    destruct (seq 0 (Z.to_nat (NumTimesteps config)) !! t) as [a|] eqn:Ha;
      [|discriminate].
    destruct (seq 0 (Z.to_nat (NumTimesteps config)) !! t') as [b|] eqn:Hb;
      [|discriminate].
    apply lookup_seq in Ha as [-> _]. apply lookup_seq in Hb as [-> _].
    simpl in Hf, Hf'. injection Hf as <-. injection Hf' as <-.
    now apply scheduleFrac_anti.
Qed.

Lemma MaskFraction_endpoints_witness :
  2 ≤ NumTimesteps (mkConfig 5 4 (1 # 100) 3 1 2 0 1)
  ∧ ∃ d, NewDiffusionModel (H := tableExtern) []
           (mkConfig 5 4 (1 # 100) 3 1 2 0 1) ["a b"%string]
         = Some d
    ∧ ∃ first last,
        MaskFraction d !! 0%nat = Some first
        ∧ MaskFraction d !! 4%nat = Some last
        ∧ first == 0 ∧ last == 1.
Proof.
  split; [simpl; lia|]. eexists. split; [reflexivity|].
  destruct (MaskFraction_endpoints (H := tableExtern) []
              (mkConfig 5 4 (1 # 100) 3 1 2 0 1)
              ["a b"%string] _ ltac:(simpl; lia) eq_refl)
    as [(first & last & H0 & H4 & Hs & He) _].
  exists first, last. split; [exact H0|]. split; [exact H4|].
  split; [apply Hs; simpl; split; discriminate | apply He; reflexivity].
Defined.

(** ** Loops that cannot panic *)

Lemma forEach_seq_total {σ St} (I : nat → St → σ → Prop)
    (body : St → nat → ST σ St) (a k : nat) :
  (∀ i s st, (a ≤ i < a + k)%nat → I i s st →
     ∃ s' st', body s i st = Some (s', st') ∧ I (S i) s' st') →
  ∀ s st, I a s st →
    ∃ s' st', forEach body s (seq a k) st = Some (s', st') ∧ I (a + k)%nat s' st'.
Proof.
  revert a. induction k as [|k IH]; intros a Hbody s st Hs.
  - exists s, st. rewrite Nat.add_0_r. split; [reflexivity | exact Hs].
  - destruct (Hbody a s st ltac:(lia) Hs) as (s1 & st1 & Hb & H1).
    destruct (IH (S a) ltac:(intros; apply Hbody; [lia | assumption]) s1 st1 H1)
      as (s2 & st2 & Hrun & H2).
    exists s2, st2. simpl. rewrite (bind_run _ _ _ _ _ Hb).
    split; [exact Hrun|]. now replace (a + S k)%nat with (S a + k)%nat by lia.
Qed.

Lemma forRange_total {σ St} (I : nat → St → σ → Prop)
    (body : St → nat → ST σ St) (n : nat) :
  (∀ i s st, (i < n)%nat → I i s st →
     ∃ s' st', body s i st = Some (s', st') ∧ I (S i) s' st') →
  ∀ s st, I 0%nat s st →
    ∃ s' st', forRange n body s st = Some (s', st') ∧ I n s' st'.
Proof.
  intros Hbody s st Hs. unfold forRange.
  apply (forEach_seq_total I body 0 n); [|exact Hs].
  intros i s0 st0 Hi. apply Hbody. lia.
Qed.

(** ** Cutting and padding *)

Lemma fitTokens_padTo maxLength padID tokens :
  0 ≤ maxLength →
  fitTokens maxLength padID tokens
  = Some (padTo (Z.to_nat maxLength) padID tokens).
Proof.
  intros HL. unfold fitTokens, makeSlice, padTo.
  destruct (maxLength <? 0) eqn:E; [lia|]. simpl.
  destruct (Z.of_nat (length tokens) >? maxLength) eqn:E2.
  - rewrite Z.gtb_ltb in E2. apply Z.ltb_lt in E2.
    now rewrite take_app_le by lia.
  - rewrite Z.gtb_ltb in E2. apply Z.ltb_ge in E2. f_equal.
    rewrite take_app_ge by lia. rewrite take_replicate. f_equal. f_equal. lia.
Qed.

Lemma fitTokens_negative maxLength padID tokens :
  maxLength < 0 → fitTokens maxLength padID tokens = None.
Proof.
  intros HL. unfold fitTokens, makeSlice.
  destruct (maxLength <? 0) eqn:E; [reflexivity | lia].
Qed.

Lemma length_padTo n padID tokens : length (padTo n padID tokens) = n.
Proof.
  unfold padTo. rewrite length_take, length_app, length_replicate. lia.
Qed.

Lemma splice_step {A} (l target : list A) (i : nat) (a b : A) :
  length target = length l → l !! i = Some b → target !! i = Some a →
  take i target ++ drop i l = take i target ++ b :: drop (S i) l
  ∧ <[i := a]> (take i target ++ drop i l)
    = take (S i) target ++ drop (S i) l.
Proof.
  intros Hlen Hb Ha.
  assert (Hi : (i < length target)%nat) by (eapply lookup_lt_Some, Ha).
  rewrite (drop_S _ _ _ Hb). split; [reflexivity|].
  rewrite insert_app_r_alt by (rewrite length_take; lia).
  rewrite length_take, Nat.min_l, Nat.sub_diag by lia. simpl.
  rewrite (take_S_r _ _ _ Ha), <- app_assoc. reflexivity.
Qed.

(** ** The random draws of the noising functions *)

Lemma advance_0 r : advance r 0 = r.
Proof. destruct r as [tp c]. unfold advance. simpl. f_equal. lia. Qed.

Lemma advance_advance r a b : advance (advance r a) b = advance r (a + b).
Proof. unfold advance. simpl. f_equal. lia. Qed.

Lemma randFloat64_advance r i :
  randFloat64 (advance r i) = Some (draw r i, advance r (S i)).
Proof.
  rewrite randFloat64_run. unfold draw, advance. simpl.
  do 2 f_equal. f_equal. lia.
Qed.

Lemma draw_range r k : (0 <= draw r k)%Q ∧ (draw r k < 1)%Q.
Proof.
  unfold draw.
  pose proof (Z.mod_pos_bound (tape r (cursor r + k)%nat) two63 eq_refl) as Hm.
  set (v := tape r (cursor r + k)%nat mod two63) in *.
  assert (H63 : (0 < inject_Z two63)%Q) by reflexivity.
  split.
  - apply Qle_shift_div_l; [exact H63|]. rewrite Qmult_0_l.
    change 0%Q with (inject_Z 0). rewrite <- Zle_Qle. lia.
  - apply Qlt_shift_div_r; [exact H63|]. rewrite Qmult_1_l.
    rewrite <- Zlt_Qlt. lia.
Qed.

Section NoiseDraws.
Context `{Extern}.

Lemma AddNoise_run (d : DiffusionModel) tokens t r :
  0 ≤ MaxLength (Config d) →
  let L := Z.to_nat (MaxLength (Config d)) in
  let padTokenID := vocabAt (Tokenizer d) "[PAD]" in
  let maskTokenID := vocabAt (Tokenizer d) "[MASK]" in
  let noiseLevel :=
    mathMin (4 # 5) (ofInt (t + 1) / ofInt (NumTimesteps (Config d)))%Q in
  AddNoise d tokens t r
  = Some (imap (fun i tok =>
                  if fltb (draw r i) noiseLevel && negb (tok =? padTokenID)
                  then maskTokenID else tok)
               (padTo L padTokenID tokens),
          advance r L).
Proof.
  intros HL L padTokenID maskTokenID noiseLevel. unfold AddNoise.
  fold padTokenID maskTokenID noiseLevel L.
  rewrite (fitTokens_padTo _ _ _ HL). fold L. rewrite bind_liftO_Some.
  set (fitted := padTo L padTokenID tokens).
  set (f := fun (i : nat) (tok : Z) =>
              if fltb (draw r i) noiseLevel && negb (tok =? padTokenID)
              then maskTokenID else tok).
  set (target := imap f fitted).
  assert (Hlf : length fitted = L) by apply length_padTo.
  assert (Hlt : length target = L) by (unfold target; now rewrite length_imap).
  match goal with
  | |- forRange L ?body fitted r = _ => set (body0 := body)
  end.
  assert (Hstep : ∀ i noisy st, (i < L)%nat →
            st = advance r i ∧ noisy = take i target ++ drop i fitted →
            ∃ noisy' st', body0 noisy i st = Some (noisy', st')
              ∧ st' = advance r (S i)
              ∧ noisy' = take (S i) target ++ drop (S i) fitted).
  { intros i noisy st Hi [-> ->]. unfold body0.
    destruct (lookup_lt_is_Some_2 fitted i ltac:(lia)) as [tok Htok].
    assert (Ha : target !! i = Some (f i tok)).
    { unfold target. now rewrite list_lookup_imap, Htok. }
    destruct (splice_step fitted target i (f i tok) tok
                ltac:(congruence) Htok Ha) as [Hsame Hput].
    rewrite (bind_run _ _ _ _ _ (randFloat64_advance r i)).
    exists (take (S i) target ++ drop (S i) fitted), (advance r (S i)).
    split; [|split; reflexivity].
    assert (Hcur : (take i target ++ drop i fitted) !! i = Some tok).
    { rewrite lookup_app_r by (rewrite length_take; lia).
      rewrite length_take, Nat.min_l, Nat.sub_diag by lia.
      now rewrite lookup_drop, Nat.add_0_r. }
    assert (Hkeep : take i target ++ drop i fitted
                    = take (S i) target ++ drop (S i) fitted
                    ∨ fltb (draw r i) noiseLevel = true
                      ∧ (tok =? padTokenID) = false).
    { destruct (fltb (draw r i) noiseLevel) eqn:E1;
        destruct (tok =? padTokenID) eqn:E2; auto; left;
        rewrite (take_S_r _ _ _ Ha), <- app_assoc, Hsame; unfold f;
        rewrite E1, E2; reflexivity. }
    destruct (fltb (draw r i) noiseLevel) eqn:E1.
    + rewrite Hcur, bind_liftO_Some.
      destruct (tok =? padTokenID) eqn:E2; simpl.
      * destruct Hkeep as [<-|[_ [=]]]. reflexivity.
      * unfold store. rewrite length_app, length_take, length_drop.
        replace (i <? _)%nat with true
          by (symmetry; apply Nat.ltb_lt; lia).
        rewrite <- Hput. unfold f. rewrite E1, E2. reflexivity.
    + destruct Hkeep as [<-|[[=] _]]. reflexivity. }
  destruct (forRange_total
              (fun i noisy st =>
                 st = advance r i ∧ noisy = take i target ++ drop i fitted)
              body0 L Hstep fitted r
              (conj (eq_sym (advance_0 r)) eq_refl))
    as (noisy & r' & Hrun & -> & ->).
  rewrite Hrun. f_equal. f_equal.
  rewrite take_ge, drop_ge by lia. apply app_nil_r.
Qed.
End NoiseDraws.

Lemma countNonPad_take_S padID (l : list Z) i tok :
  l !! i = Some tok →
  countNonPad padID (take (S i) l)
  = (countNonPad padID (take i l) + (if (tok =? padID)%Z then 0 else 1))%nat.
Proof.
  intros Hi. unfold countNonPad.
  rewrite (take_S_r _ _ _ Hi), filter_app, length_app. f_equal.
  destruct (tok =? padID) eqn:E.
  - apply Z.eqb_eq in E. now rewrite filter_cons_False by (simpl; tauto).
  - apply Z.eqb_neq in E. now rewrite filter_cons_True by exact E.
Qed.

Section MaskedNoiseDraws.
Context `{Extern}.

Lemma AddNoiseMasked_run (d : DiffusionModel) tokens tVal r :
  0 ≤ MaxLength (Config d) →
  let L := Z.to_nat (MaxLength (Config d)) in
  let padTokenID := vocabAt (Tokenizer d) "[PAD]" in
  let maskTokenID := vocabAt (Tokenizer d) "[MASK]" in
  let fitted := padTo L padTokenID tokens in
  AddNoiseMasked d tokens tVal r
  = Some (imap (fun i tok =>
                  if negb (tok =? padTokenID)
                     && fltb (draw r (countNonPad padTokenID (take i fitted)))
                             tVal
                  then maskTokenID else tok)
               fitted,
          advance r (countNonPad padTokenID fitted)).
Proof.
  intros HL L padTokenID maskTokenID fitted. unfold AddNoiseMasked.
  fold padTokenID maskTokenID L.
  rewrite (fitTokens_padTo _ _ _ HL). fold L fitted. rewrite bind_liftO_Some.
  set (cnt := fun i => countNonPad padTokenID (take i fitted)).
  set (f := fun (i : nat) (tok : Z) =>
              if negb (tok =? padTokenID) && fltb (draw r (cnt i)) tVal
              then maskTokenID else tok).
  change (imap _ fitted) with (imap f fitted).
  set (target := imap f fitted).
  assert (Hlf : length fitted = L) by apply length_padTo.
  assert (Hlt : length target = L) by (unfold target; now rewrite length_imap).
  match goal with
  | |- forRange L ?body fitted r = _ => set (body0 := body)
  end.
  assert (Hstep : ∀ i noisy st, (i < L)%nat →
            st = advance r (cnt i) ∧ noisy = take i target ++ drop i fitted →
            ∃ noisy' st', body0 noisy i st = Some (noisy', st')
              ∧ st' = advance r (cnt (S i))
              ∧ noisy' = take (S i) target ++ drop (S i) fitted).
  { intros i noisy st Hi [-> ->]. unfold body0.
    destruct (lookup_lt_is_Some_2 fitted i ltac:(lia)) as [tok Htok].
    assert (Ha : target !! i = Some (f i tok)).
    { unfold target. now rewrite list_lookup_imap, Htok. }
    destruct (splice_step fitted target i (f i tok) tok
                ltac:(congruence) Htok Ha) as [Hsame Hput].
    assert (Hcur : (take i target ++ drop i fitted) !! i = Some tok).
    { rewrite lookup_app_r by (rewrite length_take; lia).
      rewrite length_take, Nat.min_l, Nat.sub_diag by lia.
      now rewrite lookup_drop, Nat.add_0_r. }
    pose proof (countNonPad_take_S padTokenID fitted i tok Htok) as Hcnt.
    fold (cnt (S i)) (cnt i) in Hcnt.
    rewrite Hcur, bind_liftO_Some.
    destruct (tok =? padTokenID) eqn:E2; simpl.
    - exists (take (S i) target ++ drop (S i) fitted), (advance r (cnt (S i))).
      split; [|split; reflexivity]. unfold ret.
      rewrite Hcnt, Nat.add_0_r. do 2 f_equal.
      rewrite (take_S_r _ _ _ Ha), <- app_assoc, Hsame. unfold f.
      now rewrite E2.
    - rewrite (bind_run _ _ _ _ _ (randFloat64_advance r (cnt i))).
      exists (take (S i) target ++ drop (S i) fitted), (advance r (cnt (S i))).
      split; [|split; reflexivity].
      replace (cnt (S i)) with (S (cnt i)) by lia.
      destruct (fltb (draw r (cnt i)) tVal) eqn:E1.
      + unfold store. rewrite length_app, length_take, length_drop.
        replace (i <? _)%nat with true
          by (symmetry; apply Nat.ltb_lt; lia).
        rewrite <- Hput. unfold f. rewrite E1, E2. reflexivity.
      + unfold ret. do 2 f_equal.
        rewrite (take_S_r _ _ _ Ha), <- app_assoc, Hsame. unfold f.
        now rewrite E1, E2. }
  destruct (forRange_total
              (fun i noisy st =>
                 st = advance r (cnt i)
                 ∧ noisy = take i target ++ drop i fitted)
              body0 L Hstep fitted r
              (conj (eq_sym (advance_0 r)) eq_refl))
    as (noisy & r' & Hrun & -> & ->).
  rewrite Hrun. f_equal. f_equal.
  - rewrite take_ge, drop_ge by lia. apply app_nil_r.
  - unfold cnt. now rewrite take_ge by lia.
Qed.
End MaskedNoiseDraws.

(** X11.  [AddNoise] panics for a negative [MaxLength]; otherwise it
    returns [MaxLength] tokens, the input cut or padded with [PAD], in which
    position [i] holds MASK exactly when the [i]-th draw is below
    [min(0.8, (t+1)/NumTimesteps)] and the token is not [PAD].  It draws once
    for every position, [PAD] positions included: [MaxLength] draws in all. *)
Theorem AddNoise_position_draws `{Extern} (d : DiffusionModel)
    (tokens : list Z) (t : Z) (r : RandSrc) :
  let L := Z.to_nat (MaxLength (Config d)) in
  let padTokenID := vocabAt (Tokenizer d) "[PAD]" in
  let maskTokenID := vocabAt (Tokenizer d) "[MASK]" in
  let noiseLevel :=
    mathMin (4 # 5) (ofInt (t + 1) / ofInt (NumTimesteps (Config d)))%Q in
  (MaxLength (Config d) < 0 → AddNoise d tokens t r = None)
  ∧ (0 ≤ MaxLength (Config d) → NumTimesteps (Config d) ≠ 0 →
     AddNoise d tokens t r
     = Some (imap (fun i tok =>
                     if fltb (draw r i) noiseLevel && negb (tok =? padTokenID)
                     then maskTokenID else tok)
                  (padTo L padTokenID tokens),
             advance r L)).
Proof.
  intros L padTokenID maskTokenID noiseLevel. split.
  - intros HL. unfold AddNoise. now rewrite fitTokens_negative.
  - intros HL _. now apply AddNoise_run.
Qed.

Lemma AddNoise_position_draws_witness :
  0 ≤ MaxLength (Config demoModel) ∧ NumTimesteps (Config demoModel) ≠ 0
  ∧ AddNoise (H := tableExtern) demoModel [4; 5] 2 demoRand
    = Some (imap (fun i tok =>
                    if fltb (draw demoRand i) (3 # 5) && negb (tok =? 0)
                    then 1 else tok)
                 [4; 5; 0; 0],
            advance demoRand 4).
Proof.
  split; [vm_compute; discriminate|]. split; [vm_compute; discriminate|].
  apply (proj2 (AddNoise_position_draws (H := tableExtern) demoModel [4; 5] 2
                  demoRand)).
  - vm_compute. discriminate.
  - vm_compute. discriminate.
Defined.

(** X12.  [AddNoiseMasked] panics for a negative [MaxLength]; otherwise it
    returns [MaxLength] tokens, the input cut or padded with [PAD], and it
    draws for the positions that do not hold [PAD] only: a position is MASK
    exactly when its token is not [PAD] and the draw whose number is the
    count of non-[PAD] tokens before it is below [tVal]; the number of draws
    is the number of non-[PAD] tokens. *)
Theorem AddNoiseMasked_position_draws `{Extern} (d : DiffusionModel)
    (tokens : list Z) (tVal : Q) (r : RandSrc) :
  let L := Z.to_nat (MaxLength (Config d)) in
  let padTokenID := vocabAt (Tokenizer d) "[PAD]" in
  let maskTokenID := vocabAt (Tokenizer d) "[MASK]" in
  let fitted := padTo L padTokenID tokens in
  (MaxLength (Config d) < 0 → AddNoiseMasked d tokens tVal r = None)
  ∧ (0 ≤ MaxLength (Config d) →
     AddNoiseMasked d tokens tVal r
     = Some (imap (fun i tok =>
                     if negb (tok =? padTokenID)
                        && fltb (draw r (countNonPad padTokenID
                                                     (take i fitted)))
                                tVal
                     then maskTokenID else tok)
                  fitted,
             advance r (countNonPad padTokenID fitted))).
Proof.
  intros L padTokenID maskTokenID fitted. split.
  - intros HL. unfold AddNoiseMasked. now rewrite fitTokens_negative.
  - intros HL. now apply AddNoiseMasked_run.
Qed.

Lemma AddNoiseMasked_position_draws_witness :
  0 ≤ MaxLength (Config demoModel)
  ∧ ∃ noisy, AddNoiseMasked (H := tableExtern) demoModel [4; 0; 5] (1 # 2)
                            demoRand
             = Some (noisy, advance demoRand 2)
             ∧ length noisy = 4%nat.
Proof.
  split; [vm_compute; discriminate|]. eexists. split.
  - apply (proj2 (AddNoiseMasked_position_draws (H := tableExtern) demoModel
                    [4; 0; 5] (1 # 2) demoRand)).
    vm_compute. discriminate.
  - reflexivity.
Defined.

Lemma imap_same {A} (f : nat → A → A) (l : list A) :
  (∀ i x, l !! i = Some x → f i x = x) → imap f l = l.
Proof.
  intros Hf. apply list_eq. intros i. rewrite list_lookup_imap.
  destruct (l !! i) as [x|] eqn:E; simpl; [|reflexivity].
  f_equal. now apply Hf.
Qed.

(** X13.  The two ends of the noise level of [AddNoiseMasked]: with
    [tVal <= 0] nothing is masked and the result is the input cut or padded;
    with [tVal >= 1] every token that is not [PAD] becomes MASK, whatever is
    drawn, since a draw lies in [[0, 1)]. *)
Theorem AddNoiseMasked_extremes `{Extern} (d : DiffusionModel)
    (tokens : list Z) (tVal : Q) (r : RandSrc) :
  0 ≤ MaxLength (Config d) →
  let L := Z.to_nat (MaxLength (Config d)) in
  let padTokenID := vocabAt (Tokenizer d) "[PAD]" in
  let maskTokenID := vocabAt (Tokenizer d) "[MASK]" in
  let fitted := padTo L padTokenID tokens in
  ((tVal <= 0)%Q →
   fst <$> AddNoiseMasked d tokens tVal r = Some fitted)
  ∧ ((1 <= tVal)%Q →
     fst <$> AddNoiseMasked d tokens tVal r
     = Some (map (fun tok => if tok =? padTokenID then tok else maskTokenID)
                 fitted)).
Proof.
  intros HL L padTokenID maskTokenID fitted.
  rewrite (AddNoiseMasked_run d tokens tVal r HL). simpl.
  fold L padTokenID maskTokenID fitted. split; intros Ht; f_equal.
  - apply imap_same. intros i tok _.
    destruct (draw_range r (countNonPad padTokenID (take i fitted))) as [H0 _].
    replace (fltb _ tVal) with false
      by (symmetry; apply fltb_false; lra).
    now rewrite andb_false_r.
  - change (map ?g fitted) with (g <$> fitted). rewrite <- imap_const.
    apply imap_ext. intros i tok _. simpl.
    destruct (draw_range r (countNonPad padTokenID (take i fitted))) as [_ H1].
    replace (fltb _ tVal) with true
      by (symmetry; apply fltb_true; lra).
    rewrite andb_true_r. now destruct (tok =? padTokenID).
Qed.

Lemma AddNoiseMasked_extremes_witness :
  0 ≤ MaxLength (Config demoModel)
  ∧ fst <$> AddNoiseMasked (H := tableExtern) demoModel [4; 0; 5] 0 demoRand
    = Some [4; 0; 5; 0]
  ∧ fst <$> AddNoiseMasked (H := tableExtern) demoModel [4; 0; 5] 1 demoRand
    = Some [1; 0; 1; 0].
Proof.
  assert (HL : 0 ≤ MaxLength (Config demoModel)) by (vm_compute; discriminate).
  split; [exact HL|].
  split.
  - apply (proj1 (AddNoiseMasked_extremes (H := tableExtern) demoModel
                    [4; 0; 5] 0 demoRand HL)). discriminate.
  - apply (proj2 (AddNoiseMasked_extremes (H := tableExtern) demoModel
                    [4; 0; 5] 1 demoRand HL)). discriminate.
Defined.

(** ** [BetterAddNoise]: where it panics and where it cannot *)

Lemma forEach_app {σ St X} (body : St → X → ST σ St) (l1 l2 : list X) s st :
  forEach body s (l1 ++ l2) st
  = (s' <- forEach body s l1 ;; forEach body s' l2) st.
Proof.
  revert s st. induction l1 as [|x l1 IH]; intros s st; [reflexivity|].
  simpl. unfold bind. destruct (body s x st) as [[s1 st1]|]; [|reflexivity].
  rewrite IH. reflexivity.
Qed.

Lemma mathRound_ge (n : nat) (x : Q) :
  (ofLen n + (1 # 2) <= x)%Q → Z.of_nat n + 1 ≤ mathRound x.
Proof.
  intros Hx. pose proof (ofLen_nonneg n) as Hn. unfold mathRound.
  assert (Hlt : fltb x 0 = false) by (apply fltb_false; lra).
  rewrite Hlt.
  assert (Hle : (inject_Z (Z.of_nat n + 1) <= x + (1 # 2))%Q).
  { rewrite inject_Z_plus. unfold ofLen in Hx.
    change (inject_Z 1) with 1%Q. lra. }
  apply Qfloor_resp_le in Hle. now rewrite Qfloor_Z in Hle.
Qed.

Lemma mathRound_ofLen (n : nat) : mathRound (ofLen n * 1) = Z.of_nat n.
Proof.
  apply Z.le_antisymm; [apply mathRound_le; lra|].
  pose proof (ofLen_nonneg n) as Hn. unfold mathRound.
  assert (Hlt : fltb (ofLen n * 1) 0 = false) by (apply fltb_false; lra).
  rewrite Hlt.
  assert (Hle : (inject_Z (Z.of_nat n) <= ofLen n * 1 + (1 # 2))%Q)
    by (unfold ofLen; lra).
  apply Qfloor_resp_le in Hle. now rewrite Qfloor_Z in Hle.
Qed.

Lemma atZ_None {A} (l : list A) (t : Z) :
  t < 0 ∨ Z.of_nat (length l) ≤ t → atZ l t = None.
Proof.
  intros Ht. unfold atZ, index. destruct (t <? 0) eqn:E; [reflexivity|].
  apply Z.ltb_ge in E. simpl. apply lookup_ge_None. lia.
Qed.

Section BetterNoiseRuns.
Context `{Extern}.

Lemma BetterAddNoise_shuffled (d : DiffusionModel) x0 t f r :
  atZ (MaskFraction d) t = Some f → (0 < f)%Q →
  let padID := vocabAt (Tokenizer d) "[PAD]" in
  let maskID := vocabAt (Tokenizer d) "[MASK]" in
  let N := countNonPad padID x0 in
  ∃ idxes r',
    idxes ≡ₚ nonPadFrom padID 0 x0
    ∧ length idxes = N
    ∧ Forall (λ ix, (ix < length x0)%nat) idxes
    ∧ BetterAddNoise d x0 t r
      = forRange (Z.to_nat (mathRound (ofLen N * f)))
          (fun noisy i =>
             ix <- liftO (idxes !! i) ;; liftO (store ix maskID noisy))
          x0 r'.
Proof.
  intros Hf Hpos padID maskID N. unfold BetterAddNoise.
  fold padID maskID. rewrite Hf, bind_liftO_Some.
  replace (fleb f 0) with false by (symmetry; apply fleb_false; lra).
  destruct (randShuffle_perm (nonPadFrom padID 0 x0) r)
    as (idxes & r' & Hsh & Hperm).
  rewrite (bind_run _ _ _ _ _ Hsh).
  assert (Hlen : length idxes = N).
  { rewrite Hperm. apply length_nonPadFrom. }
  exists idxes, r'. split; [exact Hperm|]. split; [exact Hlen|].
  split; [|now rewrite Hlen].
  apply Forall_forall. intros i Hi. rewrite Hperm in Hi.
  apply elem_of_nonPadFrom in Hi as (_ & tok & Hl & _).
  rewrite Nat.sub_0_r in Hl. eapply lookup_lt_Some, Hl.
Qed.

Lemma BetterAddNoise_overshoot (d : DiffusionModel) x0 t f r :
  atZ (MaskFraction d) t = Some f →
  let N := countNonPad (vocabAt (Tokenizer d) "[PAD]") x0 in
  (ofLen N + (1 # 2) <= ofLen N * f)%Q →
  BetterAddNoise d x0 t r = None.
Proof.
  intros Hf N Hover. pose proof (ofLen_nonneg N) as HN.
  assert (Hpos : (0 < f)%Q) by nra.
  destruct (BetterAddNoise_shuffled d x0 t f r Hf Hpos)
    as (idxes & r' & _ & Hlen & Hall & ->). fold N in Hlen |- *.
  pose proof (mathRound_ge N _ Hover) as Hk.
  unfold forRange.
  replace (Z.to_nat (mathRound (ofLen N * f)))
    with (N + S (Z.to_nat (mathRound (ofLen N * f)) - N - 1))%nat by lia.
  rewrite seq_app, forEach_app.
  rewrite (bind_run _ _ _ _ _
             (maskLoop_run _ idxes N 0 x0 r' ltac:(lia) Hall)).
  simpl. rewrite (proj2 (lookup_ge_None idxes N) ltac:(lia)). reflexivity.
Qed.

Lemma BetterAddNoise_total (d : DiffusionModel) x0 t f r :
  atZ (MaskFraction d) t = Some f → (f <= 1)%Q →
  ∃ noisy r', BetterAddNoise d x0 t r = Some (noisy, r')
              ∧ length noisy = length x0.
Proof.
  intros Hf Hle. destruct (Qlt_le_dec 0 f) as [Hpos|Hneg].
  - destruct (BetterAddNoise_shuffled d x0 t f r Hf Hpos)
      as (idxes & r' & _ & Hlen & Hall & ->).
    pose proof (mathRound_le (countNonPad (vocabAt (Tokenizer d) "[PAD]") x0)
                  f Hle) as Hk.
    unfold forRange. rewrite (maskLoop_run _ idxes _ 0 x0 r'); [|lia|exact Hall].
    eexists _, _. split; [reflexivity|]. apply length_maskAt.
  - unfold BetterAddNoise. rewrite Hf, bind_liftO_Some.
    replace (fleb f 0) with true by (symmetry; now apply fleb_true).
    exists x0, r. split; reflexivity.
Qed.
End BetterNoiseRuns.

(** X14.  [BetterAddNoise] panics when the step [t] is not an index of the
    schedule table, and when the fraction of the table is so far above 1
    that the number of tokens to mask, [round(N * fraction)], exceeds the
    number [N] of tokens that are not [PAD]: the masking loop then reads
    past the shuffled indices. *)
Theorem BetterAddNoise_panics `{Extern} (d : DiffusionModel) (x0 : list Z)
    (t : Z) (r : RandSrc) :
  (t < 0 ∨ Z.of_nat (length (MaskFraction d)) ≤ t →
   BetterAddNoise d x0 t r = None)
  ∧ (∀ f, atZ (MaskFraction d) t = Some f →
       let N := countNonPad (vocabAt (Tokenizer d) "[PAD]") x0 in
       (ofLen N + (1 # 2) <= ofLen N * f)%Q →
       BetterAddNoise d x0 t r = None).
Proof.
  split.
  - intros Ht. unfold BetterAddNoise. now rewrite atZ_None.
  - intros f Hf N Hover. now apply BetterAddNoise_overshoot with f.
Qed.

Lemma BetterAddNoise_panics_witness :
  BetterAddNoise (tableModel [2%Q]) [4; 5; 0] 1 demoRand = None
  ∧ BetterAddNoise (tableModel [2%Q]) [4; 5; 0] 0 demoRand = None.
Proof.
  split.
  - apply (proj1 (BetterAddNoise_panics (H := tableExtern) (tableModel [2%Q])
                    [4; 5; 0] 1 demoRand)).
    right. simpl. lia.
  - apply (proj2 (BetterAddNoise_panics (H := tableExtern) (tableModel [2%Q])
                    [4; 5; 0] 0 demoRand) 2%Q eq_refl).
    vm_compute. discriminate.
Defined.

(** X15.  On a model built by [NewDiffusionModel] with at least two steps,
    [BetterAddNoise] cannot panic at a step [t] of the schedule: for every
    sequence, every [0 <= t < NumTimesteps] and every state of the random
    source it returns a sequence of the length of its input. *)
Theorem BetterAddNoise_constructed_total `{Extern} (network : NetworkT)
    (config : DiffusionConfig) (sentences : list string)
    (d : DiffusionModel) (x0 : list Z) (t : Z) (r : RandSrc) :
  2 ≤ NumTimesteps config →
  NewDiffusionModel network config sentences = Some d →
  0 ≤ t < NumTimesteps config →
  ∃ noisy r', BetterAddNoise d x0 t r = Some (noisy, r')
              ∧ length noisy = length x0.
Proof.
  intros HT Hd Ht. unfold NewDiffusionModel, makeSlice in Hd.
  destruct (NumTimesteps config <? 0) eqn:Hneg; [lia|]. simpl in Hd.
  injection Hd as <-.
  apply BetterAddNoise_total with (scheduleFrac config (Z.to_nat t)).
  - simpl. rewrite fillSchedule_map. unfold atZ, index.
    destruct (t <? 0) eqn:E; [lia|]. simpl.
    rewrite list_lookup_fmap, lookup_seq_lt by lia. reflexivity.
  - apply scheduleFrac_range.
Qed.

Lemma BetterAddNoise_constructed_total_witness :
  2 ≤ NumTimesteps demoConfig ∧ 0 ≤ 3 < NumTimesteps demoConfig
  ∧ ∃ d, NewDiffusionModel (H := tableExtern) [] demoConfig ["a b"%string]
         = Some d
    ∧ ∃ noisy r', BetterAddNoise d [4; 5; 0] 3 demoRand = Some (noisy, r')
                  ∧ length noisy = 3%nat.
Proof.
  split; [simpl; lia|]. split; [simpl; lia|].
  eexists. split; [reflexivity|].
  apply (BetterAddNoise_constructed_total (H := tableExtern) [] demoConfig
           ["a b"%string] _ [4; 5; 0] 3 demoRand);
    [simpl; lia | reflexivity | simpl; lia].
Defined.

Lemma mathRound_full (n : nat) (f : Q) :
  f == 1 → mathRound (ofLen n * f) = Z.of_nat n.
Proof.
  intros Hf. apply Z.le_antisymm; [apply mathRound_le; lra|].
  pose proof (ofLen_nonneg n) as Hn. unfold mathRound.
  assert (Hlt : fltb (ofLen n * f) 0 = false) by (apply fltb_false; nra).
  rewrite Hlt.
  assert (Hle : (inject_Z (Z.of_nat n) <= ofLen n * f + (1 # 2))%Q)
    by (unfold ofLen in *; nra).
  apply Qfloor_resp_le in Hle. now rewrite Qfloor_Z in Hle.
Qed.

(** X16.  With a fraction of 1, [BetterAddNoise] turns every token that is
    not [PAD] into MASK and keeps every [PAD], whatever the shuffle draws. *)
Theorem BetterAddNoise_full_fraction `{Extern} (d : DiffusionModel)
    (x0 : list Z) (t : Z) (f : Q) (r : RandSrc) :
  atZ (MaskFraction d) t = Some f → f == 1 →
  let padID := vocabAt (Tokenizer d) "[PAD]" in
  let maskID := vocabAt (Tokenizer d) "[MASK]" in
  fst <$> BetterAddNoise d x0 t r
  = Some (map (fun tok => if tok =? padID then tok else maskID) x0).
Proof.
  intros Hf H1 padID maskID.
  destruct (BetterAddNoise_shuffled d x0 t f r Hf ltac:(lra))
    as (idxes & r' & Hperm & Hlen & Hall & ->).
  fold padID maskID in Hperm, Hlen |- *.
  rewrite (mathRound_full _ f H1), Nat2Z.id. unfold forRange.
  rewrite (maskLoop_run maskID idxes _ 0 x0 r'); [|lia|exact Hall].
  simpl. f_equal. rewrite drop_0, take_ge by lia.
  apply list_eq. intros i.
  change (map ?g x0) with (g <$> x0). rewrite list_lookup_fmap.
  destruct (decide (i ∈ idxes)) as [Hin|Hnin].
  - rewrite maskAt_in; [|exact Hin|].
    2:{ rewrite Forall_forall in Hall. now apply Hall. }
    rewrite Hperm in Hin.
    apply elem_of_nonPadFrom in Hin as (_ & tok & Hl & Hne).
    rewrite Nat.sub_0_r in Hl. rewrite Hl. simpl.
    apply Z.eqb_neq in Hne. now rewrite Hne.
  - rewrite maskAt_notin by exact Hnin.
    destruct (x0 !! i) as [tok|] eqn:Hl; [|reflexivity]. simpl.
    destruct (Z.eqb_spec tok padID) as [Heq|Hne]; [reflexivity|].
    exfalso. apply Hnin. rewrite Hperm. apply elem_of_nonPadFrom.
    split; [lia|]. exists tok. now rewrite Nat.sub_0_r.
Qed.

Lemma BetterAddNoise_full_fraction_witness :
  atZ (MaskFraction (tableModel [1%Q])) 0 = Some 1%Q ∧ 1 == 1
  ∧ fst <$> BetterAddNoise (tableModel [1%Q]) [4; 0; 5; 0] 0 demoRand
    = Some [1; 0; 1; 0].
Proof.
  split; [reflexivity|]. split; [reflexivity|].
  exact (BetterAddNoise_full_fraction (H := tableExtern) (tableModel [1%Q])
           [4; 0; 5; 0] 0 1 demoRand eq_refl ltac:(reflexivity)).
Defined.

(** ** The data of the trainers *)

Lemma mapM_map_Some {A B} (f : A → option B) (g : A → B) (l : list A) :
  (∀ x, f x = Some (g x)) → mapM f l = Some (map g l).
Proof.
  intros Hf. induction l as [|x l IH]; [reflexivity|].
  cbn [mapM map]. rewrite Hf, IH. reflexivity.
Qed.

Lemma padTo_ids n padID (ids : list Z) (P : Z → Prop) :
  P padID → Forall P ids → Forall P (padTo n padID ids).
Proof.
  intros Hp Hids. unfold padTo. apply Forall_take, Forall_app.
  split; [exact Hids|]. now apply Forall_replicate.
Qed.

(** X17.  The data preparation of [Train] and [trainMaskedDiffusion] panics
    for a negative [MaxLength] (when there is a sentence); otherwise row [i]
    is the encoding of sentence [i], cut to [MaxLength] tokens or padded
    with [PAD] up to it, so every row has exactly [MaxLength] tokens.  On a
    tokenizer of the constructor every token of every row is 0 or the id of
    a corpus word, hence below [VocabSize]. *)
Theorem prepare_rows (tokenizer : CustomTokenizer) (maxLength : Z)
    (sentences : list string) :
  (maxLength < 0 → sentences ≠ [] →
   prepare tokenizer maxLength sentences = None)
  ∧ (0 ≤ maxLength →
     prepare tokenizer maxLength sentences
     = Some (map (fun s => padTo (Z.to_nat maxLength)
                                 (vocabAt tokenizer "[PAD]")
                                 (Encode tokenizer s)) sentences)
     ∧ ∀ data, prepare tokenizer maxLength sentences = Some data →
         length data = length sentences
         ∧ Forall (λ row, length row = Z.to_nat maxLength) data
         ∧ ∀ corpus, tokenizer = NewCustomTokenizer corpus →
             Forall (Forall (λ id, id = 0 ∨ wordId tokenizer id)) data).
Proof.
  split.
  - intros HL Hne. unfold prepare. destruct sentences as [|s ss]; [congruence|].
    cbn [mapM]. now rewrite fitTokens_negative.
  - intros HL.
    assert (Hrun : prepare tokenizer maxLength sentences
                   = Some (map (fun s => padTo (Z.to_nat maxLength)
                                               (vocabAt tokenizer "[PAD]")
                                               (Encode tokenizer s))
                               sentences)).
    { unfold prepare. apply mapM_map_Some. intros s.
      now apply fitTokens_padTo. }
    split; [exact Hrun|]. intros data Hdata. rewrite Hrun in Hdata.
    injection Hdata as <-. split; [apply length_map|]. split.
    + apply Forall_forall. intros row Hrow.
      apply list_elem_of_fmap in Hrow as (s & -> & _). apply length_padTo.
    + intros corpus ->. apply Forall_forall. intros row Hrow.
      apply list_elem_of_fmap in Hrow as (s & -> & _).
      apply padTo_ids.
      * left. eapply pad_is_zero, NewCustomTokenizer_inv.
      * pose proof (NewCustomTokenizer_inv corpus) as Hinv.
        unfold Encode.
        pose proof (Fields_ToLower_lowered s) as Hlow.
        induction Hlow as [|w ws Hw _ IH]; simpl; constructor; [|exact IH].
        destruct (Vocab (NewCustomTokenizer corpus) !! w) as [id|] eqn:Hid.
        -- right. split; [eapply lower_word_id; eauto|].
           destruct Hinv as (_ & _ & _ & Hv). apply (Hv _ _ Hid).
        -- left. eapply pad_is_zero, Hinv.
Qed.

Lemma prepare_rows_witness :
  0 ≤ 4
  ∧ prepare (NewCustomTokenizer ["hello world"%string]) 4
            ["World hello hello world hello"; "hello there"]%string
    = Some [[5; 4; 4; 5]; [4; 0; 0; 0]].
Proof.
  split; [lia|].
  exact (proj1 (proj2 (prepare_rows (NewCustomTokenizer ["hello world"%string])
                         4 ["World hello hello world hello"; "hello there"]%string)
                  ltac:(lia))).
Defined.

(** X18.  Gradient clipping: an error term always lies in [[-5, 5]], and
    for a probability in [[0, 1]] the clipping does nothing: the error term
    is the probability, less 1 at the target, and lies in [[-1, 1]]. *)
Theorem errorDelta_bounds (p : Q) (m target : Z) :
  (-5 <= errorDelta p m target <= 5)%Q
  ∧ ((0 <= p <= 1)%Q →
     errorDelta p m target = (if m =? target then (p - 1)%Q else p)
     ∧ (-1 <= errorDelta p m target <= 1)%Q).
Proof.
  unfold errorDelta, clip. split.
  - destruct (m =? target); fcases; lra.
  - intros Hp. destruct (m =? target); fcases; (split; [try reflexivity|]);
      lra.
Qed.

Lemma errorDelta_bounds_witness :
  (0 <= 1 # 4 <= 1)%Q
  ∧ errorDelta (1 # 4) 3 3 = ((1 # 4) - 1)%Q
  ∧ (-1 <= errorDelta (1 # 4) 3 3 <= 1)%Q.
Proof.
  assert (Hp : (0 <= 1 # 4 <= 1)%Q) by (split; discriminate).
  split; [exact Hp|].
  exact (proj2 (errorDelta_bounds (1 # 4) 3 3) Hp).
Defined.

(** ** Batches *)

Lemma batchesFrom_cons {A} fuel (x : A) data :
  batchesFrom (S fuel) (x :: data)
  = take batchSize (x :: data) :: batchesFrom fuel (drop batchSize (x :: data)).
Proof. reflexivity. Qed.

Lemma batchSize_ten : batchSize = 10%nat.
Proof. reflexivity. Qed.

Section BatchIndex.
Local Opaque batchSize.

Lemma batchesFrom_lookup {A} fuel (data : list A) (b : nat) :
  (length data ≤ fuel)%nat →
  batchesFrom fuel data !! b
  = if decide (b * batchSize < length data)%nat
    then Some (take batchSize (drop (b * batchSize) data)) else None.
Proof.
  pose proof batchSize_ten as Hbs.
  revert data b. induction fuel as [|fuel IH]; intros data b Hf.
  - destruct data; [|simpl in Hf; lia].
    destruct (decide _) as [Hd|Hd]; [cbn [length] in Hd; lia | reflexivity].
  - destruct data as [|x data].
    { destruct (decide _) as [Hd|Hd]; [cbn [length] in Hd; lia|].
      reflexivity. }
    rewrite batchesFrom_cons. destruct b as [|b].
    + destruct (decide _) as [Hd|Hd]; [reflexivity|].
      cbn [length] in Hd. lia.
    + cbn [lookup list_lookup]. rewrite IH by (rewrite length_drop; simpl in *; lia).
      rewrite length_drop, drop_drop.
      replace (batchSize + b * batchSize)%nat with (S b * batchSize)%nat by lia.
      destruct (decide (b * batchSize < length (x :: data) - batchSize)%nat);
        [rewrite decide_True by lia | rewrite decide_False by lia];
        reflexivity.
Qed.

Lemma length_batchesFrom_count {A} fuel (data : list A) :
  (length data ≤ fuel)%nat →
  length (batchesFrom fuel data)
  = ((length data + batchSize - 1) / batchSize)%nat.
Proof.
  rewrite batchSize_ten.
  revert data. induction fuel as [|fuel IH]; intros data Hf.
  - destruct data; [reflexivity | simpl in Hf; lia].
  - destruct data as [|x data]; [reflexivity|].
    rewrite batchesFrom_cons. cbn [length].
    rewrite IH by (rewrite length_drop, batchSize_ten; simpl in *; lia).
    rewrite length_drop, batchSize_ten. cbn [length].
    generalize (length data). intros n.
    pose proof (Nat.div_mod_eq (S n - 10 + 10 - 1) 10).
    pose proof (Nat.div_mod_eq (S n + 10 - 1) 10).
    pose proof (Nat.mod_upper_bound (S n - 10 + 10 - 1) 10 ltac:(lia)).
    pose proof (Nat.mod_upper_bound (S n + 10 - 1) 10 ltac:(lia)).
    lia.
Qed.
End BatchIndex.

(** X19.  The batch loop of [trainMaskedDiffusion] cuts the data into
    [(n + batchSize - 1) / batchSize] batches, the number the source computes
    as [numBatches]; batch [b] is [data[b*batchSize : min((b+1)*batchSize, n)]],
    it is never empty and holds at most [batchSize] samples, and the batches
    put one after the other are the data. *)
Theorem batches_partition {A} (data : list A) :
  length (batchesOf data)
  = ((length data + batchSize - 1) / batchSize)%nat
  ∧ (∀ b, batchesOf data !! b
          = if decide (b * batchSize < length data)%nat
            then Some (take batchSize (drop (b * batchSize) data)) else None)
  ∧ Forall (λ batch, (0 < length batch ≤ batchSize)%nat) (batchesOf data)
  ∧ concat (batchesOf data) = data.
Proof.
  unfold batchesOf. split; [now apply length_batchesFrom_count|].
  split; [intros b; now apply batchesFrom_lookup|]. split.
  - apply Forall_forall. intros batch Hin.
    apply list_elem_of_lookup in Hin as [b Hb].
    rewrite batchesFrom_lookup in Hb by lia.
    destruct (decide _) as [Hlt|]; [|discriminate]. injection Hb as <-.
    rewrite length_take, length_drop. pose proof batchSize_pos. lia.
  - now apply concat_batchesFrom.
Qed.

(** X20.  The aggregation loop is safe for any message: whatever batch
    indices and row counts arrive, the accumulator keeps its length (a row
    that would fall past its end is dropped by the guard
    [start+j < len(accumulatedErrorTerms)]), and a row that no message
    covers is left as it was. *)
Theorem aggregate_guarded (acc : list (list Q)) (arrived : list TermsMsg) :
  length (aggregate acc arrived) = length acc
  ∧ ∀ i, (∀ et, et ∈ arrived → ¬ covers et i) →
         aggregate acc arrived !! i = acc !! i.
Proof.
  revert acc. induction arrived as [|et rest IH]; intros acc.
  - split; [reflexivity | intros; reflexivity].
  - change (aggregate acc (et :: rest))
      with (aggregate (placeRows acc et) rest).
    destruct (placeRows_spec acc et) as (Hl & Hout & _).
    destruct (IH (placeRows acc et)) as (Hl' & Hout').
    split; [congruence|]. intros i Hi.
    rewrite Hout' by (intros et' Hin; apply Hi; now right).
    apply Hout. apply (Hi et). now left.
Qed.

(** ** Committed tokens *)

Lemma store_insert {A} i (v : A) l l' :
  store i v l = Some l' → l' = <[i := v]> l ∧ (i < length l)%nat.
Proof.
  unfold store. destruct (i <? length l)%nat eqn:E; [|discriminate].
  apply Nat.ltb_lt in E. now intros [= <-].
Qed.

Lemma remask_frame maskID pRemask positions current r c' r' :
  remask maskID pRemask current positions r = Some (c', r') →
  length c' = length current
  ∧ ∀ i, (i ∉ positions → c' !! i = current !! i)
         ∧ (c' !! i = current !! i ∨ c' !! i = Some maskID).
Proof.
  unfold remask. revert current r.
  induction positions as [|p ps IH]; intros current r Hrun.
  - apply ret_Some in Hrun as [-> _]. split; [reflexivity|]. auto.
  - cbn [forEach] in Hrun.
    apply bind_Some in Hrun as (c1 & r1 & Hstep & Hrest).
    apply IH in Hrest as (Hlen & Hrest).
    apply bind_Some in Hstep as (u & r2 & _ & Hstep).
    destruct (fltb u pRemask).
    + apply liftO_Some in Hstep as [Hst _].
      apply store_insert in Hst as [-> Hp].
      rewrite length_insert in Hlen. split; [exact Hlen|]. intros i.
      destruct (Hrest i) as [Hout Hin]. split.
      * intros Hi. apply not_elem_of_cons in Hi as [Hne Hi].
        rewrite Hout by exact Hi. now apply list_lookup_insert_ne.
      * destruct Hin as [Hin|Hin]; [|now right].
        destruct (decide (p = i)) as [->|Hne].
        -- right. rewrite Hin. now apply list_lookup_insert_eq.
        -- left. rewrite Hin. now apply list_lookup_insert_ne.
    + apply ret_Some in Hstep as [-> _]. split; [exact Hlen|]. intros i.
      destruct (Hrest i) as [Hout Hin]. split; [|exact Hin].
      intros Hi. apply not_elem_of_cons in Hi as [_ Hi]. now apply Hout.
Qed.

(** The state of the position loop of a step: the sequence keeps the
    committed tokens of [current], and the positions resolved so far held
    MASK in [current]. *)
Lemma resolve_keeps maskID (current : list Z) (st : list Z * list nat) i v :
  keepsTokens maskID current st.1 →
  Forall (λ j, current !! j = Some maskID) st.2 →
  st.1 !! i = Some maskID →
  keepsTokens maskID current (<[i := v]> st.1)
  ∧ Forall (λ j, current !! j = Some maskID) (st.2 ++ [i]).
Proof.
  intros [Hlen Hkeep] Hpos Hi.
  assert (Hcur : current !! i = Some maskID).
  { destruct (lookup_lt_is_Some_2 current i) as [tok Htok].
    { rewrite <- Hlen. eapply lookup_lt_Some, Hi. }
    destruct (decide (tok = maskID)) as [->|Hne]; [exact Htok|].
    rewrite (Hkeep _ _ Htok Hne) in Hi. congruence. }
  split.
  - split; [now rewrite length_insert|]. intros j tok Hj Hne.
    rewrite list_lookup_insert_ne; [now apply Hkeep|].
    intros <-. congruence.
  - apply Forall_app. split; [exact Hpos|]. now repeat constructor.
Qed.

Lemma remask_keeps maskID pRemask (current : list Z) (st : list Z * list nat)
    r c' r' :
  keepsTokens maskID current st.1 →
  Forall (λ j, current !! j = Some maskID) st.2 →
  remask maskID pRemask st.1 st.2 r = Some (c', r') →
  keepsTokens maskID current c'.
Proof.
  intros [Hlen Hkeep] Hpos Hrun.
  apply remask_frame in Hrun as [Hl Hf]. split; [congruence|].
  intros j tok Hj Hne. destruct (Hf j) as [Hout _].
  rewrite Hout; [now apply Hkeep|].
  intros Hin. rewrite Forall_forall in Hpos. apply Hpos in Hin. congruence.
Qed.

Section CommittedTokens.
Context `{Extern}.

Lemma maskedStep_keeps (d : DiffusionModel) current s r next r' :
  maskedStep d current s r = Some (next, r') →
  keepsTokens (vocabAt (Tokenizer d) "[MASK]") current next.
Proof.
  intros Hrun. unfold maskedStep in Hrun.
  set (maskID := vocabAt (Tokenizer d) "[MASK]") in *.
  apply bind_Some in Hrun as (input & r1 & _ & Hrun).
  apply bind_Some in Hrun as (output & r2 & _ & Hrun).
  apply bind_Some in Hrun as (st & r3 & Hloop & Hrun).
  assert (Hinv : keepsTokens maskID current st.1
                 ∧ Forall (λ j, current !! j = Some maskID) st.2).
  { unfold forRange in Hloop.
    refine (forEach_inv
              (fun st : list Z * list nat =>
                 keepsTokens maskID current st.1
                 ∧ Forall (λ j, current !! j = Some maskID) st.2)
              _ _ _ (current, []) r2 st r3 _ Hloop).
    - intros s0 i st0 s1 st1 [Hk Hp] _ Hbody.
      apply bind_Some in Hbody as (tok & r4 & Htok & Hbody).
      apply liftO_Some in Htok as [Htok ->].
      destruct (Z.eqb_spec tok maskID) as [->|Hne].
      + apply bind_Some in Hbody as (row & r5 & _ & Hbody).
        apply bind_Some in Hbody as (sel & r6 & _ & Hbody).
        apply bind_Some in Hbody as (cur' & r7 & Hst & Hbody).
        apply liftO_Some in Hst as [Hst _].
        apply store_insert in Hst as [-> _].
        apply ret_Some in Hbody as [-> _]. simpl.
        now apply resolve_keeps.
      + apply ret_Some in Hbody as [-> _]. now split.
    - split; [split; [reflexivity | auto] | constructor]. }
  destruct Hinv as [Hk Hp].
  destruct (1 <? s)%nat.
  - eapply remask_keeps; eauto.
  - apply ret_Some in Hrun as [-> _]. exact Hk.
Qed.

Lemma betterPosition_store preds xcur i w x' w' :
  betterPosition preds xcur i w = Some (x', w') →
  ∃ v, x' = <[i := v]> xcur.
Proof.
  intros Hrun. unfold betterPosition in Hrun.
  apply bind_Some in Hrun as (d & w1 & _ & Hrun).
  apply bind_Some in Hrun as (seg & w2 & _ & Hrun).
  apply bind_Some in Hrun as (probs & w3 & _ & Hrun).
  destruct (fltb (fsum probs) (1 # 10 ^ 12)).
  { apply liftO_Some in Hrun as [Hst _].
    apply store_insert in Hst as [-> _]. eauto. }
  unfold betterDraw in Hrun.
  apply bind_Some in Hrun as (u0 & w4 & _ & Hrun).
  apply bind_Some in Hrun as (d1 & w5 & _ & Hrun).
  apply bind_Some in Hrun as (top & w6 & _ & Hrun).
  apply bind_Some in Hrun as (u & w7 & _ & Hrun).
  apply bind_Some in Hrun as (first & w8 & _ & Hrun).
  apply liftO_Some in Hrun as [Hst _].
  apply store_insert in Hst as [-> _]. eauto.
Qed.

Lemma betterStep_keeps xcur t w next w' :
  betterStep xcur t w = Some (next, w') →
  keepsTokens (vocabAt (Tokenizer (model w)) "[MASK]") xcur next.
Proof.
  intros Hrun. unfold betterStep in Hrun.
  apply bind_Some in Hrun as (d & w0 & [= <- <-] & Hrun).
  set (maskID := vocabAt (Tokenizer (model w)) "[MASK]") in *.
  apply bind_Some in Hrun as (rows & w1 & _ & Hrun).
  apply bind_Some in Hrun as (input & w2 & _ & Hrun).
  apply bind_Some in Hrun as (preds & w3 & _ & Hrun).
  apply bind_Some in Hrun as (st & w4 & Hloop & Hrun).
  assert (Hinv : keepsTokens maskID xcur st.1
                 ∧ Forall (λ j, xcur !! j = Some maskID) st.2).
  { unfold forRange in Hloop.
    refine (forEach_inv
              (fun st : list Z * list nat =>
                 keepsTokens maskID xcur st.1
                 ∧ Forall (λ j, xcur !! j = Some maskID) st.2)
              _ _ _ (xcur, []) w3 st w4 _ Hloop).
    - intros s0 i st0 s1 st1 [Hk Hp] _ Hbody.
      apply bind_Some in Hbody as (tok & r4 & Htok & Hbody).
      apply liftO_Some in Htok as [Htok ->].
      destruct (Z.eqb_spec tok maskID) as [->|Hne].
      + apply bind_Some in Hbody as (x' & w5 & Hpos & Hbody).
        apply betterPosition_store in Hpos as [v ->].
        apply ret_Some in Hbody as [-> _]. simpl.
        now apply resolve_keeps.
      + apply ret_Some in Hbody as [-> _]. now split.
    - split; [split; [reflexivity | auto] | constructor]. }
  destruct Hinv as [Hk Hp].
  destruct (0 <? t)%nat.
  - apply liftR_Some in Hrun as (r' & Hrun & _).
    eapply remask_keeps; eauto.
  - apply ret_Some in Hrun as [-> _]. exact Hk.
Qed.
End CommittedTokens.

(** X21.  A step of either masked generator never touches a committed
    token: a position that holds anything but MASK when the step starts
    holds the same token when it ends, and the length stays.  Only positions
    that held MASK are sampled, and the re-masking at the end of the step
    writes MASK only, and only at positions resolved in this very step. *)
Theorem steps_keep_committed `{Extern} :
  (∀ maskID pRemask current positions r c' r',
     remask maskID pRemask current positions r = Some (c', r') →
     length c' = length current
     ∧ ∀ i, (i ∉ positions → c' !! i = current !! i)
            ∧ (c' !! i = current !! i ∨ c' !! i = Some maskID))
  ∧ (∀ (d : DiffusionModel) current s r next r',
       maskedStep d current s r = Some (next, r') →
       keepsTokens (vocabAt (Tokenizer d) "[MASK]") current next)
  ∧ (∀ xcur t (w : World) next w',
       betterStep xcur t w = Some (next, w') →
       keepsTokens (vocabAt (Tokenizer (model w)) "[MASK]") xcur next).
Proof.
  split.
  { intros maskID pRemask current positions r c' r' Hrun.
    exact (remask_frame maskID pRemask positions current r c' r' Hrun). }
  split.
  { intros d current s r next r' Hrun.
    exact (maskedStep_keeps d current s r next r' Hrun). }
  intros xcur t w next w' Hrun.
  exact (betterStep_keeps xcur t w next w' Hrun).
Qed.

Lemma steps_keep_committed_witness :
  ∃ next r',
    maskedStep (H := tableExtern) demoModel [1; 4; 1; 5] 2 demoRand
    = Some (next, r')
    ∧ next !! 1%nat = Some 4 ∧ next !! 3%nat = Some 5.
Proof.
  destruct (maskedStep (H := tableExtern) demoModel [1; 4; 1; 5] 2 demoRand)
    as [[next r']|] eqn:Hrun; [|vm_compute in Hrun; discriminate].
  exists next, r'. split; [reflexivity|].
  destruct (proj1 (proj2 (steps_keep_committed (H := tableExtern)))
              demoModel [1; 4; 1; 5] 2%nat demoRand next r' Hrun) as [_ Hk].
  split; apply Hk; first [reflexivity | vm_compute; discriminate].
Defined.

(** ** Runs that cannot panic *)

Lemma forDown_total {σ St} (I : St → σ → Prop) (body : St → nat → ST σ St)
    (n : nat) :
  (∀ i s st, (i < n)%nat → I s st →
     ∃ s' st', body s i st = Some (s', st') ∧ I s' st') →
  ∀ s st, I s st →
    ∃ s' st', forDown n body s st = Some (s', st') ∧ I s' st'.
Proof.
  induction n as [|n IH]; intros Hbody s st Hs.
  - exists s, st. split; [reflexivity | exact Hs].
  - destruct (Hbody n s st ltac:(lia) Hs) as (s1 & st1 & Hb & H1).
    destruct (IH ltac:(intros; eapply Hbody; [lia | eassumption]) s1 st1 H1)
      as (s2 & st2 & Hrun & H2).
    exists s2, st2. simpl. rewrite (bind_run _ _ _ _ _ Hb). now split.
Qed.

Lemma sliceZ_total {A} (lo hi : Z) (s : list A) :
  0 ≤ lo ≤ hi → hi ≤ Z.of_nat (length s) →
  sliceZ lo hi s
  = Some (take (Z.to_nat hi - Z.to_nat lo) (drop (Z.to_nat lo) s)).
Proof.
  intros Hlo Hhi. unfold sliceZ, index, subslice.
  destruct (lo <? 0) eqn:E1; [lia|]. destruct (hi <? 0) eqn:E2; [lia|].
  simpl.
  destruct (Z.to_nat lo <=? Z.to_nat hi)%nat eqn:E3;
    [|apply Nat.leb_gt in E3; lia].
  destruct (Z.to_nat hi <=? length s)%nat eqn:E4;
    [|apply Nat.leb_gt in E4; lia].
  reflexivity.
Qed.

Lemma makeSlice_total {A} (n : Z) (zero : A) :
  0 ≤ n → makeSlice n zero = Some (replicate (Z.to_nat n) zero).
Proof.
  intros Hn. unfold makeSlice. destruct (n <? 0) eqn:E; [lia | reflexivity].
Qed.

Lemma oneHot_total (vocabSize : Z) (current : list Z) :
  0 ≤ vocabSize → is_Some (oneHot vocabSize current).
Proof.
  intros HV. unfold oneHot. apply mapM_is_Some, Forall_forall.
  intros tok _. unfold compose, oneHotRow. rewrite makeSlice_total by exact HV.
  simpl. eauto.
Qed.

Lemma remask_total maskID pRemask positions (current : list Z) r :
  Forall (λ j, (j < length current)%nat) positions →
  ∃ c' r', remask maskID pRemask current positions r = Some (c', r').
Proof.
  unfold remask. revert current r.
  induction positions as [|p ps IH]; intros current r Hall.
  - eexists _, _. reflexivity.
  - inversion Hall as [|? ? Hp Hps]; subst. cbn [forEach].
    assert (Hbody : ∃ c1 r1,
              (u <- randFloat64 ;;
               if fltb u pRemask then liftO (store p maskID current)
               else ret current) r = Some (c1, r1)
              ∧ length c1 = length current).
    { rewrite (bind_run _ _ _ _ _ (randFloat64_run r)).
      destruct (fltb _ pRemask).
      - rewrite (store_Some _ _ _ Hp). eexists _, _.
        split; [reflexivity | apply length_insert].
      - eexists _, _. split; reflexivity. }
    destruct Hbody as (c1 & r1 & Hb & Hlen).
    rewrite (bind_run _ _ _ _ _ Hb). apply IH. now rewrite Hlen.
Qed.

Lemma pickCumulative_in r cumulative selected (topK : list (Z * Q)) :
  pickCumulative r cumulative selected topK = selected
  ∨ pickCumulative r cumulative selected topK ∈ map fst topK.
Proof.
  revert cumulative. induction topK as [|tk rest IH]; intros cumulative;
    [now left|].
  simpl. destruct (fleb r (cumulative + tk.2)).
  - right. now left.
  - destruct (IH (cumulative + tk.2)%Q) as [->|Hin]; [now left|].
    right. now right.
Qed.

Lemma pickCumulative_first r (first : Z * Q) (topK : list (Z * Q)) :
  topK !! 0%nat = Some first →
  pickCumulative r 0 first.1 topK ∈ map fst topK.
Proof.
  intros Hf. destruct (pickCumulative_in r 0 first.1 topK) as [->|Hin];
    [|exact Hin].
  destruct topK as [|x rest]; [discriminate|]. injection Hf as ->. now left.
Qed.

Section BetterTotal.
Context `{Extern}.
Variables (net : NetworkT) (tok : CustomTokenizer) (L : Z).
Hypothesis Softmax_length : ∀ l, length (Softmax l) = length l.
Hypothesis HL : 0 ≤ L.
Hypothesis Hmask : inVocab tok (vocabAt tok "[MASK]").
Hypothesis Hnet : answersFlat net tok L.

Lemma clampTopK_run (n : nat) (w : World) :
  (1 ≤ n)%nat → runsOn net tok L w →
  ∃ w', clampTopK n w = Some (tt, w') ∧ runsOn net tok L w'
        ∧ 1 ≤ TopK (Config (model w')) ≤ Z.of_nat n.
Proof.
  intros Hn Hw. unfold clampTopK.
  rewrite (bind_run _ _ w (model w) w eq_refl).
  assert (Hlow : ∃ w1,
            (if TopK (Config (model w)) <? 1 then setTopK 1 else ret tt) w
            = Some (tt, w1)
            ∧ runsOn net tok L w1 ∧ 1 ≤ TopK (Config (model w1))).
  { destruct (TopK (Config (model w)) <? 1) eqn:E1.
    - eexists. split; [reflexivity|]. split; [exact Hw|]. simpl. lia.
    - apply Z.ltb_ge in E1. eexists. split; [reflexivity|]. now split. }
  destruct Hlow as (w1 & Hlow & Hw1 & Hk1).
  rewrite (bind_run _ _ _ _ _ Hlow).
  rewrite (bind_run _ _ w1 (model w1) w1 eq_refl).
  destruct (TopK (Config (model w1)) >? Z.of_nat n) eqn:E2.
  - eexists. split; [reflexivity|]. split; [exact Hw1|]. simpl. lia.
  - rewrite Z.gtb_ltb in E2. apply Z.ltb_ge in E2.
    eexists. split; [reflexivity|]. split; [exact Hw1|]. lia.
Qed.

Lemma betterDraw_run (cands : list (Z * Q)) (xcur : list Z) (i : nat)
    (w : World) :
  (1 ≤ length cands)%nat → (i < length xcur)%nat → runsOn net tok L w →
  ∃ v w', betterDraw cands xcur i w = Some (<[i := v]> xcur, w')
          ∧ runsOn net tok L w' ∧ v ∈ map fst cands.
Proof.
  intros Hc Hi Hw. unfold betterDraw.
  destruct (clampTopK_run (length cands) w Hc Hw) as (w1 & Hclamp & Hw1 & Hk).
  rewrite (bind_run _ _ _ _ _ Hclamp).
  rewrite (bind_run _ _ w1 (model w1) w1 eq_refl).
  rewrite (sliceZ_total 0 (TopK (Config (model w1))) cands) by lia.
  rewrite bind_liftO_Some. change (Z.to_nat 0) with 0%nat.
  rewrite Nat.sub_0_r, drop_0.
  set (top := take (Z.to_nat (TopK (Config (model w1)))) cands).
  assert (Hr : liftR randFloat64 w1
               = Some (draw (rand w1) 0, mkWorld (model w1)
                                           (advance (rand w1) 1))).
  { unfold liftR. rewrite <- (advance_0 (rand w1)) at 1.
    now rewrite randFloat64_advance. }
  rewrite (bind_run _ _ _ _ _ Hr).
  destruct (lookup_lt_is_Some_2 top 0) as [first Hfirst].
  { unfold top. rewrite length_take. lia. }
  rewrite Hfirst, bind_liftO_Some.
  unfold liftO. rewrite (store_Some _ _ _ Hi).
  eexists _, _. split; [reflexivity|]. split; [exact Hw1|].
  pose proof (pickCumulative_first (draw (rand w1) 0) first top Hfirst) as Hin.
  apply list_elem_of_fmap in Hin as (c & Hc1 & Hc2).
  apply list_elem_of_fmap. exists c. split; [exact Hc1|].
  unfold top in Hc2. apply elem_of_take in Hc2 as (j & Hj & _).
  eapply list_elem_of_lookup_2, Hj.
Qed.

Lemma betterProbs_total (temperature : Q) (seg : list Q) :
  length seg = Z.to_nat (VocabSize tok) →
  ∃ probs, betterProbs (vocabAt tok "[MASK]") temperature seg = Some probs
           ∧ length probs = Z.to_nat (VocabSize tok).
Proof.
  intros Hseg. destruct Hmask as [Hm0 HmV]. unfold betterProbs, index.
  destruct (vocabAt tok "[MASK]" <? 0) eqn:E; [lia|]. simpl.
  set (probs := if fltb _ temperature then _ else _).
  assert (Hlen : length probs = Z.to_nat (VocabSize tok)).
  { unfold probs. destruct (fltb _ _);
      now rewrite ?length_map, Softmax_length. }
  rewrite store_Some by lia. eexists. split; [reflexivity|].
  now rewrite length_insert.
Qed.

Lemma candidate_ids (probs : list Q) (v : Z) :
  v ∈ map fst (sortDesc (imap (fun j p => (Z.of_nat j, p)) probs)) →
  0 ≤ v < Z.of_nat (length probs).
Proof.
  intros Hin. apply list_elem_of_fmap in Hin as (c & -> & Hc).
  rewrite sortDesc_perm in Hc.
  apply elem_of_lookup_imap in Hc as (j & p & -> & Hj).
  apply lookup_lt_Some in Hj. simpl. lia.
Qed.

Lemma betterPosition_run (preds : list Q) (xcur : list Z) (i : nat)
    (w : World) :
  runsOn net tok L w → (i < length xcur)%nat → Z.of_nat i < L →
  L * VocabSize tok ≤ Z.of_nat (length preds) →
  ∃ v w', betterPosition preds xcur i w = Some (<[i := v]> xcur, w')
          ∧ runsOn net tok L w' ∧ inVocab tok v.
Proof.
  intros Hw Hi HiL Hpreds. pose proof Hw as (_ & Ht & _).
  destruct Hmask as [Hm0 HmV]. unfold betterPosition.
  rewrite (bind_run _ _ w (model w) w eq_refl). rewrite Ht.
  set (V := VocabSize tok) in *.
  rewrite sliceZ_total by nia. rewrite bind_liftO_Some.
  set (seg := take _ _).
  assert (Hseg : length seg = Z.to_nat V).
  { unfold seg. rewrite length_take, length_drop. nia. }
  destruct (betterProbs_total (Temperature (Config (model w))) seg Hseg)
    as (probs & Hprobs & Hlen).
  rewrite Hprobs, bind_liftO_Some.
  destruct (fltb (fsum probs) (1 # 10 ^ 12)).
  - unfold liftO. rewrite (store_Some _ _ _ Hi).
    eexists _, _. split; [reflexivity|]. split; [exact Hw|].
    unfold inVocab. fold V. lia.
  - set (cands := sortDesc _).
    destruct (betterDraw_run cands xcur i w) as (v & w' & Hrun & Hw' & Hv);
      [|exact Hi|exact Hw|].
    { unfold cands. rewrite length_sortDesc, length_imap, length_map. lia. }
    exists v, w'. split; [exact Hrun|]. split; [exact Hw'|].
    apply candidate_ids in Hv. rewrite length_map, Hlen in Hv.
    unfold inVocab. fold V. lia.
Qed.

Lemma liftR_run {A} (m : ST RandSrc A) (w : World) a r' :
  m (rand w) = Some (a, r') → liftR m w = Some (a, mkWorld (model w) r').
Proof. intros Hm. unfold liftR. now rewrite Hm. Qed.

Lemma remask_inVocab maskID pRemask positions (current : list Z) r :
  inVocab tok maskID → Forall (inVocab tok) current →
  Forall (λ j, (j < length current)%nat) positions →
  ∃ c' r', remask maskID pRemask current positions r = Some (c', r')
           ∧ length c' = length current ∧ Forall (inVocab tok) c'.
Proof.
  intros Hm Hcur Hpos.
  destruct (remask_total maskID pRemask positions current r Hpos)
    as (c' & r' & Hrun).
  exists c', r'. split; [exact Hrun|].
  apply remask_frame in Hrun as [Hlen Hf]. split; [exact Hlen|].
  apply Forall_lookup. intros i x Hx.
  destruct (Hf i) as [_ [Hsame|Hmk]].
  - rewrite Hsame in Hx. eapply Forall_lookup_1; eauto.
  - rewrite Hmk in Hx. now injection Hx as <-.
Qed.

Lemma betterStep_run (xcur : list Z) (t : nat) (w : World) :
  runsOn net tok L w → length xcur = Z.to_nat L →
  Forall (inVocab tok) xcur →
  ∃ next w', betterStep xcur t w = Some (next, w')
             ∧ runsOn net tok L w' ∧ length next = Z.to_nat L
             ∧ Forall (inVocab tok) next.
Proof.
  intros Hw Hlen Hall. pose proof Hw as (Hn & Ht & Hl).
  unfold betterStep.
  rewrite (bind_run _ _ w (model w) w eq_refl). rewrite Ht, Hl, Hn.
  rewrite (makeSlice_total L) by exact HL. rewrite bind_liftO_Some.
  rewrite length_replicate.
  replace (length xcur <=? Z.to_nat L)%nat with true
    by (symmetry; apply Nat.leb_le; lia).
  destruct (oneHot_total (VocabSize tok) xcur) as [input Hin].
  { destruct Hmask. lia. }
  rewrite Hin, bind_liftO_Some.
  destruct (Hnet input) as (preds & Hp & Hpl). rewrite Hp, bind_liftO_Some.
  match goal with
  | |- context [forRange _ ?body _] => set (body0 := body)
  end.
  assert (Hstep : ∀ i (st : list Z * list nat) w0, (i < length xcur)%nat →
            runsOn net tok L w0 ∧ length st.1 = Z.to_nat L
            ∧ Forall (inVocab tok) st.1
            ∧ Forall (λ j, (j < Z.to_nat L)%nat) st.2 →
            ∃ st' w', body0 st i w0 = Some (st', w')
              ∧ runsOn net tok L w' ∧ length st'.1 = Z.to_nat L
              ∧ Forall (inVocab tok) st'.1
              ∧ Forall (λ j, (j < Z.to_nat L)%nat) st'.2).
  { intros i st w0 Hi (Hw0 & Hl0 & Ha0 & Hp0). unfold body0.
    destruct (lookup_lt_is_Some_2 st.1 i ltac:(lia)) as [tk Htk].
    rewrite Htk, bind_liftO_Some.
    destruct (tk =? vocabAt tok "[MASK]").
    - destruct (betterPosition_run preds st.1 i w0 Hw0 ltac:(lia) ltac:(lia)
                  Hpl) as (v & w' & Hrun & Hw' & Hv).
      rewrite (bind_run _ _ _ _ _ Hrun).
      eexists _, _. split; [reflexivity|]. simpl.
      split; [exact Hw'|]. split; [now rewrite length_insert|].
      split; [now apply Forall_insert|].
      apply Forall_app. split; [exact Hp0|]. repeat constructor. lia.
    - eexists _, _. split; [reflexivity|].
      exact (conj Hw0 (conj Hl0 (conj Ha0 Hp0))). }
  destruct (forRange_total
              (fun (i : nat) (st : list Z * list nat) w0 =>
                 runsOn net tok L w0 ∧ length st.1 = Z.to_nat L
                 ∧ Forall (inVocab tok) st.1
                 ∧ Forall (λ j, (j < Z.to_nat L)%nat) st.2)
              body0 (length xcur) Hstep (xcur, []) w)
    as (st & w1 & Hloop & Hw1 & Hl1 & Ha1 & Hp1).
  { split; [exact Hw|]. split; [exact Hlen|]. split; [exact Hall|].
    constructor. }
  rewrite (bind_run _ _ _ _ _ Hloop).
  destruct (0 <? t)%nat.
  - destruct (remask_inVocab (vocabAt tok "[MASK]")
                (ofLen t / ofInt (NumTimesteps (Config (model w))))%Q
                st.2 st.1 (rand w1) Hmask Ha1)
      as (c' & r' & Hrun & Hlc & Hac).
    { now rewrite Hl1. }
    rewrite (liftR_run _ _ _ _ Hrun).
    eexists _, _. split; [reflexivity|]. split; [exact Hw1|].
    split; [congruence | exact Hac].
  - eexists _, _. split; [reflexivity|].
    exact (conj Hw1 (conj Hl1 Ha1)).
Qed.

Lemma GenerateBetter_run (w : World) :
  runsOn net tok L w →
  ∃ xcur w', GenerateBetter w = Some (xcur, w')
             ∧ runsOn net tok L w' ∧ length xcur = Z.to_nat L
             ∧ Forall (inVocab tok) xcur.
Proof.
  intros Hw. pose proof Hw as (Hn & Ht & Hl). unfold GenerateBetter.
  rewrite (bind_run _ _ w (model w) w eq_refl). rewrite Ht, Hl.
  rewrite (makeSlice_total L) by exact HL. rewrite bind_liftO_Some.
  destruct (forDown_total
              (fun (xcur : list Z) w0 =>
                 runsOn net tok L w0 ∧ length xcur = Z.to_nat L
                 ∧ Forall (inVocab tok) xcur)
              betterStep (Z.to_nat (NumTimesteps (Config (model w)))))
    with (s := replicate (Z.to_nat L) (vocabAt tok "[MASK]")) (st := w)
    as (xcur & w' & Hrun & Hw' & Hlen & Hall).
  - intros i s st _ (Hs1 & Hs2 & Hs3). now apply betterStep_run.
  - split; [exact Hw|]. split; [apply length_replicate|].
    now apply Forall_replicate.
  - rewrite (bind_run _ _ _ _ _ Hrun).
    eexists _, _. split; [reflexivity|]. split; [exact Hw'|].
    unfold unmask. split; [now rewrite length_map|].
    apply Forall_forall. intros x Hx.
    apply list_elem_of_fmap in Hx as (y & -> & Hy).
    rewrite Forall_forall in Hall.
    destruct (y =? vocabAt tok "[MASK]"); [|now apply Hall].
    destruct Hmask. unfold inVocab. lia.
Qed.
End BetterTotal.

Lemma normalise_length (row : list Q) : length (normalise row) = length row.
Proof. unfold normalise. apply length_map. Qed.

Lemma demo_answersFlat (d : @DiffusionModel tableExtern) :
  @Network tableExtern d = [replicate 24 1%Q] →
  MaxLength (Config d) * VocabSize (Tokenizer d) ≤ 24 →
  answersFlat (H := tableExtern) (Network d) (Tokenizer d)
              (MaxLength (Config d)).
Proof.
  intros Hn Hle input. exists (replicate 24 1%Q). split.
  - change (ForwardTransformer (Network d) input) with (Network d).
    now rewrite Hn.
  - rewrite length_replicate. exact Hle.
Qed.

(** X22.  [GenerateBetter] cannot panic, whatever [TopK], [Temperature] and
    [NumTimesteps] are: when [MaxLength] is not negative, MASK is a token of
    the vocabulary, [Softmax] keeps the length of its row and the network
    answers with at least [MaxLength * VocabSize] logits, it returns
    [MaxLength] tokens, each of them an id of the vocabulary. *)
Theorem GenerateBetter_completes `{Extern} (d : DiffusionModel)
    (r : RandSrc) :
  (∀ l, length (Softmax l) = length l) →
  0 ≤ MaxLength (Config d) →
  inVocab (Tokenizer d) (vocabAt (Tokenizer d) "[MASK]") →
  answersFlat (Network d) (Tokenizer d) (MaxLength (Config d)) →
  ∃ xcur w', GenerateBetter (mkWorld d r) = Some (xcur, w')
    ∧ length xcur = Z.to_nat (MaxLength (Config d))
    ∧ Forall (inVocab (Tokenizer d)) xcur.
Proof.
  intros Hsm HL Hmask Hnet.
  destruct (GenerateBetter_run (Network d) (Tokenizer d)
              (MaxLength (Config d)) Hsm HL Hmask Hnet (mkWorld d r))
    as (xcur & w' & Hrun & _ & Hlen & Hall).
  - repeat split.
  - now exists xcur, w'.
Qed.

Lemma GenerateBetter_completes_witness :
  ∃ xcur w',
    GenerateBetter (H := tableExtern) (mkWorld (withTopK demoModel 7) demoRand)
    = Some (xcur, w')
    ∧ length xcur = 4%nat
    ∧ Forall (inVocab (Tokenizer demoModel)) xcur.
Proof.
  apply (GenerateBetter_completes (H := tableExtern) (withTopK demoModel 7)
           demoRand).
  - exact normalise_length.
  - vm_compute. discriminate.
  - split; vm_compute; [discriminate | reflexivity].
  - apply demo_answersFlat; [reflexivity | vm_compute; discriminate].
Defined.

Lemma mapM_map_Some_in {A B} (f : A → option B) (g : A → B) (l : list A) :
  (∀ x, x ∈ l → f x = Some (g x)) → mapM f l = Some (map g l).
Proof.
  induction l as [|x l IH]; intros Hf; [reflexivity|].
  cbn [mapM map]. rewrite (Hf x) by now left.
  rewrite IH by (intros y Hy; apply Hf; now right). reflexivity.
Qed.

Lemma renormTopK_ids k (topK : list (Z * Q)) :
  map fst (renormTopK k topK) = map fst topK.
Proof.
  unfold renormTopK. generalize (fsum (map snd topK)). intros sum.
  destruct (feqb sum 0); induction topK as [|c rest IH];
    cbn [map fst]; congruence.
Qed.

Section MaskedTotal.
Context `{Extern}.
Variable d : DiffusionModel.
Hypothesis Softmax_length : ∀ l, length (Softmax l) = length l.
Hypothesis HL : 0 ≤ MaxLength (Config d).
Hypothesis Hmask : inVocab (Tokenizer d) (vocabAt (Tokenizer d) "[MASK]").
Hypothesis Hnet :
  answersFlat (Network d) (Tokenizer d) (MaxLength (Config d)).
Hypothesis HK : 1 ≤ TopK (Config d) ≤ VocabSize (Tokenizer d).

Lemma maskedCandidates_total (probs : list Q) :
  length probs = Z.to_nat (VocabSize (Tokenizer d)) →
  ∃ cands, maskedCandidates d probs = Some cands
           ∧ length cands = Z.to_nat (VocabSize (Tokenizer d))
           ∧ Forall (λ c : Z * Q, inVocab (Tokenizer d) c.1) cands.
Proof.
  intros Hp. unfold maskedCandidates.
  rewrite makeSlice_total by lia. simpl. rewrite length_replicate.
  eexists. split.
  - apply (mapM_map_Some_in _
             (fun j => (Z.of_nat j,
                        if Z.of_nat j =? vocabAt (Tokenizer d) "[MASK]"
                        then 0%Q
                        else (default 0%Q (probs !! j)
                              / Temperature (Config d))%Q))).
    intros j Hj. apply elem_of_seq in Hj.
    destruct (lookup_lt_is_Some_2 probs j ltac:(lia)) as [p Hpj].
    rewrite Hpj. reflexivity.
  - split; [now rewrite length_map, length_seq|].
    apply Forall_forall. intros c Hc.
    apply list_elem_of_fmap in Hc as (j & -> & Hj).
    apply elem_of_seq in Hj. unfold inVocab. simpl. lia.
Qed.

Lemma pickMasked_total (probs : list Q) (r : RandSrc) :
  length probs = Z.to_nat (VocabSize (Tokenizer d)) →
  ∃ v r', pickMasked d probs r = Some (v, r') ∧ inVocab (Tokenizer d) v.
Proof.
  intros Hp. unfold pickMasked.
  destruct (maskedCandidates_total probs Hp) as (cands & Hc & Hlen & Hall).
  rewrite Hc, bind_liftO_Some.
  rewrite (sliceZ_total 0 (TopK (Config d)))
    by (rewrite ?length_sortDesc; lia).
  rewrite bind_liftO_Some. change (Z.to_nat 0) with 0%nat.
  rewrite Nat.sub_0_r, drop_0.
  set (top := take (Z.to_nat (TopK (Config d))) (sortDesc cands)).
  rewrite (bind_run _ _ _ _ _ (randFloat64_run r)).
  destruct (lookup_lt_is_Some_2 (renormTopK (TopK (Config d)) top) 0)
    as [first Hfirst].
  { rewrite <- (length_map fst), renormTopK_ids, length_map.
    unfold top. rewrite length_take, length_sortDesc. lia. }
  rewrite Hfirst, bind_liftO_Some. eexists _, _. split; [reflexivity|].
  pose proof (pickCumulative_first
                (inject_Z (tape r (cursor r) mod two63) / inject_Z two63)
                first _ Hfirst) as Hin.
  rewrite renormTopK_ids in Hin.
  apply list_elem_of_fmap in Hin as (c & -> & Hc2).
  unfold top in Hc2. apply elem_of_take in Hc2 as (j & Hj & _).
  apply list_elem_of_lookup_2 in Hj. rewrite sortDesc_perm in Hj.
  rewrite Forall_forall in Hall. now apply Hall.
Qed.

Lemma maskedStep_total (current : list Z) (s : nat) (r : RandSrc) :
  length current = Z.to_nat (MaxLength (Config d)) →
  Forall (inVocab (Tokenizer d)) current →
  ∃ next r', maskedStep d current s r = Some (next, r')
             ∧ length next = Z.to_nat (MaxLength (Config d))
             ∧ Forall (inVocab (Tokenizer d)) next.
Proof.
  intros Hlen Hall. destruct Hmask as [Hm0 HmV]. unfold maskedStep.
  set (V := VocabSize (Tokenizer d)) in *.
  set (L := Z.to_nat (MaxLength (Config d))) in *.
  set (maskID := vocabAt (Tokenizer d) "[MASK]") in *.
  destruct (mapM (fun k => tok ← current !! k; oneHotRow V tok) (seq 0 L))
    as [input|] eqn:Hin.
  2:{ exfalso. apply eq_None_not_Some in Hin. apply Hin.
      apply mapM_is_Some, Forall_forall. intros k Hk.
      apply elem_of_seq in Hk. unfold compose.
      destruct (lookup_lt_is_Some_2 current k ltac:(lia)) as [tk ->].
      simpl. unfold oneHotRow. rewrite makeSlice_total by lia.
      simpl. eauto. }
  rewrite bind_liftO_Some.
  destruct (Hnet input) as (flat & Hflat & Hfl). fold V in Hfl.
  rewrite (mapM_map_Some_in _
             (fun i => take (Z.to_nat ((Z.of_nat i + 1) * V)
                             - Z.to_nat (Z.of_nat i * V))
                            (drop (Z.to_nat (Z.of_nat i * V)) flat))).
  2:{ intros i Hi. apply elem_of_seq in Hi. rewrite Hflat. simpl.
      apply sliceZ_total; nia. }
  rewrite bind_liftO_Some.
  set (output := map _ (seq 0 L)).
  assert (Hout : ∀ i, (i < L)%nat →
            ∃ row, output !! i = Some row ∧ length row = Z.to_nat V).
  { intros i Hi. unfold output. eexists.
    rewrite list_lookup_fmap, lookup_seq_lt by exact Hi. simpl.
    split; [reflexivity|]. rewrite length_take, length_drop. nia. }
  match goal with
  | |- context [forRange _ ?body _] => set (body0 := body)
  end.
  assert (Hstep : ∀ i (st : list Z * list nat) r0, (i < L)%nat →
            length st.1 = L ∧ Forall (inVocab (Tokenizer d)) st.1
            ∧ Forall (λ j, (j < L)%nat) st.2 →
            ∃ st' r1, body0 st i r0 = Some (st', r1)
              ∧ length st'.1 = L ∧ Forall (inVocab (Tokenizer d)) st'.1
              ∧ Forall (λ j, (j < L)%nat) st'.2).
  { intros i st r0 Hi (Hl0 & Ha0 & Hp0). unfold body0.
    destruct (lookup_lt_is_Some_2 st.1 i ltac:(lia)) as [tk Htk].
    rewrite Htk, bind_liftO_Some.
    destruct (tk =? maskID).
    - destruct (Hout i Hi) as (row & Hrow & Hrl).
      rewrite Hrow, bind_liftO_Some.
      destruct (pickMasked_total (Softmax row) r0) as (v & r1 & Hpick & Hv).
      { now rewrite Softmax_length. }
      rewrite (bind_run _ _ _ _ _ Hpick).
      rewrite (store_Some i v st.1) by lia. rewrite bind_liftO_Some.
      eexists _, _. split; [reflexivity|]. simpl.
      split; [now rewrite length_insert|].
      split; [now apply Forall_insert|].
      apply Forall_app. split; [exact Hp0|]. repeat constructor. exact Hi.
    - eexists _, _. split; [reflexivity|].
      exact (conj Hl0 (conj Ha0 Hp0)). }
  destruct (forRange_total
              (fun (i : nat) (st : list Z * list nat) (r0 : RandSrc) =>
                 length st.1 = L ∧ Forall (inVocab (Tokenizer d)) st.1
                 ∧ Forall (λ j, (j < L)%nat) st.2)
              body0 L Hstep (current, []) r)
    as (st & r1 & Hloop & Hl1 & Ha1 & Hp1).
  { split; [exact Hlen|]. split; [exact Hall | constructor]. }
  rewrite (bind_run _ _ _ _ _ Hloop).
  destruct (1 <? s)%nat.
  - destruct (remask_inVocab (Tokenizer d) maskID
                (ofLen (s - 1) / ofLen s)%Q st.2 st.1 r1
                (conj Hm0 HmV) Ha1)
      as (c' & r' & Hrun & Hlc & Hac).
    { now rewrite Hl1. }
    exists c', r'. split; [exact Hrun|]. split; [congruence | exact Hac].
  - eexists _, _. split; [reflexivity|]. exact (conj Hl1 Ha1).
Qed.

Lemma GenerateMaskedTokens_total (r : RandSrc) :
  ∃ current r', GenerateMaskedTokens d r = Some (current, r')
    ∧ length current = Z.to_nat (MaxLength (Config d))
    ∧ Forall (inVocab (Tokenizer d)) current.
Proof.
  unfold GenerateMaskedTokens.
  rewrite makeSlice_total by exact HL. rewrite bind_liftO_Some.
  destruct (forDown_total
              (fun (current : list Z) (r0 : RandSrc) =>
                 length current = Z.to_nat (MaxLength (Config d))
                 ∧ Forall (inVocab (Tokenizer d)) current)
              (fun current s' => maskedStep d current (S s'))
              (Z.to_nat (NumTimesteps (Config d))))
    with (s := replicate (Z.to_nat (MaxLength (Config d)))
                         (vocabAt (Tokenizer d) "[MASK]")) (st := r)
    as (current & r' & Hrun & Hlen & Hall).
  - intros i s st _ [Hs1 Hs2]. now apply maskedStep_total.
  - split; [apply length_replicate | now apply Forall_replicate].
  - rewrite (bind_run _ _ _ _ _ Hrun).
    eexists _, _. split; [reflexivity|].
    unfold unmask. split; [now rewrite length_map|].
    apply Forall_forall. intros x Hx.
    apply list_elem_of_fmap in Hx as (y & -> & Hy).
    rewrite Forall_forall in Hall.
    destruct (y =? vocabAt (Tokenizer d) "[MASK]"); [|now apply Hall].
    destruct Hmask. unfold inVocab. lia.
Qed.
End MaskedTotal.

(** X23.  With [TopK] in [[1, VocabSize]], [GenerateMasked] cannot panic:
    when [MaxLength] is not negative, the temperature is not 0, MASK is a
    token of the vocabulary, [Softmax] keeps the length of its row and the
    network answers with at least [MaxLength * VocabSize] logits, it decodes
    a sequence of [MaxLength] tokens, each of them an id of the
    vocabulary. *)
Theorem GenerateMasked_completes `{Extern} (d : DiffusionModel)
    (r : RandSrc) :
  (∀ l, length (Softmax l) = length l) →
  0 ≤ MaxLength (Config d) →
  inVocab (Tokenizer d) (vocabAt (Tokenizer d) "[MASK]") →
  answersFlat (Network d) (Tokenizer d) (MaxLength (Config d)) →
  1 ≤ TopK (Config d) ≤ VocabSize (Tokenizer d) →
  ¬ Temperature (Config d) == 0 →
  ∃ current r',
    GenerateMaskedTokens d r = Some (current, r')
    ∧ GenerateMasked d r = Some (Decode (Tokenizer d) current, r')
    ∧ length current = Z.to_nat (MaxLength (Config d))
    ∧ Forall (inVocab (Tokenizer d)) current.
Proof.
  intros Hsm HL Hmask Hnet HK _.
  destruct (GenerateMaskedTokens_total d Hsm HL Hmask Hnet HK r)
    as (current & r' & Hrun & Hlen & Hall).
  exists current, r'. split; [exact Hrun|]. split; [|now split].
  unfold GenerateMasked. now rewrite (bind_run _ _ _ _ _ Hrun).
Qed.

Lemma GenerateMasked_completes_witness :
  ∃ current r',
    GenerateMaskedTokens (H := tableExtern) demoModel demoRand
    = Some (current, r')
    ∧ GenerateMasked demoModel demoRand
      = Some (Decode (Tokenizer demoModel) current, r')
    ∧ length current = 4%nat
    ∧ Forall (inVocab (Tokenizer demoModel)) current.
Proof.
  apply (GenerateMasked_completes (H := tableExtern) demoModel demoRand).
  - exact normalise_length.
  - vm_compute. discriminate.
  - split; vm_compute; [discriminate | reflexivity].
  - apply demo_answersFlat; [reflexivity | vm_compute; discriminate].
  - split; vm_compute; discriminate.
  - discriminate.
Defined.

(** ** [Generate] *)

Lemma argMax_range (probs : list Q) :
  (1 ≤ length probs)%nat →
  ∃ v, argMax probs = Some v ∧ 0 ≤ v < Z.of_nat (length probs).
Proof.
  intros Hlen. unfold argMax.
  destruct (lookup_lt_is_Some_2 probs 0 ltac:(lia)) as [p0 Hp0].
  rewrite Hp0. simpl. eexists. split; [reflexivity|].
  assert (Hgen : ∀ l (best : Z * Q),
            Forall (λ m, (m < length probs)%nat) l →
            0 ≤ best.1 < Z.of_nat (length probs) →
            0 ≤ (foldl (fun best m =>
                          match probs !! m with
                          | Some p =>
                              if fltb best.2 p then (Z.of_nat m, p) else best
                          | None => best
                          end) best l).1 < Z.of_nat (length probs)).
  { induction l as [|m l IH]; intros best Hl Hb; [exact Hb|].
    inversion Hl as [|? ? Hm Hl']; subst. simpl. apply IH; [exact Hl'|].
    destruct (probs !! m) as [p|]; [|exact Hb].
    destruct (fltb best.2 p); [simpl; lia | exact Hb]. }
  apply Hgen; [|simpl; lia].
  apply Forall_forall. intros m Hm. apply elem_of_seq in Hm. lia.
Qed.

Lemma randIntn_advance (n : Z) (r : RandSrc) (i : nat) :
  0 < n →
  ∃ v, randIntn n (advance r i) = Some (v, advance r (S i)) ∧ 0 ≤ v < n.
Proof.
  intros Hn. unfold randIntn. destruct (n <=? 0) eqn:E; [lia|].
  rewrite (bind_run _ _ _ _ _ (int63_run (advance r i))).
  eexists. split.
  - unfold ret, advance. simpl. do 2 f_equal. f_equal. lia.
  - apply Z.mod_pos_bound. exact Hn.
Qed.

Section GenerateTotal.
Context `{Extern}.
Variable d : DiffusionModel.
Hypothesis Softmax_length : ∀ l, length (Softmax l) = length l.
Hypothesis HL : 0 ≤ MaxLength (Config d).
Hypothesis HV : 1 ≤ VocabSize (Tokenizer d).
Hypothesis Hnet :
  answersFlat (Network d) (Tokenizer d) (MaxLength (Config d)).

Lemma Generate_init (r : RandSrc) :
  ∃ current,
    forRange (Z.to_nat (MaxLength (Config d)))
      (fun current i =>
         v <- randIntn (VocabSize (Tokenizer d)) ;; liftO (store i v current))
      (replicate (Z.to_nat (MaxLength (Config d))) 0) r
    = Some (current, advance r (Z.to_nat (MaxLength (Config d))))
    ∧ length current = Z.to_nat (MaxLength (Config d))
    ∧ Forall (inVocab (Tokenizer d)) current.
Proof.
  set (L := Z.to_nat (MaxLength (Config d))).
  match goal with
  | |- context [forRange _ ?body _] => set (body0 := body)
  end.
  destruct (forRange_total
              (fun (i : nat) (current : list Z) (st : RandSrc) =>
                 st = advance r i ∧ length current = L
                 ∧ Forall (inVocab (Tokenizer d)) current)
              body0 L) with (s := replicate L 0) (st := r)
    as (current & r' & Hrun & -> & Hlen & Hall).
  - intros i current st Hi (-> & Hlen & Hall). unfold body0.
    destruct (randIntn_advance (VocabSize (Tokenizer d)) r i ltac:(lia))
      as (v & Hv & Hrange).
    rewrite (bind_run _ _ _ _ _ Hv). unfold liftO.
    rewrite store_Some by lia. eexists _, _. split; [reflexivity|].
    split; [reflexivity|]. split; [now rewrite length_insert|].
    now apply Forall_insert.
  - split; [now rewrite advance_0|]. split; [apply length_replicate|].
    apply Forall_replicate. unfold inVocab. lia.
  - exists current. now split.
Qed.

Lemma Generate_step (current : list Z) (st : RandSrc) :
  length current = Z.to_nat (MaxLength (Config d)) →
  ∃ next,
    (oneHot2D <- liftO (oneHot (VocabSize (Tokenizer d)) current) ;;
     logits <- liftO (ForwardTransformer (Network d) oneHot2D !! 0%nat) ;;
     forRange (Z.to_nat (MaxLength (Config d)))
       (fun current i =>
          seg <- liftO (sliceZ (Z.of_nat i * VocabSize (Tokenizer d))
                               (Z.of_nat i * VocabSize (Tokenizer d)
                                + VocabSize (Tokenizer d)) logits) ;;
          bestToken <- liftO (argMax (Softmax seg)) ;;
          liftO (store i bestToken current))
       current) st
    = Some (next, st)
    ∧ length next = Z.to_nat (MaxLength (Config d))
    ∧ Forall (inVocab (Tokenizer d)) next.
Proof.
  intros Hlen. set (L := Z.to_nat (MaxLength (Config d))) in *.
  set (V := VocabSize (Tokenizer d)) in *.
  destruct (oneHot_total V current ltac:(lia)) as [input Hin].
  rewrite Hin, bind_liftO_Some.
  destruct (Hnet input) as (logits & Hlg & Hll). fold V in Hll.
  rewrite Hlg, bind_liftO_Some.
  match goal with
  | |- context [forRange _ ?body _] => set (body0 := body)
  end.
  destruct (forRange_total
              (fun (i : nat) (cur : list Z) (st0 : RandSrc) =>
                 st0 = st ∧ length cur = L
                 ∧ Forall (λ tk, inVocab (Tokenizer d) tk) (take i cur))
              body0 L) with (s := current) (st := st)
    as (next & st' & Hrun & -> & Hl1 & Ha1).
  - intros i cur st0 Hi (-> & Hl0 & Ha0). unfold body0.
    rewrite sliceZ_total by nia. rewrite bind_liftO_Some.
    set (seg := take _ _).
    assert (Hseg : length seg = Z.to_nat V).
    { unfold seg. rewrite length_take, length_drop. nia. }
    destruct (argMax_range (Softmax seg)) as (v & Hv & Hr).
    { rewrite Softmax_length. lia. }
    rewrite Hv, bind_liftO_Some. unfold liftO.
    rewrite store_Some by lia. eexists _, _. split; [reflexivity|].
    split; [reflexivity|]. split; [now rewrite length_insert|].
    rewrite Softmax_length, Hseg in Hr.
    assert (Hi' : (<[i := v]> cur) !! i = Some v)
      by (apply list_lookup_insert_eq; lia).
    rewrite (take_S_r _ _ _ Hi'). apply Forall_app. split.
    + rewrite take_insert_ge by lia. exact Ha0.
    + repeat constructor; unfold inVocab; fold V; lia.
  - split; [reflexivity|]. split; [exact Hlen | constructor].
  - exists next. split; [exact Hrun|]. split; [exact Hl1|].
    now rewrite take_ge in Ha1 by lia.
Qed.
End GenerateTotal.

(** X24.  [Generate] cannot panic when [MaxLength] is not negative, the
    vocabulary is not empty, [Softmax] keeps the length of its row and the
    network answers with at least [MaxLength * VocabSize] logits.  It calls
    the random source [MaxLength] times, for the initial sequence only, and
    decodes a sequence of [MaxLength] ids of the vocabulary. *)
Theorem Generate_completes `{Extern} (d : DiffusionModel) (r : RandSrc) :
  (∀ l, length (Softmax l) = length l) →
  0 ≤ MaxLength (Config d) →
  1 ≤ VocabSize (Tokenizer d) →
  answersFlat (Network d) (Tokenizer d) (MaxLength (Config d)) →
  ∃ current,
    Generate d r
    = Some (Decode (Tokenizer d) current,
            advance r (Z.to_nat (MaxLength (Config d))))
    ∧ length current = Z.to_nat (MaxLength (Config d))
    ∧ Forall (inVocab (Tokenizer d)) current.
Proof.
  intros Hsm HL HV Hnet. unfold Generate.
  rewrite makeSlice_total by exact HL. rewrite bind_liftO_Some.
  destruct (Generate_init d HV r) as (c0 & Hinit & Hl0 & Ha0).
  rewrite (bind_run _ _ _ _ _ Hinit).
  match goal with
  | |- context [forDown _ ?body _] => set (body0 := body)
  end.
  destruct (forDown_total
              (fun (cur : list Z) (st : RandSrc) =>
                 st = advance r (Z.to_nat (MaxLength (Config d)))
                 ∧ length cur = Z.to_nat (MaxLength (Config d))
                 ∧ Forall (inVocab (Tokenizer d)) cur)
              body0 (Z.to_nat (NumTimesteps (Config d))))
    with (s := c0) (st := advance r (Z.to_nat (MaxLength (Config d))))
    as (current & r' & Hrun & -> & Hlen & Hall).
  - intros i cur st _ (-> & Hl & Ha). unfold body0.
    destruct (Generate_step d Hsm HL HV Hnet cur
                (advance r (Z.to_nat (MaxLength (Config d)))) Hl)
      as (next & Hstep & Hl1 & Ha1).
    exists next, (advance r (Z.to_nat (MaxLength (Config d)))).
    split; [exact Hstep|]. now split.
  - now split.
  - rewrite (bind_run _ _ _ _ _ Hrun). exists current. now split.
Qed.

Lemma Generate_completes_witness :
  ∃ current,
    Generate (H := tableExtern) demoModel demoRand
    = Some (Decode (Tokenizer demoModel) current, advance demoRand 4)
    ∧ length current = 4%nat
    ∧ Forall (inVocab (Tokenizer demoModel)) current.
Proof.
  apply (Generate_completes (H := tableExtern) demoModel demoRand).
  - exact normalise_length.
  - vm_compute. discriminate.
  - vm_compute. discriminate.
  - apply demo_answersFlat; [reflexivity | vm_compute; discriminate].
Defined.

(** ** Sampling stays within the top-k candidates *)

Lemma sliceZ_prefix {A} (k : Z) (l top : list A) :
  sliceZ 0 k l = Some top →
  top = take (Z.to_nat k) l ∧ 0 ≤ k ≤ Z.of_nat (length l).
Proof.
  intros Hs. pose proof (sliceZ_within _ _ _ _ Hs) as Hle.
  pose proof (sliceZ_length _ _ _ _ Hs) as (_ & Hk & _).
  rewrite sliceZ_total in Hs by lia. injection Hs as <-.
  change (Z.to_nat 0) with 0%nat. rewrite Nat.sub_0_r, drop_0.
  split; [reflexivity | lia].
Qed.

Lemma head_of_take_one {A B} (f : A → B) (l : list A) (v : B) :
  v ∈ map f (take 1 l) → Some v = f <$> head l.
Proof.
  destruct l as [|x l]; simpl.
  - intros Hin. now apply elem_of_nil in Hin.
  - destruct l; simpl; intros Hin; apply list_elem_of_singleton in Hin;
      now subst.
Qed.

Section WithinTopK.
Context `{Extern}.

Lemma pickMasked_within (d : DiffusionModel) probs r v r' :
  pickMasked d probs r = Some (v, r') →
  ∃ cands, maskedCandidates d probs = Some cands
    ∧ 1 ≤ TopK (Config d) ≤ Z.of_nat (length cands)
    ∧ v ∈ map fst (take (Z.to_nat (TopK (Config d))) (sortDesc cands)).
Proof.
  intros Hrun. unfold pickMasked in Hrun.
  apply bind_Some in Hrun as (cands & r1 & Hc & Hrun).
  apply liftO_Some in Hc as [Hc ->].
  apply bind_Some in Hrun as (top & r2 & Htop & Hrun).
  apply liftO_Some in Htop as [Htop ->].
  apply sliceZ_prefix in Htop as [-> Hk]. rewrite length_sortDesc in Hk.
  apply bind_Some in Hrun as (u & r3 & _ & Hrun).
  apply bind_Some in Hrun as (first & r4 & Hfirst & Hrun).
  apply liftO_Some in Hfirst as [Hfirst ->].
  apply ret_Some in Hrun as [-> _].
  exists cands. split; [exact Hc|].
  pose proof (pickCumulative_first u first _ Hfirst) as Hin.
  rewrite renormTopK_ids in Hin. split; [|exact Hin].
  apply lookup_lt_Some in Hfirst.
  rewrite <- (length_map fst), renormTopK_ids, length_map, length_take in Hfirst.
  lia.
Qed.

Lemma betterDraw_within cands xcur i (w : World) x' w' :
  betterDraw cands xcur i w = Some (x', w') →
  ∃ v, x' = <[i := v]> xcur
    ∧ 1 ≤ TopK (Config (model w')) ≤ Z.of_nat (length cands)
    ∧ v ∈ map fst (take (Z.to_nat (TopK (Config (model w')))) cands).
Proof.
  intros Hrun. unfold betterDraw in Hrun.
  apply bind_Some in Hrun as (u0 & w1 & _ & Hrun).
  apply bind_Some in Hrun as (d1 & w2 & [= <- <-] & Hrun).
  apply bind_Some in Hrun as (top & w3 & Htop & Hrun).
  apply liftO_Some in Htop as [Htop ->].
  apply sliceZ_prefix in Htop as [-> Hk].
  apply bind_Some in Hrun as (u & w4 & Hu & Hrun).
  apply liftR_Some in Hu as (r' & _ & ->).
  apply bind_Some in Hrun as (first & w5 & Hfirst & Hrun).
  apply liftO_Some in Hfirst as [Hfirst ->].
  apply liftO_Some in Hrun as [Hst ->].
  apply store_insert in Hst as [-> _]. simpl.
  eexists. split; [reflexivity|].
  split; [|now apply pickCumulative_first].
  apply lookup_lt_Some in Hfirst. rewrite length_take in Hfirst. lia.
Qed.
End WithinTopK.

(** X25.  Both masked generators sample within the top-k candidates only.
    The token [GenerateMasked] puts at a position is one of the first [TopK]
    candidates of the table sorted by decreasing weight, and the token
    [GenerateBetter] puts is one of the first [TopK] sorted candidates for
    the clamped [TopK] it leaves in the configuration; this holds also when
    rounding leaves the cumulative sum below the draw.  With [TopK = 1] the
    choice is the first candidate of the sorted table whatever is drawn. *)
Theorem sampling_within_topk `{Extern} :
  (∀ (d : DiffusionModel) probs r v r',
     pickMasked d probs r = Some (v, r') →
     ∃ cands, maskedCandidates d probs = Some cands
       ∧ sortDesc cands ≡ₚ cands ∧ descending (sortDesc cands)
       ∧ v ∈ map fst (take (Z.to_nat (TopK (Config d))) (sortDesc cands))
       ∧ (TopK (Config d) = 1 → Some v = fst <$> head (sortDesc cands)))
  ∧ (∀ cands xcur i (w : World) x' w',
       betterDraw cands xcur i w = Some (x', w') →
       ∃ v, x' = <[i := v]> xcur
         ∧ 1 ≤ TopK (Config (model w')) ≤ Z.of_nat (length cands)
         ∧ v ∈ map fst (take (Z.to_nat (TopK (Config (model w')))) cands)
         ∧ (TopK (Config (model w')) = 1 → Some v = fst <$> head cands)).
Proof.
  split.
  - intros d probs r v r' Hrun.
    apply pickMasked_within in Hrun as (cands & Hc & _ & Hin).
    exists cands. split; [exact Hc|]. split; [apply sortDesc_perm|].
    split; [apply sortDesc_descending|]. split; [exact Hin|].
    intros H1. rewrite H1 in Hin. now apply head_of_take_one.
  - intros cands xcur i w x' w' Hrun.
    apply betterDraw_within in Hrun as (v & Hx & Hk & Hin).
    exists v. split; [exact Hx|]. split; [exact Hk|]. split; [exact Hin|].
    intros H1. rewrite H1 in Hin. now apply head_of_take_one.
Qed.

Lemma sampling_within_topk_witness :
  ∃ v r', pickMasked (H := tableExtern) (withTopK demoModel 1)
                     [1 # 10; 0; 0; 1 # 5; 3 # 5; 1 # 10]%Q demoRand
          = Some (v, r')
          ∧ v = 4.
Proof.
  destruct (pickMasked (H := tableExtern) (withTopK demoModel 1)
                       [1 # 10; 0; 0; 1 # 5; 3 # 5; 1 # 10]%Q demoRand)
    as [[v r']|] eqn:Hrun; [|vm_compute in Hrun; discriminate].
  exists v, r'. split; [reflexivity|].
  destruct (proj1 (sampling_within_topk (H := tableExtern)) _ _ _ _ _ Hrun)
    as (cands & Hc & _ & _ & _ & Hone).
  specialize (Hone eq_refl). vm_compute in Hc. injection Hc as <-.
  vm_compute in Hone. now injection Hone as ->.
Defined.

(** ** Samples the trainers cannot take *)

Lemma forEach_poison {σ St X} (P : σ → Prop) (body : St → X → ST σ St)
    (l : list X) (x : X) :
  x ∈ l → (∀ s y, preserves P (body s y)) →
  (∀ s st, P st → body s x st = None) →
  ∀ s st, P st → forEach body s l st = None.
Proof.
  intros Hin Hpres Hx. induction l as [|y l IH]; intros s st Hst.
  - now apply elem_of_nil in Hin.
  - simpl. unfold bind. destruct (body s y st) as [[s1 st1]|] eqn:Hb;
      [|reflexivity].
    apply elem_of_cons in Hin as [->|Hin].
    + rewrite Hx in Hb by exact Hst. discriminate.
    + apply IH; [exact Hin|]. eapply Hpres; eauto.
Qed.

Lemma forEachO_poison {St X} (body : St → X → option St) (l : list X)
    (x : X) :
  x ∈ l → (∀ s, body s x = None) → ∀ s, forEachO body s l = None.
Proof.
  intros Hin Hx. induction l as [|y l IH]; intros s.
  - now apply elem_of_nil in Hin.
  - simpl. destruct (body s y) as [s1|] eqn:Hb; [|reflexivity]. simpl.
    apply elem_of_cons in Hin as [->|Hin]; [congruence | now apply IH].
Qed.

Section Overlong.
Context `{Extern}.

Lemma betterSample_overlong (x0 : list Z) (lr : Q) (w : World) :
  MaxLength (Config (model w)) < Z.of_nat (length x0) →
  betterSample x0 lr w = None.
Proof.
  intros Hlong. unfold betterSample.
  rewrite (bind_run _ _ w (model w) w eq_refl).
  destruct (liftR (randIntn (NumTimesteps (Config (model w)))) w)
    as [[t w1]|] eqn:Ht; [|now apply bind_None_l].
  rewrite (bind_run _ _ _ _ _ Ht).
  destruct (liftR (BetterAddNoise (model w) x0 t) w1) as [[xt w2]|] eqn:Hxt;
    [|now apply bind_None_l].
  rewrite (bind_run _ _ _ _ _ Hxt).
  apply liftR_Some in Hxt as (r2 & Hxt & _).
  apply BetterAddNoise_maskedFrom in Hxt as [Hlen _].
  unfold makeSlice.
  destruct (MaxLength (Config (model w)) <? 0) eqn:E; [reflexivity|].
  apply Z.ltb_ge in E. rewrite bind_liftO_Some, length_replicate.
  replace (length xt <=? Z.to_nat (MaxLength (Config (model w))))%nat
    with false by (symmetry; apply Nat.leb_gt; lia).
  reflexivity.
Qed.

Lemma TrainBetterDiffusion_overlong (samples : list (list Z))
    (x0 : list Z) (w : World) :
  1 ≤ Epochs (Config (model w)) → x0 ∈ samples →
  MaxLength (Config (model w)) < Z.of_nat (length x0) →
  TrainBetterDiffusion samples w = None.
Proof.
  intros He Hin Hlong. unfold TrainBetterDiffusion.
  rewrite (bind_run _ _ w (model w) w eq_refl).
  apply bind_None_l. unfold forRange.
  replace (Z.to_nat (Epochs (Config (model w))))
    with (S (Z.to_nat (Epochs (Config (model w))) - 1)) by lia.
  cbn [seq forEach]. apply bind_None_l.
  destruct (randShuffle_perm samples (rand w)) as (data & r1 & Hsh & Hperm).
  rewrite (bind_run _ _ _ _ _ (liftR_run _ w _ _ Hsh)).
  apply bind_None_l.
  apply (forEach_poison
           (hasConfig (Config (model w)) (MaskFraction (model w))) _ data x0).
  - now rewrite Hperm.
  - intros s y. apply preserves_bind; [apply preserves_betterSample|].
    intros a. apply preserves_ret.
  - intros s st [Hc _]. apply bind_None_l. apply betterSample_overlong.
    now rewrite Hc.
  - now split.
Qed.
End Overlong.

(** X26.  [TrainBetterDiffusion] cannot take a sample longer than
    [MaxLength]: with at least one epoch, a sample of more than [MaxLength]
    tokens anywhere in the data makes the run panic (the one-hot rows are
    written into a slice of [MaxLength] rows), whatever the network and the
    random source do. *)
Theorem TrainBetterDiffusion_overlong_panics `{Extern}
    (samples : list (list Z)) (x0 : list Z) (w : World) :
  1 ≤ Epochs (Config (model w)) → x0 ∈ samples →
  MaxLength (Config (model w)) < Z.of_nat (length x0) →
  TrainBetterDiffusion samples w = None.
Proof. apply TrainBetterDiffusion_overlong. Qed.

Lemma TrainBetterDiffusion_overlong_panics_witness :
  1 ≤ Epochs (Config demoModel)
  ∧ [4; 5; 4; 5; 4] ∈ [[4; 5; 0; 0]; [4; 5; 4; 5; 4]]
  ∧ MaxLength (Config demoModel) < Z.of_nat (length [4; 5; 4; 5; 4])
  ∧ TrainBetterDiffusion (H := tableExtern) [[4; 5; 0; 0]; [4; 5; 4; 5; 4]]
                         (mkWorld demoModel demoRand) = None.
Proof.
  assert (He : 1 ≤ Epochs (Config demoModel)) by (vm_compute; discriminate).
  assert (Hin : [4; 5; 4; 5; 4] ∈ [[4; 5; 0; 0]; [4; 5; 4; 5; 4]])
    by set_solver.
  assert (Hl : MaxLength (Config demoModel) < Z.of_nat (length [4; 5; 4; 5; 4]))
    by (vm_compute; reflexivity).
  split; [exact He|]. split; [exact Hin|]. split; [exact Hl|].
  exact (TrainBetterDiffusion_overlong_panics (H := tableExtern) _ _
           (mkWorld demoModel demoRand) He Hin Hl).
Defined.

Section Mismatch.
Context `{Extern}.

Lemma AddNoiseMasked_length (d : DiffusionModel) tokens tVal r noisy r' :
  AddNoiseMasked d tokens tVal r = Some (noisy, r') →
  0 ≤ MaxLength (Config d)
  ∧ length noisy = Z.to_nat (MaxLength (Config d)).
Proof.
  intros Hrun. destruct (Z.lt_ge_cases (MaxLength (Config d)) 0) as [Hneg|Hpos].
  - unfold AddNoiseMasked in Hrun.
    rewrite fitTokens_negative in Hrun by exact Hneg. discriminate.
  - split; [exact Hpos|]. rewrite AddNoiseMasked_run in Hrun by exact Hpos.
    injection Hrun as <- _. now rewrite length_imap, length_padTo.
Qed.

Lemma maskedTask_mismatch (d : DiffusionModel) tokenizer dConfig tConfig
    (batch : list (list Z)) idx r :
  MaxLength (Config d) ≠ MaxLength dConfig → batch ≠ [] →
  maskedTask d tokenizer dConfig tConfig batch idx r = None.
Proof.
  intros Hne Hbatch.
  destruct (maskedTask d tokenizer dConfig tConfig batch idx r)
    as [[res0 r0]|] eqn:Hrun; [exfalso | reflexivity].
  unfold maskedTask in Hrun.
  apply bind_Some in Hrun as (noised & r1 & Hnoise & Hrun).
  apply bind_Some in Hrun as (res & r2 & Hres & _).
  apply liftO_Some in Hres as [Hres _].
  apply (forEach_collect
           (fun (_ : list Z) (y : list Z * list Q) =>
              length y.1 = Z.to_nat (MaxLength (Config d))
              ∧ 0 ≤ MaxLength (Config d) ≤ MaxLength dConfig))
    in Hnoise as (ys & Hys & Hall).
  2:{ intros acc x st acc1 st1 Hb.
      apply bind_Some in Hb as (tVal & s1 & _ & Hb).
      apply bind_Some in Hb as (noisy & s2 & Hn & Hb).
      apply AddNoiseMasked_length in Hn as [Hpos Hlen].
      apply bind_Some in Hb as (i0 & s3 & Hi0 & Hb).
      apply liftO_Some in Hi0 as [Hi0 _]. unfold makeSlice in Hi0.
      destruct (MaxLength dConfig <? 0) eqn:E; [discriminate|].
      apply Z.ltb_ge in E. injection Hi0 as <-.
      apply bind_Some in Hb as (i1 & s4 & Hi1 & Hb).
      apply liftO_Some in Hi1 as [Hi1 _]. rewrite length_replicate in Hi1.
      destruct (length noisy <=? Z.to_nat (MaxLength dConfig))%nat eqn:E2;
        [|discriminate].
      apply Nat.leb_le in E2.
      apply ret_Some in Hb as [-> _]. eexists. split; [reflexivity|].
      simpl. split; [exact Hlen | lia]. }
  simpl in Hys. subst ys.
  destruct batch as [|tokens batch]; [congruence|].
  inversion Hall as [|? [noisy input] ? ys (Hlen & Hpos) Hrest]; subst.
  simpl in Hlen. unfold maskedLoss in Hres. cbn [map zip zip_with forEachO] in Hres.
  destruct (makeSlice (MaxLength dConfig * TVocabSize tConfig) 0%Q)
    as [terms|]; [|discriminate].
  cbn [mbind option_bind] in Hres.
  rewrite (forEachO_poison _ _ (Z.to_nat (MaxLength (Config d)))) in Hres.
  - discriminate.
  - apply elem_of_seq. lia.
  - intros s. unfold maskedLossStep.
    now rewrite (proj2 (lookup_ge_None noisy _)) by lia.
Qed.

Lemma trainMaskedDiffusion_mismatch (sentences : list string) tokenizer
    dConfig tConfig schedule (w : World) :
  1 ≤ Epochs dConfig → sentences ≠ [] →
  MaxLength (Config (model w)) ≠ MaxLength dConfig →
  trainMaskedDiffusion sentences tokenizer dConfig tConfig schedule w = None.
Proof.
  intros He Hs Hne. unfold trainMaskedDiffusion, forRange.
  replace (Z.to_nat (Epochs dConfig))
    with (S (Z.to_nat (Epochs dConfig) - 1)) by lia.
  cbn [seq forEach]. apply bind_None_l. unfold maskedEpoch.
  destruct (prepare tokenizer (MaxLength dConfig) sentences) as [data|] eqn:Hd;
    [|reflexivity].
  rewrite bind_liftO_Some.
  destruct (mapM _ sentences) as [acc|]; [|reflexivity].
  rewrite bind_liftO_Some.
  rewrite (bind_run _ _ w (model w) w eq_refl).
  apply bind_None_l. unfold liftR, runTasks.
  assert (Hlen : length data = length sentences).
  { unfold prepare in Hd. now apply mapM_length in Hd. }
  destruct data as [|row data]; [destruct sentences; [congruence|discriminate]|].
  unfold batchesOf. cbn [length]. rewrite batchesFrom_cons.
  cbn [imap forEach]. unfold bind at 1. unfold bind at 1.
  rewrite maskedTask_mismatch; [reflexivity | exact Hne|].
  pose proof batchSize_ten as Hbs. rewrite Hbs. discriminate.
Qed.
End Mismatch.

(** X27.  [trainMaskedDiffusion] takes the maximum length twice, in the
    model (read by [AddNoiseMasked]) and in its argument [dConfig] (read by
    the task for its input and loss loops), and it needs them equal: when
    they differ, with at least one epoch and one sentence, the first task
    panics, for a longer model sequence while filling its input and for a
    shorter one while reading the noised tokens. *)
Theorem trainMaskedDiffusion_mismatch_panics `{Extern}
    (sentences : list string) (tokenizer : CustomTokenizer)
    (dConfig : DiffusionConfig) (tConfig : TransformerConfig)
    (schedule : nat → list nat * list nat) (w : World) :
  1 ≤ Epochs dConfig → sentences ≠ [] →
  MaxLength (Config (model w)) ≠ MaxLength dConfig →
  (∀ batch idx r, batch ≠ [] →
     maskedTask (model w) tokenizer dConfig tConfig batch idx r = None)
  ∧ trainMaskedDiffusion sentences tokenizer dConfig tConfig schedule w = None.
Proof.
  intros He Hs Hne. split.
  - intros batch idx r Hb. now apply maskedTask_mismatch.
  - now apply trainMaskedDiffusion_mismatch.
Qed.

Lemma trainMaskedDiffusion_mismatch_panics_witness :
  let dConfig := mkConfig 5 3 (1 # 100) 3 1 2 (1 # 5) (4 # 5) in
  1 ≤ Epochs dConfig
  ∧ ["hello world"%string] ≠ []
  ∧ MaxLength (Config demoModel) ≠ MaxLength dConfig
  ∧ trainMaskedDiffusion (H := tableExtern) ["hello world"%string]
      (Tokenizer demoModel) dConfig (mkTransformerConfig 6)
      (fun _ => ([0%nat], [0%nat])) (mkWorld demoModel demoRand) = None.
Proof.
  intros dConfig.
  assert (He : 1 ≤ Epochs dConfig) by (vm_compute; discriminate).
  assert (Hs : ["hello world"%string] ≠ []) by discriminate.
  assert (Hne : MaxLength (Config (model (mkWorld demoModel demoRand)))
                ≠ MaxLength dConfig) by (vm_compute; discriminate).
  split; [exact He|]. split; [exact Hs|]. split; [exact Hne|].
  exact (proj2 (trainMaskedDiffusion_mismatch_panics (H := tableExtern)
                  ["hello world"%string] (Tokenizer demoModel) dConfig
                  (mkTransformerConfig 6) (fun _ => ([0%nat], [0%nat]))
                  (mkWorld demoModel demoRand) He Hs Hne)).
Defined.

(** ** The arg-max scan of [Generate] *)

Lemma argMax_scan (probs : list Q) (l : list nat) (best : Z * Q)
    (n : nat) :
  l = seq n (length l) → (n + length l ≤ length probs)%nat →
  (0 ≤ best.1 < Z.of_nat n ∧ probs !! Z.to_nat best.1 = Some best.2
   ∧ (∀ j q, (j < n)%nat → probs !! j = Some q → (q <= best.2)%Q)
   ∧ (∀ j q, Z.of_nat j < best.1 → probs !! j = Some q → (q < best.2)%Q)) →
  let res := foldl (fun best m =>
                      match probs !! m with
                      | Some p => if fltb best.2 p then (Z.of_nat m, p) else best
                      | None => best
                      end) best l in
  0 ≤ res.1 < Z.of_nat (n + length l)
  ∧ probs !! Z.to_nat res.1 = Some res.2
  ∧ (∀ j q, (j < n + length l)%nat → probs !! j = Some q → (q <= res.2)%Q)
  ∧ (∀ j q, Z.of_nat j < res.1 → probs !! j = Some q → (q < res.2)%Q).
Proof.
  revert best n. induction l as [|m l IH]; intros best n Hl Hlen Hb.
  - simpl. rewrite Nat.add_0_r. exact Hb.
  - cbn [length seq] in Hl. injection Hl as -> Hl. cbn [length] in Hlen.
    destruct Hb as (Hr & Hat & Hmax & Hfirst).
    destruct (lookup_lt_is_Some_2 probs n ltac:(lia)) as [p Hp].
    cbn [foldl]. rewrite Hp.
    replace (n + length (n :: l))%nat with (S n + length l)%nat
      by (cbn [length]; lia).
    apply IH; [exact Hl | lia|].
    destruct (fltb best.2 p) eqn:E.
    + apply fltb_true in E. simpl. split; [lia|].
      split; [now rewrite Nat2Z.id|]. split.
      * intros j q Hj Hq. destruct (decide (j = n)) as [->|Hne].
        -- rewrite Hp in Hq. injection Hq as ->. lra.
        -- specialize (Hmax j q ltac:(lia) Hq). lra.
      * intros j q Hj Hq. specialize (Hmax j q ltac:(lia) Hq). lra.
    + apply fltb_false in E. split; [lia|]. split; [exact Hat|]. split.
      * intros j q Hj Hq. destruct (decide (j = n)) as [->|Hne].
        -- rewrite Hp in Hq. now injection Hq as ->.
        -- apply (Hmax j q); [lia | exact Hq].
      * exact Hfirst.
Qed.

(** X28.  The arg-max scan of [Generate] panics on an empty row and
    otherwise returns the first position of the largest probability: no
    entry is larger than the one it points at, and every entry before it is
    strictly smaller. *)
Theorem argMax_first_largest (probs : list Q) :
  (probs = [] → argMax probs = None)
  ∧ (probs ≠ [] →
     ∃ v p, argMax probs = Some v
       ∧ 0 ≤ v < Z.of_nat (length probs)
       ∧ probs !! Z.to_nat v = Some p
       ∧ (∀ j q, probs !! j = Some q → (q <= p)%Q)
       ∧ (∀ j q, Z.of_nat j < v → probs !! j = Some q → (q < p)%Q)).
Proof.
  split; [now intros ->|]. intros Hne.
  destruct probs as [|p0 rest] eqn:Hprobs; [congruence|]. rewrite <- Hprobs.
  assert (Hlen : (1 ≤ length probs)%nat) by (rewrite Hprobs; simpl; lia).
  assert (Hp0 : probs !! 0%nat = Some p0) by now rewrite Hprobs.
  unfold argMax. rewrite Hp0. simpl.
  pose proof (argMax_scan probs (seq 1 (length probs - 1)) (0, p0) 1) as Hscan.
  rewrite length_seq in Hscan.
  specialize (Hscan eq_refl ltac:(lia)).
  destruct Hscan as (Hr & Hat & Hmax & Hfirst).
  { simpl. split; [lia|]. split; [exact Hp0|]. split.
    - intros j q Hj Hq. replace j with 0%nat in Hq by lia.
      rewrite Hp0 in Hq. injection Hq as ->. lra.
    - intros j q Hj. lia. }
  eexists _, _. split; [reflexivity|].
  replace (1 + (length probs - 1))%nat with (length probs) in * by lia.
  split; [exact Hr|]. split; [exact Hat|]. split; [|exact Hfirst].
  intros j q Hq. apply (Hmax j q); [|exact Hq].
  eapply lookup_lt_Some, Hq.
Qed.

Lemma argMax_first_largest_witness :
  [1 # 5; 2 # 5; 1 # 10; 2 # 5]%Q ≠ []
  ∧ argMax [1 # 5; 2 # 5; 1 # 10; 2 # 5]%Q = Some 1.
Proof.
  split; [discriminate|].
  destruct (proj2 (argMax_first_largest
                     [1 # 5; 2 # 5; 1 # 10; 2 # 5]%Q) ltac:(discriminate))
    as (v & p & Hv & _).
  rewrite Hv. vm_compute in Hv. now symmetry.
Defined.

(** ** The sample of [trainMaskedDiffusion] *)

Section TrainerSample.
Context `{Extern}.

Lemma GenerateMasked_unclamped (d : DiffusionModel) (r : RandSrc) :
  1 ≤ MaxLength (Config d) → 1 ≤ NumTimesteps (Config d) →
  TopK (Config d) < 1 ∨ VocabSize (Tokenizer d) < TopK (Config d) →
  GenerateMasked d r = None.
Proof.
  intros HL HT Hk. unfold GenerateMasked. apply bind_None_l.
  unfold GenerateMaskedTokens.
  rewrite makeSlice_total by lia. rewrite bind_liftO_Some.
  apply bind_None_l.
  replace (Z.to_nat (NumTimesteps (Config d)))
    with (S (Z.to_nat (NumTimesteps (Config d)) - 1)) by lia.
  cbn [forDown]. apply bind_None_l.
  destruct (MaxLength (Config d)) as [|n|n] eqn:EL; try lia.
  change (Z.to_nat (Z.pos n)) with (Pos.to_nat n).
  now apply maskedStep_unclamped.
Qed.

Lemma maskedEpoch_sample_panics sentences tokenizer dConfig tConfig
    lossOrder termsOrder (w : World) :
  1 ≤ MaxLength (Config (model w)) → 1 ≤ NumTimesteps (Config (model w)) →
  TopK (Config (model w)) < 1
  ∨ VocabSize (Tokenizer (model w)) < TopK (Config (model w)) →
  maskedEpoch sentences tokenizer dConfig tConfig lossOrder termsOrder 0 w
  = None.
Proof.
  intros HL HT Hk. unfold maskedEpoch.
  destruct (prepare tokenizer (MaxLength dConfig) sentences) as [data|];
    [|reflexivity].
  rewrite bind_liftO_Some.
  destruct (mapM _ sentences) as [acc|]; [|reflexivity].
  rewrite bind_liftO_Some.
  rewrite (bind_run _ _ w (model w) w eq_refl).
  destruct (liftR (runTasks (model w) tokenizer dConfig tConfig data) w)
    as [[sent w1]|] eqn:Hsent; [|now apply bind_None_l].
  rewrite (bind_run _ _ _ _ _ Hsent).
  apply liftR_Some in Hsent as (r1 & _ & ->).
  destruct (mapM (fun b => fst <$> sent !! b) lossOrder) as [lossChan|];
    [|reflexivity].
  rewrite bind_liftO_Some.
  destruct (mapM (fun b => snd <$> sent !! b) termsOrder) as [chan|];
    [|reflexivity].
  rewrite bind_liftO_Some.
  match goal with
  | |- (_ <- networkBackward ?e ?lr ;; _) ?w0 = None =>
      rewrite (bind_run _ _ w0 tt
                 (mkWorld (withNetwork (model w0)
                             (Backward (Network (model w0)) e lr))
                          (rand w0)) eq_refl)
  end.
  change (0 mod 10 =? 0)%nat with true. cbv iota.
  match goal with
  | |- (_ <- getModel ;; _) ?w0 = None =>
      rewrite (bind_run _ _ w0 (model w0) w0 eq_refl)
  end.
  apply bind_None_l. unfold liftR. cbn [model rand].
  now rewrite GenerateMasked_unclamped.
Qed.
End TrainerSample.

(** X29.  The missing clamp of [GenerateMasked] reaches the trainer:
    [trainMaskedDiffusion] generates a sample at the end of its first epoch,
    so on a model with at least one position and one step whose [TopK] is
    below 1 or above [VocabSize] it panics for every corpus, before the
    second epoch starts. *)
Theorem trainMaskedDiffusion_sample_panics `{Extern}
    (sentences : list string) (tokenizer : CustomTokenizer)
    (dConfig : DiffusionConfig) (tConfig : TransformerConfig)
    (schedule : nat → list nat * list nat) (w : World) :
  1 ≤ Epochs dConfig →
  1 ≤ MaxLength (Config (model w)) → 1 ≤ NumTimesteps (Config (model w)) →
  TopK (Config (model w)) < 1
  ∨ VocabSize (Tokenizer (model w)) < TopK (Config (model w)) →
  trainMaskedDiffusion sentences tokenizer dConfig tConfig schedule w = None.
Proof.
  intros He HL HT Hk. unfold trainMaskedDiffusion, forRange.
  replace (Z.to_nat (Epochs dConfig))
    with (S (Z.to_nat (Epochs dConfig) - 1)) by lia.
  cbn [seq forEach]. apply bind_None_l.
  now apply maskedEpoch_sample_panics.
Qed.

Lemma trainMaskedDiffusion_sample_panics_witness :
  let w := mkWorld (withTopK demoModel 7) demoRand in
  1 ≤ Epochs demoConfig
  ∧ 1 ≤ MaxLength (Config (model w)) ∧ 1 ≤ NumTimesteps (Config (model w))
  ∧ (TopK (Config (model w)) < 1
     ∨ VocabSize (Tokenizer (model w)) < TopK (Config (model w)))
  ∧ trainMaskedDiffusion (H := tableExtern) ["hello world"%string]
      (Tokenizer demoModel) demoConfig (mkTransformerConfig 6)
      (fun _ => ([0%nat], [0%nat])) w = None.
Proof.
  intros w.
  assert (He : 1 ≤ Epochs demoConfig) by (vm_compute; discriminate).
  assert (HL : 1 ≤ MaxLength (Config (model w))) by (vm_compute; discriminate).
  assert (HT : 1 ≤ NumTimesteps (Config (model w)))
    by (vm_compute; discriminate).
  assert (Hk : TopK (Config (model w)) < 1
               ∨ VocabSize (Tokenizer (model w)) < TopK (Config (model w)))
    by (right; vm_compute; reflexivity).
  split; [exact He|]. split; [exact HL|]. split; [exact HT|].
  split; [exact Hk|].
  exact (trainMaskedDiffusion_sample_panics (H := tableExtern) _ _ _ _ _ w
           He HL HT Hk).
Defined.

(** ** [Train] cannot panic on text *)

Lemma forEach_total {σ St X} (I : σ → Prop) (body : St → X → ST σ St)
    (l : list X) :
  (∀ s x st, x ∈ l → I st → ∃ s' st', body s x st = Some (s', st') ∧ I st') →
  ∀ s st, I st → ∃ s' st', forEach body s l st = Some (s', st') ∧ I st'.
Proof.
  induction l as [|x l IH]; intros Hbody s st Hst.
  - exists s, st. split; [reflexivity | exact Hst].
  - destruct (Hbody s x st ltac:(now left) Hst) as (s1 & st1 & Hb & H1).
    destruct (IH ltac:(intros; apply Hbody; [now right | assumption]) s1 st1 H1)
      as (s2 & st2 & Hrun & H2).
    exists s2, st2. simpl. rewrite (bind_run _ _ _ _ _ Hb). now split.
Qed.

Lemma forEachO_total {St X} (body : St → X → option St) (l : list X) :
  (∀ s x, x ∈ l → is_Some (body s x)) → ∀ s, is_Some (forEachO body s l).
Proof.
  induction l as [|x l IH]; intros Hbody s; [simpl; eauto|].
  simpl. destruct (Hbody s x ltac:(now left)) as [s1 ->]. simpl.
  apply IH. intros s2 y Hy. apply Hbody. now right.
Qed.

Lemma Encode_inVocab (corpus : list string) (text : string) :
  Forall (inVocab (NewCustomTokenizer corpus))
         (Encode (NewCustomTokenizer corpus) text).
Proof.
  pose proof (NewCustomTokenizer_inv corpus) as Hinv.
  unfold Encode. pose proof (Fields_ToLower_lowered text) as Hlow.
  induction Hlow as [|w ws Hw _ IH]; simpl; constructor; [|exact IH].
  pose proof (pad_is_zero _ _ Hinv) as Hpad.
  destruct Hinv as (H4 & _ & _ & Hv). simpl in H4.
  destruct (Vocab (NewCustomTokenizer corpus) !! w) as [id|] eqn:Hid.
  - destruct (Hv _ _ Hid) as (Hr & _). simpl in Hr. exact Hr.
  - rewrite Hpad. unfold inVocab. lia.
Qed.

Lemma prepare_run (corpus : list string) (maxLength : Z)
    (sentences : list string) :
  0 ≤ maxLength →
  ∃ data, prepare (NewCustomTokenizer corpus) maxLength sentences = Some data
    ∧ Forall (λ row, length row = Z.to_nat maxLength
                     ∧ Forall (inVocab (NewCustomTokenizer corpus)) row) data.
Proof.
  intros HL. eexists. split.
  - unfold prepare. apply mapM_map_Some. intros s. now apply fitTokens_padTo.
  - apply Forall_forall. intros row Hrow.
    apply list_elem_of_fmap in Hrow as (s & -> & _).
    split; [apply length_padTo|]. apply padTo_ids; [|apply Encode_inVocab].
    pose proof (NewCustomTokenizer_inv corpus) as Hinv.
    rewrite (pad_is_zero _ _ Hinv). destruct Hinv as (H4 & _).
    simpl in H4. unfold inVocab. lia.
Qed.

Section TrainTotal.
Context `{Extern}.
Variables (good : NetworkT → Prop) (c : DiffusionConfig)
          (tok : CustomTokenizer).
Hypothesis Softmax_length : ∀ l, length (Softmax l) = length l.
Hypothesis HL : 0 ≤ MaxLength c.
Hypothesis HT : 1 ≤ NumTimesteps c.
Hypothesis Hback : keptByBackward good.
Hypothesis Hrows : answersRows good tok (MaxLength c).

Lemma logProb_total (row : list Q) (target : Z) :
  VocabSize tok ≤ Z.of_nat (length row) → inVocab tok target →
  is_Some (logProb (Softmax row) target).
Proof.
  intros Hrow [Ht0 HtV]. unfold logProb, atZ, index.
  destruct (target <? 0) eqn:E; [lia|]. simpl.
  destruct (lookup_lt_is_Some_2 (Softmax row) (Z.to_nat target)) as [p ->].
  { rewrite Softmax_length. lia. }
  simpl. eauto.
Qed.

Lemma trainSample_total (tokens : list Z) (lr : Q) (w : World) :
  trains good c tok w → length tokens = Z.to_nat (MaxLength c) →
  Forall (inVocab tok) tokens →
  ∃ res w', trainSample tokens lr w = Some (res, w') ∧ trains good c tok w'.
Proof.
  intros (Hg & Hc & Htok) Hlen Hall. unfold trainSample.
  rewrite (bind_run _ _ w (model w) w eq_refl). rewrite Hc.
  destruct (randIntn_total (NumTimesteps c) (rand w) ltac:(lia))
    as (t & r1 & Ht).
  rewrite (bind_run _ _ _ _ _ (liftR_run _ w _ _ Ht)).
  assert (HLm : 0 ≤ MaxLength (Config (model w))) by now rewrite Hc.
  pose proof (AddNoise_run (model w) tokens t r1 HLm) as Hnoise.
  cbv zeta in Hnoise.
  rewrite (bind_run _ _ _ _ _
             (liftR_run _ (mkWorld (model w) r1) _ _ Hnoise)).
  set (noisy := imap _ _).
  set (output := ForwardTransformer (Network (model w)) [map ofInt noisy]).
  assert (Hout : ∀ i, (i < Z.to_nat (MaxLength c))%nat →
            ∃ row target, output !! i = Some row
              ∧ VocabSize tok ≤ Z.of_nat (length row)
              ∧ tokens !! i = Some target ∧ inVocab tok target).
  { intros i Hi.
    destruct (Hrows (Network (model w)) [map ofInt noisy] i Hg Hi)
      as (row & Hrow & Hrl).
    destruct (lookup_lt_is_Some_2 tokens i ltac:(lia)) as [target Htg].
    exists row, target. split; [exact Hrow|]. split; [exact Hrl|].
    split; [exact Htg|]. eapply Forall_lookup_1; eauto. }
  match goal with
  | |- context [liftO (forEachO ?body ?s0 ?l)] =>
      destruct (forEachO_total body l) with (s := s0) as [loss Hloss]
  end.
  { intros s i Hi. apply elem_of_seq in Hi.
    destruct (Hout i ltac:(lia)) as (row & target & -> & Hrl & -> & Htg).
    simpl. destruct (logProb_total row target Hrl Htg) as [lp ->].
    simpl. eauto. }
  rewrite Hloss, bind_liftO_Some.
  match goal with
  | |- context [liftO (mapM ?f ?l)] =>
      destruct (mapM f l) as [errorTerms|] eqn:Het
  end.
  2:{ exfalso. apply eq_None_not_Some in Het. apply Het.
      apply mapM_is_Some, Forall_forall. intros i Hi.
      apply elem_of_seq in Hi. unfold compose.
      destruct (Hout i ltac:(lia)) as (row & target & -> & _ & -> & _).
      simpl. destruct (length (Softmax row) =? 0)%nat; simpl; eauto. }
  rewrite bind_liftO_Some.
  eexists _, _. split; [reflexivity|].
  split; [|split]; simpl; [now apply Hback | exact Hc | exact Htok].
Qed.

Lemma Train_total (corpus sentences : list string) (w : World) :
  trains good c tok w → tok = NewCustomTokenizer corpus →
  ∃ w', Train sentences w = Some (tt, w') ∧ trains good c tok w'.
Proof.
  intros Hw Hcorpus. pose proof Hw as (Hg & Hc & Htok). unfold Train.
  rewrite (bind_run _ _ w (model w) w eq_refl). rewrite Hc, Htok, Hcorpus.
  destruct (prepare_run corpus (MaxLength c) sentences HL)
    as (data & Hdata & Hrowsok).
  rewrite Hdata, bind_liftO_Some. rewrite <- Hcorpus in *.
  match goal with
  | |- context [forRange ?n ?body tt] =>
      destruct (forRange_total (fun _ (_ : unit) w0 => trains good c tok w0)
                  body n) with (s := tt) (st := w) as ([] & w' & Hrun & Hw')
  end.
  - intros epoch [] w0 _ Hw0.
    match goal with
    | |- context [forEach ?body 0%Q data] =>
        destruct (forEach_total (trains good c tok) body data)
          with (s := 0%Q) (st := w0) as (loss & w1 & Hrun & Hw1)
    end.
    + intros s tokens st Hin Hst.
      rewrite Forall_forall in Hrowsok.
      destruct (Hrowsok tokens Hin) as [Hlen Hall].
      destruct (trainSample_total tokens
                  (LearningRate c * (1 - ofLen epoch / ofInt (Epochs c)))%Q
                  st Hst Hlen Hall) as (res & w1 & Hs & Hw1).
      rewrite (bind_run _ _ _ _ _ Hs). eexists _, _.
      split; [reflexivity | exact Hw1].
    + exact Hw0.
    + rewrite (bind_run _ _ _ _ _ Hrun). eexists _, _.
      split; [reflexivity | exact Hw1].
  - exact Hw.
  - exists w'. split; [exact Hrun | exact Hw'].
Qed.
End TrainTotal.

(** X30.  [Train] cannot panic on any text: on a model whose tokenizer was
    built by the constructor, with [MaxLength] not negative and at least one
    step, with a [Softmax] that keeps the length of its row and networks
    (the given one and those [Backward] returns) that answer with at least
    [MaxLength] rows of at least [VocabSize] logits, it runs all its epochs
    for every list of sentences, leaving the configuration as it was. *)
Theorem Train_completes `{Extern} (good : NetworkT → Prop)
    (corpus sentences : list string) (w : World) :
  (∀ l, length (Softmax l) = length l) →
  keptByBackward good →
  answersRows good (Tokenizer (model w)) (MaxLength (Config (model w))) →
  good (Network (model w)) →
  Tokenizer (model w) = NewCustomTokenizer corpus →
  0 ≤ MaxLength (Config (model w)) →
  1 ≤ NumTimesteps (Config (model w)) →
  ∃ w', Train sentences w = Some (tt, w')
        ∧ Config (model w') = Config (model w)
        ∧ good (Network (model w')).
Proof.
  intros Hsm Hback Hrows Hg Htok HL HT.
  destruct (Train_total good (Config (model w)) (Tokenizer (model w))
              Hsm HL HT Hback Hrows corpus sentences w)
    as (w' & Hrun & Hg' & Hc' & _).
  - now repeat split.
  - exact Htok.
  - exists w'. now split.
Qed.

Lemma Train_completes_witness :
  ∃ w', Train (H := tableExtern) ["Hello there world"; "world"]%string
              (mkWorld denseModel demoRand) = Some (tt, w')
        ∧ Config (model w') = Config denseModel
        ∧ Network (model w') = replicate 4 (replicate 6 1%Q).
Proof.
  apply (Train_completes (H := tableExtern)
           (fun net => net = replicate 4 (replicate 6 1%Q))
           ["hello world"%string] ["Hello there world"; "world"]%string
           (mkWorld denseModel demoRand)).
  - exact normalise_length.
  - intros net e lr Hnet. exact Hnet.
  - intros net input i -> Hi. exists (replicate 6 1%Q). split.
    + change (replicate 4 (replicate 6 1%Q) !! i = Some (replicate 6 1%Q)).
      apply lookup_replicate_2. exact Hi.
    + vm_compute. discriminate.
  - reflexivity.
  - reflexivity.
  - vm_compute. discriminate.
  - vm_compute. discriminate.
Defined.

(** ** [TrainBetterDiffusion] cannot panic on samples that fit *)

Lemma forEachO_total_inv {St X} (I : St → Prop) (body : St → X → option St)
    (l : list X) :
  (∀ s x, x ∈ l → I s → ∃ s', body s x = Some s' ∧ I s') →
  ∀ s, I s → ∃ s', forEachO body s l = Some s' ∧ I s'.
Proof.
  induction l as [|x l IH]; intros Hbody s Hs.
  - exists s. split; [reflexivity | exact Hs].
  - destruct (Hbody s x ltac:(now left) Hs) as (s1 & Hb & H1).
    destruct (IH ltac:(intros; apply Hbody; [now right | assumption]) s1 H1)
      as (s2 & Hrun & H2).
    exists s2. simpl. rewrite Hb. simpl. now split.
Qed.

Section BetterTrainTotal.
Context `{Extern}.
Variables (good : NetworkT → Prop) (c : DiffusionConfig)
          (tok : CustomTokenizer) (mf : list Q).
Hypothesis Softmax_length : ∀ l, length (Softmax l) = length l.
Hypothesis HL : 0 ≤ MaxLength c.
Hypothesis HV : 0 ≤ VocabSize tok.
Hypothesis HT : 1 ≤ NumTimesteps c.
Hypothesis Hmf : NumTimesteps c ≤ Z.of_nat (length mf).
Hypothesis Hfrac : Forall (λ f, (f <= 1)%Q) mf.
Hypothesis Hback : keptByBackward good.
Hypothesis Hflat : answersFlatAll good tok (MaxLength c).

Lemma writeDeltas_total (probs : list Q) (target start : Z)
    (et : list Q) :
  length probs = Z.to_nat (VocabSize tok) → 0 ≤ start →
  (Z.to_nat start + Z.to_nat (VocabSize tok) ≤ length et)%nat →
  ∃ et1, writeDeltas probs target start (VocabSize tok) et = Some et1
         ∧ length et1 = length et.
Proof.
  intros Hp Hs Hfit. unfold writeDeltas, writeSegment.
  apply (forEachO_total_inv (fun et0 => length et0 = length et));
    [|reflexivity].
  intros et0 m Hm Hlen. apply elem_of_seq in Hm.
  destruct (lookup_lt_is_Some_2 probs m ltac:(lia)) as [p ->]. simpl.
  unfold index. destruct (start + Z.of_nat m <? 0) eqn:E; [lia|]. simpl.
  rewrite store_Some by lia. eexists. split; [reflexivity|].
  now rewrite length_insert.
Qed.

Lemma betterLoss_total (d : DiffusionModel) (x0 xt : list Z)
    (preds : list Q) :
  Config d = c → Tokenizer d = tok → fitsModel tok (MaxLength c) x0 →
  length xt = length x0 →
  MaxLength c * VocabSize tok ≤ Z.of_nat (length preds) →
  ∃ res, betterLoss d x0 xt preds = Some res
         ∧ length res.2 = Z.to_nat (MaxLength c * VocabSize tok).
Proof.
  intros Hc Htok [Hfit Hids] Hlen Hpreds. unfold betterLoss.
  rewrite Hc, Htok. rewrite makeSlice_total by nia. simpl.
  apply (forEachO_total_inv
           (fun acc : Q * list Q =>
              length acc.2 = Z.to_nat (MaxLength c * VocabSize tok))).
  2:{ simpl. apply length_replicate. }
  intros acc [i tk] Hin Hacc.
  apply elem_of_lookup_imap in Hin as (i' & tk' & [= -> ->] & Hi).
  apply lookup_lt_Some in Hi. unfold betterLossStep. rewrite Htok. simpl.
  destruct (tk' =? vocabAt tok "[MASK]"); [|eauto].
  rewrite sliceZ_total by nia. simpl.
  set (seg := take _ _).
  assert (Hseg : length seg = Z.to_nat (VocabSize tok)).
  { unfold seg. rewrite length_take, length_drop. nia. }
  destruct (lookup_lt_is_Some_2 x0 i' ltac:(lia)) as [target Htg].
  rewrite Htg. simpl.
  assert (Hin : inVocab tok target) by (eapply Forall_lookup_1; eauto).
  destruct Hin as [Ht0 HtV].
  unfold logProb, atZ, index. destruct (target <? 0) eqn:E; [lia|]. simpl.
  destruct (lookup_lt_is_Some_2 (Softmax seg) (Z.to_nat target)) as [p ->].
  { rewrite Softmax_length. lia. }
  simpl.
  destruct (writeDeltas_total (Softmax seg) target
              (Z.of_nat i' * VocabSize tok) acc.2) as (et1 & -> & Hl1).
  - now rewrite Softmax_length.
  - nia.
  - rewrite Hacc. nia.
  - simpl. eexists. split; [reflexivity|]. simpl. congruence.
Qed.

Lemma reshape_total (d : DiffusionModel) (errorTerms : list Q) :
  Config d = c → Tokenizer d = tok →
  length errorTerms = Z.to_nat (MaxLength c * VocabSize tok) →
  is_Some (reshape d errorTerms).
Proof.
  intros Hc Htok Hlen. unfold reshape. rewrite Hc, Htok.
  apply mapM_is_Some, Forall_forall. intros i Hi.
  apply elem_of_seq in Hi. unfold compose.
  rewrite sliceZ_total by nia. eauto.
Qed.

Lemma betterSample_total (x0 : list Z) (lr : Q) (w : World) :
  trainsMasked good c tok mf w → fitsModel tok (MaxLength c) x0 →
  ∃ res w', betterSample x0 lr w = Some (res, w')
            ∧ trainsMasked good c tok mf w'.
Proof.
  intros (Hg & Hc & Htok & Hm) Hfit. pose proof Hfit as [Hlen Hids].
  unfold betterSample.
  rewrite (bind_run _ _ w (model w) w eq_refl).
  destruct (randIntn_total (NumTimesteps (Config (model w))) (rand w))
    as (t & r1 & Ht); [rewrite Hc; lia|].
  rewrite (bind_run _ _ _ _ _ (liftR_run _ w _ _ Ht)).
  apply randIntn_range in Ht. rewrite Hc in Ht.
  destruct (lookup_lt_is_Some_2 mf (Z.to_nat t) ltac:(lia)) as [f Hf].
  destruct (BetterAddNoise_total (model w) x0 t f r1) as (xt & r2 & Hxt & Hxl).
  { rewrite Hm. unfold atZ, index. destruct (t <? 0) eqn:E; [lia|].
    simpl. exact Hf. }
  { exact (Forall_lookup_1 _ _ _ _ Hfrac Hf). }
  rewrite (bind_run _ _ _ _ _
             (liftR_run _ (mkWorld (model w) r1) _ _ Hxt)).
  rewrite Hc, Htok. rewrite (makeSlice_total (MaxLength c)) by exact HL.
  rewrite bind_liftO_Some, length_replicate.
  replace (length xt <=? Z.to_nat (MaxLength c))%nat with true
    by (symmetry; apply Nat.leb_le; lia).
  destruct (oneHot_total (VocabSize tok) xt HV) as [filled Hfilled].
  rewrite Hfilled, bind_liftO_Some.
  set (batchInput := filled ++ _).
  destruct (Hflat (Network (model w)) Hg batchInput) as (preds & Hp & Hpl).
  rewrite Hp, bind_liftO_Some.
  destruct (betterLoss_total (model w) x0 xt preds Hc Htok Hfit Hxl Hpl)
    as (res & Hres & Hrl).
  rewrite Hres, bind_liftO_Some.
  destruct (reshape_total (model w) res.2 Hc Htok Hrl) as [shaped Hsh].
  rewrite Hsh, bind_liftO_Some.
  eexists _, _. split; [reflexivity|].
  split; [|split; [|split]]; simpl;
    [now apply Hback | exact Hc | exact Htok | exact Hm].
Qed.

Lemma TrainBetterDiffusion_total (samples : list (list Z)) (w : World) :
  trainsMasked good c tok mf w →
  Forall (fitsModel tok (MaxLength c)) samples →
  ∃ w', TrainBetterDiffusion samples w = Some (tt, w')
        ∧ trainsMasked good c tok mf w'.
Proof.
  intros Hw Hall. unfold TrainBetterDiffusion.
  rewrite (bind_run _ _ w (model w) w eq_refl).
  match goal with
  | |- context [forRange ?n ?body samples] =>
      destruct (forRange_total
                  (fun _ (data : list (list Z)) w0 =>
                     trainsMasked good c tok mf w0
                     ∧ Forall (fitsModel tok (MaxLength c)) data)
                  body n) with (s := samples) (st := w)
        as (data & w' & Hrun & Hw' & _)
  end.
  - intros epoch data w0 _ [Hw0 Hd].
    destruct (randShuffle_perm data (rand w0)) as (data' & r1 & Hsh & Hperm).
    rewrite (bind_run _ _ _ _ _ (liftR_run _ w0 _ _ Hsh)).
    assert (Hd' : Forall (fitsModel tok (MaxLength c)) data')
      by now rewrite Hperm.
    match goal with
    | |- context [forEach ?body 0%Q data'] =>
        destruct (forEach_total (trainsMasked good c tok mf) body data')
          with (s := 0%Q) (st := mkWorld (model w0) r1)
          as (loss & w1 & Hrun & Hw1)
    end.
    + intros s x0 st Hin Hst. rewrite Forall_forall in Hd'.
      destruct (betterSample_total x0
                  (LearningRate (Config (model w))
                   * (1 - ofLen epoch / ofInt (Epochs (Config (model w)))))%Q
                  st Hst (Hd' x0 Hin)) as (res & w1 & Hs & Hw1).
      rewrite (bind_run _ _ _ _ _ Hs). eexists _, _.
      split; [reflexivity | exact Hw1].
    + exact Hw0.
    + rewrite (bind_run _ _ _ _ _ Hrun). eexists _, _.
      split; [reflexivity|]. split; [exact Hw1 | exact Hd'].
  - split; [exact Hw | exact Hall].
  - rewrite (bind_run _ _ _ _ _ Hrun). exists w'. split; [reflexivity|].
    exact Hw'.
Qed.
End BetterTrainTotal.

(** X9.  [TrainBetterDiffusion] cannot panic on samples that fit the model:
    when every sample has at most [MaxLength] tokens, all ids of the
    vocabulary, the schedule table has an entry of at most 1 for every step,
    there is at least one step, [Softmax] keeps the length of its row, and
    the networks (the given one and those [Backward] returns) answer with at
    least [MaxLength * VocabSize] logits, it runs all its epochs and leaves
    the configuration and the schedule table as they were. *)
Theorem TrainBetterDiffusion_completes `{Extern} (good : NetworkT → Prop)
    (samples : list (list Z)) (w : World) :
  (∀ l, length (Softmax l) = length l) →
  keptByBackward good →
  answersFlatAll good (Tokenizer (model w)) (MaxLength (Config (model w))) →
  good (Network (model w)) →
  0 ≤ MaxLength (Config (model w)) → 0 ≤ VocabSize (Tokenizer (model w)) →
  1 ≤ NumTimesteps (Config (model w)) →
  NumTimesteps (Config (model w))
  ≤ Z.of_nat (length (MaskFraction (model w))) →
  Forall (λ f, (f <= 1)%Q) (MaskFraction (model w)) →
  Forall (fitsModel (Tokenizer (model w)) (MaxLength (Config (model w))))
         samples →
  ∃ w', TrainBetterDiffusion samples w = Some (tt, w')
        ∧ Config (model w') = Config (model w)
        ∧ MaskFraction (model w') = MaskFraction (model w)
        ∧ good (Network (model w')).
Proof.
  intros Hsm Hback Hflat Hg HL HV HT Hmf Hfrac Hall.
  destruct (TrainBetterDiffusion_total good (Config (model w))
              (Tokenizer (model w)) (MaskFraction (model w))
              Hsm HL HV HT Hmf Hfrac Hback Hflat samples w)
    as (w' & Hrun & Hg' & Hc' & _ & Hm').
  - now repeat split.
  - exact Hall.
  - exists w'. now repeat split.
Qed.

Lemma TrainBetterDiffusion_completes_witness :
  ∃ w', TrainBetterDiffusion (H := tableExtern) [[4; 5; 0; 0]; [5; 4]]
                             (mkWorld demoModel demoRand) = Some (tt, w')
        ∧ Config (model w') = Config demoModel
        ∧ MaskFraction (model w') = MaskFraction demoModel
        ∧ Network (model w') = [replicate 24 1%Q].
Proof.
  apply (TrainBetterDiffusion_completes (H := tableExtern)
           (fun net => net = [replicate 24 1%Q])
           [[4; 5; 0; 0]; [5; 4]] (mkWorld demoModel demoRand)).
  - exact normalise_length.
  - intros net e lr Hnet. exact Hnet.
  - intros net -> input. exists (replicate 24 1%Q).
    split; [reflexivity | vm_compute; discriminate].
  - reflexivity.
  - vm_compute. discriminate.
  - vm_compute. discriminate.
  - vm_compute. discriminate.
  - vm_compute. discriminate.
  - vm_compute. repeat constructor; discriminate.
  - repeat constructor; vm_compute; try discriminate; reflexivity.
Defined.
